(** * Viterbi search over a time-indexed trellis (valhalla/meili/viterbi_search.h)

    A shallow embedding of the two search engines of
    [valhalla/meili/viterbi_search.h] and of the backward path iterator:

    - [NaiveViterbiSearch]: the column-by-column dynamic programme;
    - [ViterbiSearch]: the incremental best-first engine with its queue,
      scanned labels, unreached columns and earliest-time watermark;
    - [StateIterator]: the walk from a winner back to time 0.

    Conventions of the embedding.

    - [Time] and [StateId] are [uint32_t] in the source.  They are numbers of
      type [N] here; where the source stores a sum or a container size into a
      [Time] variable the truncation to 32 bits is written [u32].
    - A state of the host type [T] is seen by the engines through [id()] and
      [time()] only; a [const T*] is a [State], and a possibly null pointer
      is an [option State].
    - Costs are [double]/[float] in the source.  The engines only compare
      costs and hand them to the host's cost callbacks, so a cost is an
      element of the totally ordered type [cost]: the integers extended by
      the two infinities the naive engine uses as sentinels.
    - C++ exceptions are values of [exn]; a call that throws returns
      [Throw e] and its engine is not observed afterwards.  Indexing a
      vector out of range or dereferencing a null pointer is
      [undefined_behaviour]. *)

From Stdlib Require Import ZArith NArith Lia.
From stdpp Require Import base option list gmap.

Local Open Scope N_scope.

(** ** Times, identifiers and costs *)

Definition Time := N.
Definition StateId := N.

Definition kInvalidTime : Time := 4294967295.
Definition kInvalidStateId : StateId := 4294967295.

(** Truncation of a number to an unsigned 32-bit variable. *)
Definition u32 (n : N) : N := n mod 4294967296.

Inductive cost : Type :=
| NegInf
| Fin (z : Z)
| PosInf.

Definition cost_ltb (a b : cost) : bool :=
  match a, b with
  | NegInf, NegInf => false
  | NegInf, _ => true
  | Fin _, NegInf => false
  | Fin x, Fin y => (x <? y)%Z
  | Fin _, PosInf => true
  | PosInf, _ => false
  end.

Definition cost_eqb (a b : cost) : bool :=
  match a, b with
  | NegInf, NegInf => true
  | Fin x, Fin y => (x =? y)%Z
  | PosInf, PosInf => true
  | _, _ => false
  end.

Definition cost_leb (a b : cost) : bool := negb (cost_ltb b a).

(** Addition of costs, for the host cost models of the scenarios
    ([CostSofar = prev + transition + emission]); an infinity absorbs. *)
Definition cost_add (a b : cost) : cost :=
  match a, b with
  | Fin x, Fin y => Fin (x + y)
  | NegInf, _ | _, NegInf => NegInf
  | PosInf, _ | _, PosInf => PosInf
  end.

(** ** States and labels *)

Record State : Type := mkState { id : StateId; time : Time }.

Global Instance State_eq_dec : EqDecision State.
Proof. solve_decision. Defined.

(** [LabelTemplate<T>]: accumulated cost, state, predecessor (null when the
    label was built from an emission cost alone), with the two methods it
    implements for the queue. *)
Module LabelTemplate.

Record t : Type := mk {
  costsofar : cost;
  state : State;
  predecessor : option State
}.

Definition id (l : t) : StateId := id (state l).
Definition sortcost (l : t) : cost := costsofar l.

End LabelTemplate.

Abbreviation Label := LabelTemplate.t.

Global Instance cost_eq_dec : EqDecision cost.
Proof. solve_decision. Defined.

Global Instance Label_eq_dec : EqDecision Label.
Proof. solve_decision. Defined.

(** The id a (possibly null) state pointer reports to the caller:
    [p ? p->id() : kInvalidStateId]. *)
Definition id_or_invalid (p : option State) : StateId :=
  match p with
  | Some st => id st
  | None => kInvalidStateId
  end.

(** ** Exceptions and results *)

Inductive exn : Type :=
| no_successors_possible   (* logic_error: the state at time .. is impossible to have successors *)
| state_not_scanned        (* logic_error: the state must be scanned *)
| invalid_scanned_cost     (* logic_error: impossible to get invalid cost from scanned labels *)
| empty_states             (* runtime_error: empty states *)
| target_beyond_maximum    (* runtime_error: the target time is beyond the maximum allowed time *)
| optimality_violated      (* logic_error: the principle of optimality is violated *)
| state_not_in_column      (* logic_error: the state must exist in the column *)
| state_from_future        (* logic_error: found a state from the future time *)
| label_not_found          (* runtime_error: impossible that label not found *)
| assertion_failed         (* assert(...) *)
| undefined_behaviour      (* out-of-range index, null dereference *)
| out_of_fuel.             (* the bound of a modelled loop was exhausted *)

Inductive result (A : Type) : Type :=
| Ok (a : A)
| Throw (e : exn).
Arguments Ok {A} a.
Arguments Throw {A} e.

Global Instance result_ret : MRet result := fun A a => Ok a.
Global Instance result_bind : MBind result := fun A B k r =>
  match r with
  | Ok a => k a
  | Throw e => Throw e
  end.

(** ** The host's cost model

    The three pure virtual callbacks of [IViterbiSearch]. *)
Class CostModel : Type := {
  EmissionCost : State -> cost;
  TransitionCost : State -> State -> cost;
  CostSofar : cost -> cost -> cost -> cost
}.

(** ** The priority queue

    Modelled from the spec: [SPQueue] and [LabelInterface] live in
    [meili/priority_queue.h], which is not part of the sources at hand.  The
    specification describes a heap ordered by [Label.costsofar] with push,
    top, pop, empty and clear and with a deterministic tie-break.  The queue
    is the list of the labels it holds, in the order they were pushed;
    [pop] removes the first label of least [sortcost].  How [push] treats a
    label whose state already has a label in the queue is the one point the
    engine's behaviour depends on, so [push] is a parameter of the lazy
    engine; [heap_push] is the push of the specification. *)
Class SPQueue : Type := { push : Label -> list Label -> list Label }.

Fixpoint pop (q : list Label) : option (Label * list Label) :=
  match q with
  | [] => None
  | l :: q' =>
      match pop q' with
      | None => Some (l, [])
      | Some (m, r) =>
          if cost_ltb (LabelTemplate.sortcost m) (LabelTemplate.sortcost l) then Some (m, l :: r)
          else Some (l, q')
      end
  end.

Definition heap_push (l : Label) (q : list Label) : list Label := q ++ [l].

(** A queue that keeps one label per state id: a label for a state already
    queued replaces the queued one when it is strictly cheaper and is dropped
    otherwise.  This is the queue the engine is written for: its labels
    implement [LabelInterface<StateId>::id()], which only the queue can
    call, and the comments of [AddSuccessorsToQueue] and of the main loop
    expect no second label for a state (no worry about optimality). *)
Fixpoint keyed_push (l : Label) (q : list Label) : list Label :=
  match q with
  | [] => [l]
  | m :: q' =>
      if LabelTemplate.id m =? LabelTemplate.id l
      then (if cost_ltb (LabelTemplate.sortcost l) (LabelTemplate.sortcost m)
            then l :: q' else m :: q')
      else m :: keyed_push l q'
  end.

Definition HeapQueue : SPQueue := {| push := heap_push |}.
Definition KeyedQueue : SPQueue := {| push := keyed_push |}.

(** ** The lazy engine: [ViterbiSearch<T>] *)

Module ViterbiSearch.

Record t : Type := mk {
  state_ : list State;
  winner_ : list (option State);
  unreached_states_ : list (list State);
  queue_ : list Label;
  scanned_labels_ : gmap StateId Label;
  earliest_time_ : Time
}.

Definition set_winner (w : list (option State)) (s : t) : t :=
  mk (state_ s) w (unreached_states_ s) (queue_ s) (scanned_labels_ s) (earliest_time_ s).
Definition set_unreached (u : list (list State)) (s : t) : t :=
  mk (state_ s) (winner_ s) u (queue_ s) (scanned_labels_ s) (earliest_time_ s).
Definition set_queue (q : list Label) (s : t) : t :=
  mk (state_ s) (winner_ s) (unreached_states_ s) q (scanned_labels_ s) (earliest_time_ s).
Definition set_scanned (m : gmap StateId Label) (s : t) : t :=
  mk (state_ s) (winner_ s) (unreached_states_ s) (queue_ s) m (earliest_time_ s).
Definition set_earliest (e : Time) (s : t) : t :=
  mk (state_ s) (winner_ s) (unreached_states_ s) (queue_ s) (scanned_labels_ s) e.

(** The engine after its constructor ([earliest_time_(0)], every container
    empty) and after the host has stored the candidate states: [columns] is
    the content of [unreached_states_], one column per time, and [state_]
    is the table of all states. *)
Definition create (columns : list (list State)) : t :=
  mk (concat columns) [] columns [] ∅ 0.

(** [Clear()]. *)
Definition Clear (s : t) : t := mk [] [] [] [] ∅ 0.

(** [IsInvalidCost(cost)]: [cost < 0.f]. *)
Definition IsInvalidCost (c : cost) : bool := cost_ltb c (Fin 0).

(** [predecessor(id)]. *)
Definition predecessor (i : StateId) (s : t) : StateId :=
  match scanned_labels_ s !! i with
  | Some l => id_or_invalid (LabelTemplate.predecessor l)
  | None => kInvalidStateId
  end.

(** [AccumulatedCost(id)]; [-1.f] when the id has no scanned label. *)
Definition AccumulatedCost (i : StateId) (s : t) : cost :=
  match scanned_labels_ s !! i with
  | None => Fin (-1)
  | Some l => LabelTemplate.costsofar l
  end.

(** [state(id)]: [*state_[id]]. *)
Definition state (i : StateId) (s : t) : option State := state_ s !! N.to_nat i.

Section Search.
Context `{CostModel} `{SPQueue}.

(** The body of the loop of [InitQueue] for one state of the column: the
    label it pushes, if it pushes one. *)
Definition emission_label (st : State) : option Label :=
  let emission_cost := EmissionCost st in
  if IsInvalidCost emission_cost then None
  else Some (LabelTemplate.mk emission_cost st None).

(** The body of the loop of [AddSuccessorsToQueue] for one state
    [next_state] of the next column: the label it pushes, if it pushes
    one. *)
Definition successor_label (st : State) (costsofar : cost) (next_state : State)
  : option Label :=
  let emission_cost := EmissionCost next_state in
  if IsInvalidCost emission_cost then None
  else
    let transition_cost := TransitionCost st next_state in
    if IsInvalidCost transition_cost then None
    else
      let next_costsofar := CostSofar costsofar transition_cost emission_cost in
      if IsInvalidCost next_costsofar then None
      else Some (LabelTemplate.mk next_costsofar next_state (Some st)).

Definition push_some (q : list Label) (label : option Label) : list Label :=
  match label with
  | Some l => push l q
  | None => q
  end.

(** [InitQueue(column)]. *)
Definition InitQueue (column : list State) (s : t) : t :=
  set_queue (foldl (fun q st => push_some q (emission_label st)) [] column) s.

(** [AddSuccessorsToQueue(state)]. *)
Definition AddSuccessorsToQueue (st : State) (s : t) : result t :=
  if negb (u32 (time st + 1) <? N.of_nat (length (unreached_states_ s)))
  then Throw no_successors_possible
  else
    match scanned_labels_ s !! id st with
    | None => Throw state_not_scanned
    | Some l =>
        let costsofar := LabelTemplate.costsofar l in
        if IsInvalidCost costsofar then Throw invalid_scanned_cost
        else
          match unreached_states_ s !! N.to_nat (u32 (time st + 1)) with
          | None => Throw undefined_behaviour
          | Some column =>
              Ok (set_queue
                    (foldl (fun q next_state =>
                              push_some q (successor_label st costsofar next_state))
                           (queue_ s) column) s)
          end
    end.

(** The main loop of [IterativeSearch], block by block.  [label] is the
    label just taken from the queue, [st] its state. *)

(** "Mark it as scanned and remember its cost and predecessor". *)
Definition mark_scanned (label : Label) (s : t) : result t :=
  let i := id (LabelTemplate.state label) in
  match scanned_labels_ s !! i with
  | Some _ => Throw optimality_violated
  | None => Ok (set_scanned (<[i := label]> (scanned_labels_ s)) s)
  end.

(** "Remove it from its column", and raise [earliest_time_] when the
    column is empty afterwards. *)
Definition remove_from_column (st : State) (s : t) : result t :=
  match unreached_states_ s !! N.to_nat (time st) with
  | None => Throw undefined_behaviour
  | Some column =>
      match list_find (fun x => id st = id x) column with
      | None => Throw state_not_in_column
      | Some (k, _) =>
          let column := delete k column in
          let s := set_unreached (<[N.to_nat (time st) := column]> (unreached_states_ s)) s in
          match column with
          | [] => Ok (set_earliest (u32 (time st + 1)) s)
          | _ => Ok s
          end
      end
  end.

(** "If it's the first state that arrives at this column, mark it as the
    winner at this time". *)
Definition mark_winner (st : State) (s : t) : result t :=
  if N.of_nat (length (winner_ s)) <=? time st
  then if negb (time st =? N.of_nat (length (winner_ s)))
       then Throw state_from_future
       else Ok (set_winner (winner_ s ++ [Some st]) s)
  else Ok s.

(** One turn of the [while (!queue_.empty())] loop for the label [label]
    just taken from the queue (the queue of [s] no longer holds it).
    [Continue] stands for reaching the end of the loop body or its
    [continue], [Break] for its [break]. *)
Inductive turn : Type :=
| Continue (searched_time : Time) (s : t)
| Break (searched_time : Time) (s : t).

Definition turn_state (r : turn) : t :=
  match r with
  | Continue _ s | Break _ s => s
  end.

Definition turn_time (r : turn) : Time :=
  match r with
  | Continue searched_time _ | Break searched_time _ => searched_time
  end.

Definition scan (target searched_time : Time) (label : Label) (s : t) : result turn :=
  let st := LabelTemplate.state label in
  if time st <? earliest_time_ s then Ok (Continue searched_time s)
  else
    s ← mark_scanned label s;
    s ← remove_from_column st s;
    s ← mark_winner st s;
    let searched_time := N.max (time st) searched_time in
    if target <=? searched_time then Ok (Break searched_time s)
    else
      s ← AddSuccessorsToQueue st s;
      Ok (Continue searched_time s).

(** The loop itself.  Every turn either drops a label from the queue or
    takes a state out of its unreached column, so the loop ends; [fuel]
    bounds its turns (see [loop_fuel]). *)
Fixpoint search_loop (fuel : nat) (target searched_time : Time) (s : t)
  : result (Time * t) :=
  match fuel with
  | O => Throw out_of_fuel
  | S fuel =>
      match pop (queue_ s) with
      | None => Ok (searched_time, s)
      | Some (label, q) =>
          r ← scan target searched_time label (set_queue q s);
          match r with
          | Continue searched_time s => search_loop fuel target searched_time s
          | Break searched_time s => Ok (searched_time, s)
          end
      end
  end.

Definition unreached_count (s : t) : nat := length (concat (unreached_states_ s)).

Definition loop_fuel (s : t) : nat :=
  S (length (queue_ s) + unreached_count s * S (unreached_count s)).

(** [IterativeSearch(target, request_new_start)]. *)
Definition IterativeSearch (target : Time) (request_new_start : bool) (s : t)
  : result (Time * t) :=
  if N.of_nat (length (unreached_states_ s)) <=? target
  then (match unreached_states_ s with
        | [] => Throw empty_states
        | _ => Throw target_beyond_maximum
        end)
  else if target <? N.of_nat (length (winner_ s)) then Ok (target, s)
  else
    '(source, s) ←
      (if negb request_new_start && bool_decide (is_Some (mjoin (last (winner_ s))))
       then
         let source := u32 (N.of_nat (length (winner_ s)) - 1) in
         match winner_ s !! N.to_nat source with
         | Some (Some w) => s ← AddSuccessorsToQueue w s; Ok (source, s)
         | _ => Throw undefined_behaviour
         end
       else
         let source := u32 (N.of_nat (length (winner_ s))) in
         match unreached_states_ s !! N.to_nat source with
         | Some column => Ok (source, InitQueue column s)
         | None => Throw undefined_behaviour
         end);
    '(searched_time, s) ← search_loop (loop_fuel s) target source s;
    Ok (searched_time,
        set_winner (winner_ s ++
                    replicate (N.to_nat (searched_time + 1) - length (winner_ s)) None) s).

(** The [while (searched_time < target)] loop of [SearchWinner]: every
    restart lengthens [winner_], so [fuel] restarts are enough when [fuel]
    exceeds the number of columns. *)
Fixpoint restart_loop (fuel : nat) (target searched_time : Time) (s : t)
  : result (Time * t) :=
  if searched_time <? target then
    match fuel with
    | O => Throw out_of_fuel
    | S fuel =>
        '(searched_time, s) ← IterativeSearch target true s;
        restart_loop fuel target searched_time s
    end
  else Ok (searched_time, s).

(** [SearchWinner(time)]. *)
Definition SearchWinner (tm : Time) (s : t) : result (StateId * t) :=
  if tm <? N.of_nat (length (winner_ s))
  then match winner_ s !! N.to_nat tm with
       | Some w => Ok (id_or_invalid w, s)
       | None => Throw undefined_behaviour
       end
  else
    match unreached_states_ s with
    | [] => Ok (kInvalidStateId, s)
    | _ =>
        let max_allowed_time := u32 (N.of_nat (length (unreached_states_ s)) - 1) in
        let target := N.min tm max_allowed_time in
        '(searched_time, s) ← IterativeSearch target false s;
        '(_, s) ← restart_loop (S (length (unreached_states_ s))) target searched_time s;
        match winner_ s !! N.to_nat tm with
        | Some (Some w) => Ok (id w, s)
        | _ => Ok (kInvalidStateId, s)
        end
    end.

End Search.

End ViterbiSearch.

(** ** The naive engine: [NaiveViterbiSearch<T, Maximize>] *)

(** Modelled from the spec: [LabelInterface::operator<], which [std::min]
    and [std::max] use in [UpdateLabels], is declared in
    [meili/priority_queue.h], not part of the sources at hand.  Labels are
    ordered by [sortcost]; the specification leaves the order of two labels
    of equal cost to the implementation, so it is the parameter [tie_lt]. *)
Class LabelOrder : Type := { tie_lt : Label -> Label -> bool }.

Definition label_lt `{LabelOrder} (a b : Label) : bool :=
  cost_ltb (LabelTemplate.sortcost a) (LabelTemplate.sortcost b)
  || (cost_eqb (LabelTemplate.sortcost a) (LabelTemplate.sortcost b) && tie_lt a b).

(** [std::min(a, b)] and [std::max(a, b)]. *)
Definition std_min `{LabelOrder} (a b : Label) : Label := if label_lt b a then b else a.
Definition std_max `{LabelOrder} (a b : Label) : Label := if label_lt a b then b else a.

(** [std::min_element] and [std::max_element] with a comparator: the first
    of the least (greatest) elements, nothing on an empty range. *)
Definition min_element {A : Type} (lt : A -> A -> bool) (l : list A) : option A :=
  match l with
  | [] => None
  | x :: l => Some (foldl (fun smallest y => if lt y smallest then y else smallest) x l)
  end.

Definition max_element {A : Type} (lt : A -> A -> bool) (l : list A) : option A :=
  match l with
  | [] => None
  | x :: l => Some (foldl (fun largest y => if lt largest y then y else largest) x l)
  end.

Module NaiveViterbiSearch.

Record t : Type := mk {
  states_ : list (list State);
  state_ : list State;
  winner_ : list (option State);
  history_ : list (list Label)
}.

(** The engine after the host has stored the candidate states. *)
Definition create (columns : list (list State)) : t :=
  mk columns (concat columns) [] [].

(** [Clear()]. *)
Definition Clear (s : t) : t := mk [] [] [] [].

Section Search.
Context `{CostModel} `{LabelOrder} (Maximize : bool).

Definition kInvalidCost : cost := if Maximize then NegInf else PosInf.

(** [state(id)]: [*state_[id]]. *)
Definition state (i : StateId) (s : t) : result State :=
  match state_ s !! N.to_nat i with
  | Some st => Ok st
  | None => Throw undefined_behaviour
  end.

(** [label(state)]: linear search in the state's column of the history. *)
Definition label (st : State) (s : t) : result Label :=
  match history_ s !! N.to_nat (time st) with
  | None => Throw undefined_behaviour
  | Some labels =>
      match list_find (fun l => id (LabelTemplate.state l) = id st) labels with
      | Some (_, l) => Ok l
      | None => Throw label_not_found
      end
  end.

(** [AccumulatedCost(id)]. *)
Definition AccumulatedCost (i : StateId) (s : t) : result cost :=
  if negb (i =? kInvalidStateId)
  then st ← state i s; l ← label st s; Ok (LabelTemplate.costsofar l)
  else Ok kInvalidCost.

(** [predecessor(id)]. *)
Definition predecessor (i : StateId) (s : t) : result StateId :=
  if negb (i =? kInvalidStateId)
  then st ← state i s; l ← label st s; Ok (id_or_invalid (LabelTemplate.predecessor l))
  else Ok kInvalidStateId.

(** [InitLabels(column, use_emission_cost)]. *)
Definition InitLabels (column : list State) (use_emission_cost : bool) : list Label :=
  map (fun st =>
         let initial_cost := if use_emission_cost then EmissionCost st else kInvalidCost in
         LabelTemplate.mk initial_cost st None)
      column.

(** The body of the inner loop of [UpdateLabels]: the new value of [label]
    for the previous label [prev_label]. *)
Definition relax (prev_label label : Label) : Label :=
  let prev_state := LabelTemplate.state prev_label in
  let prev_costsofar := LabelTemplate.costsofar prev_label in
  let st := LabelTemplate.state label in
  let emission_cost := EmissionCost st in
  if cost_eqb kInvalidCost emission_cost then label
  else
    let transition_cost := TransitionCost prev_state st in
    if cost_eqb kInvalidCost transition_cost then label
    else
      let costsofar := CostSofar prev_costsofar transition_cost emission_cost in
      if cost_eqb kInvalidCost costsofar then label
      else if Maximize
           then std_max (LabelTemplate.mk costsofar st (Some prev_state)) label
           else std_min (LabelTemplate.mk costsofar st (Some prev_state)) label.

(** [UpdateLabels(labels, prev_labels)]. *)
Definition UpdateLabels (labels prev_labels : list Label) : list Label :=
  foldl (fun labels prev_label =>
           if cost_eqb kInvalidCost (LabelTemplate.costsofar prev_label) then labels
           else map (relax prev_label) labels)
        labels prev_labels.

(** [FindWinner(labels)]. *)
Definition FindWinner (labels : list Label) : option State :=
  let by_cost (left right : Label) :=
    cost_ltb (LabelTemplate.costsofar left) (LabelTemplate.costsofar right) in
  let it := if Maximize then max_element by_cost labels else min_element by_cost labels in
  match it with
  | None => None
  | Some l =>
      if cost_eqb (LabelTemplate.costsofar l) kInvalidCost then None
      else Some (LabelTemplate.state l)
  end.

(** The body of the [for] loop of [SearchWinner] for the column at [tm]. *)
Definition fill_column (tm : Time) (s : t) : result t :=
  match states_ s !! N.to_nat tm with
  | None => Throw undefined_behaviour
  | Some column =>
      labels ← (if tm =? 0 then Ok (InitLabels column true)
                else match last (history_ s) with
                     | Some prev_labels => Ok (UpdateLabels (InitLabels column false) prev_labels)
                     | None => Throw undefined_behaviour
                     end);
      let winner := FindWinner labels in
      let '(labels, winner) :=
        match winner with
        | None => if 0 <? tm
                  then let labels := InitLabels column true in (labels, FindWinner labels)
                  else (labels, winner)
        | Some _ => (labels, winner)
        end in
      Ok (mk (states_ s) (state_ s) (winner_ s ++ [winner]) (history_ s ++ [labels]))
  end.

(** The [for (Time time = winner_.size(); time <= target; ++time)] loop. *)
Fixpoint fill (fuel : nat) (tm target : Time) (s : t) : result t :=
  if tm <=? target then
    match fuel with
    | O => Throw out_of_fuel
    | S fuel => s ← fill_column tm s; fill fuel (u32 (tm + 1)) target s
    end
  else Ok s.

(** [SearchWinner(target)]. *)
Definition SearchWinner (target : Time) (s : t) : result (StateId * t) :=
  if N.of_nat (length (states_ s)) <=? target then Ok (kInvalidStateId, s)
  else if target <? N.of_nat (length (winner_ s))
  then match winner_ s !! N.to_nat target with
       | Some w => Ok (id_or_invalid w, s)
       | None => Throw undefined_behaviour
       end
  else
    s ← fill (S (N.to_nat target)) (u32 (N.of_nat (length (winner_ s)))) target s;
    match winner_ s !! N.to_nat target with
    | Some w => Ok (id_or_invalid w, s)
    | None => Throw undefined_behaviour
    end.

End Search.

End NaiveViterbiSearch.

(** ** The search interface and the path iterator *)

Module IViterbiSearch.

(** The virtual methods of [IViterbiSearch<T>] the iterator calls, for an
    engine whose state has type [E]. *)
Class ops (E : Type) : Type := {
  SearchWinner : Time -> E -> result (StateId * E);
  predecessor : StateId -> E -> result StateId;
  state : StateId -> E -> result State
}.

End IViterbiSearch.

Global Instance lazy_ops `{CostModel} `{SPQueue} : IViterbiSearch.ops ViterbiSearch.t := {|
  IViterbiSearch.SearchWinner := ViterbiSearch.SearchWinner;
  IViterbiSearch.predecessor := fun i s => Ok (ViterbiSearch.predecessor i s);
  IViterbiSearch.state := fun i s =>
    match ViterbiSearch.state i s with
    | Some st => Ok st
    | None => Throw undefined_behaviour
    end
|}.

Global Instance naive_ops `{CostModel} `{LabelOrder} (Maximize : bool)
  : IViterbiSearch.ops NaiveViterbiSearch.t := {|
  IViterbiSearch.SearchWinner := NaiveViterbiSearch.SearchWinner Maximize;
  IViterbiSearch.predecessor := NaiveViterbiSearch.predecessor;
  IViterbiSearch.state := NaiveViterbiSearch.state
|}.

Module StateIterator.

(** The iterator's [id_] and [time_]; its [vs_] is the engine the
    operations below are given. *)
Record t : Type := mk { id_ : StateId; time_ : Time }.

Definition is_end (it : t) : bool :=
  (id_ it =? kInvalidStateId) && (time_ it =? kInvalidTime).

Definition set_end : t := mk kInvalidStateId kInvalidTime.

Definition IsValid (it : t) : bool := negb (id_ it =? kInvalidStateId).

Section Iterator.
Context {E : Type} `{IViterbiSearch.ops E}.

(** [goback()], with its [assert]. *)
Definition goback (it : t) (e : E) : result (t * E) :=
  if 0 <? time_ it then
    i ← IViterbiSearch.predecessor (id_ it) e;
    let tm := time_ it - 1 in
    '(i, e) ← (if i =? kInvalidStateId then IViterbiSearch.SearchWinner tm e
               else Ok (i, e));
    holds ← (if i =? kInvalidStateId then Ok true
             else st ← IViterbiSearch.state i e; Ok (time st =? tm));
    if holds : bool then Ok (mk i tm, e) else Throw assertion_failed
  else Ok (set_end, e).

(** Prefix [operator++]. *)
Definition next (it : t) (e : E) : result (t * E) :=
  if negb (is_end it) then goback it e else Ok (it, e).

(** [SearchPath(time)]. *)
Definition SearchPath (tm : Time) (e : E) : result (t * E) :=
  '(i, e) ← IViterbiSearch.SearchWinner tm e;
  Ok (mk i tm, e).

(** [PathEnd()]. *)
Definition PathEnd : t := set_end.

(** The positions a caller visits with
    [for (it = SearchPath(time); it != PathEnd(); ++it)], in order.  The
    time of a position falls by one at every step, so [fuel] above the
    starting time is enough. *)
Fixpoint visit (fuel : nat) (it : t) (e : E) : result (list t * E) :=
  if is_end it then Ok ([], e)
  else
    match fuel with
    | O => Throw out_of_fuel
    | S fuel =>
        '(it', e) ← next it e;
        '(path, e) ← visit fuel it' e;
        Ok (it :: path, e)
    end.

Definition path (tm : Time) (e : E) : result (list t * E) :=
  '(it, e) ← SearchPath tm e;
  visit (S (S (N.to_nat tm))) it e.

End Iterator.

End StateIterator.

(** * The notions the properties are stated with *)

Section LazyFrameDefinitions.
Import ViterbiSearch.
Context `{CostModel} `{SPQueue}.

(** What no search operation changes: the winners already cached, the
    number of columns and the state table. *)
Definition extends (s s' : ViterbiSearch.t) : Prop :=
  winner_ s `prefix_of` winner_ s'
  /\ length (unreached_states_ s') = length (unreached_states_ s)
  /\ state_ s' = state_ s.

End LazyFrameDefinitions.

Section LazyRepeatDefinitions.
Import ViterbiSearch.
Context `{CostModel} `{SPQueue}.

(** The part of [SearchWinner] that runs when the cache has no entry for
    the queried time: the search up to the clamped target. *)
Definition advance (tm : Time) (s : ViterbiSearch.t) : result ViterbiSearch.t :=
  let target := N.min tm (u32 (N.of_nat (length (unreached_states_ s)) - 1)) in
  '(searched_time, s1) ← IterativeSearch target false s;
  '(_, s2) ← restart_loop (S (length (unreached_states_ s1))) target searched_time s1;
  Ok s2.

End LazyRepeatDefinitions.

Section NaiveFrameDefinitions.
Import NaiveViterbiSearch.
Context `{CostModel} `{LabelOrder} (Maximize : bool).

(** The labels [fill_column] keeps for a column, given the labels of the
    column before it ([None] at time 0). *)
Definition column_labels (column : list State) (prev_labels : option (list Label))
  : list Label :=
  match prev_labels with
  | None => InitLabels Maximize column true
  | Some prev_labels =>
      let relaxed := UpdateLabels Maximize (InitLabels Maximize column false) prev_labels in
      match FindWinner Maximize relaxed with
      | Some _ => relaxed
      | None => InitLabels Maximize column true
      end
  end.

(** What no query of the naive engine changes: the winners and the
    labels already kept, and the trellis. *)
Definition naive_extends (s s' : NaiveViterbiSearch.t) : Prop :=
  winner_ s `prefix_of` winner_ s'
  /\ history_ s `prefix_of` history_ s'
  /\ states_ s' = states_ s
  /\ state_ s' = state_ s.

End NaiveFrameDefinitions.

Section LazyBoundedDefinitions.
Import ViterbiSearch.
Context `{CostModel} `{SPQueue}.

(** The winner cache is no longer than the trellis. *)
Definition bounded (s : ViterbiSearch.t) : Prop :=
  (length (winner_ s) <= length (unreached_states_ s))%nat.

End LazyBoundedDefinitions.

Module Scenario.

(** [CostSofar = prev + transition + emission]. *)
Definition sum_costs (prev_costsofar transition_cost emission_cost : cost) : cost :=
  cost_add (cost_add prev_costsofar transition_cost) emission_cost.

(** Three columns [{a}], [{b}], [{c}]; emissions 0; no edge from [a] to
    [b]; an edge of cost 1 from [b] to [c]. *)
Definition a : State := mkState 0 0.
Definition b : State := mkState 1 1.
Definition c : State := mkState 2 2.

Definition breakage_costs : CostModel := {|
  EmissionCost := fun _ => Fin 0;
  TransitionCost := fun left right =>
    if (id left =? 1) && (id right =? 2) then Fin 1 else Fin (-1);
  CostSofar := sum_costs
|}.

Definition breakage : ViterbiSearch.t := ViterbiSearch.create [[a]; [b]; [c]].

(** The same columns; [b] has no valid emission and every edge costs 1. *)
Definition gap_costs : CostModel := {|
  EmissionCost := fun st => if id st =? 1 then Fin (-1) else Fin 0;
  TransitionCost := fun _ _ => Fin 1;
  CostSofar := sum_costs
|}.

(** The breakage trellis for the naive engine, whose invalid cost is an
    infinity: no edge from [a] to [b]. *)
Definition naive_breakage_costs : CostModel := {|
  EmissionCost := fun _ => Fin 0;
  TransitionCost := fun left right =>
    if (id left =? 1) && (id right =? 2) then Fin 1 else PosInf;
  CostSofar := sum_costs
|}.

(** Columns [{p, q}], [{r, s}], [{u}].  Emissions: 1 for [q], 0 for the
    others.  Every edge into [r] costs 2, every edge into [s] costs 10 and
    every edge into [u] costs 5.  The labels the lazy engine builds have
    pairwise different costs, so no tie-break matters. *)
Definition dup_p : State := mkState 0 0.
Definition dup_q : State := mkState 1 0.
Definition dup_r : State := mkState 2 1.
Definition dup_s : State := mkState 3 1.
Definition dup_u : State := mkState 4 2.

Definition duplicate_columns : list (list State) :=
  [[dup_p; dup_q]; [dup_r; dup_s]; [dup_u]].

Definition duplicate_costs : CostModel := {|
  EmissionCost := fun st => if id st =? 1 then Fin 1 else Fin 0;
  TransitionCost := fun _ right =>
    if id right =? 2 then Fin 2 else if id right =? 3 then Fin 10 else Fin 5;
  CostSofar := sum_costs
|}.

(** Labels of equal cost are not ordered further. *)
Definition no_tie_break : LabelOrder := {| tie_lt := fun _ _ => false |}.

End Scenario.

(** The iterator positions of a path, as (id, time) pairs. *)
Definition positions (path : list StateIterator.t) : list (StateId * Time) :=
  map (fun it => (StateIterator.id_ it, StateIterator.time_ it)) path.

(** What the lazy engine with the queue [Q] does on the breakage
    scenario: [SearchWinner(2)] returns [c]; the winner at time 1 is [b],
    settled with its emission cost alone; [predecessor(b)] is absent,
    [predecessor(c)] is [b]; and the path from time 2 visits [c], [b],
    [a]. *)
Definition breakage_outcome (Q : SPQueue) : Prop :=
  exists s : ViterbiSearch.t,
    @ViterbiSearch.SearchWinner Scenario.breakage_costs Q 2 Scenario.breakage
      = Ok (id Scenario.c, s)
    /\ ViterbiSearch.winner_ s !! 1%nat = Some (Some Scenario.b)
    /\ ViterbiSearch.AccumulatedCost (id Scenario.b) s
       = @EmissionCost Scenario.breakage_costs Scenario.b
    /\ ViterbiSearch.predecessor (id Scenario.b) s = kInvalidStateId
    /\ ViterbiSearch.predecessor (id Scenario.c) s = id Scenario.b
    /\ (exists path s',
          @StateIterator.path _ (@lazy_ops Scenario.breakage_costs Q) 2
            Scenario.breakage = Ok (path, s')
          /\ positions path
             = [(id Scenario.c, 2); (id Scenario.b, 1); (id Scenario.a, 0)]).

Section LazyEarliestDefinitions.
Import ViterbiSearch.
Context `{CostModel} `{SPQueue}.

(** The trellis has fewer columns than [Time] has values. *)
Definition columns_fit (s : ViterbiSearch.t) : Prop :=
  N.of_nat (length (unreached_states_ s)) < 4294967296.

End LazyEarliestDefinitions.

Section NaiveWinnerDefinitions.
Import NaiveViterbiSearch.
Context `{CostModel} `{LabelOrder} (Maximize : bool).

(** [a] is at least as good a cost as [b] for the engine's polarity. *)
Definition at_least_as_good (a b : cost) : bool :=
  if Maximize then cost_leb b a else cost_leb a b.

(** [l] is a label of valid cost that no label of valid cost beats. *)
Definition optimal_label (labels : list Label) (l : Label) : Prop :=
  l ∈ labels
  /\ LabelTemplate.costsofar l <> kInvalidCost Maximize
  /\ forall l', l' ∈ labels ->
                LabelTemplate.costsofar l' <> kInvalidCost Maximize ->
                at_least_as_good (LabelTemplate.costsofar l) (LabelTemplate.costsofar l') = true.

(** What [FindWinner] chooses from the labels of a column. *)
Definition winner_of (labels : list Label) (winner : option State) : Prop :=
  match winner with
  | Some st => exists l, optimal_label labels l /\ LabelTemplate.state l = st
  | None => forall l, l ∈ labels -> LabelTemplate.costsofar l = kInvalidCost Maximize
  end.

End NaiveWinnerDefinitions.

Section NaiveFillDefinitions.
Import NaiveViterbiSearch.
Context `{CostModel} `{LabelOrder} (Maximize : bool).

(** Column [k] of [s] has been filled the way [fill_column] does it. *)
Definition column_filled (s : NaiveViterbiSearch.t) (k : nat) : Prop :=
  exists column,
    states_ s !! k = Some column
    /\ (k = 0%nat \/ is_Some (history_ s !! pred k))
    /\ let labels :=
         column_labels Maximize column
           (match k with O => None | S k' => history_ s !! k' end) in
       history_ s !! k = Some labels
       /\ winner_ s !! k = Some (FindWinner Maximize labels).

End NaiveFillDefinitions.

(** What the engine's proofs ask of [push]: the queue holds nothing but
    what was pushed, grows by one label at most, and offers for every id
    that was pushed a label that is at most as expensive as the pushed
    one. *)
Class SPQueueLaws (Q : SPQueue) : Prop := {
  push_sound l q l' : l' ∈ push l q -> l' = l \/ l' ∈ q;
  push_length l q : (length (push l q) <= S (length q))%nat;
  push_adds l q :
    exists l', l' ∈ push l q
               /\ LabelTemplate.id l' = LabelTemplate.id l
               /\ cost_leb (LabelTemplate.sortcost l') (LabelTemplate.sortcost l) = true;
  push_keeps l q m :
    m ∈ q ->
    exists m', m' ∈ push l q
               /\ LabelTemplate.id m' = LabelTemplate.id m
               /\ cost_leb (LabelTemplate.sortcost m') (LabelTemplate.sortcost m) = true
}.

(** A queue that never holds two labels of one id. *)
Class SPQueueKeyed (Q : SPQueue) : Prop := {
  push_keyed l q :
    NoDup (LabelTemplate.id <$> q) -> NoDup (LabelTemplate.id <$> push l q)
}.

Section LazyInvariantDefinitions.
Import ViterbiSearch.

(** The table of states holds [st] under its id. *)
Definition in_table (s : ViterbiSearch.t) (st : State) : Prop :=
  state_ s !! N.to_nat (id st) = Some st.

(** [st] has been settled: it has a scanned label. *)
Definition settled (s : ViterbiSearch.t) (st : State) : Prop :=
  exists l, scanned_labels_ s !! id st = Some l /\ LabelTemplate.state l = st.

(** A label of the queue or of the scanned map: its state is a state of
    the trellis at a time the winner cache reaches, and its predecessor, if
    it has one, is a settled state of the column before. *)
Definition label_ok (s : ViterbiSearch.t) (l : Label) : Prop :=
  in_table s (LabelTemplate.state l)
  /\ time (LabelTemplate.state l) <= N.of_nat (length (winner_ s))
  /\ time (LabelTemplate.state l) < N.of_nat (length (unreached_states_ s))
  /\ forall p, LabelTemplate.predecessor l = Some p ->
               settled s p /\ in_table s p /\ time p + 1 = time (LabelTemplate.state l).

(** The structure of the lazy engine between two operations. *)
Record lazy_inv (s : ViterbiSearch.t) : Prop := {
  inv_ids : N.of_nat (length (state_ s)) <= 4294967295;
  inv_fit : columns_fit s;
  inv_bounded : bounded s;
  inv_unreached : forall k column st,
    unreached_states_ s !! k = Some column -> st ∈ column ->
    time st = N.of_nat k /\ in_table s st /\ scanned_labels_ s !! id st = None;
  inv_nodup : forall k column, unreached_states_ s !! k = Some column -> NoDup column;
  inv_scanned : forall i l,
    scanned_labels_ s !! i = Some l ->
    id (LabelTemplate.state l) = i
    /\ time (LabelTemplate.state l) < N.of_nat (length (winner_ s))
    /\ label_ok s l;
  inv_winner : forall k st,
    winner_ s !! k = Some (Some st) -> time st = N.of_nat k /\ settled s st;
  inv_queue : forall l, l ∈ queue_ s -> label_ok s l;
  inv_earliest :
    earliest_time_ s <= N.of_nat (length (winner_ s))
    /\ (0 < earliest_time_ s ->
        unreached_states_ s !! N.to_nat (earliest_time_ s - 1) = Some []);
  inv_partition : forall st,
    in_table s st -> time st < N.of_nat (length (unreached_states_ s)) ->
    (exists column, unreached_states_ s !! N.to_nat (time st) = Some column /\ st ∈ column)
    \/ settled s st
}.

(** A trellis as the host builds it: fewer columns than [Time] has
    values and fewer states than [StateId] has valid values, the id of a
    state is its index in the table, and the states of column [k] are at
    time [k]. *)
Definition wf_trellis (columns : list (list State)) : Prop :=
  N.of_nat (length (concat columns)) <= 4294967295
  /\ N.of_nat (length columns) < 4294967296
  /\ (forall k st, concat columns !! k = Some st -> id st = N.of_nat k)
  /\ (forall k column st, columns !! k = Some column -> st ∈ column -> time st = N.of_nat k).

(** From [s] to [s']: the same table and columns, a longer cache and
    more scanned labels. *)
Definition grows (s s' : ViterbiSearch.t) : Prop :=
  state_ s' = state_ s
  /\ length (unreached_states_ s') = length (unreached_states_ s)
  /\ (length (winner_ s) <= length (winner_ s'))%nat
  /\ scanned_labels_ s ⊆ scanned_labels_ s'.

End LazyInvariantDefinitions.

Section WalkDefinitions.
Context {E : Type} `{IViterbiSearch.ops E}.
Context (e : E) (t : Time) (winner_id : Time -> StateId).

(** The position [(i, k)] points at nothing or at a state of time [k]. *)
Definition good_position (i : StateId) (k : Time) : Prop :=
  i = kInvalidStateId
  \/ exists st, IViterbiSearch.state i e = Ok st /\ time st = k.

(** What the walk needs from the engine: the winners up to [t] are
    cached, so that asking for them changes nothing, and winners and
    predecessors point at states of the right time. *)
Definition walkable : Prop :=
  t < kInvalidTime
  /\ (forall k, k <= t ->
                IViterbiSearch.SearchWinner k e = Ok (winner_id k, e)
                /\ good_position (winner_id k) k)
  /\ (forall i k, good_position i k -> 0 < k -> k <= t ->
                  exists j, IViterbiSearch.predecessor i e = Ok j
                            /\ good_position j (k - 1)).

(** The id [goback] moves to from the position [(i, k)]. *)
Definition previous_id (i : StateId) (k : Time) : StateId :=
  match IViterbiSearch.predecessor i e with
  | Ok j => if j =? kInvalidStateId then winner_id (k - 1) else j
  | Throw _ => kInvalidStateId
  end.

(** The positions of the walk from [(i, k)] down to time [k - n]. *)
Fixpoint walk (n : nat) (i : StateId) (k : Time) : list StateIterator.t :=
  StateIterator.mk i k ::
  match n with
  | O => []
  | S n => walk n (previous_id i k) (k - 1)
  end.

End WalkDefinitions.

Section LazyReachableDefinitions.
Import ViterbiSearch.
Context `{CostModel} {Q : SPQueue}.

(** The engines a host reaches by storing a well-formed trellis and
    asking for winners. *)
Inductive reachable : ViterbiSearch.t -> Prop :=
| reachable_create columns : wf_trellis columns -> reachable (create columns)
| reachable_search tm s r s' :
    reachable s -> SearchWinner tm s = Ok (r, s') -> reachable s'.

(** The id the winner cache reports for a time. *)
Definition cached_winner (s : ViterbiSearch.t) (k : Time) : StateId :=
  id_or_invalid (mjoin (winner_ s !! N.to_nat k)).

End LazyReachableDefinitions.

(** [r] is a value that satisfies [P], or an exception other than the
    violation of optimality. *)
Definition safe {A : Type} (r : result A) (P : A -> Prop) : Prop :=
  match r with
  | Ok a => P a
  | Throw e => e <> optimality_violated
  end.

Section LazyKeyedDefinitions.
Import ViterbiSearch.
Context `{CostModel} {Q : SPQueue}.

(** The queue holds one label per id at most, and none for a state that
    has a scanned label. *)
Definition keyed_inv (s : ViterbiSearch.t) : Prop :=
  NoDup (LabelTemplate.id <$> queue_ s)
  /\ forall l, l ∈ queue_ s -> scanned_labels_ s !! LabelTemplate.id l = None.

End LazyKeyedDefinitions.

(** The precondition of the lazy engine on the cost model, for costs that
    are valid: [CostSofar] does not fall below the accumulated cost it is
    given, and it is monotone in that cost. *)
Definition dijkstra_costs (cm : CostModel) : Prop :=
  (forall x t e,
      ViterbiSearch.IsInvalidCost x = false ->
      ViterbiSearch.IsInvalidCost t = false ->
      ViterbiSearch.IsInvalidCost e = false ->
      cost_leb x (CostSofar x t e) = true)
  /\ (forall x y t e,
      ViterbiSearch.IsInvalidCost x = false ->
      ViterbiSearch.IsInvalidCost y = false ->
      ViterbiSearch.IsInvalidCost t = false ->
      ViterbiSearch.IsInvalidCost e = false ->
      cost_leb x y = true ->
      cost_leb (CostSofar x t e) (CostSofar y t e) = true).

Section PathsDefinitions.
Context `{CostModel}.

(** A cost the lazy engine does not take for its sentinel. *)
Definition valid_cost (c : cost) : Prop := ViterbiSearch.IsInvalidCost c = false.

(** [path_to table src y c]: the trellis with state table [table] has a
    path from some state of column [src] to [y], along states with valid
    emission cost and edges with valid transition cost, whose accumulated
    [CostSofar] is [c]. *)
Inductive path_to (table : list State) (src : Time) : State -> cost -> Prop :=
| path_start x :
    table !! N.to_nat (id x) = Some x ->
    time x = src ->
    valid_cost (EmissionCost x) ->
    path_to table src x (EmissionCost x)
| path_step x y c :
    path_to table src x c ->
    table !! N.to_nat (id y) = Some y ->
    time y = time x + 1 ->
    valid_cost (EmissionCost y) ->
    valid_cost (TransitionCost x y) ->
    path_to table src y (CostSofar c (TransitionCost x y) (EmissionCost y)).

(** [c] is the least cost of a path from column [src] to [y]. *)
Definition is_min_cost (table : list State) (src : Time) (y : State) (c : cost) : Prop :=
  path_to table src y c
  /\ forall c', path_to table src y c' -> cost_leb c c' = true.

(** No path from a state of time 0 reaches column [src] or a later
    one. *)
Definition breakage (table : list State) (src : Time) : Prop :=
  0 < src /\ forall z c, src <= time z -> ~ path_to table 0 z c.

(** Some path from column [src] ends in column [k]. *)
Definition reach (table : list State) (src k : Time) : Prop :=
  exists z c, path_to table src z c /\ time z = k.

(** [seg table k src]: the search that covers column [k] started at
    column [src].  The first search starts at column 0; a search goes on
    to the next column when one of its paths reaches it, and a new search
    starts at the next column otherwise. *)
Inductive seg (table : list State) : Time -> Time -> Prop :=
| seg_start : seg table 0 0
| seg_keep k src : seg table k src -> reach table src (k + 1) -> seg table (k + 1) src
| seg_new k src : seg table k src -> ~ reach table src (k + 1) -> seg table (k + 1) (k + 1).

(** [origin scanned l x0]: the chain of predecessors of the label [l]
    through the scanned labels ends at the state [x0], whose label has no
    predecessor. *)
Inductive origin (scanned : gmap StateId Label) : Label -> State -> Prop :=
| origin_here l :
    LabelTemplate.predecessor l = None -> origin scanned l (LabelTemplate.state l)
| origin_step l p lp x0 :
    LabelTemplate.predecessor l = Some p ->
    scanned !! id p = Some lp ->
    origin scanned lp x0 ->
    origin scanned l x0.

End PathsDefinitions.

Section DijkstraDefinitions.
Import ViterbiSearch.
Context `{CostModel} {Q : SPQueue}.

(** The scanned label [l] carries the least cost of a path to its state
    from the column where its chain of predecessors starts; a search
    started at that column. *)
Definition anchored (s : ViterbiSearch.t) (l : Label) : Prop :=
  exists x0,
    origin (scanned_labels_ s) l x0
    /\ is_min_cost (state_ s) (time x0) (LabelTemplate.state l) (LabelTemplate.costsofar l)
    /\ seg (state_ s) (time x0) (time x0).

(** The cached winner of column [k]: the settled state of the least cost
    among the paths from the start of the search that covers the column,
    or nothing when no such path arrives at the column. *)
Definition winner_ok (s : ViterbiSearch.t) (k : nat) (winner : option State) : Prop :=
  exists src,
    seg (state_ s) (N.of_nat k) src
    /\ match winner with
       | Some w =>
           exists lw,
             scanned_labels_ s !! id w = Some lw
             /\ path_to (state_ s) src w (LabelTemplate.costsofar lw)
             /\ forall z c,
                  path_to (state_ s) src z c -> time z = N.of_nat k ->
                  cost_leb (LabelTemplate.costsofar lw) c = true
       | None => ~ reach (state_ s) src (N.of_nat k)
       end.

(** The invariant of the search that was started at column [src].
    [pending] is the settled state whose successors have not been pushed
    yet: the state at which the main loop stopped. *)
Record dij_inv (src : Time) (pending : option State) (s : ViterbiSearch.t) : Prop := {
  d_settled : forall i l,
    scanned_labels_ s !! i = Some l ->
    valid_cost (LabelTemplate.costsofar l) /\ anchored s l;
  d_src :
    src <= N.of_nat (length (winner_ s))
    /\ seg (state_ s) src src;
  d_current : forall i l,
    scanned_labels_ s !! i = Some l ->
    src <= time (LabelTemplate.state l) ->
    (exists x0, origin (scanned_labels_ s) l x0 /\ time x0 = src)
    /\ is_min_cost (state_ s) src (LabelTemplate.state l) (LabelTemplate.costsofar l);
  d_queue : forall l,
    l ∈ queue_ s ->
    src <= time (LabelTemplate.state l)
    /\ path_to (state_ s) src (LabelTemplate.state l) (LabelTemplate.costsofar l)
    /\ (LabelTemplate.predecessor l = None -> time (LabelTemplate.state l) = src)
    /\ (forall p, LabelTemplate.predecessor l = Some p -> src <= time p);
  d_frontier : forall x lx column y,
    scanned_labels_ s !! id x = Some lx ->
    LabelTemplate.state lx = x ->
    src <= time x ->
    pending <> Some x ->
    unreached_states_ s !! N.to_nat (time x + 1) = Some column ->
    y ∈ column ->
    earliest_time_ s <= time y ->
    valid_cost (EmissionCost y) ->
    valid_cost (TransitionCost x y) ->
    exists l, l ∈ queue_ s
              /\ LabelTemplate.id l = id y
              /\ cost_leb (LabelTemplate.costsofar l)
                   (CostSofar (LabelTemplate.costsofar lx) (TransitionCost x y)
                      (EmissionCost y)) = true;
  d_source : forall column y,
    earliest_time_ s <= src ->
    unreached_states_ s !! N.to_nat src = Some column ->
    y ∈ column ->
    valid_cost (EmissionCost y) ->
    exists l, l ∈ queue_ s
              /\ LabelTemplate.id l = id y
              /\ cost_leb (LabelTemplate.costsofar l) (EmissionCost y) = true;
  d_order : forall i lx l,
    scanned_labels_ s !! i = Some lx ->
    src <= time (LabelTemplate.state lx) ->
    l ∈ queue_ s ->
    cost_leb (LabelTemplate.costsofar lx) (LabelTemplate.costsofar l) = true;
  d_pending : forall y,
    pending = Some y ->
    exists ly,
      scanned_labels_ s !! id y = Some ly
      /\ LabelTemplate.state ly = y
      /\ src <= time y
      /\ forall i lx,
           scanned_labels_ s !! i = Some lx ->
           src <= time (LabelTemplate.state lx) ->
           cost_leb (LabelTemplate.costsofar lx) (LabelTemplate.costsofar ly) = true;
  d_reach : forall k,
    src < k -> k < N.of_nat (length (winner_ s)) -> reach (state_ s) src k;
  d_winners : forall k winner,
    winner_ s !! k = Some winner -> winner_ok s k winner
}.

(** The queue ran empty: every path from the source of the search has
    been followed. *)
Definition drained (s : ViterbiSearch.t) : Prop :=
  queue_ s = []
  /\ ((winner_ s = [] /\ scanned_labels_ s = ∅) \/ exists src, dij_inv src None s).

(** The engine between two queries: the queue ran empty and the last
    column searched has no winner, or the search stopped at the winner of
    the last column. *)
Definition between_queries (s : ViterbiSearch.t) : Prop :=
  (drained s /\ mjoin (last (winner_ s)) = None)
  \/ exists src y, mjoin (last (winner_ s)) = Some y /\ dij_inv src (Some y) s.

End DijkstraDefinitions.

Section LazyTotalDefinitions.
Import ViterbiSearch.
Context `{CostModel} {Q : SPQueue}.

(** No label of the queue or of the scanned map has an invalid cost. *)
Definition costs_valid (s : ViterbiSearch.t) : Prop :=
  (forall l, l ∈ queue_ s -> IsInvalidCost (LabelTemplate.costsofar l) = false)
  /\ (forall i l, scanned_labels_ s !! i = Some l ->
                  IsInvalidCost (LabelTemplate.costsofar l) = false).

(** What bounds the turns of the main loop that are left. *)
Definition turns_left (s : ViterbiSearch.t) : nat :=
  length (queue_ s) + unreached_count s * S (unreached_count s).

End LazyTotalDefinitions.

(** A cost that neither engine takes for its sentinel. *)
Definition finite_cost (c : cost) : Prop := exists z, c = Fin z /\ (0 <= z)%Z.

(** The cost models both engines read the same way: no emission or
    transition cost is the sentinel of an engine (negative for the lazy
    one, an infinity for the naive one), and [CostSofar] of such costs is
    such a cost. *)
Definition accepted_by_both (cm : CostModel) : Prop :=
  (forall st, finite_cost (EmissionCost st))
  /\ (forall x y, finite_cost (TransitionCost x y))
  /\ (forall c t e,
         finite_cost c -> finite_cost t -> finite_cost e -> finite_cost (CostSofar c t e)).

Section NaiveLeastDefinitions.
Import NaiveViterbiSearch.
Context `{CostModel} `{LabelOrder}.

(** The label of the naive engine for a state [src] columns after the
    start of the search: the sentinel when no path leads to the state, the
    least cost of a path otherwise. *)
Definition naive_label_ok (table : list State) (src : Time) (l : Label) : Prop :=
  (LabelTemplate.costsofar l = PosInf
   /\ forall c, ~ path_to table src (LabelTemplate.state l) c)
  \/ is_min_cost table src (LabelTemplate.state l) (LabelTemplate.costsofar l).

(** The cost of the step from the label [p] to the state [st]. *)
Definition step_cost (p : Label) (st : State) : cost :=
  CostSofar (LabelTemplate.costsofar p) (TransitionCost (LabelTemplate.state p) st)
    (EmissionCost st).

(** [l] has been relaxed by the labels [prev] of the column before. *)
Definition relaxed_by (prev : list Label) (l : Label) : Prop :=
  (LabelTemplate.costsofar l = PosInf
   \/ exists p, p ∈ prev
                /\ LabelTemplate.costsofar p <> PosInf
                /\ LabelTemplate.costsofar l = step_cost p (LabelTemplate.state l))
  /\ forall p, p ∈ prev -> LabelTemplate.costsofar p <> PosInf ->
               cost_leb (LabelTemplate.costsofar l) (step_cost p (LabelTemplate.state l))
               = true.

End NaiveLeastDefinitions.

Section NaiveColumnsDefinitions.
Import NaiveViterbiSearch.
Context `{CostModel} `{LabelOrder}.
Context (columns : list (list State)).

(** The labels the naive engine keeps for column [k]: one per state of
    the column, each with the least cost of a path from the start of the
    search that covers the column. *)
Definition naive_column_ok (n : NaiveViterbiSearch.t) (k : nat) : Prop :=
  exists src column labels,
    seg (concat columns) (N.of_nat k) src
    /\ columns !! k = Some column
    /\ history_ n !! k = Some labels
    /\ LabelTemplate.state <$> labels = column
    /\ Forall (naive_label_ok (concat columns) src) labels.

End NaiveColumnsDefinitions.

(** The lazy engines a host reaches on the trellis [columns]. *)
Inductive lazy_trace `{CostModel} {Q : SPQueue} (columns : list (list State))
  : ViterbiSearch.t -> Prop :=
| lazy_trace_create : lazy_trace columns (ViterbiSearch.create columns)
| lazy_trace_search tm s r s' :
    lazy_trace columns s -> ViterbiSearch.SearchWinner tm s = Ok (r, s') ->
    lazy_trace columns s'.

(** The naive engines, with minimization, a host reaches on the trellis
    [columns]. *)
Inductive naive_trace `{CostModel} `{LabelOrder} (columns : list (list State))
  : NaiveViterbiSearch.t -> Prop :=
| naive_trace_create : naive_trace columns (NaiveViterbiSearch.create columns)
| naive_trace_search tm n r n' :
    naive_trace columns n -> NaiveViterbiSearch.SearchWinner false tm n = Ok (r, n') ->
    naive_trace columns n'.

Section NaiveTraceDefinitions.
Import NaiveViterbiSearch.
Context `{CostModel} `{LabelOrder}.

(** What the naive engine keeps between two queries. *)
Definition naive_inv (columns : list (list State)) (n : NaiveViterbiSearch.t) : Prop :=
  states_ n = columns
  /\ state_ n = concat columns
  /\ length (history_ n) = length (winner_ n)
  /\ forall k, (k < length (winner_ n))%nat -> column_filled false n k.

End NaiveTraceDefinitions.

(** ** Notions of the further properties *)

(** [r] is a value that satisfies [P], or the violation of optimality. *)
Definition answers {A : Type} (r : result A) (P : A -> Prop) : Prop :=
  match r with
  | Ok a => P a
  | Throw e => e = optimality_violated
  end.

Section LinksDefinitions.
Context `{CostModel}.

(** The cost of the label [l] is built from the cost of the scanned label
    of its predecessor along an edge of valid cost, or it is the valid
    emission cost of its state when it has no predecessor. *)
Definition linked (scanned : gmap StateId Label) (l : Label) : Prop :=
  ViterbiSearch.IsInvalidCost (EmissionCost (LabelTemplate.state l)) = false
  /\ match LabelTemplate.predecessor l with
     | None => LabelTemplate.costsofar l = EmissionCost (LabelTemplate.state l)
     | Some p =>
         ViterbiSearch.IsInvalidCost (TransitionCost p (LabelTemplate.state l)) = false
         /\ exists lp,
              scanned !! id p = Some lp
              /\ LabelTemplate.state lp = p
              /\ LabelTemplate.costsofar l
                 = CostSofar (LabelTemplate.costsofar lp)
                     (TransitionCost p (LabelTemplate.state l))
                     (EmissionCost (LabelTemplate.state l))
     end.

(** Every label of the queue and of the scanned map is linked. *)
Definition links_inv (s : ViterbiSearch.t) : Prop :=
  (forall l, l ∈ ViterbiSearch.queue_ s -> linked (ViterbiSearch.scanned_labels_ s) l)
  /\ (forall i l, ViterbiSearch.scanned_labels_ s !! i = Some l ->
                  linked (ViterbiSearch.scanned_labels_ s) l).

End LinksDefinitions.

(** The columns [{a}], [{b}], [{c}] for the naive engine with
    minimization: [b] has no valid emission (its cost is the invalid cost)
    and every edge costs 1. *)
Definition naive_gap_costs : CostModel := {|
  EmissionCost := fun st => if id st =? 1 then PosInf else Fin 0;
  TransitionCost := fun _ _ => Fin 1;
  CostSofar := Scenario.sum_costs
|}.

(** The columns [{p, q}], [{r}] with emissions 0 and no edge of valid
    cost. *)
Definition no_edge_costs : CostModel := {|
  EmissionCost := fun _ => Fin 0;
  TransitionCost := fun _ _ => Fin (-1);
  CostSofar := Scenario.sum_costs
|}.

Definition no_edge_columns : list (list State) :=
  [[Scenario.dup_p; Scenario.dup_q]; [Scenario.dup_r]].

Section NaiveStructureDefinitions.
Import NaiveViterbiSearch.
Context `{CostModel} `{LabelOrder} (Maximize : bool).

(** The naive engines of polarity [Maximize] a host reaches on the trellis
    [columns]. *)
Inductive naive_reachable (columns : list (list State)) : NaiveViterbiSearch.t -> Prop :=
| naive_reachable_create : naive_reachable columns (create columns)
| naive_reachable_search tm n r n' :
    naive_reachable columns n -> SearchWinner Maximize tm n = Ok (r, n') ->
    naive_reachable columns n'.

(** What the naive engine of polarity [Maximize] keeps between two
    queries. *)
Definition naive_kept (columns : list (list State)) (n : NaiveViterbiSearch.t) : Prop :=
  states_ n = columns
  /\ state_ n = concat columns
  /\ length (history_ n) = length (winner_ n)
  /\ forall k, (k < length (winner_ n))%nat -> column_filled Maximize n k.

(** How the label [l] was built, given the labels [prev] of the column
    before: from an emission cost or the invalid cost when it has no
    predecessor, from a label of valid cost of the column before
    otherwise. *)
Definition naive_linked (prev : option (list Label)) (l : Label) : Prop :=
  match LabelTemplate.predecessor l with
  | None =>
      LabelTemplate.costsofar l = EmissionCost (LabelTemplate.state l)
      \/ LabelTemplate.costsofar l = kInvalidCost Maximize
  | Some p =>
      exists prev_labels lp,
        prev = Some prev_labels
        /\ lp ∈ prev_labels
        /\ LabelTemplate.state lp = p
        /\ LabelTemplate.costsofar lp <> kInvalidCost Maximize
        /\ LabelTemplate.costsofar l <> kInvalidCost Maximize
        /\ LabelTemplate.costsofar l
           = CostSofar (LabelTemplate.costsofar lp)
               (TransitionCost p (LabelTemplate.state l))
               (EmissionCost (LabelTemplate.state l))
  end.

End NaiveStructureDefinitions.

(** The id the winner cache of the naive engine reports for a time. *)
Definition naive_cached_winner (n : NaiveViterbiSearch.t) (k : Time) : StateId :=
  id_or_invalid (mjoin (NaiveViterbiSearch.winner_ n !! N.to_nat k)).

(** * Properties *)

(** ** Results *)

Lemma bind_Ok {A B : Type} (r : result A) (k : A -> result B) (b : B) :
  mbind k r = Ok b -> exists a, r = Ok a /\ k a = Ok b.
Proof. destruct r as [a|e]; [eauto | discriminate]. Qed.

Ltac bind_inv H :=
  let a := fresh "s" in
  let Ha := fresh "Hs" in
  apply bind_Ok in H; destruct H as (a & Ha & H).

(** ** The lazy engine only appends to its winner cache *)

Section LazyFrame.
Import ViterbiSearch.
Context `{CostModel} `{SPQueue}.

Lemma extends_refl s : extends s s.
Proof. by repeat split. Qed.

Lemma extends_trans s1 s2 s3 : extends s1 s2 -> extends s2 s3 -> extends s1 s3.
Proof. intros (?&?&?) (?&?&?). repeat split; [by etrans | congruence..]. Qed.

Lemma extends_set_queue q s : extends s (set_queue q s).
Proof. by repeat split. Qed.

Lemma AddSuccessorsToQueue_frame st s s' :
  AddSuccessorsToQueue st s = Ok s' -> s' = set_queue (queue_ s') s.
Proof.
  unfold AddSuccessorsToQueue. intros Hs.
  repeat case_match; simplify_eq. by destruct s.
Qed.

Lemma AddSuccessorsToQueue_extends st s s' :
  AddSuccessorsToQueue st s = Ok s' -> extends s s'.
Proof. intros ->%AddSuccessorsToQueue_frame. apply extends_set_queue. Qed.

Lemma mark_scanned_extends label s s' : mark_scanned label s = Ok s' -> extends s s'.
Proof. unfold mark_scanned. intros Hs. case_match; simplify_eq. by repeat split. Qed.

Lemma remove_from_column_extends st s s' :
  remove_from_column st s = Ok s' -> extends s s'.
Proof.
  unfold remove_from_column. intros Hs.
  repeat case_match; simplify_eq; repeat split; simpl; by rewrite ?length_insert.
Qed.

Lemma mark_winner_extends st s s' : mark_winner st s = Ok s' -> extends s s'.
Proof.
  unfold mark_winner. intros Hs.
  repeat case_match; simplify_eq; repeat split; simpl; try done.
  by apply prefix_app_r.
Qed.

Lemma scan_extends target searched label s r :
  scan target searched label s = Ok r -> extends s (turn_state r).
Proof.
  unfold scan. intros Hs. case_match; simplify_eq; [apply extends_refl|].
  bind_inv Hs. bind_inv Hs. bind_inv Hs.
  apply mark_scanned_extends in Hs0. apply remove_from_column_extends in Hs1.
  apply mark_winner_extends in Hs2.
  assert (extends s s2) by eauto using extends_trans.
  case_match; simplify_eq; [done|].
  bind_inv Hs. simplify_eq. apply AddSuccessorsToQueue_extends in Hs3.
  simpl. eauto using extends_trans.
Qed.

Lemma search_loop_extends fuel target searched s searched' s' :
  search_loop fuel target searched s = Ok (searched', s') -> extends s s'.
Proof.
  revert searched s. induction fuel as [|fuel IH]; intros searched s Hs; [done|].
  simpl in Hs. destruct (pop (queue_ s)) as [[label q]|]; simplify_eq; [|apply extends_refl].
  bind_inv Hs. apply scan_extends in Hs0.
  assert (extends s (turn_state s0)).
  { eapply extends_trans; [apply (extends_set_queue q)|done]. }
  destruct s0; simplify_eq; [|done].
  eapply extends_trans; [done|]. by eapply IH.
Qed.

Lemma extends_pad n s : extends s (set_winner (winner_ s ++ replicate n None) s).
Proof. repeat split. by apply prefix_app_r. Qed.

Lemma IterativeSearch_extends target request_new_start s searched s' :
  IterativeSearch target request_new_start s = Ok (searched, s') -> extends s s'.
Proof.
  unfold IterativeSearch. intros Hs.
  case_match; [by repeat case_match|].
  case_match; simplify_eq; [apply extends_refl|].
  bind_inv Hs. destruct s0 as [source s1].
  bind_inv Hs. destruct s0 as [searched1 s2]. simplify_eq.
  apply search_loop_extends in Hs1.
  assert (extends s s1).
  { repeat case_match; simplify_eq; try apply extends_set_queue.
    bind_inv Hs0. simplify_eq. by eapply AddSuccessorsToQueue_extends. }
  eapply extends_trans; [done|]. eapply extends_trans; [done|]. apply extends_pad.
Qed.

Lemma restart_loop_extends fuel target searched s searched' s' :
  restart_loop fuel target searched s = Ok (searched', s') -> extends s s'.
Proof.
  revert searched s. induction fuel as [|fuel IH]; intros searched s Hs; simpl in Hs.
  - case_match; simplify_eq. apply extends_refl.
  - case_match; simplify_eq; [|apply extends_refl].
    bind_inv Hs. destruct s0 as [searched1 s1].
    apply IterativeSearch_extends in Hs0. apply IH in Hs.
    eauto using extends_trans.
Qed.

Lemma SearchWinner_extends tm s r s' :
  SearchWinner tm s = Ok (r, s') -> extends s s'.
Proof.
  unfold SearchWinner. intros Hs.
  case_match; [case_match; simplify_eq; apply extends_refl|].
  destruct (unreached_states_ s) as [|column columns] eqn:Hu; simplify_eq; [apply extends_refl|].
  bind_inv Hs. destruct s0 as [searched1 s1].
  bind_inv Hs. destruct s0 as [searched2 s2].
  apply IterativeSearch_extends in Hs0. apply restart_loop_extends in Hs1.
  assert (s' = s2) as -> by (repeat case_match; by simplify_eq).
  eauto using extends_trans.
Qed.

(** [IterativeSearch] returns a time for which the winner cache has an entry. *)
Lemma IterativeSearch_searched target request_new_start s searched s' :
  IterativeSearch target request_new_start s = Ok (searched, s') ->
  searched < N.of_nat (length (winner_ s'))
  /\ target < N.of_nat (length (unreached_states_ s)).
Proof.
  unfold IterativeSearch. intros Hs.
  case_match eqn:Hlen; [by repeat case_match|].
  apply N.leb_gt in Hlen. split; [|done].
  case_match eqn:Hw; simplify_eq; [by apply N.ltb_lt|].
  bind_inv Hs. destruct s0 as [source s1].
  bind_inv Hs. destruct s0 as [searched1 s2]. simplify_eq.
  simpl. rewrite length_app, length_replicate. lia.
Qed.

(** A target the cache already covers costs nothing. *)
Lemma IterativeSearch_cached target request_new_start s :
  target < N.of_nat (length (unreached_states_ s)) ->
  target < N.of_nat (length (winner_ s)) ->
  IterativeSearch target request_new_start s = Ok (target, s).
Proof.
  intros Hu Hw. unfold IterativeSearch.
  apply N.leb_gt in Hu. apply N.ltb_lt in Hw. by rewrite Hu, Hw.
Qed.

Lemma restart_loop_searched fuel target searched s searched' s' :
  restart_loop fuel target searched s = Ok (searched', s') ->
  searched < N.of_nat (length (winner_ s)) ->
  target <= searched' /\ searched' < N.of_nat (length (winner_ s')).
Proof.
  revert searched s. induction fuel as [|fuel IH]; intros searched s Hs Hlt; simpl in Hs.
  - case_match eqn:Hc; simplify_eq. apply N.ltb_ge in Hc. done.
  - case_match eqn:Hc; simplify_eq; [|by apply N.ltb_ge in Hc].
    bind_inv Hs. destruct s0 as [searched1 s1].
    apply IterativeSearch_searched in Hs0 as [? _]. eauto.
Qed.

Lemma restart_loop_done fuel target searched s :
  target <= searched -> restart_loop fuel target searched s = Ok (searched, s).
Proof.
  intros Hle. apply N.ltb_ge in Hle. destruct fuel; simpl; by rewrite Hle.
Qed.

End LazyFrame.

(** ** Repeated queries of the lazy engine *)

Section LazyRepeat.
Import ViterbiSearch.
Context `{CostModel} `{SPQueue}.

Lemma SearchWinner_cached tm s :
  tm < N.of_nat (length (winner_ s)) ->
  exists w, winner_ s !! N.to_nat tm = Some w /\ SearchWinner tm s = Ok (id_or_invalid w, s).
Proof.
  intros Hlt. destruct (lookup_lt_is_Some_2 (winner_ s) (N.to_nat tm)) as [w Hw]; [lia|].
  exists w. split; [done|]. unfold SearchWinner.
  apply N.ltb_lt in Hlt. by rewrite Hlt, Hw.
Qed.

Lemma SearchWinner_empty tm s :
  N.of_nat (length (winner_ s)) <= tm -> unreached_states_ s = [] ->
  SearchWinner tm s = Ok (kInvalidStateId, s).
Proof.
  intros Hle Hu. unfold SearchWinner. apply N.ltb_ge in Hle. by rewrite Hle, Hu.
Qed.

Lemma SearchWinner_advance tm s :
  N.of_nat (length (winner_ s)) <= tm -> unreached_states_ s <> [] ->
  SearchWinner tm s =
    s' ← advance tm s;
    Ok (match winner_ s' !! N.to_nat tm with
        | Some (Some w) => id w
        | _ => kInvalidStateId
        end, s').
Proof.
  intros Hle Hu. unfold SearchWinner, advance. apply N.ltb_ge in Hle. rewrite Hle.
  destruct (unreached_states_ s) as [|column columns] eqn:Hcols; [done|].
  destruct (IterativeSearch _ _ _) as [[searched s1]|]; [|done]. cbn -[restart_loop].
  destruct (restart_loop _ _ _ _) as [[searched' s2]|]; [|done]. cbn.
  by repeat case_match.
Qed.

Lemma advance_extends tm s s' : advance tm s = Ok s' -> extends s s'.
Proof.
  unfold advance. intros Hs.
  bind_inv Hs. destruct s0 as [searched s1]. bind_inv Hs. destruct s0 as [searched' s2].
  simplify_eq. apply IterativeSearch_extends in Hs0. apply restart_loop_extends in Hs1.
  eauto using extends_trans.
Qed.

(** After [advance] the cache covers the clamped target. *)
Lemma advance_covers tm s s' :
  advance tm s = Ok s' ->
  let target := N.min tm (u32 (N.of_nat (length (unreached_states_ s)) - 1)) in
  target < N.of_nat (length (winner_ s')) /\ target < N.of_nat (length (unreached_states_ s)).
Proof.
  unfold advance. intros Hs.
  bind_inv Hs. destruct s0 as [searched s1]. bind_inv Hs. destruct s0 as [searched' s2].
  simplify_eq. apply IterativeSearch_searched in Hs0 as [Hw Hu].
  apply restart_loop_searched in Hs1 as [? ?]; [|done]. simpl. split; [lia|done].
Qed.

(** [advance] does nothing once the cache covers its target. *)
Lemma advance_idle tm s :
  let target := N.min tm (u32 (N.of_nat (length (unreached_states_ s)) - 1)) in
  target < N.of_nat (length (winner_ s)) ->
  target < N.of_nat (length (unreached_states_ s)) ->
  advance tm s = Ok s.
Proof.
  intros target Hw Hu. unfold advance. fold target.
  rewrite IterativeSearch_cached by done. cbn -[restart_loop].
  by rewrite restart_loop_done.
Qed.

Lemma SearchWinner_repeat tm s r s' :
  SearchWinner tm s = Ok (r, s') -> SearchWinner tm s' = Ok (r, s').
Proof.
  intros Hs.
  destruct (decide (tm < N.of_nat (length (winner_ s)))) as [Hlt|Hge].
  { destruct (SearchWinner_cached tm s Hlt) as (w & Hw & Hc).
    rewrite Hc in Hs. by simplify_eq. }
  apply N.nlt_ge in Hge.
  destruct (decide (unreached_states_ s = [])) as [Hu|Hu].
  { rewrite SearchWinner_empty in Hs by done. simplify_eq.
    by apply SearchWinner_empty. }
  rewrite SearchWinner_advance in Hs by done.
  bind_inv Hs. simplify_eq.
  pose proof (advance_extends _ _ _ Hs0) as (Hpre & Hlen & _).
  pose proof (advance_covers _ _ _ Hs0) as [Hw' Hu'].
  destruct (decide (tm < N.of_nat (length (winner_ s')))) as [Hlt'|Hge'].
  { destruct (SearchWinner_cached tm s' Hlt') as (w & Hw & Hc).
    rewrite Hc, Hw. by destruct w. }
  apply N.nlt_ge in Hge'.
  rewrite SearchWinner_advance; [|done|].
  2:{ intros Hnil. rewrite Hnil in Hlen. by destruct (unreached_states_ s). }
  rewrite advance_idle; [done|by rewrite Hlen..].
Qed.

Lemma SearchWinner_later tm tm' s r s1 r' s2 :
  tm <= tm' ->
  SearchWinner tm s = Ok (r, s1) ->
  SearchWinner tm' s1 = Ok (r', s2) ->
  SearchWinner tm s2 = Ok (r, s2).
Proof.
  intros Hle Hs1%SearchWinner_repeat Hs2.
  pose proof (SearchWinner_extends _ _ _ _ Hs2) as (Hpre & Hlen & _).
  destruct (decide (tm < N.of_nat (length (winner_ s1)))) as [Hlt|Hge].
  { destruct (SearchWinner_cached tm s1 Hlt) as (w & Hw & Hc).
    assert (winner_ s2 !! N.to_nat tm = Some w) as Hw2 by by eapply prefix_lookup_Some.
    assert (tm < N.of_nat (length (winner_ s2))) as Hlt2.
    { apply lookup_lt_Some in Hw2. lia. }
    destruct (SearchWinner_cached tm s2 Hlt2) as (w' & Hw' & Hc').
    rewrite Hc in Hs1. by simplify_eq. }
  apply N.nlt_ge in Hge.
  destruct (decide (unreached_states_ s1 = [])) as [Hu|Hu].
  { rewrite SearchWinner_empty in Hs2 by (done || lia). by simplify_eq. }
  rewrite SearchWinner_advance in Hs1 by done.
  rewrite SearchWinner_advance in Hs2 by (done || lia).
  bind_inv Hs1. bind_inv Hs2. simplify_eq.
  pose proof (advance_covers _ _ _ Hs) as [Hw Hu1]. simpl in Hw, Hu1.
  assert (advance tm' s1 = advance tm s1) as Heq.
  { unfold advance. by replace (N.min tm' _) with (N.min tm (u32 (N.of_nat (length (unreached_states_ s1)) - 1))) by lia. }
  rewrite Heq, Hs in Hs0. simplify_eq.
  rewrite SearchWinner_advance by done. by rewrite Hs.
Qed.

End LazyRepeat.

(** ** The naive engine only appends to its winner cache and history *)

Section NaiveFrame.
Import NaiveViterbiSearch.
Context `{CostModel} `{LabelOrder} (Maximize : bool).
Local Abbreviation column_labels := (column_labels Maximize).

Lemma fill_column_Ok tm s s' :
  fill_column Maximize tm s = Ok s' ->
  exists column labels,
    states_ s !! N.to_nat tm = Some column
    /\ labels = column_labels column (if tm =? 0 then None else last (history_ s))
    /\ (tm = 0 \/ is_Some (last (history_ s)))
    /\ s' = mk (states_ s) (state_ s)
              (winner_ s ++ [FindWinner Maximize labels]) (history_ s ++ [labels]).
Proof.
  unfold fill_column. intros Hs.
  destruct (states_ s !! N.to_nat tm) as [column|] eqn:Hcol; [|done].
  exists column. bind_inv Hs.
  destruct (tm =? 0) eqn:Htm.
  - apply N.eqb_eq in Htm as ->. simplify_eq. simpl in Hs.
    eexists. split; [done|]. split; [done|]. split; [by left|].
    unfold column_labels.
    destruct (FindWinner Maximize (InitLabels Maximize column true)) eqn:Hw;
      simpl in Hs; simplify_eq; by rewrite ?Hw.
  - apply N.eqb_neq in Htm.
    destruct (last (history_ s)) as [prev_labels|] eqn:Hlast; simplify_eq.
    eexists. split; [done|]. split; [done|]. split; [by right|].
    unfold column_labels.
    destruct (FindWinner Maximize (UpdateLabels _ _ _)) eqn:Hw.
    + simplify_eq. by rewrite Hw.
    + assert ((0 <? tm) = true) as Hpos by (apply N.ltb_lt; lia).
      rewrite Hpos in Hs. by simplify_eq.
Qed.

Lemma naive_extends_refl s : naive_extends s s.
Proof. by repeat split. Qed.

Lemma naive_extends_trans s1 s2 s3 :
  naive_extends s1 s2 -> naive_extends s2 s3 -> naive_extends s1 s3.
Proof.
  intros (?&?&?&?) (?&?&?&?). repeat split; [by etrans|by etrans|congruence..].
Qed.

Lemma fill_column_extends tm s s' :
  fill_column Maximize tm s = Ok s' -> naive_extends s s'.
Proof.
  intros (column & labels & _ & _ & _ & ->)%fill_column_Ok.
  repeat split; simpl; by apply prefix_app_r.
Qed.

Lemma fill_extends fuel tm target s s' :
  fill Maximize fuel tm target s = Ok s' -> naive_extends s s'.
Proof.
  revert tm s. induction fuel as [|fuel IH]; intros tm s Hs; simpl in Hs.
  - case_match; simplify_eq. apply naive_extends_refl.
  - case_match; simplify_eq; [|apply naive_extends_refl].
    bind_inv Hs. apply fill_column_extends in Hs0. apply IH in Hs.
    eauto using naive_extends_trans.
Qed.

Lemma naive_SearchWinner_extends target s r s' :
  SearchWinner Maximize target s = Ok (r, s') -> naive_extends s s'.
Proof.
  unfold SearchWinner. intros Hs.
  case_match; simplify_eq; [apply naive_extends_refl|].
  case_match; [case_match; simplify_eq; apply naive_extends_refl|].
  bind_inv Hs. apply fill_extends in Hs0.
  by case_match; simplify_eq.
Qed.

Lemma naive_SearchWinner_cached target s :
  target < N.of_nat (length (states_ s)) ->
  target < N.of_nat (length (winner_ s)) ->
  exists w, winner_ s !! N.to_nat target = Some w
            /\ SearchWinner Maximize target s = Ok (id_or_invalid w, s).
Proof.
  intros Hs Hw. destruct (lookup_lt_is_Some_2 (winner_ s) (N.to_nat target)) as [w Hl]; [lia|].
  exists w. split; [done|]. unfold SearchWinner.
  apply N.leb_gt in Hs. apply N.ltb_lt in Hw. by rewrite Hs, Hw, Hl.
Qed.

Lemma naive_SearchWinner_beyond target s :
  N.of_nat (length (states_ s)) <= target ->
  SearchWinner Maximize target s = Ok (kInvalidStateId, s).
Proof. intros Hle. unfold SearchWinner. apply N.leb_le in Hle. by rewrite Hle. Qed.

(** What an answer of [SearchWinner] is, in terms of the engine it leaves. *)
Lemma naive_SearchWinner_answer target s r s' :
  SearchWinner Maximize target s = Ok (r, s') ->
  (N.of_nat (length (states_ s)) <= target /\ r = kInvalidStateId /\ s' = s)
  \/ (target < N.of_nat (length (states_ s))
      /\ exists w, winner_ s' !! N.to_nat target = Some w /\ r = id_or_invalid w).
Proof.
  unfold SearchWinner. intros Hs.
  case_match eqn:Hlen; simplify_eq.
  { left. by apply N.leb_le in Hlen. }
  right. apply N.leb_gt in Hlen. split; [done|].
  case_match; [case_match; simplify_eq; eauto|].
  bind_inv Hs. case_match; simplify_eq; eauto.
Qed.

Lemma naive_SearchWinner_repeat target s r s' :
  SearchWinner Maximize target s = Ok (r, s') ->
  SearchWinner Maximize target s' = Ok (r, s').
Proof.
  intros Hs. pose proof (naive_SearchWinner_extends _ _ _ _ Hs) as (_ & _ & Hst & _).
  apply naive_SearchWinner_answer in Hs as [(Hle & -> & ->)|(Hlt & w & Hw & ->)].
  - by apply naive_SearchWinner_beyond.
  - destruct (naive_SearchWinner_cached target s') as (w' & Hw' & ->).
    + by rewrite Hst.
    + apply lookup_lt_Some in Hw. lia.
    + by simplify_eq.
Qed.

Lemma naive_SearchWinner_later target target' s r s1 r' s2 :
  SearchWinner Maximize target s = Ok (r, s1) ->
  SearchWinner Maximize target' s1 = Ok (r', s2) ->
  SearchWinner Maximize target s2 = Ok (r, s2).
Proof.
  intros Hs1 Hs2.
  pose proof (naive_SearchWinner_extends _ _ _ _ Hs1) as (_ & _ & Hst1 & _).
  pose proof (naive_SearchWinner_extends _ _ _ _ Hs2) as (Hpre & _ & Hst2 & _).
  apply naive_SearchWinner_answer in Hs1 as [(Hle & -> & ->)|(Hlt & w & Hw & ->)].
  - apply naive_SearchWinner_beyond. by rewrite Hst2.
  - assert (winner_ s2 !! N.to_nat target = Some w) as Hw2 by by eapply prefix_lookup_Some.
    destruct (naive_SearchWinner_cached target s2) as (w' & Hw' & ->).
    + by rewrite Hst2, Hst1.
    + apply lookup_lt_Some in Hw2. lia.
    + by simplify_eq.
Qed.

End NaiveFrame.

(** ** The winner cache of the lazy engine never outgrows the columns *)

Tactic Notation "bind_inv" hyp(H) "as" simple_intropattern(x) ident(Hx) :=
  apply bind_Ok in H; destruct H as (x & Hx & H).

Section LazyBounded.
Import ViterbiSearch.
Context `{CostModel} `{SPQueue}.

Lemma AddSuccessorsToQueue_bounded st s s' :
  AddSuccessorsToQueue st s = Ok s' -> bounded s -> bounded s'.
Proof. by intros ->%AddSuccessorsToQueue_frame. Qed.

Lemma mark_scanned_bounded label s s' :
  mark_scanned label s = Ok s' -> bounded s -> bounded s'.
Proof. unfold mark_scanned. intros Hs. by case_match; simplify_eq. Qed.

Lemma remove_from_column_bounded st s s' :
  remove_from_column st s = Ok s' ->
  (bounded s -> bounded s') /\ time st < N.of_nat (length (unreached_states_ s')).
Proof.
  unfold remove_from_column, bounded. intros Hs.
  destruct (unreached_states_ s !! N.to_nat (time st)) as [column|] eqn:Hcol; [|done].
  apply lookup_lt_Some in Hcol.
  repeat case_match; simplify_eq; simpl; rewrite length_insert; split; (done || lia).
Qed.

Lemma mark_winner_bounded st s s' :
  mark_winner st s = Ok s' ->
  time st < N.of_nat (length (unreached_states_ s)) ->
  (bounded s -> bounded s')
  /\ unreached_states_ s' = unreached_states_ s
  /\ time st < N.of_nat (length (winner_ s')).
Proof.
  unfold mark_winner, bounded. intros Hs Htm.
  destruct (N.of_nat (length (winner_ s)) <=? time st) eqn:Hle.
  - destruct (time st =? N.of_nat (length (winner_ s))) eqn:Heq; simplify_eq/=.
    apply N.eqb_eq in Heq. rewrite length_app. simpl. split_and!; [lia|done|lia].
  - simplify_eq. apply N.leb_gt in Hle. done.
Qed.

Lemma scan_bounded target searched label s r :
  scan target searched label s = Ok r ->
  bounded s ->
  searched < N.of_nat (length (unreached_states_ s)) ->
  bounded (turn_state r)
  /\ turn_time r < N.of_nat (length (unreached_states_ (turn_state r))).
Proof.
  unfold scan. intros Hs Hb Hlt. case_match; simplify_eq; [done|].
  bind_inv Hs as s0 Hs0. bind_inv Hs as s1 Hs1. bind_inv Hs as s2 Hs2.
  pose proof (mark_scanned_bounded _ _ _ Hs0 Hb) as Hb0.
  pose proof (mark_scanned_extends _ _ _ Hs0) as (_ & Hl0 & _).
  destruct (remove_from_column_bounded _ _ _ Hs1) as [Hb1 Htm].
  pose proof (remove_from_column_extends _ _ _ Hs1) as (_ & Hl1 & _).
  destruct (mark_winner_bounded _ _ _ Hs2 Htm) as (Hb2 & Hu2 & _).
  assert (time (LabelTemplate.state label) `max` searched
          < N.of_nat (length (unreached_states_ s2))) as Hlt2.
  { rewrite Hu2. lia. }
  case_match; simplify_eq; simpl; [split; auto|].
  bind_inv Hs as s3 Hs3. simplify_eq. simpl.
  pose proof (AddSuccessorsToQueue_frame _ _ _ Hs3) as ->. simpl.
  split; by auto.
Qed.

Lemma search_loop_bounded fuel target searched s searched' s' :
  search_loop fuel target searched s = Ok (searched', s') ->
  bounded s ->
  searched < N.of_nat (length (unreached_states_ s)) ->
  bounded s' /\ searched' < N.of_nat (length (unreached_states_ s')).
Proof.
  revert searched s. induction fuel as [|fuel IH]; intros searched s Hs Hb Hlt; [done|].
  simpl in Hs. destruct (pop (queue_ s)) as [[label q]|]; simplify_eq; [|done].
  bind_inv Hs as r Hr. apply scan_bounded in Hr as [Hb' Hlt']; [|done..].
  destruct r; simplify_eq; eauto.
Qed.

Lemma IterativeSearch_bounded target request_new_start s searched s' :
  IterativeSearch target request_new_start s = Ok (searched, s') ->
  bounded s -> bounded s'.
Proof.
  unfold IterativeSearch. intros Hs Hb.
  case_match; [by repeat case_match|].
  case_match; simplify_eq; [done|].
  bind_inv Hs as [source s1] Hs1.
  bind_inv Hs as [searched1 s2] Hs2. simplify_eq.
  assert (bounded s1 /\ source < N.of_nat (length (unreached_states_ s1))) as [Hb1 Hlt1].
  { destruct (negb request_new_start && _).
    - destruct (winner_ s !! _) as [[w|]|] eqn:Hw; [|done..].
      bind_inv Hs1 as s0 Hs0. simplify_eq. apply lookup_lt_Some in Hw.
      apply AddSuccessorsToQueue_frame in Hs0 as ->.
      unfold bounded in *. simpl. split; [done|lia].
    - destruct (unreached_states_ s !! _) as [column|] eqn:Hcol; simplify_eq.
      apply lookup_lt_Some in Hcol. unfold bounded in *. simpl. split; [done|lia]. }
  eapply search_loop_bounded in Hs2 as [Hb2 Hlt2]; [|done..].
  unfold bounded in *. simpl. rewrite length_app, length_replicate. lia.
Qed.

Lemma restart_loop_bounded fuel target searched s searched' s' :
  restart_loop fuel target searched s = Ok (searched', s') ->
  bounded s -> bounded s'.
Proof.
  revert searched s. induction fuel as [|fuel IH]; intros searched s Hs Hb; simpl in Hs.
  - by case_match; simplify_eq.
  - case_match; simplify_eq; [|done].
    bind_inv Hs as [searched1 s1] Hs1. apply IterativeSearch_bounded in Hs1; eauto.
Qed.

Lemma advance_bounded tm s s' : advance tm s = Ok s' -> bounded s -> bounded s'.
Proof.
  unfold advance. intros Hs Hb.
  bind_inv Hs as [searched s1] Hs1. bind_inv Hs as [searched' s2] Hs2. simplify_eq.
  apply IterativeSearch_bounded in Hs1; [|done].
  by apply restart_loop_bounded in Hs2.
Qed.

(** Past the last column the lazy engine answers "absent"; it searches up
    to the last column first unless the cache covers every column. *)
Lemma SearchWinner_beyond tm s r s' :
  N.of_nat (length (unreached_states_ s)) <= tm ->
  bounded s ->
  SearchWinner tm s = Ok (r, s') ->
  r = kInvalidStateId
  /\ (length (winner_ s) = length (unreached_states_ s) -> s' = s)
  /\ (N.of_nat (length (unreached_states_ s)) < 4294967296 ->
      length (winner_ s') = length (unreached_states_ s)).
Proof.
  intros Htm Hb Hs. unfold bounded in Hb.
  destruct (decide (unreached_states_ s = [])) as [Hu|Hu].
  { rewrite SearchWinner_empty in Hs; [|rewrite Hu in Hb; simpl in Hb; lia|done].
    simplify_eq. rewrite Hu in *. simpl in *. split_and!; [done|done|lia]. }
  assert (length (unreached_states_ s) <> 0%nat) as Hlen by by destruct (unreached_states_ s).
  rewrite SearchWinner_advance in Hs by (done || lia).
  bind_inv Hs as s2 Hs2. simplify_eq.
  pose proof (advance_bounded _ _ _ Hs2 Hb) as Hb'.
  pose proof (advance_extends _ _ _ Hs2) as (_ & Hlen' & _).
  pose proof (advance_covers _ _ _ Hs2) as [Hcov _]. simpl in Hcov.
  unfold bounded in Hb'.
  assert (u32 (N.of_nat (length (unreached_states_ s)) - 1)
          <= N.of_nat (length (unreached_states_ s)) - 1) as Hmod.
  { unfold u32. apply N.Div0.mod_le. }
  split_and!.
  - rewrite lookup_ge_None_2; [done|lia].
  - intros Hfull. rewrite advance_idle in Hs2; [by simplify_eq|simpl; lia..].
  - intros Hfit. unfold u32 in Hcov. rewrite N.mod_small in Hcov by lia. lia.
Qed.

End LazyBounded.

(** ** Concrete trellises *)

(** ** Claims about repeated and out-of-range queries *)

(** C3.  For both engines, a query [SearchWinner(t)] that returned gives
    the same answer when it is repeated, also after a later query
    [SearchWinner(t')] with [t <= t']; the repeated queries change nothing,
    and every query only appends to the winner cache, so an entry of the
    cache is never overwritten. *)
Theorem SearchWinner_monotone_answer :
  (forall (cm : CostModel) (q : SPQueue) (t t' : Time) (s s1 s2 : ViterbiSearch.t)
          (r r' : StateId),
      t <= t' ->
      ViterbiSearch.SearchWinner t s = Ok (r, s1) ->
      ViterbiSearch.SearchWinner t' s1 = Ok (r', s2) ->
      ViterbiSearch.SearchWinner t s1 = Ok (r, s1)
      /\ ViterbiSearch.SearchWinner t s2 = Ok (r, s2)
      /\ ViterbiSearch.winner_ s `prefix_of` ViterbiSearch.winner_ s1
      /\ ViterbiSearch.winner_ s1 `prefix_of` ViterbiSearch.winner_ s2)
  /\ (forall (cm : CostModel) (lo : LabelOrder) (Maximize : bool) (t t' : Time)
             (s s1 s2 : NaiveViterbiSearch.t) (r r' : StateId),
      t <= t' ->
      NaiveViterbiSearch.SearchWinner Maximize t s = Ok (r, s1) ->
      NaiveViterbiSearch.SearchWinner Maximize t' s1 = Ok (r', s2) ->
      NaiveViterbiSearch.SearchWinner Maximize t s1 = Ok (r, s1)
      /\ NaiveViterbiSearch.SearchWinner Maximize t s2 = Ok (r, s2)
      /\ NaiveViterbiSearch.winner_ s `prefix_of` NaiveViterbiSearch.winner_ s1
      /\ NaiveViterbiSearch.winner_ s1 `prefix_of` NaiveViterbiSearch.winner_ s2).
Proof.
  split.
  - intros cm q t t' s s1 s2 r r' Hle Hs1 Hs2. split_and!.
    + by eapply SearchWinner_repeat.
    + by eapply SearchWinner_later.
    + by apply SearchWinner_extends in Hs1 as (? & _).
    + by apply SearchWinner_extends in Hs2 as (? & _).
  - intros cm lo Maximize t t' s s1 s2 r r' Hle Hs1 Hs2. split_and!.
    + by eapply naive_SearchWinner_repeat.
    + by eapply naive_SearchWinner_later.
    + by apply naive_SearchWinner_extends in Hs1 as (? & _).
    + by apply naive_SearchWinner_extends in Hs2 as (? & _).
Qed.

Lemma SearchWinner_monotone_answer_witness :
  (exists s1 s2,
      @ViterbiSearch.SearchWinner Scenario.breakage_costs HeapQueue 1 Scenario.breakage
        = Ok (1, s1)
      /\ @ViterbiSearch.SearchWinner Scenario.breakage_costs HeapQueue 2 s1 = Ok (2, s2)
      /\ @ViterbiSearch.SearchWinner Scenario.breakage_costs HeapQueue 1 s2 = Ok (1, s2))
  /\ (exists s1 s2,
      @NaiveViterbiSearch.SearchWinner Scenario.gap_costs Scenario.no_tie_break false 1
        (NaiveViterbiSearch.create [[Scenario.a]; [Scenario.b]; [Scenario.c]]) = Ok (1, s1)
      /\ @NaiveViterbiSearch.SearchWinner Scenario.gap_costs Scenario.no_tie_break false 2 s1
         = Ok (2, s2)
      /\ @NaiveViterbiSearch.SearchWinner Scenario.gap_costs Scenario.no_tie_break false 1 s2
         = Ok (1, s2)).
Proof.
  split.
  - eexists _, _.
    split; [vm_compute; reflexivity|].
    split; [vm_compute; reflexivity|].
    edestruct (proj1 SearchWinner_monotone_answer Scenario.breakage_costs HeapQueue 1 2
                 Scenario.breakage) as (_ & Hthm & _); [|vm_compute; reflexivity| |exact Hthm].
    + lia.
    + vm_compute; reflexivity.
  - eexists _, _.
    split; [vm_compute; reflexivity|].
    split; [vm_compute; reflexivity|].
    edestruct (proj2 SearchWinner_monotone_answer Scenario.gap_costs Scenario.no_tie_break
                 false 1 2 (NaiveViterbiSearch.create [[Scenario.a]; [Scenario.b]; [Scenario.c]]))
      as (_ & Hthm & _); [|vm_compute; reflexivity| |exact Hthm].
    + lia.
    + vm_compute; reflexivity.
Defined.

(** C5.  Breakage in the middle of the trellis, lazy engine: on the
    columns [{a}], [{b}], [{c}] with emissions 0, no edge from [a] to [b]
    and an edge of cost 1 from [b] to [c], [SearchWinner(2)] returns [c];
    the winner at time 1 is [b], settled with its emission cost alone;
    [predecessor(b)] is absent, [predecessor(c)] is [b]; and the path from
    time 2 visits [c], [b], [a].  The queue holds one label at most during
    the run, and the outcome is the same with the heap of the specification
    and with a queue of one label per state. *)
Theorem breakage_scenario : breakage_outcome HeapQueue /\ breakage_outcome KeyedQueue.
Proof.
  split.
  - eexists. split; [vm_compute; reflexivity|].
    split_and!; try (vm_compute; reflexivity).
    eexists _, _. split; vm_compute; reflexivity.
  - eexists. split; [vm_compute; reflexivity|].
    split_and!; try (vm_compute; reflexivity).
    eexists _, _. split; vm_compute; reflexivity.
Qed.

(** ** Queries of the lazy engine for ids without a scanned label *)

(** C10.  For an id that has no entry in the scanned map, whether the id
    belongs to a state of the trellis or to none, [predecessor] returns the
    absent id and [AccumulatedCost] returns -1.  Both are functions of the
    engine that return a value and no new engine: they cannot fail and
    leave the engine as it is. *)
Theorem unscanned_id_queries (s : ViterbiSearch.t) (i : StateId) :
  ViterbiSearch.scanned_labels_ s !! i = None ->
  ViterbiSearch.predecessor i s = kInvalidStateId
  /\ ViterbiSearch.AccumulatedCost i s = Fin (-1).
Proof.
  intros Hi. unfold ViterbiSearch.predecessor, ViterbiSearch.AccumulatedCost.
  by rewrite Hi.
Qed.

Lemma unscanned_id_queries_witness :
  (ViterbiSearch.predecessor 1 Scenario.breakage = kInvalidStateId
   /\ ViterbiSearch.AccumulatedCost 1 Scenario.breakage = Fin (-1))
  /\ (ViterbiSearch.predecessor 7 Scenario.breakage = kInvalidStateId
      /\ ViterbiSearch.AccumulatedCost 7 Scenario.breakage = Fin (-1)).
Proof.
  split.
  - apply (unscanned_id_queries Scenario.breakage 1). reflexivity.
  - apply (unscanned_id_queries Scenario.breakage 7). reflexivity.
Defined.

(** ** Queries past the last column *)

(** C7, as stated, fails for the lazy engine: with one column [{a}] that
    has not been searched yet, [SearchWinner(1)] returns the absent id and
    has searched column 0 on the way: [a] is now the winner at time 0, has
    a scanned label and has left its unreached column, and the watermark
    has moved. *)
Lemma query_past_last_column_searches :
  exists s : ViterbiSearch.t,
    N.of_nat (length (ViterbiSearch.unreached_states_ (ViterbiSearch.create [[Scenario.a]]))) <= 1
    /\ @ViterbiSearch.SearchWinner Scenario.breakage_costs HeapQueue 1
         (ViterbiSearch.create [[Scenario.a]]) = Ok (kInvalidStateId, s)
    /\ ViterbiSearch.winner_ (ViterbiSearch.create [[Scenario.a]]) = []
    /\ ViterbiSearch.winner_ s = [Some Scenario.a]
    /\ ViterbiSearch.unreached_states_ s = [[]]
    /\ ViterbiSearch.earliest_time_ s = 1
    /\ s <> ViterbiSearch.create [[Scenario.a]].
Proof.
  eexists. split; [vm_compute; discriminate|].
  split; [vm_compute; reflexivity|].
  split_and!; try (vm_compute; reflexivity).
  intros Heq. apply (f_equal ViterbiSearch.winner_) in Heq. vm_compute in Heq. discriminate.
Qed.

(** C7, amended.  For a time at or past the number of columns,
    [SearchWinner] returns the absent id.  The naive engine returns at
    once and is unchanged.  The lazy engine is unchanged when its winner
    cache already covers every column (in particular when there is no
    column); otherwise it first searches up to the last column, and its
    winner cache covers every column afterwards. *)
Theorem query_past_last_column :
  (forall (cm : CostModel) (lo : LabelOrder) (Maximize : bool) (t : Time)
          (s : NaiveViterbiSearch.t),
      N.of_nat (length (NaiveViterbiSearch.states_ s)) <= t ->
      NaiveViterbiSearch.SearchWinner Maximize t s = Ok (kInvalidStateId, s))
  /\ (forall (cm : CostModel) (q : SPQueue) (t : Time) (s s' : ViterbiSearch.t) (r : StateId),
      N.of_nat (length (ViterbiSearch.unreached_states_ s)) <= t ->
      (length (ViterbiSearch.winner_ s) <= length (ViterbiSearch.unreached_states_ s))%nat ->
      ViterbiSearch.SearchWinner t s = Ok (r, s') ->
      r = kInvalidStateId
      /\ (length (ViterbiSearch.winner_ s) = length (ViterbiSearch.unreached_states_ s) ->
          s' = s)
      /\ (N.of_nat (length (ViterbiSearch.unreached_states_ s)) < 4294967296 ->
          length (ViterbiSearch.winner_ s') = length (ViterbiSearch.unreached_states_ s))).
Proof.
  split.
  - intros cm lo Maximize t s Hle. by apply naive_SearchWinner_beyond.
  - intros cm q t s s' r Hle Hb Hs. by eapply SearchWinner_beyond.
Qed.

Lemma query_past_last_column_witness :
  @NaiveViterbiSearch.SearchWinner Scenario.breakage_costs Scenario.no_tie_break false 3
    (NaiveViterbiSearch.create [[Scenario.a]; [Scenario.b]; [Scenario.c]])
  = Ok (kInvalidStateId, NaiveViterbiSearch.create [[Scenario.a]; [Scenario.b]; [Scenario.c]])
  /\ (exists s s' : ViterbiSearch.t,
        @ViterbiSearch.SearchWinner Scenario.breakage_costs HeapQueue 2 Scenario.breakage
          = Ok (2, s)
        /\ @ViterbiSearch.SearchWinner Scenario.breakage_costs HeapQueue 3 s = Ok (kInvalidStateId, s')
        /\ s' = s).
Proof.
  split.
  - apply (proj1 query_past_last_column). vm_compute. discriminate.
  - eexists _, _. split; [vm_compute; reflexivity|].
    split; [vm_compute; reflexivity|].
    eapply (proj2 query_past_last_column Scenario.breakage_costs HeapQueue 3).
    + vm_compute. discriminate.
    + vm_compute. lia.
    + vm_compute. reflexivity.
    + vm_compute. reflexivity.
Defined.

(** ** The earliest-time watermark *)

Section LazyEarliest.
Import ViterbiSearch.
Context `{CostModel} `{SPQueue}.

Lemma extends_columns_fit s s' : extends s s' -> columns_fit s -> columns_fit s'.
Proof. unfold columns_fit. intros (_ & -> & _). done. Qed.

Lemma AddSuccessorsToQueue_earliest st s s' :
  AddSuccessorsToQueue st s = Ok s' -> earliest_time_ s' = earliest_time_ s.
Proof. by intros ->%AddSuccessorsToQueue_frame. Qed.

Lemma mark_scanned_Ok label s s' :
  mark_scanned label s = Ok s' ->
  scanned_labels_ s !! id (LabelTemplate.state label) = None
  /\ s' = set_scanned (<[id (LabelTemplate.state label) := label]> (scanned_labels_ s)) s.
Proof. unfold mark_scanned. intros Hs. by case_match; simplify_eq. Qed.

Lemma remove_from_column_Ok st s s' :
  remove_from_column st s = Ok s' ->
  exists column k x,
    unreached_states_ s !! N.to_nat (time st) = Some column
    /\ list_find (fun y => id st = id y) column = Some (k, x)
    /\ s' = (let s1 := set_unreached (<[N.to_nat (time st) := delete k column]>
                                        (unreached_states_ s)) s in
             match delete k column with
             | [] => set_earliest (u32 (time st + 1)) s1
             | _ => s1
             end).
Proof.
  unfold remove_from_column. intros Hs.
  destruct (unreached_states_ s !! N.to_nat (time st)) as [column|] eqn:Hcol; [|done].
  destruct (list_find _ column) as [[k x]|] eqn:Hfind; [|done].
  exists column, k, x. split_and!; [done..|]. simpl.
  by destruct (delete k column); simplify_eq.
Qed.

Lemma mark_winner_Ok st s s' :
  mark_winner st s = Ok s' ->
  (time st < N.of_nat (length (winner_ s)) /\ s' = s)
  \/ (time st = N.of_nat (length (winner_ s))
      /\ s' = set_winner (winner_ s ++ [Some st]) s).
Proof.
  unfold mark_winner. intros Hs.
  destruct (N.of_nat (length (winner_ s)) <=? time st) eqn:Hle.
  - destruct (time st =? N.of_nat (length (winner_ s))) eqn:Heq; simplify_eq/=.
    apply N.eqb_eq in Heq. by right.
  - simplify_eq. apply N.leb_gt in Hle. by left.
Qed.

Lemma remove_from_column_earliest st s s' :
  remove_from_column st s = Ok s' ->
  columns_fit s ->
  (unreached_states_ s' !! N.to_nat (time st) = Some []
   /\ earliest_time_ s' = time st + 1)
  \/ ((exists x column, unreached_states_ s' !! N.to_nat (time st) = Some (x :: column))
      /\ earliest_time_ s' = earliest_time_ s).
Proof.
  intros (column & k & x & Hcol & _ & ->)%remove_from_column_Ok Hfit.
  pose proof (lookup_lt_Some _ _ _ Hcol) as Hlt. unfold columns_fit in Hfit.
  destruct (delete k column) as [|y rest] eqn:Hdel; simpl.
  - left. rewrite list_lookup_insert_eq by done. split; [done|].
    unfold u32. rewrite N.mod_small; lia.
  - right. rewrite list_lookup_insert_eq by done. eauto.
Qed.

(** One turn of the main loop: a label older than the watermark is dropped
    and the engine is as it was; otherwise the watermark moves to the time
    after the label's exactly when the label's column has become empty. *)
Lemma scan_earliest target searched label s r :
  scan target searched label s = Ok r ->
  columns_fit s ->
  let tm := time (LabelTemplate.state label) in
  let s' := turn_state r in
  earliest_time_ s <= earliest_time_ s'
  /\ (tm < earliest_time_ s -> r = Continue searched s)
  /\ (earliest_time_ s <= tm ->
      (unreached_states_ s' !! N.to_nat tm = Some [] /\ earliest_time_ s' = tm + 1)
      \/ ((exists x column, unreached_states_ s' !! N.to_nat tm = Some (x :: column))
          /\ earliest_time_ s' = earliest_time_ s)).
Proof.
  unfold scan. intros Hs Hfit. simpl.
  destruct (time (LabelTemplate.state label) <? earliest_time_ s) eqn:Hold.
  { simplify_eq. apply N.ltb_lt in Hold. simpl. split_and!; [lia|done|lia]. }
  apply N.ltb_ge in Hold.
  bind_inv Hs as s0 Hs0. bind_inv Hs as s1 Hs1. bind_inv Hs as s2 Hs2.
  apply mark_scanned_Ok in Hs0 as [_ ->].
  apply remove_from_column_earliest in Hs1; [|done]. simpl in Hs1.
  assert (earliest_time_ s2 = earliest_time_ s1 /\ unreached_states_ s2 = unreached_states_ s1)
    as [He2 Hu2].
  { by apply mark_winner_Ok in Hs2 as [[_ ->]|[_ ->]]. }
  assert (earliest_time_ (turn_state r) = earliest_time_ s1
          /\ unreached_states_ (turn_state r) = unreached_states_ s1) as [-> ->].
  { case_match; simplify_eq; [done|].
    bind_inv Hs as s3 Hs3. simplify_eq.
    apply AddSuccessorsToQueue_frame in Hs3 as ->. done. }
  split_and!; [|lia|done].
  destruct Hs1 as [[_ ->]|[_ ->]]; lia.
Qed.

Lemma search_loop_earliest fuel target searched s searched' s' :
  search_loop fuel target searched s = Ok (searched', s') ->
  columns_fit s -> earliest_time_ s <= earliest_time_ s'.
Proof.
  revert searched s. induction fuel as [|fuel IH]; intros searched s Hs Hfit; [done|].
  simpl in Hs. destruct (pop (queue_ s)) as [[label q]|]; simplify_eq; [|done].
  bind_inv Hs as r Hr.
  pose proof (scan_extends _ _ _ _ _ Hr) as Hext.
  apply scan_earliest in Hr as (Hle & _); [|done].
  destruct r as [searched1 s1|searched1 s1]; simpl in *; simplify_eq; [|done].
  apply IH in Hs; [lia|]. eapply extends_columns_fit; [done|]. done.
Qed.

Lemma IterativeSearch_earliest target request_new_start s searched s' :
  IterativeSearch target request_new_start s = Ok (searched, s') ->
  columns_fit s -> earliest_time_ s <= earliest_time_ s'.
Proof.
  unfold IterativeSearch. intros Hs Hfit.
  case_match; [by repeat case_match|].
  case_match; simplify_eq; [done|].
  bind_inv Hs as [source s1] Hs1.
  bind_inv Hs as [searched1 s2] Hs2. simplify_eq. simpl.
  assert (s1 = set_queue (queue_ s1) s) as Hs1'.
  { repeat case_match; simplify_eq; try done.
    bind_inv Hs1 as sq Hsq. simplify_eq. by eapply AddSuccessorsToQueue_frame. }
  apply search_loop_earliest in Hs2; [|by rewrite Hs1'].
  by rewrite Hs1' in Hs2.
Qed.

Lemma restart_loop_earliest fuel target searched s searched' s' :
  restart_loop fuel target searched s = Ok (searched', s') ->
  columns_fit s -> earliest_time_ s <= earliest_time_ s'.
Proof.
  revert searched s. induction fuel as [|fuel IH]; intros searched s Hs Hfit; simpl in Hs.
  - by case_match; simplify_eq.
  - case_match; simplify_eq; [|done].
    bind_inv Hs as [searched1 s1] Hs1.
    pose proof (IterativeSearch_extends _ _ _ _ _ Hs1) as Hext.
    apply IterativeSearch_earliest in Hs1; [|done].
    apply IH in Hs; [lia|]. by eapply extends_columns_fit.
Qed.

Lemma SearchWinner_earliest tm s r s' :
  SearchWinner tm s = Ok (r, s') ->
  columns_fit s -> earliest_time_ s <= earliest_time_ s'.
Proof.
  intros Hs Hfit.
  destruct (decide (tm < N.of_nat (length (winner_ s)))) as [Hlt|Hge].
  { destruct (SearchWinner_cached tm s Hlt) as (w & Hw & Hc).
    rewrite Hc in Hs. by simplify_eq. }
  apply N.nlt_ge in Hge.
  destruct (decide (unreached_states_ s = [])) as [Hu|Hu].
  { rewrite SearchWinner_empty in Hs by done. by simplify_eq. }
  rewrite SearchWinner_advance in Hs by done.
  bind_inv Hs as s2 Hs2. simplify_eq. unfold advance in Hs2.
  bind_inv Hs2 as [searched s1] Hs1. bind_inv Hs2 as [searched' s3] Hs3. simplify_eq.
  pose proof (IterativeSearch_extends _ _ _ _ _ Hs1) as Hext.
  apply IterativeSearch_earliest in Hs1; [|done].
  apply restart_loop_earliest in Hs3; [lia|]. by eapply extends_columns_fit.
Qed.

End LazyEarliest.

(** C9.  In the lazy engine [earliest_time_] never decreases during a
    search: not over a turn of the main loop, not over [IterativeSearch],
    not over [SearchWinner].  In a turn of the main loop, a label whose time
    lies before the watermark is dropped and the engine stays as it is (no
    scanned label, no change to any cache); for any other label the
    watermark becomes the label's time plus one exactly when the label's
    unreached column has become empty, and keeps its value otherwise.
    ([Clear()] starts the engine anew with watermark 0; the trellis is
    taken to have fewer than 2^32 columns, the range of [Time].) *)
Theorem earliest_time_watermark (cm : CostModel) (q : SPQueue) (s : ViterbiSearch.t) :
  N.of_nat (length (ViterbiSearch.unreached_states_ s)) < 4294967296 ->
  (forall tm r s',
      ViterbiSearch.SearchWinner tm s = Ok (r, s') ->
      ViterbiSearch.earliest_time_ s <= ViterbiSearch.earliest_time_ s')
  /\ (forall target request_new_start searched s',
      ViterbiSearch.IterativeSearch target request_new_start s = Ok (searched, s') ->
      ViterbiSearch.earliest_time_ s <= ViterbiSearch.earliest_time_ s')
  /\ (forall target searched label r,
      ViterbiSearch.scan target searched label s = Ok r ->
      let tm := time (LabelTemplate.state label) in
      let s' := ViterbiSearch.turn_state r in
      ViterbiSearch.earliest_time_ s <= ViterbiSearch.earliest_time_ s'
      /\ (tm < ViterbiSearch.earliest_time_ s -> r = ViterbiSearch.Continue searched s)
      /\ (ViterbiSearch.earliest_time_ s <= tm ->
          (ViterbiSearch.unreached_states_ s' !! N.to_nat tm = Some []
           /\ ViterbiSearch.earliest_time_ s' = tm + 1)
          \/ ((exists x column,
                  ViterbiSearch.unreached_states_ s' !! N.to_nat tm = Some (x :: column))
              /\ ViterbiSearch.earliest_time_ s' = ViterbiSearch.earliest_time_ s))).
Proof.
  intros Hfit. split_and!.
  - intros tm r s' Hs. by eapply SearchWinner_earliest.
  - intros target request_new_start searched s' Hs. by eapply IterativeSearch_earliest.
  - intros target searched label r Hs. by eapply scan_earliest.
Qed.

Lemma earliest_time_watermark_witness :
  exists s' : ViterbiSearch.t,
    @ViterbiSearch.SearchWinner Scenario.breakage_costs HeapQueue 1 Scenario.breakage
      = Ok (1, s')
    /\ ViterbiSearch.earliest_time_ Scenario.breakage <= ViterbiSearch.earliest_time_ s'
    /\ ViterbiSearch.earliest_time_ s' = 2.
Proof.
  eexists. split; [vm_compute; reflexivity|]. split; [|vm_compute; reflexivity].
  assert (N.of_nat (length (ViterbiSearch.unreached_states_ Scenario.breakage)) < 4294967296)
    as Hfit by (vm_compute; reflexivity).
  apply (proj1 (earliest_time_watermark Scenario.breakage_costs HeapQueue Scenario.breakage Hfit)
           1 1).
  vm_compute. reflexivity.
Defined.

(** ** The order of costs *)

Lemma cost_ltb_irrefl a : cost_ltb a a = false.
Proof. destruct a; simpl; [done| |done]. apply Z.ltb_irrefl. Qed.

Lemma cost_ltb_trans a b c :
  cost_ltb a b = true -> cost_ltb b c = true -> cost_ltb a c = true.
Proof.
  destruct a, b, c; simpl; try done.
  rewrite !Z.ltb_lt. lia.
Qed.

Lemma cost_ltb_asym a b : cost_ltb a b = true -> cost_ltb b a = false.
Proof. destruct a, b; simpl; try done. rewrite Z.ltb_lt, Z.ltb_ge. lia. Qed.

Lemma cost_leb_refl a : cost_leb a a = true.
Proof. unfold cost_leb. by rewrite cost_ltb_irrefl. Qed.

Lemma cost_leb_trans a b c :
  cost_leb a b = true -> cost_leb b c = true -> cost_leb a c = true.
Proof.
  unfold cost_leb. destruct a, b, c; simpl; try done.
  rewrite !negb_true_iff, !Z.ltb_ge. lia.
Qed.

Lemma cost_leb_total a b : cost_leb a b = true \/ cost_leb b a = true.
Proof.
  unfold cost_leb. destruct a, b; simpl; auto.
  rewrite !negb_true_iff, !Z.ltb_ge. lia.
Qed.

Lemma cost_ltb_leb a b : cost_ltb a b = true -> cost_leb a b = true.
Proof. intros Hlt. unfold cost_leb. by rewrite (cost_ltb_asym a b). Qed.

Lemma cost_leb_antisym a b : cost_leb a b = true -> cost_leb b a = true -> a = b.
Proof.
  unfold cost_leb. destruct a, b; simpl; try done.
  rewrite !negb_true_iff, !Z.ltb_ge. intros. f_equal. lia.
Qed.

Lemma cost_eqb_eq a b : cost_eqb a b = true <-> a = b.
Proof.
  destruct a, b; simpl; try done.
  rewrite Z.eqb_eq. split; [by intros ->|by intros [= ->]].
Qed.

Lemma cost_ltb_leb_trans a b c :
  cost_ltb a b = true -> cost_leb b c = true -> cost_ltb a c = true.
Proof.
  unfold cost_leb. destruct a, b, c; simpl; try done.
  rewrite negb_true_iff, !Z.ltb_lt, Z.ltb_ge. lia.
Qed.

Lemma cost_leb_ltb_trans a b c :
  cost_leb a b = true -> cost_ltb b c = true -> cost_ltb a c = true.
Proof.
  unfold cost_leb. destruct a, b, c; simpl; try done.
  rewrite negb_true_iff, !Z.ltb_lt, Z.ltb_ge. lia.
Qed.

(** ** Winners of the naive engine *)

Section NaiveWinner.
Import NaiveViterbiSearch.
Context `{CostModel} `{LabelOrder} (Maximize : bool).
Local Abbreviation at_least_as_good := (at_least_as_good Maximize).
Local Abbreviation optimal_label := (optimal_label Maximize).
Local Abbreviation winner_of := (winner_of Maximize).

Lemma min_element_least (labels : list Label) (m : Label) :
  min_element (fun left right =>
                 cost_ltb (LabelTemplate.costsofar left) (LabelTemplate.costsofar right))
              labels = Some m ->
  m ∈ labels
  /\ forall l, l ∈ labels ->
               cost_leb (LabelTemplate.costsofar m) (LabelTemplate.costsofar l) = true.
Proof.
  destruct labels as [|x labels]; [done|]. simpl. intros [= <-].
  assert (forall (rest seen : list Label) (best : Label),
             best ∈ seen ->
             (forall l, l ∈ seen ->
                        cost_leb (LabelTemplate.costsofar best) (LabelTemplate.costsofar l) = true) ->
             let m := foldl (fun smallest y =>
                               if cost_ltb (LabelTemplate.costsofar y)
                                    (LabelTemplate.costsofar smallest)
                               then y else smallest) best rest in
             m ∈ seen ++ rest
             /\ forall l, l ∈ seen ++ rest ->
                          cost_leb (LabelTemplate.costsofar m) (LabelTemplate.costsofar l) = true)
    as Hfold.
  { induction rest as [|y rest IH]; intros seen best Hin Hleast; simpl.
    - rewrite app_nil_r. done.
    - replace (seen ++ y :: rest) with ((seen ++ [y]) ++ rest) by by rewrite <- app_assoc.
      destruct (cost_ltb (LabelTemplate.costsofar y) (LabelTemplate.costsofar best)) eqn:Hlt.
      + apply IH; [apply elem_of_app; right; by apply list_elem_of_singleton|].
        intros l [Hl| ->%list_elem_of_singleton]%elem_of_app; [|apply cost_leb_refl].
        eapply cost_leb_trans; [by apply cost_ltb_leb|by apply Hleast].
      + apply IH; [apply elem_of_app; by left|].
        intros l [Hl| ->%list_elem_of_singleton]%elem_of_app; [by apply Hleast|].
        unfold cost_leb. by rewrite Hlt. }
  specialize (Hfold labels [x] x). simpl in Hfold.
  apply Hfold; [by apply list_elem_of_singleton|].
  intros l ->%list_elem_of_singleton. apply cost_leb_refl.
Qed.

Lemma max_element_greatest (labels : list Label) (m : Label) :
  max_element (fun left right =>
                 cost_ltb (LabelTemplate.costsofar left) (LabelTemplate.costsofar right))
              labels = Some m ->
  m ∈ labels
  /\ forall l, l ∈ labels ->
               cost_leb (LabelTemplate.costsofar l) (LabelTemplate.costsofar m) = true.
Proof.
  destruct labels as [|x labels]; [done|]. simpl. intros [= <-].
  assert (forall (rest seen : list Label) (best : Label),
             best ∈ seen ->
             (forall l, l ∈ seen ->
                        cost_leb (LabelTemplate.costsofar l) (LabelTemplate.costsofar best) = true) ->
             let m := foldl (fun largest y =>
                               if cost_ltb (LabelTemplate.costsofar largest)
                                    (LabelTemplate.costsofar y)
                               then y else largest) best rest in
             m ∈ seen ++ rest
             /\ forall l, l ∈ seen ++ rest ->
                          cost_leb (LabelTemplate.costsofar l) (LabelTemplate.costsofar m) = true)
    as Hfold.
  { induction rest as [|y rest IH]; intros seen best Hin Hleast; simpl.
    - rewrite app_nil_r. done.
    - replace (seen ++ y :: rest) with ((seen ++ [y]) ++ rest) by by rewrite <- app_assoc.
      destruct (cost_ltb (LabelTemplate.costsofar best) (LabelTemplate.costsofar y)) eqn:Hlt.
      + apply IH; [apply elem_of_app; right; by apply list_elem_of_singleton|].
        intros l [Hl| ->%list_elem_of_singleton]%elem_of_app; [|apply cost_leb_refl].
        eapply cost_leb_trans; [by apply Hleast|by apply cost_ltb_leb].
      + apply IH; [apply elem_of_app; by left|].
        intros l [Hl| ->%list_elem_of_singleton]%elem_of_app; [by apply Hleast|].
        unfold cost_leb. by rewrite Hlt. }
  specialize (Hfold labels [x] x). simpl in Hfold.
  apply Hfold; [by apply list_elem_of_singleton|].
  intros l ->%list_elem_of_singleton. apply cost_leb_refl.
Qed.

(** The invalid cost is the worst cost of the polarity. *)
Lemma kInvalidCost_worst a : at_least_as_good a (kInvalidCost Maximize) = true.
Proof. unfold at_least_as_good, kInvalidCost, cost_leb. by destruct Maximize, a. Qed.

Lemma worst_is_invalid a :
  at_least_as_good (kInvalidCost Maximize) a = true -> a = kInvalidCost Maximize.
Proof. unfold at_least_as_good, kInvalidCost, cost_leb. by destruct Maximize, a. Qed.

Lemma FindWinner_winner_of labels : winner_of labels (FindWinner Maximize labels).
Proof.
  unfold FindWinner, winner_of.
  assert (forall m,
             (if Maximize
              then max_element (fun left right =>
                     cost_ltb (LabelTemplate.costsofar left) (LabelTemplate.costsofar right)) labels
              else min_element (fun left right =>
                     cost_ltb (LabelTemplate.costsofar left) (LabelTemplate.costsofar right)) labels)
             = Some m ->
             m ∈ labels
             /\ forall l, l ∈ labels ->
                          at_least_as_good (LabelTemplate.costsofar m)
                            (LabelTemplate.costsofar l) = true) as Hbest.
  { unfold at_least_as_good. destruct Maximize; intros m Hm.
    - by apply max_element_greatest.
    - by apply min_element_least. }
  destruct (if Maximize then _ else _) as [m|] eqn:Hm.
  - destruct (Hbest m eq_refl) as [Hin Hopt].
    destruct (cost_eqb (LabelTemplate.costsofar m) (kInvalidCost Maximize)) eqn:Hinv.
    + apply cost_eqb_eq in Hinv. intros l Hl. apply worst_is_invalid.
      rewrite <- Hinv. by apply Hopt.
    + exists m. split; [|done]. split_and!; [done| |by auto].
      intros Heq. apply cost_eqb_eq in Heq. congruence.
  - intros l Hl. destruct labels; [by apply elem_of_nil in Hl|].
    by destruct Maximize.
Qed.

(** [FindWinner] finds nothing exactly when no label has a valid cost. *)
Lemma FindWinner_None labels :
  FindWinner Maximize labels = None <->
  forall l, l ∈ labels -> LabelTemplate.costsofar l = kInvalidCost Maximize.
Proof.
  pose proof (FindWinner_winner_of labels) as Hw. split.
  - intros Hnone. by rewrite Hnone in Hw.
  - intros Hall. destruct (FindWinner Maximize labels) as [st|]; [|done].
    destruct Hw as (l & (Hin & Hvalid & _) & _). by destruct Hvalid; apply Hall.
Qed.

End NaiveWinner.

(** ** The columns the naive engine fills *)

Section NaiveFill.
Import NaiveViterbiSearch.
Context `{CostModel} `{LabelOrder} (Maximize : bool).
Local Abbreviation column_filled := (column_filled Maximize).

Lemma column_filled_extends s s' k :
  naive_extends s s' -> column_filled s k -> column_filled s' k.
Proof.
  intros (Hw & Hh & Hst & _) (column & Hcol & Hprev & Hlab & Hwin).
  exists column. rewrite Hst. split; [done|]. split.
  { destruct Hprev as [->|[prev Hprev]]; [by left|right].
    exists prev. by eapply prefix_lookup_Some. }
  simpl in *. destruct k as [|k'].
  - split; by eapply prefix_lookup_Some.
  - destruct Hprev as [?|[prev Hprev]]; [done|]. simpl in Hprev.
    rewrite Hprev in Hlab, Hwin.
    rewrite (prefix_lookup_Some _ _ _ _ Hprev Hh).
    split; by eapply prefix_lookup_Some.
Qed.

Lemma fill_column_filled tm s s' :
  fill_column Maximize tm s = Ok s' ->
  length (history_ s) = N.to_nat tm ->
  length (winner_ s) = N.to_nat tm ->
  column_filled s' (N.to_nat tm)
  /\ length (history_ s') = S (N.to_nat tm)
  /\ length (winner_ s') = S (N.to_nat tm).
Proof.
  intros (column & labels & Hcol & Hlab & Hprev & ->)%fill_column_Ok Hh Hw. simpl.
  rewrite !length_app. simpl. split; [|lia].
  exists column. simpl. split; [done|].
  assert (forall prev, last (history_ s) = Some prev ->
                       (history_ s ++ [labels]) !! pred (N.to_nat tm) = Some prev) as Hlast.
  { intros prev Hl. rewrite last_lookup, Hh in Hl. by apply lookup_app_l_Some. }
  split.
  { destruct Hprev as [->|[prev Hl]]; [by left|right]. exists prev. by apply Hlast. }
  assert (labels = column_labels Maximize column
                     match N.to_nat tm with
                     | O => None
                     | S k' => (history_ s ++ [labels]) !! k'
                     end) as <-.
  { rewrite Hlab at 1. f_equal.
    destruct (tm =? 0) eqn:Htm.
    - apply N.eqb_eq in Htm as ->. done.
    - apply N.eqb_neq in Htm. destruct (N.to_nat tm) as [|k'] eqn:Hk; [lia|].
      destruct Hprev as [->|[prev Hl]]; [done|].
      rewrite Hl. symmetry. by apply Hlast. }
  split.
  - rewrite lookup_app_r by lia. by rewrite Hh, Nat.sub_diag.
  - rewrite lookup_app_r by lia. by rewrite Hw, Nat.sub_diag.
Qed.

Lemma fill_filled fuel tm target s s' :
  fill Maximize fuel tm target s = Ok s' ->
  length (history_ s) = N.to_nat tm ->
  length (winner_ s) = N.to_nat tm ->
  target < 4294967295 ->
  forall k, tm <= k <= target -> column_filled s' (N.to_nat k).
Proof.
  revert tm s. induction fuel as [|fuel IH]; intros tm s Hs Hh Hw Hfit k Hk; simpl in Hs.
  - destruct (tm <=? target) eqn:Hle; [done|]. apply N.leb_gt in Hle. lia.
  - destruct (tm <=? target) eqn:Hle; [|apply N.leb_gt in Hle; lia].
    apply N.leb_le in Hle. bind_inv Hs as s1 Hs1.
    destruct (fill_column_filled _ _ _ Hs1 Hh Hw) as (Hfilled & Hh1 & Hw1).
    assert (u32 (tm + 1) = tm + 1) as Hu by (unfold u32; apply N.mod_small; lia).
    rewrite Hu in Hs.
    destruct (decide (k = tm)) as [->|Hne].
    + eapply column_filled_extends; [by eapply fill_extends|done].
    + eapply IH; [done|lia..].
Qed.

Lemma fill_column_total tm s :
  (N.to_nat tm < length (states_ s))%nat ->
  length (history_ s) = N.to_nat tm ->
  exists s', fill_column Maximize tm s = Ok s'.
Proof.
  intros Hlt Hh. unfold fill_column.
  destruct (lookup_lt_is_Some_2 (states_ s) (N.to_nat tm) Hlt) as [column ->].
  destruct (tm =? 0) eqn:Htm; simpl.
  - repeat case_match; eauto.
  - apply N.eqb_neq in Htm.
    destruct (last (history_ s)) as [prev|] eqn:Hlast.
    + simpl. repeat case_match; eauto.
    + apply last_None in Hlast. rewrite Hlast in Hh. simpl in Hh. lia.
Qed.

Lemma fill_total fuel tm target s :
  target < N.of_nat (length (states_ s)) ->
  N.of_nat (length (states_ s)) < 4294967296 ->
  length (history_ s) = N.to_nat tm ->
  length (winner_ s) = N.to_nat tm ->
  (N.to_nat (target + 1 - tm) <= fuel)%nat ->
  exists s', fill Maximize fuel tm target s = Ok s'.
Proof.
  revert tm s. induction fuel as [|fuel IH]; intros tm s Hlt Hfit Hh Hw Hfuel; simpl.
  - destruct (tm <=? target) eqn:Hle; [apply N.leb_le in Hle; lia|eauto].
  - destruct (tm <=? target) eqn:Hle; [|eauto]. apply N.leb_le in Hle.
    destruct (fill_column_total tm s) as [s1 Hs1]; [lia|done|].
    rewrite Hs1. simpl.
    destruct (fill_column_filled _ _ _ Hs1 Hh Hw) as (_ & Hh1 & Hw1).
    pose proof (fill_column_extends _ _ _ _ Hs1) as (_ & _ & Hst & _).
    assert (u32 (tm + 1) = tm + 1) as Hu by (unfold u32; apply N.mod_small; lia).
    rewrite Hu. apply IH; rewrite ?Hst; (done || lia).
Qed.

End NaiveFill.

(** C4.  Naive engine, either polarity.  A query for a column of the
    trellis returns, and for every column [tm] it fills on the way: the
    winner kept for [tm] is the state of a label of [tm] whose cost is valid
    and which no label of valid cost beats (and is absent only when no label
    of [tm] has a valid cost); at time 0 the labels carry the emission costs;
    at a later time, when relaxation from the labels of the previous
    column leaves no label of valid cost, the labels of [tm] are built
    anew from the emission costs alone, without predecessor, and otherwise
    they are the relaxed labels.  The value returned is the id of the
    winner kept for the queried time. *)
Theorem naive_winner_and_restart (cm : CostModel) (lo : LabelOrder) (Maximize : bool)
    (target : Time) (s : NaiveViterbiSearch.t) :
  length (NaiveViterbiSearch.history_ s) = length (NaiveViterbiSearch.winner_ s) ->
  N.of_nat (length (NaiveViterbiSearch.states_ s)) < 4294967296 ->
  target < N.of_nat (length (NaiveViterbiSearch.states_ s)) ->
  exists r s',
    NaiveViterbiSearch.SearchWinner Maximize target s = Ok (r, s')
    /\ forall tm, N.of_nat (length (NaiveViterbiSearch.winner_ s)) <= tm <= target ->
       exists column labels winner,
         NaiveViterbiSearch.states_ s !! N.to_nat tm = Some column
         /\ NaiveViterbiSearch.history_ s' !! N.to_nat tm = Some labels
         /\ NaiveViterbiSearch.winner_ s' !! N.to_nat tm = Some winner
         /\ winner_of Maximize labels winner
         /\ (tm = target -> r = id_or_invalid winner)
         /\ (tm = 0 ->
             labels = map (fun st => LabelTemplate.mk (EmissionCost st) st None) column)
         /\ (0 < tm ->
             exists prev_labels,
               NaiveViterbiSearch.history_ s' !! N.to_nat (tm - 1) = Some prev_labels
               /\ let relaxed :=
                    NaiveViterbiSearch.UpdateLabels Maximize
                      (NaiveViterbiSearch.InitLabels Maximize column false) prev_labels in
                  ((forall l, l ∈ relaxed ->
                              LabelTemplate.costsofar l = NaiveViterbiSearch.kInvalidCost Maximize) ->
                   labels = map (fun st => LabelTemplate.mk (EmissionCost st) st None) column)
                  /\ ((exists l, l ∈ relaxed
                                 /\ LabelTemplate.costsofar l
                                    <> NaiveViterbiSearch.kInvalidCost Maximize) ->
                      labels = relaxed)).
Proof.
  intros Hh Hfit Hlt.
  destruct (decide (target < N.of_nat (length (NaiveViterbiSearch.winner_ s)))) as [Hc|Hc].
  { destruct (naive_SearchWinner_cached Maximize target s) as (w & Hw & Hs); [done..|].
    eexists _, _. split; [done|]. intros tm Htm. lia. }
  apply N.nlt_ge in Hc.
  assert (NaiveViterbiSearch.SearchWinner Maximize target s =
            s' ← NaiveViterbiSearch.fill Maximize (S (N.to_nat target))
                   (N.of_nat (length (NaiveViterbiSearch.winner_ s))) target s;
            match NaiveViterbiSearch.winner_ s' !! N.to_nat target with
            | Some w => Ok (id_or_invalid w, s')
            | None => Throw undefined_behaviour
            end) as Hunfold.
  { unfold NaiveViterbiSearch.SearchWinner.
    apply N.leb_gt in Hlt. apply N.ltb_ge in Hc. rewrite Hlt, Hc.
    unfold u32. rewrite N.mod_small; [done|]. apply N.ltb_ge in Hc. apply N.leb_gt in Hlt. lia. }
  destruct (fill_total Maximize (S (N.to_nat target))
              (N.of_nat (length (NaiveViterbiSearch.winner_ s))) target s)
    as [s' Hs']; [done|done|lia|lia|lia|].
  assert (forall k, N.of_nat (length (NaiveViterbiSearch.winner_ s)) <= k <= target ->
                    column_filled Maximize s' (N.to_nat k)) as Hfilled.
  { eapply fill_filled; [done|lia|lia|lia]. }
  pose proof (fill_extends _ _ _ _ _ _ Hs') as (_ & _ & Hst & _).
  destruct (Hfilled target) as (tcolumn & _ & _ & _ & Htw); [lia|].
  rewrite Hunfold, Hs'. simpl. rewrite Htw.
  eexists _, _. split; [done|]. intros tm Htm.
  destruct (Hfilled tm Htm) as (column & Hcol & Hprev & Hlab & Hwin).
  rewrite Hst in Hcol. simpl in Hlab, Hwin.
  eexists column, _, _. split; [done|]. split; [done|]. split; [done|].
  split; [apply FindWinner_winner_of|].
  split.
  { intros ->. rewrite Hwin in Htw. injection Htw as Htw. by rewrite Htw. }
  split.
  { intros ->. done. }
  intros Hpos. destruct (N.to_nat tm) as [|k'] eqn:Hk; [lia|].
  destruct Hprev as [?|[prev Hprev]]; [done|]. simpl in Hprev.
  exists prev. replace (N.to_nat (tm - 1)) with k' by lia. split; [done|].
  rewrite Hprev. unfold column_labels. simpl. split.
  - intros Hnone%FindWinner_None. by rewrite Hnone.
  - intros (l & Hin & Hvalid).
    destruct (NaiveViterbiSearch.FindWinner Maximize
                (NaiveViterbiSearch.UpdateLabels Maximize
                   (NaiveViterbiSearch.InitLabels Maximize column false) prev))
      as [st|] eqn:Hw; [done|].
    destruct Hvalid. eapply FindWinner_None; done.
Qed.

Lemma naive_winner_and_restart_witness :
  exists r s',
    @NaiveViterbiSearch.SearchWinner Scenario.naive_breakage_costs Scenario.no_tie_break false 2
      (NaiveViterbiSearch.create [[Scenario.a]; [Scenario.b]; [Scenario.c]]) = Ok (r, s')
    /\ r = id Scenario.c
    /\ NaiveViterbiSearch.winner_ s'
       = [Some Scenario.a; Some Scenario.b; Some Scenario.c]
    /\ NaiveViterbiSearch.history_ s' !! 1%nat
       = Some [LabelTemplate.mk (Fin 0) Scenario.b None].
Proof.
  destruct (naive_winner_and_restart Scenario.naive_breakage_costs Scenario.no_tie_break false 2
              (NaiveViterbiSearch.create [[Scenario.a]; [Scenario.b]; [Scenario.c]]))
    as (r & s' & Hs & _); [reflexivity|vm_compute; reflexivity|vm_compute; reflexivity|].
  exists r, s'. split; [exact Hs|].
  vm_compute in Hs. injection Hs as <- <-. vm_compute. auto.
Defined.

(** ** The queue *)

Lemma pop_None q : pop q = None <-> q = [].
Proof.
  split; [|by intros ->]. destruct q as [|l q]; [done|]. simpl.
  destruct (pop q) as [[m r]|]; [|done]. by case_match.
Qed.

(** [pop] takes one label of least cost out of the queue. *)
Lemma pop_Some q l q' :
  pop q = Some (l, q') ->
  q ≡ₚ l :: q'
  /\ forall m, m ∈ q ->
               cost_leb (LabelTemplate.sortcost l) (LabelTemplate.sortcost m) = true.
Proof.
  revert l q'. induction q as [|x q IH]; intros l q' Hpop; [done|]. simpl in Hpop.
  destruct (pop q) as [[m r]|] eqn:Hq.
  - destruct (IH m r eq_refl) as [Hperm Hmin].
    destruct (cost_ltb (LabelTemplate.sortcost m) (LabelTemplate.sortcost x)) eqn:Hlt;
      simplify_eq.
    + split.
      * rewrite Hperm. apply perm_swap.
      * intros y [->|Hy]%elem_of_cons; [by apply cost_ltb_leb|by apply Hmin].
    + split; [done|].
      intros y [->|Hy]%elem_of_cons; [apply cost_leb_refl|].
      eapply cost_leb_trans; [|by apply Hmin].
      unfold cost_leb. by rewrite Hlt.
  - simplify_eq. apply pop_None in Hq as ->. split; [done|].
    intros y ->%list_elem_of_singleton. apply cost_leb_refl.
Qed.

Lemma pop_length q l q' : pop q = Some (l, q') -> length q = S (length q').
Proof. intros [Hperm _]%pop_Some. by rewrite Hperm. Qed.

Global Instance HeapQueue_laws : SPQueueLaws HeapQueue.
Proof.
  split; simpl; unfold heap_push.
  - intros l q l' [?| ->%list_elem_of_singleton]%elem_of_app; auto.
  - intros l q. rewrite length_app. simpl. lia.
  - intros l q. exists l. split_and!; [|done|apply cost_leb_refl].
    apply elem_of_app. right. by apply list_elem_of_singleton.
  - intros l q m Hm. exists m. split_and!; [|done|apply cost_leb_refl].
    apply elem_of_app. by left.
Qed.

Lemma keyed_push_ids l q :
  forall i, i ∈ LabelTemplate.id <$> keyed_push l q ->
            i = LabelTemplate.id l \/ i ∈ LabelTemplate.id <$> q.
Proof.
  induction q as [|m q IH]; intros i; simpl.
  - intros ->%list_elem_of_singleton. by left.
  - destruct (LabelTemplate.id m =? LabelTemplate.id l) eqn:Heq.
    + apply N.eqb_eq in Heq. destruct (cost_ltb _ _); simpl.
      * intros [->|Hi]%elem_of_cons; [by left|right; by apply elem_of_cons; right].
      * auto.
    + simpl. intros [->|Hi]%elem_of_cons.
      * right. apply elem_of_cons. by left.
      * destruct (IH i Hi) as [->|?]; [by left|right]. apply elem_of_cons. by right.
Qed.

Global Instance KeyedQueue_laws : SPQueueLaws KeyedQueue.
Proof.
  split; simpl.
  - intros l q. induction q as [|m q IH]; intros l'; simpl.
    + intros ->%list_elem_of_singleton. by left.
    + destruct (LabelTemplate.id m =? LabelTemplate.id l); [destruct (cost_ltb _ _)|].
      * intros [->|?]%elem_of_cons; [by left|right; by apply elem_of_cons; right].
      * auto.
      * intros [->|Hl']%elem_of_cons; [right; apply elem_of_cons; by left|].
        destruct (IH l' Hl') as [->|?]; [by left|right; by apply elem_of_cons; right].
  - intros l q. induction q as [|m q IH]; simpl; [lia|].
    destruct (LabelTemplate.id m =? LabelTemplate.id l); [destruct (cost_ltb _ _)|];
      simpl; lia.
  - intros l q. induction q as [|m q IH]; simpl.
    + exists l. split_and!; [by apply list_elem_of_singleton|done|apply cost_leb_refl].
    + destruct (LabelTemplate.id m =? LabelTemplate.id l) eqn:Heq.
      * apply N.eqb_eq in Heq.
        destruct (cost_ltb (LabelTemplate.sortcost l) (LabelTemplate.sortcost m)) eqn:Hlt.
        -- exists l. split_and!; [apply elem_of_cons; by left|done|apply cost_leb_refl].
        -- exists m. split_and!; [apply elem_of_cons; by left|done|].
           unfold cost_leb. by rewrite Hlt.
      * destruct IH as (l' & Hin & Hid & Hle). exists l'.
        split_and!; [apply elem_of_cons; by right|done..].
  - intros l q. induction q as [|x q IH]; intros m Hm; [by apply elem_of_nil in Hm|].
    simpl. destruct (LabelTemplate.id x =? LabelTemplate.id l) eqn:Heq.
    + apply N.eqb_eq in Heq.
      destruct (cost_ltb (LabelTemplate.sortcost l) (LabelTemplate.sortcost x)) eqn:Hlt.
      * apply elem_of_cons in Hm as [->|Hm].
        -- exists l. split_and!; [apply elem_of_cons; by left|done|by apply cost_ltb_leb].
        -- exists m. split_and!; [apply elem_of_cons; by right|done|apply cost_leb_refl].
      * exists m. split_and!; [done|done|apply cost_leb_refl].
    + apply elem_of_cons in Hm as [->|Hm].
      * exists x. split_and!; [apply elem_of_cons; by left|done|apply cost_leb_refl].
      * destruct (IH m Hm) as (m' & Hin & Hid & Hle). exists m'.
        split_and!; [apply elem_of_cons; by right|done..].
Qed.

Global Instance KeyedQueue_keyed : SPQueueKeyed KeyedQueue.
Proof.
  split. intros l q. simpl. induction q as [|m q IH]; simpl; intros Hnd.
  - apply NoDup_singleton.
  - apply NoDup_cons in Hnd as [Hm Hnd].
    destruct (LabelTemplate.id m =? LabelTemplate.id l) eqn:Heq.
    + apply N.eqb_eq in Heq. destruct (cost_ltb _ _); simpl.
      * apply NoDup_cons. split; [by rewrite <- Heq|done].
      * by apply NoDup_cons.
    + apply N.eqb_neq in Heq. simpl. apply NoDup_cons. split; [|by apply IH].
      intros [Hi|Hi]%keyed_push_ids; done.
Qed.

(** ** Pushing the labels of a column *)

Section PushColumn.
Import ViterbiSearch.
Context {Q : SPQueue} `{!SPQueueLaws Q}.
Context (f : State -> option Label).

Lemma push_column_sound column q l :
  l ∈ foldl (fun q st => push_some q (f st)) q column ->
  l ∈ q \/ exists st, st ∈ column /\ f st = Some l.
Proof.
  revert q. induction column as [|x column IH]; intros q Hl; simpl in Hl; [by left|].
  apply IH in Hl as [Hl|(st & Hst & Hf)].
  - unfold push_some in Hl. destruct (f x) as [lx|] eqn:Hfx; [|by left].
    apply push_sound in Hl as [->|Hl]; [|by left].
    right. exists x. split; [apply elem_of_cons; by left|done].
  - right. exists st. split; [apply elem_of_cons; by right|done].
Qed.

Lemma push_column_keeps column q m :
  m ∈ q ->
  exists m', m' ∈ foldl (fun q st => push_some q (f st)) q column
             /\ LabelTemplate.id m' = LabelTemplate.id m
             /\ cost_leb (LabelTemplate.sortcost m') (LabelTemplate.sortcost m) = true.
Proof.
  revert q m. induction column as [|x column IH]; intros q m Hm; simpl.
  { exists m. split_and!; [done|done|apply cost_leb_refl]. }
  assert (exists m1, m1 ∈ push_some q (f x)
                     /\ LabelTemplate.id m1 = LabelTemplate.id m
                     /\ cost_leb (LabelTemplate.sortcost m1) (LabelTemplate.sortcost m) = true)
    as (m1 & Hm1 & Hid1 & Hle1).
  { unfold push_some. destruct (f x) as [lx|].
    - by apply push_keeps.
    - exists m. split_and!; [done|done|apply cost_leb_refl]. }
  destruct (IH _ _ Hm1) as (m' & Hm' & Hid & Hle). exists m'.
  split_and!; [done|congruence|by eapply cost_leb_trans].
Qed.

Lemma push_column_adds column q st l :
  st ∈ column -> f st = Some l ->
  exists l', l' ∈ foldl (fun q st => push_some q (f st)) q column
             /\ LabelTemplate.id l' = LabelTemplate.id l
             /\ cost_leb (LabelTemplate.sortcost l') (LabelTemplate.sortcost l) = true.
Proof.
  revert q. induction column as [|x column IH]; intros q Hst Hf; simpl.
  { by apply elem_of_nil in Hst. }
  apply elem_of_cons in Hst as [->|Hst]; [|by apply IH].
  rewrite Hf. simpl. destruct (push_adds l q) as (l1 & Hl1 & Hid1 & Hle1).
  destruct (push_column_keeps column _ _ Hl1) as (l' & Hl' & Hid & Hle). exists l'.
  split_and!; [done|congruence|by eapply cost_leb_trans].
Qed.

Lemma push_column_length column q :
  (length (foldl (fun q st => push_some q (f st)) q column) <= length q + length column)%nat.
Proof.
  revert q. induction column as [|x column IH]; intros q; simpl; [lia|].
  etrans; [apply IH|]. unfold push_some. destruct (f x) as [lx|]; [|lia].
  pose proof (push_length lx q). lia.
Qed.

Lemma push_column_keyed `{!SPQueueKeyed Q} column q :
  NoDup (LabelTemplate.id <$> q) ->
  NoDup (LabelTemplate.id <$> foldl (fun q st => push_some q (f st)) q column).
Proof.
  revert q. induction column as [|x column IH]; intros q Hq; simpl; [done|].
  apply IH. unfold push_some. destruct (f x) as [lx|]; [|done]. by apply push_keyed.
Qed.

End PushColumn.

(** ** The structure the lazy engine maintains *)

Lemma elem_of_delete_NoDup {A : Type} (l : list A) (k : nat) (x y : A) :
  NoDup l -> l !! k = Some x -> y ∈ delete k l <-> y ∈ l /\ y <> x.
Proof.
  intros Hnd Hk. rewrite delete_take_drop.
  rewrite <- (take_drop_middle l k x Hk) in Hnd at 1.
  rewrite <- (take_drop_middle l k x Hk) at 3.
  apply NoDup_app in Hnd as (_ & Hdisj & [Hx _]%NoDup_cons).
  rewrite !elem_of_app, elem_of_cons. split.
  - intros [Hy|Hy]; (split; [by auto|]); intros ->; [|done].
    apply (Hdisj x Hy). apply elem_of_cons. by left.
  - intros [[Hy|[->|Hy]] Hne]; by auto.
Qed.

Section LazyInvariant.
Import ViterbiSearch.

Lemma grows_refl s : grows s s.
Proof. by repeat split. Qed.

Lemma grows_trans s1 s2 s3 : grows s1 s2 -> grows s2 s3 -> grows s1 s3.
Proof.
  intros (?&?&?&?) (?&?&?&?). split_and!; [congruence|congruence|lia|by etrans].
Qed.

Lemma in_table_grows s s' st : grows s s' -> in_table s st -> in_table s' st.
Proof. unfold in_table. by intros (-> & _). Qed.

Lemma settled_grows s s' st : grows s s' -> settled s st -> settled s' st.
Proof.
  intros (_ & _ & _ & Hsub) (l & Hl & Hst). exists l. split; [|done].
  by eapply lookup_weaken.
Qed.

Lemma label_ok_grows s s' l : grows s s' -> label_ok s l -> label_ok s' l.
Proof.
  intros Hg (Htab & Hw & Hu & Hpred). pose proof Hg as (Hst & Hlen & Hwin & Hsub).
  split_and!; [by eapply in_table_grows|lia|lia|].
  intros p Hp. destruct (Hpred p Hp) as (? & ? & ?).
  split_and!; [by eapply settled_grows|by eapply in_table_grows|done].
Qed.

(** Two states of the table with one id are one state. *)
Lemma in_table_inj s x y : in_table s x -> in_table s y -> id x = id y -> x = y.
Proof. unfold in_table. intros Hx Hy Heq. rewrite Heq in Hx. congruence. Qed.

Lemma create_inv columns : wf_trellis columns -> lazy_inv (create columns).
Proof.
  intros (Hids & Hfit & Hid & Htime).
  assert (forall k column st, columns !! k = Some column -> st ∈ column ->
                              in_table (create columns) st) as Htab.
  { intros k column st Hcol Hst. unfold in_table. simpl.
    assert (st ∈ concat columns) as [j Hj]%list_elem_of_lookup.
    { apply list_elem_of_In, in_concat. exists column.
      split; apply list_elem_of_In; [by eapply list_elem_of_lookup_2|done]. }
    rewrite (Hid j st Hj). by rewrite Nat2N.id. }
  split; simpl.
  - done.
  - done.
  - unfold bounded. simpl. lia.
  - intros k column st Hcol Hst. split_and!; [by eapply Htime|by eapply Htab|done].
  - intros k column Hcol.
    assert (NoDup (concat columns)) as Hnd.
    { apply NoDup_alt. intros i j st Hi Hj.
      apply Hid in Hi, Hj. lia. }
    assert (column `sublist_of` concat columns) as Hsub; [|by eapply sublist_NoDup].
    apply list_elem_of_lookup_2 in Hcol.
    apply list_elem_of_split in Hcol as (l1 & l2 & ->).
    rewrite concat_app. simpl. apply sublist_inserts_l. by apply sublist_inserts_r.
  - done.
  - done.
  - intros l Hl. by apply elem_of_nil in Hl.
  - split; [lia|]. intros Hpos. lia.
  - intros st Hst Htm. left. unfold in_table in Hst. simpl in Hst.
    apply list_elem_of_lookup_2, list_elem_of_In, in_concat in Hst as (column & Hcol & Hst).
    apply list_elem_of_In in Hcol, Hst.
    apply list_elem_of_lookup in Hcol as [k Hcol].
    rewrite (Htime k column st Hcol Hst). rewrite Nat2N.id. eauto.
Qed.

End LazyInvariant.

(** ** Settling a state keeps the structure *)

Section LazySettle.
Import ViterbiSearch.

Lemma lazy_inv_set_queue q s :
  lazy_inv s -> (forall l, l ∈ q -> label_ok s l) -> lazy_inv (set_queue q s).
Proof. intros [] Hq. by split. Qed.

Lemma settle_fields_inv s label column k x winner' earliest' :
  let y := LabelTemplate.state label in
  lazy_inv s ->
  label_ok s label ->
  scanned_labels_ s !! id y = None ->
  unreached_states_ s !! N.to_nat (time y) = Some column ->
  list_find (fun z => id y = id z) column = Some (k, x) ->
  (winner' = winner_ s /\ time y < N.of_nat (length (winner_ s)))
  \/ (winner' = winner_ s ++ [Some y] /\ time y = N.of_nat (length (winner_ s))) ->
  (delete k column = [] /\ earliest' = u32 (time y + 1))
  \/ (delete k column <> [] /\ earliest' = earliest_time_ s) ->
  let s' := mk (state_ s) winner'
               (<[N.to_nat (time y) := delete k column]> (unreached_states_ s))
               (queue_ s) (<[id y := label]> (scanned_labels_ s)) earliest' in
  lazy_inv s' /\ grows s s' /\ time y < N.of_nat (length winner').
Proof.
  intros y Hinv Hlabel Hfresh Hcol Hfind Hwin Hear s'.
  destruct Hinv as [Hids Hfit Hb Hunr Hnd Hsc Hw Hq He Hpart].
  destruct Hlabel as (Hytab & Hyw & Hyu & Hypred).
  change (LabelTemplate.state label) with y in Hytab, Hyw, Hyu, Hypred.
  apply list_find_Some in Hfind as (Hk & Hidx & _).
  assert (x ∈ column) as Hx by by eapply list_elem_of_lookup_2.
  assert (x = y) as ->.
  { destruct (Hunr _ _ _ Hcol Hx) as (_ & Hxtab & _). by eapply in_table_inj. }
  assert (time y < N.of_nat (length winner')) as Hlt.
  { destruct Hwin as [[-> ?]|[-> ?]]; [done|]. rewrite length_app. simpl. lia. }
  assert (length (winner_ s) <= length winner')%nat as Hlen.
  { destruct Hwin as [[-> ?]|[-> ?]]; [done|]. rewrite length_app. lia. }
  assert (grows s s') as Hg.
  { split_and!; simpl; [done|by rewrite length_insert|done|by apply insert_subseteq]. }
  assert (forall st, in_table s st -> st <> y -> id y <> id st) as Hne.
  { intros st Hst Hneq Heq. apply Hneq. symmetry. by eapply in_table_inj. }
  unfold columns_fit, bounded in *.
  split; [|done]. split; simpl.
  - done.
  - unfold columns_fit. simpl. by rewrite length_insert.
  - unfold bounded. simpl. rewrite length_insert.
    destruct Hwin as [[-> ?]|[-> ?]]; [done|]. rewrite length_app. simpl. lia.
  - intros k0 column0 st Hcol0 Hst.
    destruct (decide (k0 = N.to_nat (time y))) as [->|Hk0].
    + rewrite list_lookup_insert_eq in Hcol0 by (by eapply lookup_lt_Some).
      simplify_eq. apply (elem_of_delete_NoDup _ _ y) in Hst as [Hst Hneq]; [|by eauto|done].
      destruct (Hunr _ _ _ Hcol Hst) as (? & ? & ?).
      split_and!; [done|done|]. rewrite lookup_insert_ne; [done|by apply Hne].
    + rewrite list_lookup_insert_ne in Hcol0 by done.
      destruct (Hunr _ _ _ Hcol0 Hst) as (Htm & ? & ?).
      split_and!; [done|done|]. rewrite lookup_insert_ne; [done|]. apply Hne; [done|].
      intros ->. lia.
  - intros k0 column0 Hcol0.
    destruct (decide (k0 = N.to_nat (time y))) as [->|Hk0].
    + rewrite list_lookup_insert_eq in Hcol0 by (by eapply lookup_lt_Some).
      simplify_eq. assert (NoDup column) as Hndc by eauto.
      eapply sublist_NoDup; [exact Hndc|apply sublist_delete].
    + rewrite list_lookup_insert_ne in Hcol0 by done. by eauto.
  - intros i l Hl. destruct (decide (id y = i)) as [<-|Hi].
    + rewrite lookup_insert_eq in Hl. simplify_eq.
      split_and!; [done|done|]. by apply (label_ok_grows s s').
    + rewrite lookup_insert_ne in Hl by done.
      destruct (Hsc _ _ Hl) as (? & ? & ?).
      split_and!; [done|lia|]. by apply (label_ok_grows s s').
  - intros k0 st Hk0.
    assert (winner_ s !! k0 = Some (Some st) -> time st = N.of_nat k0 /\ settled s' st) as Hold.
    { intros Hold. destruct (Hw _ _ Hold). split; [done|]. by apply (settled_grows s s'). }
    destruct Hwin as [[-> ?]|[-> Heq]]; [by auto|].
    apply lookup_app_Some in Hk0 as [?|[Hge Hk0]]; [by auto|].
    apply list_lookup_singleton_Some in Hk0 as [Hidx0 ?]. simplify_eq.
    split; [lia|]. exists label. split; [|done]. simpl. by rewrite lookup_insert_eq.
  - intros l Hl. apply (label_ok_grows s s'); [done|by auto].
  - destruct He as [Hle Hempty].
    destruct Hear as [[Hdel ->]|[Hdel ->]].
    + assert (u32 (time y + 1) = time y + 1) as ->.
      { unfold u32. apply N.mod_small. lia. }
      split; [lia|]. intros _.
      replace (N.to_nat (time y + 1 - 1)) with (N.to_nat (time y)) by lia.
      rewrite list_lookup_insert_eq by (by eapply lookup_lt_Some). by rewrite Hdel.
    + split; [lia|].
      intros Hpos. specialize (Hempty Hpos).
      rewrite list_lookup_insert_ne; [done|].
      intros Heq. rewrite <- Heq in Hempty. rewrite Hcol in Hempty. by simplify_eq.
  - intros st Hst Htm. rewrite length_insert in Htm.
    destruct (Hpart st Hst Htm) as [(column0 & Hcol0 & Hin)|Hset].
    + destruct (decide (st = y)) as [->|Hneq].
      { right. exists label. split; [|done]. simpl. by rewrite lookup_insert_eq. }
      left. destruct (decide (time st = time y)) as [Heq|Htmne].
      * rewrite Heq in Hcol0. rewrite Hcol in Hcol0. simplify_eq. exists (delete k column0).
        rewrite Heq. rewrite list_lookup_insert_eq by (by eapply lookup_lt_Some).
        split; [done|]. apply (elem_of_delete_NoDup _ _ y); by eauto.
      * exists column0. split; [|done].
        rewrite list_lookup_insert_ne; [done|]. lia.
    + right. by apply (settled_grows s s').
Qed.

Lemma mark_winner_fields st s s' :
  mark_winner st s = Ok s' ->
  exists winner',
    s' = set_winner winner' s
    /\ ((winner' = winner_ s /\ time st < N.of_nat (length (winner_ s)))
        \/ (winner' = winner_ s ++ [Some st] /\ time st = N.of_nat (length (winner_ s)))).
Proof.
  intros [[Hlt ->]|[Heq ->]]%mark_winner_Ok.
  - exists (winner_ s). split; [by destruct s|by left].
  - eexists. split; [done|by right].
Qed.

(** The three blocks that settle the state of a label, together. *)
Lemma settle_inv label s s0 s1 s2 :
  let y := LabelTemplate.state label in
  lazy_inv s ->
  label_ok s label ->
  mark_scanned label s = Ok s0 ->
  remove_from_column y s0 = Ok s1 ->
  mark_winner y s1 = Ok s2 ->
  lazy_inv s2
  /\ grows s s2
  /\ queue_ s2 = queue_ s
  /\ scanned_labels_ s2 = <[id y := label]> (scanned_labels_ s)
  /\ time y < N.of_nat (length (winner_ s2)).
Proof.
  intros y Hinv Hlabel [Hfresh ->]%mark_scanned_Ok Hs1 Hs2.
  apply remove_from_column_Ok in Hs1 as (column & k & x & Hcol & Hfind & ->).
  apply mark_winner_fields in Hs2 as (winner' & -> & Hwin).
  simpl in Hcol, Hwin.
  destruct (delete k column) as [|z rest] eqn:Hdel; simpl in *.
  - destruct (settle_fields_inv s label column k x winner' (u32 (time y + 1)))
      as (Hinv' & Hg & Hlt); try done.
    { left. done. }
    rewrite Hdel in *. done.
  - destruct (settle_fields_inv s label column k x winner' (earliest_time_ s))
      as (Hinv' & Hg & Hlt); try done.
    { right. by rewrite Hdel. }
    rewrite Hdel in *. done.
Qed.

End LazySettle.

(** ** Every search keeps the structure *)

Section LazyInvariantSearch.
Import ViterbiSearch.
Context `{CostModel} {Q : SPQueue} `{!SPQueueLaws Q}.

Lemma emission_label_Some st l :
  emission_label st = Some l ->
  l = LabelTemplate.mk (EmissionCost st) st None /\ IsInvalidCost (EmissionCost st) = false.
Proof. unfold emission_label. intros Hl. by case_match; simplify_eq. Qed.

Lemma successor_label_Some st costsofar next l :
  successor_label st costsofar next = Some l ->
  l = LabelTemplate.mk (CostSofar costsofar (TransitionCost st next) (EmissionCost next))
        next (Some st)
  /\ IsInvalidCost (EmissionCost next) = false
  /\ IsInvalidCost (TransitionCost st next) = false
  /\ IsInvalidCost (CostSofar costsofar (TransitionCost st next) (EmissionCost next)) = false.
Proof. unfold successor_label. intros Hl. by repeat case_match; simplify_eq. Qed.

Lemma grows_set_queue q s : grows s (set_queue q s).
Proof. by repeat split. Qed.

Lemma u32_small n : n < 4294967296 -> u32 n = n.
Proof. intros Hn. unfold u32. by apply N.mod_small. Qed.

Lemma InitQueue_inv k column s :
  lazy_inv s ->
  unreached_states_ s !! k = Some column ->
  (k <= length (winner_ s))%nat ->
  lazy_inv (InitQueue column s).
Proof.
  intros Hinv Hcol Hk. apply lazy_inv_set_queue; [done|].
  intros l [Hl|(st & Hst & Hf)]%push_column_sound; [by apply elem_of_nil in Hl|].
  apply emission_label_Some in Hf as [-> _].
  destruct (inv_unreached s Hinv _ _ _ Hcol Hst) as (Htm & Htab & _).
  apply lookup_lt_Some in Hcol.
  split_and!; simpl; [done|lia|lia|done].
Qed.

Lemma AddSuccessorsToQueue_Ok st s s' :
  AddSuccessorsToQueue st s = Ok s' ->
  exists l column,
    scanned_labels_ s !! id st = Some l
    /\ IsInvalidCost (LabelTemplate.costsofar l) = false
    /\ unreached_states_ s !! N.to_nat (u32 (time st + 1)) = Some column
    /\ s' = set_queue
              (foldl (fun q next_state =>
                        push_some q (successor_label st (LabelTemplate.costsofar l) next_state))
                     (queue_ s) column) s.
Proof.
  unfold AddSuccessorsToQueue. intros Hs.
  repeat case_match; simplify_eq. eauto 10.
Qed.

Lemma AddSuccessorsToQueue_inv st s s' :
  lazy_inv s ->
  settled s st -> in_table s st -> time st < N.of_nat (length (winner_ s)) ->
  AddSuccessorsToQueue st s = Ok s' ->
  lazy_inv s'.
Proof.
  intros Hinv Hset Htab Htm (l & column & Hl & Hvalid & Hcol & ->)%AddSuccessorsToQueue_Ok.
  pose proof (inv_fit s Hinv) as Hfit. pose proof (inv_bounded s Hinv) as Hb.
  unfold columns_fit, bounded in *.
  rewrite u32_small in Hcol by lia.
  apply lazy_inv_set_queue; [done|].
  intros l' [Hl'|(next & Hnext & Hf)]%push_column_sound; [by apply (inv_queue s Hinv)|].
  apply successor_label_Some in Hf as (-> & _).
  destruct (inv_unreached s Hinv _ _ _ Hcol Hnext) as (Htn & Htabn & _).
  apply lookup_lt_Some in Hcol.
  split_and!; simpl; [done|lia|lia|].
  intros p [= <-]. split_and!; [done|done|lia].
Qed.

Lemma lazy_inv_pad n s :
  lazy_inv s ->
  (length (winner_ s) + n <= length (unreached_states_ s))%nat ->
  lazy_inv (set_winner (winner_ s ++ replicate n None) s).
Proof.
  intros Hinv Hn.
  assert (grows s (set_winner (winner_ s ++ replicate n None) s)) as Hg.
  { split_and!; simpl; [done|done| |done]. rewrite length_app. lia. }
  destruct Hinv as [Hids Hfit Hb Hunr Hnd Hsc Hw Hq He Hpart].
  split; simpl; try done.
  - unfold bounded. simpl. rewrite length_app, length_replicate. lia.
  - intros i l Hl. destruct (Hsc i l Hl) as (? & ? & ?).
    split_and!; [done| |by eapply label_ok_grows]. rewrite length_app. lia.
  - intros k st [Hk|[_ Hk]]%lookup_app_Some; [by apply Hw|].
    apply lookup_replicate in Hk as [? _]. done.
  - intros l Hl. eapply label_ok_grows; [done|by apply Hq].
  - destruct He as [Hle Hempty]. split; [|done]. rewrite length_app. lia.
Qed.

Lemma scan_inv target searched label s r :
  lazy_inv s -> label_ok s label ->
  scan target searched label s = Ok r ->
  lazy_inv (turn_state r) /\ grows s (turn_state r).
Proof.
  intros Hinv Hlabel. unfold scan. intros Hs.
  case_match; simplify_eq; [split; [done|apply grows_refl]|].
  bind_inv Hs as s0 Hs0. bind_inv Hs as s1 Hs1. bind_inv Hs as s2 Hs2.
  destruct (settle_inv _ _ _ _ _ Hinv Hlabel Hs0 Hs1 Hs2) as (Hinv2 & Hg & Hq & Hsc & Htm).
  case_match; simplify_eq; [done|].
  bind_inv Hs as s3 Hs3. simplify_eq. simpl. split.
  - eapply AddSuccessorsToQueue_inv; [done| | |done|done].
    + exists label. split; [|done]. rewrite Hsc. apply lookup_insert_eq.
    + eapply in_table_grows; [done|]. by destruct Hlabel.
  - apply AddSuccessorsToQueue_frame in Hs3 as ->.
    eapply grows_trans; [done|apply grows_set_queue].
Qed.

Lemma lazy_inv_pop s label q :
  lazy_inv s -> pop (queue_ s) = Some (label, q) ->
  lazy_inv (set_queue q s) /\ label_ok s label.
Proof.
  intros Hinv [Hperm _]%pop_Some. split.
  - apply lazy_inv_set_queue; [done|]. intros l Hl. apply (inv_queue s Hinv).
    rewrite Hperm. apply elem_of_cons. by right.
  - apply (inv_queue s Hinv). rewrite Hperm. apply elem_of_cons. by left.
Qed.

Lemma search_loop_inv fuel target searched s searched' s' :
  lazy_inv s ->
  search_loop fuel target searched s = Ok (searched', s') ->
  lazy_inv s' /\ grows s s'.
Proof.
  revert searched s. induction fuel as [|fuel IH]; intros searched s Hinv Hs; [done|].
  simpl in Hs. destruct (pop (queue_ s)) as [[label q]|] eqn:Hpop; simplify_eq.
  2:{ split; [done|apply grows_refl]. }
  destruct (lazy_inv_pop _ _ _ Hinv Hpop) as [Hinvq Hlabel].
  bind_inv Hs as r Hr.
  destruct (scan_inv _ _ _ _ _ Hinvq Hlabel Hr) as [Hinv' Hg].
  assert (grows s (turn_state r)) as Hg'.
  { eapply grows_trans; [apply (grows_set_queue q)|done]. }
  destruct r as [searched1 s1|searched1 s1]; simplify_eq; simpl in *; [|done].
  destruct (IH _ _ Hinv' Hs) as [? ?]. split; [done|]. by eapply grows_trans.
Qed.

Lemma IterativeSearch_inv target request_new_start s searched s' :
  lazy_inv s ->
  IterativeSearch target request_new_start s = Ok (searched, s') ->
  lazy_inv s' /\ grows s s'.
Proof.
  intros Hinv Hs. pose proof Hs as Hb%IterativeSearch_bounded; [|by apply inv_bounded].
  pose proof (inv_fit s Hinv) as Hfit. pose proof (inv_bounded s Hinv) as Hbs.
  unfold columns_fit, bounded in Hfit, Hbs.
  unfold IterativeSearch in Hs.
  case_match; [by repeat case_match|].
  case_match; simplify_eq; [split; [done|apply grows_refl]|].
  bind_inv Hs as [source s1] Hs1.
  bind_inv Hs as [searched1 s2] Hs2. simplify_eq.
  assert (lazy_inv s1 /\ grows s s1) as [Hinv1 Hg1].
  { destruct (negb request_new_start && _).
    - destruct (winner_ s !! _) as [[w|]|] eqn:Hw; [|done..].
      bind_inv Hs1 as sq Hsq. simplify_eq.
      destruct (inv_winner s Hinv _ _ Hw) as [Htm Hset].
      apply lookup_lt_Some in Hw.
      assert (in_table s w) as Htab.
      { destruct Hset as (l & Hl & <-). by destruct (inv_scanned s Hinv _ _ Hl) as (_ & _ & ? & _). }
      split.
      + eapply AddSuccessorsToQueue_inv; [done|done|done|lia|done].
      + apply AddSuccessorsToQueue_frame in Hsq as ->. apply grows_set_queue.
    - destruct (unreached_states_ s !! _) as [column|] eqn:Hcol; simplify_eq.
      rewrite u32_small in Hcol by lia. split; [|apply grows_set_queue].
      eapply InitQueue_inv; [done|done|lia]. }
  destruct (search_loop_inv _ _ _ _ _ _ Hinv1 Hs2) as [Hinv2 Hg2].
  unfold bounded in Hb. simpl in Hb. rewrite length_app, length_replicate in Hb.
  split.
  - apply lazy_inv_pad; [done|]. lia.
  - eapply grows_trans; [done|]. eapply grows_trans; [done|].
    split_and!; simpl; [done|done| |done]. rewrite length_app. lia.
Qed.

Lemma restart_loop_inv fuel target searched s searched' s' :
  lazy_inv s ->
  restart_loop fuel target searched s = Ok (searched', s') ->
  lazy_inv s' /\ grows s s'.
Proof.
  revert searched s. induction fuel as [|fuel IH]; intros searched s Hinv Hs; simpl in Hs.
  - case_match; simplify_eq. split; [done|apply grows_refl].
  - case_match; simplify_eq; [|split; [done|apply grows_refl]].
    bind_inv Hs as [searched1 s1] Hs1.
    destruct (IterativeSearch_inv _ _ _ _ _ Hinv Hs1) as [Hinv1 Hg1].
    destruct (IH _ _ Hinv1 Hs) as [? ?]. split; [done|]. by eapply grows_trans.
Qed.

Lemma advance_inv tm s s' :
  lazy_inv s -> advance tm s = Ok s' -> lazy_inv s' /\ grows s s'.
Proof.
  unfold advance. intros Hinv Hs.
  bind_inv Hs as [searched s1] Hs1. bind_inv Hs as [searched' s2] Hs2. simplify_eq.
  destruct (IterativeSearch_inv _ _ _ _ _ Hinv Hs1) as [Hinv1 Hg1].
  destruct (restart_loop_inv _ _ _ _ _ _ Hinv1 Hs2) as [? ?].
  split; [done|]. by eapply grows_trans.
Qed.

(** What [SearchWinner] answered, and the engine it left. *)
Lemma SearchWinner_Ok tm s r s' :
  SearchWinner tm s = Ok (r, s') ->
  r = id_or_invalid (mjoin (winner_ s' !! N.to_nat tm))
  /\ (s' = s \/ (N.of_nat (length (winner_ s)) <= tm /\ advance tm s = Ok s')).
Proof.
  intros Hs.
  destruct (decide (tm < N.of_nat (length (winner_ s)))) as [Hlt|Hge].
  { destruct (SearchWinner_cached tm s Hlt) as (w & Hw & Hc).
    rewrite Hc in Hs. simplify_eq. rewrite Hw. split; [done|by left]. }
  apply N.nlt_ge in Hge.
  destruct (decide (unreached_states_ s = [])) as [Hu|Hu].
  { rewrite SearchWinner_empty in Hs by done. simplify_eq.
    rewrite lookup_ge_None_2 by lia. split; [done|by left]. }
  rewrite SearchWinner_advance in Hs by done.
  bind_inv Hs as s2 Hs2. simplify_eq. split; [|by right].
  by destruct (winner_ s' !! N.to_nat tm) as [[w|]|].
Qed.

Lemma SearchWinner_inv tm s r s' :
  lazy_inv s -> SearchWinner tm s = Ok (r, s') -> lazy_inv s' /\ grows s s'.
Proof.
  intros Hinv (_ & [->|[_ Hs]])%SearchWinner_Ok.
  - split; [done|apply grows_refl].
  - by eapply advance_inv.
Qed.

End LazyInvariantSearch.

(** ** The path iterator over an engine whose winners are cached *)

Section Walk.
Context {E : Type} `{IViterbiSearch.ops E}.
Context (e : E) (t : Time) (winner_id : Time -> StateId).
Local Abbreviation good_position := (good_position e).
Local Abbreviation walkable := (walkable e t winner_id).
Local Abbreviation previous_id := (previous_id e winner_id).
Local Abbreviation walk := (walk e winner_id).

Lemma goback_walkable i k :
  walkable -> good_position i k -> 0 < k -> k <= t ->
  StateIterator.goback (StateIterator.mk i k) e
    = Ok (StateIterator.mk (previous_id i k) (k - 1), e)
  /\ good_position (previous_id i k) (k - 1).
Proof.
  intros (Hfit & Hwin & Hpred) Hgood Hpos Hle.
  destruct (Hpred i k Hgood Hpos Hle) as (j & Hj & Hgj).
  destruct (Hwin (k - 1)) as [Hw Hgw]; [lia|].
  unfold StateIterator.goback, previous_id. simpl.
  apply N.ltb_lt in Hpos. rewrite Hpos, Hj. simpl.
  destruct (j =? kInvalidStateId) eqn:Hinv.
  - rewrite Hw. simpl. split; [|done].
    destruct Hgw as [->|(st & -> & Hst)]; simpl; [done|].
    destruct (winner_id (k - 1) =? kInvalidStateId); simpl; [done|].
    apply N.eqb_eq in Hst. by rewrite Hst.
  - simpl. rewrite Hinv. split; [|done].
    destruct Hgj as [->|(st & -> & Hst)]; [done|]. simpl.
    apply N.eqb_eq in Hst. by rewrite Hst.
Qed.

Lemma is_end_position i k : k < kInvalidTime -> StateIterator.is_end (StateIterator.mk i k) = false.
Proof.
  intros Hk. unfold StateIterator.is_end. simpl.
  assert ((k =? kInvalidTime) = false) as -> by (apply N.eqb_neq; lia).
  apply andb_false_r.
Qed.

Lemma visit_walkable fuel i k :
  walkable -> good_position i k -> k <= t -> (S (N.to_nat k) < fuel)%nat ->
  StateIterator.visit fuel (StateIterator.mk i k) e = Ok (walk (N.to_nat k) i k, e)
  /\ Forall (fun it => good_position (StateIterator.id_ it) (StateIterator.time_ it))
       (walk (N.to_nat k) i k).
Proof.
  intros Hwalk. pose proof Hwalk as (Hfit & _).
  remember (N.to_nat k) as n eqn:Hn. revert fuel i k Hn.
  induction n as [|n IH]; intros fuel i k Hn Hgood Hle Hfuel.
  - assert (k = 0) as -> by lia.
    destruct fuel as [|[|fuel]]; [lia|lia|]. simpl.
    rewrite is_end_position by lia. split; [|by constructor].
    unfold StateIterator.next. rewrite is_end_position by lia. simpl.
    unfold StateIterator.goback. simpl. done.
  - destruct fuel as [|fuel]; [lia|].
    destruct (goback_walkable i k Hwalk Hgood) as [Hgo Hgood']; [lia|lia|].
    destruct (IH fuel (previous_id i k) (k - 1)) as [Hvisit Hall]; [lia|done|lia|lia|].
    cbn [StateIterator.visit walk].
    rewrite is_end_position by lia.
    unfold StateIterator.next. rewrite is_end_position by lia. simpl.
    rewrite Hgo. simpl. rewrite Hvisit. simpl. split; [done|].
    constructor; done.
Qed.

Lemma walk_length n i k : length (walk n i k) = S n.
Proof. revert i k. induction n as [|n IH]; intros i k; simpl; [done|]. by rewrite IH. Qed.

(** The path from [t]: one position for every time from [t] down to 0,
    whether or not a state is found there. *)
Lemma path_walkable :
  walkable ->
  StateIterator.path t e = Ok (walk (N.to_nat t) (winner_id t) t, e)
  /\ Forall (fun it => good_position (StateIterator.id_ it) (StateIterator.time_ it))
       (walk (N.to_nat t) (winner_id t) t).
Proof.
  intros Hwalk. pose proof Hwalk as (Hfit & Hwin & _).
  destruct (Hwin t) as [Hw Hgw]; [lia|].
  unfold StateIterator.path, StateIterator.SearchPath. rewrite Hw.
  cbn -[StateIterator.visit].
  apply visit_walkable; [done|done|lia|lia].
Qed.

End Walk.

Section WalkPositions.
Context {E : Type} `{IViterbiSearch.ops E}.
Context (e : E) (winner_id : Time -> StateId).

Lemma walk_lookup n i k m it :
  walk e winner_id n i k !! m = Some it ->
  StateIterator.time_ it = k - N.of_nat m
  /\ (m = 0%nat -> StateIterator.id_ it = i)
  /\ forall it', walk e winner_id n i k !! S m = Some it' ->
                 StateIterator.id_ it'
                 = previous_id e winner_id (StateIterator.id_ it) (StateIterator.time_ it).
Proof.
  revert i k m. induction n as [|n IH]; intros i k m Hm.
  - destruct m as [|m]; [|done]. simpl in Hm. simplify_eq. simpl.
    split_and!; [lia|done|done].
  - destruct m as [|m]; simpl in Hm.
    + simplify_eq. simpl. split_and!; [lia|done|].
      intros it' Hit'. destruct n; simpl in Hit'; by simplify_eq.
    + destruct (IH _ _ _ Hm) as (Htm & _ & Hnext).
      split_and!; [lia|done|]. intros it' Hit'. by apply Hnext.
Qed.

End WalkPositions.

(** ** The engine states a host can reach *)

Section LazyReachable.
Import ViterbiSearch.
Context `{CostModel} {Q : SPQueue}.

Lemma reachable_inv `{!SPQueueLaws Q} s : reachable s -> lazy_inv s.
Proof.
  induction 1 as [columns Hwf|tm s r s' _ IH Hs].
  - by apply create_inv.
  - by destruct (SearchWinner_inv _ _ _ _ IH Hs).
Qed.

Lemma lazy_inv_id_valid s st : lazy_inv s -> in_table s st -> id st <> kInvalidStateId.
Proof.
  intros Hinv Htab. pose proof (inv_ids s Hinv) as Hids.
  apply lookup_lt_Some in Htab. unfold kInvalidStateId. lia.
Qed.

Lemma lazy_walkable s t :
  lazy_inv s -> t < N.of_nat (length (winner_ s)) ->
  walkable s t (cached_winner s).
Proof.
  intros Hinv Ht.
  pose proof (inv_fit s Hinv) as Hfit. pose proof (inv_bounded s Hinv) as Hb.
  unfold columns_fit, bounded in Hfit, Hb.
  assert (forall st, settled s st -> in_table s st) as Hsettab.
  { intros st (l & Hl & <-). by destruct (inv_scanned s Hinv _ _ Hl) as (_ & _ & ? & _). }
  assert (forall st k, in_table s st -> time st = k ->
                       good_position s (id st) k) as Hgood.
  { intros st k Htab Htm. right. exists st. split; [|done]. simpl.
    unfold ViterbiSearch.state. unfold in_table in Htab. by rewrite Htab. }
  split_and!.
  - unfold kInvalidTime. lia.
  - intros k Hk.
    destruct (SearchWinner_cached k s) as (w & Hw & Hs); [lia|].
    unfold cached_winner. rewrite Hw. simpl. split; [done|].
    destruct w as [st|]; [|by left]. simpl.
    destruct (inv_winner s Hinv _ _ Hw) as [Htm Hset].
    apply Hgood; [by apply Hsettab|lia].
  - intros i k Hi Hpos Hk. eexists. split; [done|].
    unfold ViterbiSearch.predecessor.
    destruct (scanned_labels_ s !! i) as [l|] eqn:Hl; [|by left].
    destruct (inv_scanned s Hinv _ _ Hl) as (Hid & _ & Htab & _ & _ & Hpred).
    destruct (LabelTemplate.predecessor l) as [p|] eqn:Hp; [|by left]. simpl.
    destruct (Hpred p eq_refl) as (_ & Hptab & Hptm).
    apply Hgood; [done|].
    destruct Hi as [->|(st & Hst & Htm)].
    { by apply lazy_inv_id_valid in Htab. }
    simpl in Hst. unfold ViterbiSearch.state in Hst.
    unfold in_table in Htab. rewrite Hid in Htab. rewrite Htab in Hst. simplify_eq. lia.
Qed.

End LazyReachable.

(** C6, as stated, fails where it lets the iterator end early.  On the
    columns [{a}], [{b}], [{c}] with no valid emission for [b], the winner at
    time 2 is [c], [c] has no predecessor and the winner cache has no state
    for time 1; the iterator then stands at time 1 with the absent id, is
    not at its end, and goes on to [a] at time 0. *)
Lemma path_continues_past_gap :
  exists s : ViterbiSearch.t,
    @ViterbiSearch.SearchWinner Scenario.gap_costs HeapQueue 2 Scenario.breakage
      = Ok (id Scenario.c, s)
    /\ ViterbiSearch.predecessor (id Scenario.c) s = kInvalidStateId
    /\ ViterbiSearch.winner_ s !! 1%nat = Some None
    /\ @StateIterator.goback _ (@lazy_ops Scenario.gap_costs HeapQueue)
         (StateIterator.mk (id Scenario.c) 2) s
       = Ok (StateIterator.mk kInvalidStateId 1, s)
    /\ StateIterator.is_end (StateIterator.mk kInvalidStateId 1) = false
    /\ @StateIterator.path _ (@lazy_ops Scenario.gap_costs HeapQueue) 2 s
       = Ok ([StateIterator.mk (id Scenario.c) 2;
              StateIterator.mk kInvalidStateId 1;
              StateIterator.mk (id Scenario.a) 0], s).
Proof.
  eexists. split; [vm_compute; reflexivity|].
  split_and!; vm_compute; reflexivity.
Qed.

(** C6, amended.  For an engine reached from a well-formed trellis and a
    time [t] whose winner is cached, the path from [t] leaves the engine
    unchanged and has one position for every time from [t] down to 0: it
    starts at the cached winner of [t]; from a position at time [k > 0] it
    moves to time [k - 1], to the predecessor of the position's id when
    there is one and to the cached winner of [k - 1] otherwise, also when
    that winner is absent: the iterator never ends before time 0, and a
    position whose id is absent marks a time without a state.  Every
    position whose id is not absent points at a state whose time is the
    position's time. *)
Theorem path_iterator_policy (cm : CostModel) (Q : SPQueue) (L : SPQueueLaws Q)
    (s : ViterbiSearch.t) (t : Time) :
  reachable s ->
  t < N.of_nat (length (ViterbiSearch.winner_ s)) ->
  exists path,
    StateIterator.path t s = Ok (path, s)
    /\ length path = S (N.to_nat t)
    /\ path !! 0%nat = Some (StateIterator.mk (cached_winner s t) t)
    /\ forall n it,
         path !! n = Some it ->
         StateIterator.time_ it = t - N.of_nat n
         /\ (StateIterator.id_ it <> kInvalidStateId ->
             exists st, ViterbiSearch.state (StateIterator.id_ it) s = Some st
                        /\ time st = StateIterator.time_ it)
         /\ forall it',
              path !! S n = Some it' ->
              StateIterator.id_ it'
              = if ViterbiSearch.predecessor (StateIterator.id_ it) s =? kInvalidStateId
                then cached_winner s (StateIterator.time_ it - 1)
                else ViterbiSearch.predecessor (StateIterator.id_ it) s.
Proof.
  intros Hreach Ht. apply reachable_inv in Hreach.
  pose proof (lazy_walkable s t Hreach Ht) as Hwalk.
  destruct (path_walkable s t (cached_winner s) Hwalk) as [Hpath Hgood].
  eexists. split; [exact Hpath|]. split; [apply walk_length|].
  split; [by destruct (N.to_nat t)|].
  intros n it Hit. destruct (walk_lookup _ _ _ _ _ _ _ Hit) as (Htm & _ & Hnext).
  split; [done|]. split.
  - intros Hvalid. rewrite Forall_lookup in Hgood.
    destruct (Hgood _ _ Hit) as [?|(st & Hst & Hstm)]; [done|].
    exists st. split; [|done]. simpl in Hst.
    by destruct (ViterbiSearch.state (StateIterator.id_ it) s); simplify_eq.
  - intros it' Hit'. by rewrite (Hnext it' Hit').
Qed.

Lemma path_iterator_policy_witness :
  exists s : ViterbiSearch.t,
    @ViterbiSearch.SearchWinner Scenario.gap_costs HeapQueue 2 Scenario.breakage
      = Ok (id Scenario.c, s)
    /\ exists path,
         @StateIterator.path _ (@lazy_ops Scenario.gap_costs HeapQueue) 2 s = Ok (path, s)
         /\ length path = 3%nat.
Proof.
  eexists. split; [vm_compute; reflexivity|].
  edestruct (path_iterator_policy Scenario.gap_costs HeapQueue HeapQueue_laws)
    as (path & Hpath & Hlen & _); [| |exists path; split; [exact Hpath|exact Hlen]].
  - eapply (reachable_search 2 _ (id Scenario.c));
      [apply (reachable_create [[Scenario.a]; [Scenario.b]; [Scenario.c]])|].
    + split_and!; [vm_compute; discriminate|vm_compute; reflexivity| |].
      * intros [|[|[|k]]] st Hk; simpl in Hk; by simplify_eq.
      * intros [|[|[|k]]] column st Hk Hst; simpl in Hk; simplify_eq;
          by apply list_elem_of_singleton in Hst as ->.
    + vm_compute. reflexivity.
  - vm_compute. reflexivity.
Defined.

(** ** The optimality check of the main loop *)

Lemma safe_bind {A B : Type} (r : result A) (k : A -> result B) (P : A -> Prop)
    (R : B -> Prop) :
  safe r P -> (forall a, r = Ok a -> P a -> safe (k a) R) -> safe (mbind k r) R.
Proof. destruct r as [a|e]; simpl; [|done]. intros Ha Hk. by apply Hk. Qed.

Lemma safe_weaken {A : Type} (r : result A) (P R : A -> Prop) :
  safe r P -> (forall a, r = Ok a -> P a -> R a) -> safe r R.
Proof. destruct r as [a|e]; simpl; [|done]. intros Ha Hk. by apply Hk. Qed.

Lemma safe_Ok {A : Type} (r : result A) (P : A -> Prop) (a : A) :
  safe r P -> r = Ok a -> P a.
Proof. by intros Hs ->. Qed.

Section LazyKeyed.
Import ViterbiSearch.
Context `{CostModel} {Q : SPQueue} `{!SPQueueLaws Q} `{!SPQueueKeyed Q}.

Lemma remove_from_column_safe st s : safe (remove_from_column st s) (fun _ => True).
Proof. unfold remove_from_column. by repeat case_match. Qed.

Lemma mark_winner_safe st s : safe (mark_winner st s) (fun _ => True).
Proof. unfold mark_winner. by repeat case_match. Qed.

Lemma AddSuccessorsToQueue_safe st s : safe (AddSuccessorsToQueue st s) (fun _ => True).
Proof. unfold AddSuccessorsToQueue. by repeat case_match. Qed.

Lemma AddSuccessorsToQueue_keyed st s s' :
  lazy_inv s -> keyed_inv s -> time st < N.of_nat (length (winner_ s)) ->
  AddSuccessorsToQueue st s = Ok s' -> keyed_inv s'.
Proof.
  intros Hinv [Hnd Hfresh] Htm (l & column & Hl & Hvalid & Hcol & ->)%AddSuccessorsToQueue_Ok.
  split; simpl.
  - by apply push_column_keyed.
  - intros l' [Hl'|(next & Hnext & Hf)]%push_column_sound; [by apply Hfresh|].
    apply successor_label_Some in Hf as (-> & _).
    by destruct (inv_unreached s Hinv _ _ _ Hcol Hnext) as (_ & _ & ?).
Qed.

Lemma InitQueue_keyed k column s :
  lazy_inv s -> unreached_states_ s !! k = Some column -> keyed_inv (InitQueue column s).
Proof.
  intros Hinv Hcol. split; simpl.
  - apply push_column_keyed; [done|]. simpl. constructor.
  - intros l [Hl|(st & Hst & Hf)]%push_column_sound; [by apply elem_of_nil in Hl|].
    apply emission_label_Some in Hf as [-> _].
    by destruct (inv_unreached s Hinv _ _ _ Hcol Hst) as (_ & _ & ?).
Qed.

Lemma keyed_inv_pop s label q :
  keyed_inv s -> pop (queue_ s) = Some (label, q) ->
  keyed_inv (set_queue q s)
  /\ (LabelTemplate.id label ∉ (LabelTemplate.id <$> q))
  /\ scanned_labels_ s !! LabelTemplate.id label = None.
Proof.
  intros [Hnd Hfresh] [Hperm _]%pop_Some.
  rewrite Hperm in Hnd. simpl in Hnd. apply NoDup_cons in Hnd as [Hl Hnd].
  split_and!; [split; simpl|done|].
  - done.
  - intros l Hl'. apply Hfresh. rewrite Hperm. apply elem_of_cons. by right.
  - apply Hfresh. rewrite Hperm. apply elem_of_cons. by left.
Qed.

Lemma scan_safe target searched label s :
  lazy_inv s -> label_ok s label -> keyed_inv s ->
  LabelTemplate.id label ∉ (LabelTemplate.id <$> queue_ s) ->
  scanned_labels_ s !! LabelTemplate.id label = None ->
  safe (scan target searched label s)
    (fun r => lazy_inv (turn_state r) /\ keyed_inv (turn_state r)).
Proof.
  intros Hinv Hlabel Hkeyed Hnotin Hfresh. unfold scan.
  case_match; [done|].
  assert (mark_scanned label s
          = Ok (set_scanned (<[id (LabelTemplate.state label) := label]> (scanned_labels_ s)) s))
    as Hs0.
  { unfold mark_scanned. unfold LabelTemplate.id in Hfresh. by rewrite Hfresh. }
  rewrite Hs0. simpl.
  eapply safe_bind; [apply remove_from_column_safe|]. intros s1 Hs1 _.
  eapply safe_bind; [apply mark_winner_safe|]. intros s2 Hs2 _.
  destruct (settle_inv _ _ _ _ _ Hinv Hlabel Hs0 Hs1 Hs2) as (Hinv2 & Hg & Hq & Hsc & Htm).
  assert (keyed_inv s2) as Hkeyed2.
  { destruct Hkeyed as [Hnd Hfr]. split; rewrite Hq; [done|].
    intros l Hl. rewrite Hsc. rewrite lookup_insert_ne; [by apply Hfr|].
    intros Heq. apply Hnotin. apply list_elem_of_fmap. exists l. split; [exact Heq|done]. }
  case_match; [done|].
  eapply safe_bind; [apply AddSuccessorsToQueue_safe|]. intros s3 Hs3 _. simpl. split.
  - eapply AddSuccessorsToQueue_inv; [done| | |done|done].
    + exists label. split; [|done]. rewrite Hsc. apply lookup_insert_eq.
    + eapply in_table_grows; [done|]. by destruct Hlabel.
  - by eapply AddSuccessorsToQueue_keyed.
Qed.

Lemma search_loop_safe fuel target searched s :
  lazy_inv s -> keyed_inv s ->
  safe (search_loop fuel target searched s) (fun r => lazy_inv r.2 /\ keyed_inv r.2).
Proof.
  revert searched s. induction fuel as [|fuel IH]; intros searched s Hinv Hkeyed; [done|].
  simpl. destruct (pop (queue_ s)) as [[label q]|] eqn:Hpop; [|done].
  destruct (lazy_inv_pop _ _ _ Hinv Hpop) as [Hinvq Hlabel].
  destruct (keyed_inv_pop _ _ _ Hkeyed Hpop) as (Hkeyedq & Hnotin & Hfresh).
  eapply safe_bind; [by apply scan_safe|].
  intros [searched1 s1|searched1 s1] _ [Hinv1 Hkeyed1]; simpl in *; [by apply IH|done].
Qed.

Lemma keyed_inv_set_winner w s : keyed_inv s -> keyed_inv (set_winner w s).
Proof. done. Qed.

Lemma IterativeSearch_safe target request_new_start s :
  lazy_inv s -> keyed_inv s ->
  safe (IterativeSearch target request_new_start s) (fun r => lazy_inv r.2 /\ keyed_inv r.2).
Proof.
  intros Hinv Hkeyed.
  destruct (IterativeSearch target request_new_start s) as [[searched s']|e] eqn:Hs.
  { simpl. split; [by destruct (IterativeSearch_inv _ _ _ _ _ Hinv Hs)|].
    unfold IterativeSearch in Hs.
    case_match; [by repeat case_match|].
    case_match; simplify_eq; [done|].
    bind_inv Hs as [source s1] Hs1.
    bind_inv Hs as [searched1 s2] Hs2. simplify_eq.
    apply keyed_inv_set_winner.
    assert (lazy_inv s1 /\ keyed_inv s1) as [Hinv1 Hkeyed1].
    { destruct (negb request_new_start && _).
      - destruct (winner_ s !! _) as [[w|]|] eqn:Hw; [|done..].
        bind_inv Hs1 as sq Hsq. simplify_eq.
        destruct (inv_winner s Hinv _ _ Hw) as [Htm Hset].
        pose proof (lookup_lt_Some _ _ _ Hw) as Hlt.
        assert (in_table s w) as Htab.
        { destruct Hset as (l & Hl & <-).
          by destruct (inv_scanned s Hinv _ _ Hl) as (_ & _ & ? & _). }
        split.
        + eapply AddSuccessorsToQueue_inv; [done|done|done|lia|done].
        + apply (AddSuccessorsToQueue_keyed w s); [done|done|lia|done].
      - destruct (unreached_states_ s !! _) as [column|] eqn:Hcol; simplify_eq.
        pose proof (inv_fit s Hinv) as Hfit. pose proof (inv_bounded s Hinv) as Hb.
        unfold columns_fit, bounded in Hfit, Hb.
        rewrite u32_small in Hcol by lia. split.
        + eapply InitQueue_inv; [done|done|lia].
        + by eapply InitQueue_keyed. }
    pose proof (search_loop_safe (loop_fuel s1) target source s1 Hinv1 Hkeyed1) as Hsafe.
    rewrite Hs2 in Hsafe. by destruct Hsafe. }
  simpl. intros ->. unfold IterativeSearch in Hs.
  case_match; [by repeat case_match|].
  case_match; [done|].
  destruct (negb request_new_start && _).
  - destruct (winner_ s !! _) as [[w|]|] eqn:Hw; [|done..].
    pose proof (AddSuccessorsToQueue_safe w s) as Hsafe.
    destruct (AddSuccessorsToQueue w s) as [sq|e] eqn:Hsq; [|cbn -[search_loop loop_fuel] in Hs; by simplify_eq].
    cbn -[search_loop loop_fuel] in Hs.
    destruct (inv_winner s Hinv _ _ Hw) as [Htm Hset].
    pose proof (lookup_lt_Some _ _ _ Hw) as Hlt.
    assert (in_table s w) as Htab.
    { destruct Hset as (l & Hl & <-).
      by destruct (inv_scanned s Hinv _ _ Hl) as (_ & _ & ? & _). }
    assert (lazy_inv sq) as Hinv1 by (eapply AddSuccessorsToQueue_inv; [done|done|done|lia|done]).
    assert (keyed_inv sq) as Hkeyed1
      by (apply (AddSuccessorsToQueue_keyed w s); [done|done|lia|done]).
    pose proof (search_loop_safe (loop_fuel sq) target
                  (u32 (N.of_nat (length (winner_ s)) - 1)) sq Hinv1 Hkeyed1) as Hloop.
    destruct (search_loop _ _ _ sq) as [[searched1 s2]|e]; cbn -[search_loop loop_fuel] in Hs; by simplify_eq.
  - destruct (unreached_states_ s !! _) as [column|] eqn:Hcol; [|done]. cbn -[search_loop loop_fuel] in Hs.
    pose proof (inv_fit s Hinv) as Hfit. pose proof (inv_bounded s Hinv) as Hb.
    unfold columns_fit, bounded in Hfit, Hb.
    rewrite u32_small in Hcol by lia.
    assert (lazy_inv (InitQueue column s)) as Hinv1 by (eapply InitQueue_inv; [done|done|lia]).
    assert (keyed_inv (InitQueue column s)) as Hkeyed1 by by eapply InitQueue_keyed.
    pose proof (search_loop_safe (loop_fuel (InitQueue column s)) target
                  (u32 (N.of_nat (length (winner_ s)))) _ Hinv1 Hkeyed1) as Hloop.
    destruct (search_loop _ _ _ (InitQueue column s)) as [[searched1 s2]|e];
      cbn -[search_loop loop_fuel] in Hs; by simplify_eq.
Qed.

End LazyKeyed.

Section LazyKeyedQueries.
Import ViterbiSearch.
Context `{CostModel} {Q : SPQueue} `{!SPQueueLaws Q} `{!SPQueueKeyed Q}.

Lemma restart_loop_safe fuel target searched s :
  lazy_inv s -> keyed_inv s ->
  safe (restart_loop fuel target searched s) (fun r => lazy_inv r.2 /\ keyed_inv r.2).
Proof.
  revert searched s. induction fuel as [|fuel IH]; intros searched s Hinv Hkeyed; simpl.
  - by case_match.
  - case_match; [|done].
    eapply safe_bind; [by apply IterativeSearch_safe|].
    intros [searched1 s1] _ [Hinv1 Hkeyed1]. by apply IH.
Qed.

Lemma SearchWinner_safe tm s :
  lazy_inv s -> keyed_inv s ->
  safe (SearchWinner tm s) (fun r => lazy_inv r.2 /\ keyed_inv r.2).
Proof.
  intros Hinv Hkeyed. unfold SearchWinner.
  case_match; [by case_match|].
  destruct (unreached_states_ s) as [|column columns] eqn:Hu; [done|].
  rewrite <- Hu.
  eapply safe_bind; [by apply IterativeSearch_safe|].
  intros [searched1 s1] _ [Hinv1 Hkeyed1].
  eapply safe_bind; [by apply restart_loop_safe|].
  intros [searched2 s2] _ [Hinv2 Hkeyed2]. by repeat case_match.
Qed.

Lemma reachable_keyed s : reachable s -> keyed_inv s.
Proof.
  induction 1 as [columns Hwf|tm s r s' Hreach IH Hs].
  - split; simpl; [constructor|]. intros l Hl. by apply elem_of_nil in Hl.
  - pose proof (SearchWinner_safe tm s (reachable_inv s Hreach) IH) as Hsafe.
    rewrite Hs in Hsafe. by destruct Hsafe.
Qed.

End LazyKeyedQueries.

Lemma sum_costs_dijkstra (emission : State -> cost) (transition : State -> State -> cost) :
  dijkstra_costs {| EmissionCost := emission;
                    TransitionCost := transition;
                    CostSofar := Scenario.sum_costs |}.
Proof.
  unfold dijkstra_costs, ViterbiSearch.IsInvalidCost, Scenario.sum_costs, cost_leb. simpl.
  split.
  - intros [|x|] [|t|] [|e|]; simpl; try done.
    rewrite !Z.ltb_ge, negb_true_iff, Z.ltb_ge. lia.
  - intros [|x|] [|y|] [|t|] [|e|]; simpl; try done.
    rewrite !Z.ltb_ge, !negb_true_iff, !Z.ltb_ge. lia.
Qed.

Lemma duplicate_columns_wf : wf_trellis Scenario.duplicate_columns.
Proof.
  split_and!; [vm_compute; discriminate|vm_compute; reflexivity| |].
  - intros [|[|[|[|[|k]]]]] st Hk; simpl in Hk; by simplify_eq.
  - intros [|[|[|k]]] column st Hk Hst; simpl in Hk; simplify_eq;
      repeat (apply elem_of_cons in Hst as [->|Hst]; [done|]); by apply elem_of_nil in Hst.
Qed.

(** What the check depends on is the queue, not the cost model.  With a
    plain heap, which may hold several labels of one state, on the columns
    [{p, q}], [{r, s}], [{u}] with the additive cost model above, which
    satisfies the precondition, the heap holds two labels for [r], one
    pushed from [p] (cost 2) and one from [q] (cost 3); [r] is settled with
    the first, and the second is popped while its time is not yet below the
    watermark: [SearchWinner(2)] ends with the violation of optimality. *)
Lemma duplicate_label_violates_optimality :
  dijkstra_costs Scenario.duplicate_costs
  /\ wf_trellis Scenario.duplicate_columns
  /\ @ViterbiSearch.SearchWinner Scenario.duplicate_costs HeapQueue 2
       (ViterbiSearch.create Scenario.duplicate_columns)
     = Throw optimality_violated.
Proof.
  split; [apply sum_costs_dijkstra|]. split; [apply duplicate_columns_wf|].
  vm_compute. reflexivity.
Qed.



(** ** Paths of the trellis and their costs *)

Section Paths.
Context `{CostModel}.

Lemma origin_mono scanned scanned' l x0 :
  scanned ⊆ scanned' -> origin scanned l x0 -> origin scanned' l x0.
Proof.
  intros Hsub. induction 1 as [l Hl|l p lp x0 Hp Hlp _ IH].
  - by apply origin_here.
  - eapply origin_step; [done| |done]. by eapply lookup_weaken.
Qed.

Lemma valid_cost_leb a b : valid_cost a -> cost_leb a b = true -> valid_cost b.
Proof.
  unfold valid_cost, ViterbiSearch.IsInvalidCost, cost_leb.
  destruct a, b; simpl; try done.
  rewrite !Z.ltb_ge, negb_true_iff, Z.ltb_ge. lia.
Qed.

Lemma path_to_in_table table src y c :
  path_to table src y c -> table !! N.to_nat (id y) = Some y.
Proof. by destruct 1. Qed.

Lemma path_to_time table src y c : path_to table src y c -> src <= time y.
Proof. induction 1; lia. Qed.

(** A path passes every column between its start and its end. *)
Lemma path_to_column table src y c k :
  path_to table src y c -> src <= k -> k <= time y ->
  exists z c', path_to table src z c' /\ time z = k.
Proof.
  induction 1 as [x Hx Hsrc He|x y c Hpath IH Hy Htm He Ht]; intros Hk Hky.
  - exists x, (EmissionCost x). split; [by apply path_start|lia].
  - destruct (decide (k = time y)) as [->|Hne].
    + eexists y, _. split; [by eapply path_step|done].
    + apply IH; lia.
Qed.

Lemma seg_le table k src : seg table k src -> src <= k.
Proof. induction 1; lia. Qed.

Lemma seg_fun table k src src' : seg table k src -> seg table k src' -> src = src'.
Proof.
  intros Hs. revert src'.
  induction Hs as [|k src Hs IH Hr|k src Hs IH Hr]; intros src' Hs'.
  - inversion Hs'; [done|lia..].
  - inversion Hs' as [|k' src'' Hs'' Hr' Hk|k' src'' Hs'' Hr' Hk]; [lia| |].
    + assert (k' = k) as -> by lia. by apply IH.
    + assert (k' = k) as -> by lia. apply IH in Hs'' as <-. done.
  - inversion Hs' as [|k' src'' Hs'' Hr' Hk|k' src'' Hs'' Hr' Hk]; [lia| |].
    + assert (k' = k) as -> by lia. apply IH in Hs'' as <-. done.
    + lia.
Qed.

(** A search that reaches every column up to [k] covers them. *)
Lemma seg_extend table src k :
  seg table src src -> src <= k ->
  (forall j, src < j -> j <= k -> reach table src j) ->
  seg table k src.
Proof.
  intros Hs. induction k as [|k IH] using N.peano_ind; intros Hle Hreach.
  - by assert (src = 0) as -> by lia.
  - destruct (decide (src = N.succ k)) as [->|Hne]; [done|].
    rewrite <- N.add_1_r. apply seg_keep.
    + apply IH; [lia|]. intros j ? ?. apply Hreach; lia.
    + apply Hreach; lia.
Qed.

(** Where a search starts after the first one, no path from time 0
    arrives. *)
Lemma seg_breakage table k src : seg table k src -> src = 0 \/ breakage table src.
Proof.
  induction 1 as [|k src Hs IH Hr|k src Hs IH Hr]; [by left|done|right].
  split; [lia|]. intros z c Hz Hpath.
  destruct IH as [->|[_ Hcut]].
  - destruct (path_to_column _ _ _ _ (k + 1) Hpath) as (z' & c' & Hpath' & Hz'); [lia|done|].
    apply Hr. by exists z', c'.
  - apply seg_le in Hs. apply (Hcut z c); [lia|done].
Qed.

Context (Hcosts : dijkstra_costs _).

Lemma path_to_valid table src y c : path_to table src y c -> valid_cost c.
Proof.
  induction 1 as [x Hx Hsrc He|x y c Hpath IH Hy Htm He Ht]; [done|].
  eapply valid_cost_leb; [exact IH|]. by apply Hcosts.
Qed.

End Paths.

(** ** The best-first search settles states at their least cost *)

Section Dijkstra.
Import ViterbiSearch.
Context `{CostModel} {Q : SPQueue} `{!SPQueueLaws Q}.
Context (Hcosts : dijkstra_costs _).

(** A state of the table is settled when its id has a scanned label. *)
Lemma settled_lookup s x l :
  lazy_inv s -> in_table s x -> scanned_labels_ s !! id x = Some l ->
  LabelTemplate.state l = x.
Proof.
  intros Hinv Hx Hl. destruct (inv_scanned s Hinv _ _ Hl) as (Hid & _ & Htab & _).
  by eapply in_table_inj.
Qed.

Lemma unsettled_unreached s x :
  lazy_inv s -> in_table s x -> time x < N.of_nat (length (unreached_states_ s)) ->
  scanned_labels_ s !! id x = None ->
  exists column, unreached_states_ s !! N.to_nat (time x) = Some column /\ x ∈ column.
Proof.
  intros Hinv Hx Htm Hnone.
  destruct (inv_partition s Hinv x Hx Htm) as [?|(l & Hl & _)]; [done|congruence].
Qed.

(** Every path from the source column to a state that is not settled and
    not older than the watermark passes a label of the queue: the queue
    holds a label that is at most as expensive as the path. *)
Lemma queue_bounds_paths s src z c :
  lazy_inv s -> dij_inv src None s ->
  path_to (state_ s) src z c ->
  scanned_labels_ s !! id z = None ->
  earliest_time_ s <= time z ->
  time z < N.of_nat (length (unreached_states_ s)) ->
  exists l, l ∈ queue_ s /\ cost_leb (LabelTemplate.costsofar l) c = true.
Proof.
  intros Hinv Hdij Hpath.
  induction Hpath as [x Hx Hsrc He|x y c Hpath IH Hy Htm He Ht]; intros Hnone Hear Hlen.
  - destruct (unsettled_unreached s x) as (column & Hcol & Hin); [done..|].
    rewrite Hsrc in Hcol, Hear.
    destruct (d_source src None s Hdij column x) as (l & Hl & _ & Hle); by eauto.
  - destruct (unsettled_unreached s y) as (column & Hcol & Hin); [done..|].
    pose proof (path_to_in_table _ _ _ _ Hpath) as Hx.
    pose proof (path_to_valid Hcosts _ _ _ _ Hpath) as Hc.
    destruct (scanned_labels_ s !! id x) as [lx|] eqn:Hlx.
    + pose proof (settled_lookup s x lx Hinv Hx Hlx) as Hstate.
      pose proof (path_to_time _ _ _ _ Hpath) as Hsx.
      destruct (d_current src None s Hdij _ _ Hlx) as (_ & _ & Hmin); [by rewrite Hstate|].
      rewrite Hstate in Hmin. specialize (Hmin c Hpath).
      destruct (d_settled src None s Hdij _ _ Hlx) as [Hvx _].
      rewrite Htm in Hcol.
      destruct (d_frontier src None s Hdij x lx column y) as (l & Hl & _ & Hle); try done.
      exists l. split; [done|]. eapply cost_leb_trans; [exact Hle|]. by apply Hcosts.
    + destruct (decide (earliest_time_ s <= time x)) as [Hex|Hex].
      * destruct IH as (l & Hl & Hle); [done|done|lia|].
        exists l. split; [done|]. eapply cost_leb_trans; [exact Hle|]. by apply Hcosts.
      * destruct (unsettled_unreached s x) as (columnx & Hcolx & Hinx); [done|done|lia|done|].
        destruct (inv_earliest s Hinv) as [_ Hempty].
        replace (N.to_nat (time x)) with (N.to_nat (earliest_time_ s - 1)) in Hcolx by lia.
        rewrite Hempty in Hcolx by lia. simplify_eq. by apply elem_of_nil in Hinx.
Qed.

Lemma anchored_grows s s' l :
  state_ s' = state_ s -> scanned_labels_ s ⊆ scanned_labels_ s' ->
  anchored s l -> anchored s' l.
Proof.
  intros Htab Hsub (x0 & Ho & Hmin & Hcut). exists x0. rewrite Htab.
  split_and!; [by eapply origin_mono|done|done].
Qed.

Lemma winner_ok_grows s s' k winner :
  state_ s' = state_ s -> scanned_labels_ s ⊆ scanned_labels_ s' ->
  winner_ok s k winner -> winner_ok s' k winner.
Proof.
  intros Htab Hsub (src & Hseg & Hw). exists src. rewrite Htab. split; [done|].
  destruct winner as [w|]; [|done].
  destruct Hw as (lw & Hlw & Hpath & Hleast). exists lw.
  split_and!; [by eapply lookup_weaken|done|done].
Qed.

(** What settling a state does to the columns, the watermark and the
    winners. *)
Lemma settle_columns label s s0 s1 s2 :
  let y := LabelTemplate.state label in
  lazy_inv s -> label_ok s label ->
  earliest_time_ s <= time y ->
  mark_scanned label s = Ok s0 ->
  remove_from_column y s0 = Ok s1 ->
  mark_winner y s1 = Ok s2 ->
  earliest_time_ s <= earliest_time_ s2
  /\ (forall k column z,
         unreached_states_ s2 !! k = Some column -> z ∈ column ->
         exists column0, unreached_states_ s !! k = Some column0 /\ z ∈ column0)
  /\ (winner_ s2 = winner_ s
      \/ (winner_ s2 = winner_ s ++ [Some y] /\ time y = N.of_nat (length (winner_ s)))).
Proof.
  cbv zeta. intros Hinv Hlabel Hear [Hfresh ->]%mark_scanned_Ok Hs1 Hs2.
  apply remove_from_column_Ok in Hs1 as (column & k & x & Hcol & Hfind & ->).
  apply mark_winner_fields in Hs2 as (winner' & -> & Hwin).
  simpl in Hcol, Hwin.
  pose proof (inv_fit s Hinv) as Hfit. unfold columns_fit in Hfit.
  destruct Hlabel as (_ & _ & Hlen & _).
  set (y := LabelTemplate.state label) in *.
  assert (u32 (time y + 1) = time y + 1) as Hu by (apply u32_small; lia).
  assert (forall k' column' z,
             <[N.to_nat (time y) := delete k column]> (unreached_states_ s) !! k'
             = Some column' ->
             z ∈ column' ->
             exists column0, unreached_states_ s !! k' = Some column0 /\ z ∈ column0)
    as Hsub.
  { intros k' column' z [(<- & <- & _)|[_ Hk']]%list_lookup_insert_Some Hz; [|by eauto].
    exists column. split; [done|]. eapply elem_of_sublist; [done|apply sublist_delete]. }
  destruct (delete k column) as [|z rest] eqn:Hdel; simpl.
  - split_and!; [lia|done|]. destruct Hwin as [[-> _]|[-> ?]]; auto.
  - split_and!; [lia|done|]. destruct Hwin as [[-> _]|[-> ?]]; auto.
Qed.

(** A state of an unreached column has no label in the queue once the
    label [label] is taken out, unless the label is for another state. *)
Lemma queue_witness_pop s label q y column k l :
  lazy_inv s ->
  queue_ s ≡ₚ label :: q ->
  unreached_states_ s !! k = Some column -> y ∈ column ->
  y <> LabelTemplate.state label ->
  l ∈ queue_ s -> LabelTemplate.id l = id y ->
  l ∈ q.
Proof.
  intros Hinv Hperm Hcol Hy Hne Hl Hid. rewrite Hperm in Hl.
  apply elem_of_cons in Hl as [->|Hl]; [|done]. destruct Hne.
  destruct (inv_unreached s Hinv _ _ _ Hcol Hy) as (_ & Htab & _).
  eapply in_table_inj; [done| |done].
  apply (inv_queue s Hinv). rewrite Hperm. apply elem_of_cons. by left.
Qed.

(** Dropping a label that is older than the watermark. *)
Lemma dij_inv_discard src s label q :
  lazy_inv s -> dij_inv src None s ->
  pop (queue_ s) = Some (label, q) ->
  time (LabelTemplate.state label) < earliest_time_ s ->
  dij_inv src None (set_queue q s).
Proof.
  intros Hinv Hdij [Hperm _]%pop_Some Hold.
  assert (forall l, l ∈ q -> l ∈ queue_ s) as Hsub.
  { intros l Hl. rewrite Hperm. apply elem_of_cons. by right. }
  destruct Hdij as [Hset Hsrc Hcur Hq Hfr Hso Hord Hpend Hre Hwn].
  split; simpl; try done.
  - intros l Hl. by apply Hq, Hsub.
  - intros x lx column y Hlx Hst Hx Hp Hcol Hy Hear He Ht.
    destruct (Hfr x lx column y) as (l & Hl & Hid & Hle); try done.
    exists l. split; [|done].
    eapply (queue_witness_pop s label q y); try done. intros ->. lia.
  - intros column y Hear Hcol Hy He.
    destruct (Hso column y) as (l & Hl & Hid & Hle); try done.
    exists l. split; [|done].
    eapply (queue_witness_pop s label q y); try done. intros ->.
    destruct (inv_unreached s Hinv _ _ _ Hcol Hy) as (Htm & _). lia.
  - intros i lx l Hlx Hx Hl. eapply Hord; [done|done|]. by apply Hsub.
Qed.

(** Settling the state of the cheapest label of the queue: the label
    carries the least cost of a path to its state. *)
Lemma dij_inv_settle src s label q s0 s1 s2 :
  let y := LabelTemplate.state label in
  lazy_inv s -> dij_inv src None s ->
  pop (queue_ s) = Some (label, q) ->
  earliest_time_ s <= time y ->
  mark_scanned label (set_queue q s) = Ok s0 ->
  remove_from_column y s0 = Ok s1 ->
  mark_winner y s1 = Ok s2 ->
  dij_inv src (Some y) s2.
Proof.
  cbv zeta. intros Hinv Hdij Hpop Hear Hs0 Hs1 Hs2.
  destruct (lazy_inv_pop _ _ _ Hinv Hpop) as [Hinvq Hlabel].
  apply pop_Some in Hpop as [Hperm Hleast].
  assert (label_ok (set_queue q s) label) as Hlabelq by done.
  destruct (settle_inv _ _ _ _ _ Hinvq Hlabelq Hs0 Hs1 Hs2) as (Hinv2 & Hg & Hq2 & Hsc2 & Htm2).
  destruct (settle_columns _ _ _ _ _ Hinvq Hlabelq Hear Hs0 Hs1 Hs2) as (Hear2 & Hcols & Hwin).
  destruct Hg as (Htab & _ & Hwlen & Hsub).
  apply mark_scanned_Ok in Hs0 as [Hfresh _].
  simpl in Hq2, Hsc2, Hear2, Hcols, Hwin, Htab, Hwlen, Hsub, Hfresh.
  clear Hinvq Hlabelq Hs1 Hs2.
  set (y := LabelTemplate.state label) in *.
  assert (label ∈ queue_ s) as Hin.
  { rewrite Hperm. apply elem_of_cons. by left. }
  assert (forall l, l ∈ q -> l ∈ queue_ s) as Hqsub.
  { intros l Hl. rewrite Hperm. apply elem_of_cons. by right. }
  destruct (d_queue src None s Hdij label Hin) as (Hsy & Hpath & Hnone & Hsome).
  fold y in Hsy, Hpath, Hnone.
  assert (forall z c,
             path_to (state_ s) src z c -> scanned_labels_ s !! id z = None ->
             time z = time y ->
             cost_leb (LabelTemplate.costsofar label) c = true) as Hcolumn.
  { intros z c Hz Hzfresh Htm.
    destruct (queue_bounds_paths s src z c) as (l & Hl & Hle); [done..|lia| |].
    { destruct Hlabel as (_ & _ & Hlen & _). fold y in Hlen. lia. }
    eapply cost_leb_trans; [|exact Hle]. by apply Hleast. }
  assert (is_min_cost (state_ s) src y (LabelTemplate.costsofar label)) as Hmin.
  { split; [done|]. intros c' Hc'. by apply (Hcolumn y). }
  assert (exists x0, origin (scanned_labels_ s2) label x0 /\ time x0 = src) as Horigin.
  { destruct (LabelTemplate.predecessor label) as [p|] eqn:Hp.
    - destruct Hlabel as (_ & _ & _ & Hpred).
      destruct (Hpred p Hp) as ((lp & Hlp & Hstp) & _).
      destruct (d_current src None s Hdij _ _ Hlp) as ((x0 & Ho & Hx0) & _).
      { rewrite Hstp. by apply Hsome. }
      exists x0. split; [|done]. eapply origin_step; [done| |].
      + eapply lookup_weaken; [exact Hlp|done].
      + by eapply origin_mono.
    - exists y. split; [by apply origin_here|by apply Hnone]. }
  assert (forall k column z,
             unreached_states_ s2 !! k = Some column -> z ∈ column -> z <> y) as Hney.
  { intros k column z Hcol Hz ->.
    destruct (inv_unreached s2 Hinv2 _ _ _ Hcol Hz) as (_ & _ & Hnone2).
    rewrite Hsc2, lookup_insert_eq in Hnone2. done. }
  split.
  - intros i l Hl. rewrite Hsc2 in Hl.
    apply lookup_insert_Some in Hl as [[<- <-]|[Hne Hl]].
    + split; [by eapply path_to_valid|].
      destruct Horigin as (x0 & Ho & Hx0). exists x0. rewrite Htab, Hx0.
      split_and!; [done|done|]. by destruct (d_src src None s Hdij).
    + destruct (d_settled _ _ _ Hdij _ _ Hl). split; [done|].
      by eapply anchored_grows.
  - destruct (d_src src None s Hdij) as [Hle Hcut]. rewrite Htab. split; [lia|done].
  - intros i l Hl Htm. rewrite Hsc2 in Hl. rewrite Htab.
    apply lookup_insert_Some in Hl as [[<- <-]|[Hne Hl]]; [done|].
    destruct (d_current _ _ _ Hdij _ _ Hl Htm) as ((x0 & Ho & Hx0) & Hm).
    split; [|done]. exists x0. split; [|done]. by eapply origin_mono.
  - intros l Hl. rewrite Hq2 in Hl. simpl in Hl. rewrite Htab.
    by apply (d_queue _ _ _ Hdij), Hqsub.
  - intros x lx column z Hlx Hst Hx Hp Hcol Hz Hearz He Ht.
    rewrite Hsc2 in Hlx.
    apply lookup_insert_Some in Hlx as [[Hid <-]|[Hne Hlx]]; [by destruct Hp; f_equal|].
    destruct (Hcols _ _ _ Hcol Hz) as (column0 & Hcol0 & Hz0).
    destruct (d_frontier _ _ _ Hdij x lx column0 z) as (l & Hl & Hid & Hle); try done; [lia|].
    exists l. rewrite Hq2. simpl. split; [|done].
    eapply (queue_witness_pop s label q z); try done. by eapply Hney.
  - intros column z Hears Hcol Hz He.
    destruct (Hcols _ _ _ Hcol Hz) as (column0 & Hcol0 & Hz0).
    destruct (d_source _ _ _ Hdij column0 z) as (l & Hl & Hid & Hle); try done; [lia|].
    exists l. rewrite Hq2. simpl. split; [|done].
    eapply (queue_witness_pop s label q z); try done. by eapply Hney.
  - intros i lx l Hlx Htm Hl. rewrite Hq2 in Hl. simpl in Hl. rewrite Hsc2 in Hlx.
    apply lookup_insert_Some in Hlx as [[<- <-]|[Hne Hlx]].
    + by apply Hleast, Hqsub.
    + eapply (d_order _ _ _ Hdij); [done|done|by apply Hqsub].
  - intros ? [= <-]. exists label. rewrite Hsc2, lookup_insert_eq.
    split_and!; [done|done|done|].
    intros i lx Hlx Htm.
    apply lookup_insert_Some in Hlx as [[<- <-]|[Hne Hlx]]; [apply cost_leb_refl|].
    by eapply (d_order _ _ _ Hdij).
  - intros k Hk1 Hk2. rewrite Htab.
    destruct Hwin as [Hwin|[Hwin Hfirst]]; rewrite Hwin in Hk2.
    { by apply (d_reach _ _ _ Hdij). }
    rewrite length_app in Hk2. simpl in Hk2.
    destruct (decide (k < N.of_nat (length (winner_ s)))) as [Hlt|Hge].
    { by apply (d_reach _ _ _ Hdij). }
    exists y, (LabelTemplate.costsofar label). split; [done|lia].
  - intros k winner Hk.
    assert (forall winner', winner_ s !! k = Some winner' -> winner_ok s2 k winner') as Hold.
    { intros winner' Hk'. eapply winner_ok_grows; [done|done|].
      by apply (d_winners _ _ _ Hdij). }
    destruct Hwin as [Hwin|[Hwin Hfirst]]; rewrite Hwin in Hk; [by apply Hold|].
    apply lookup_app_Some in Hk as [Hk|[Hlen Hk]]; [by apply Hold|].
    apply list_lookup_singleton_Some in Hk as [Hk <-].
    assert (N.of_nat k = time y) as Hky by lia.
    exists src. rewrite Htab, Hky. split.
    + apply seg_extend; [by destruct (d_src _ _ _ Hdij)|done|].
      intros j Hj1 Hj2. destruct (decide (j = time y)) as [->|Hne].
      * by exists y, (LabelTemplate.costsofar label).
      * apply (d_reach _ _ _ Hdij); lia.
    + exists label. rewrite Hsc2, lookup_insert_eq. split_and!; [done|done|].
      intros z c Hz Htm. apply (Hcolumn z c); [done| |done].
      destruct (scanned_labels_ s !! id z) as [l|] eqn:Hl; [|done].
      pose proof (settled_lookup s z l Hinv (path_to_in_table _ _ _ _ Hz) Hl) as Hst.
      destruct (inv_scanned s Hinv _ _ Hl) as (_ & Hlt & _). rewrite Hst in Hlt. lia.
Qed.

(** Pushing the successors of the state settled last. *)
Lemma dij_inv_successors src y s s' :
  lazy_inv s -> dij_inv src (Some y) s ->
  AddSuccessorsToQueue y s = Ok s' ->
  dij_inv src None s'.
Proof.
  intros Hinv Hdij (ly & column & Hly & Hvalid & Hcol & ->)%AddSuccessorsToQueue_Ok.
  destruct (d_pending _ _ _ Hdij y eq_refl) as (ly' & Hly' & Hsty & Hsy & Hlast).
  rewrite Hly in Hly'. injection Hly' as <-.
  destruct (inv_scanned s Hinv _ _ Hly) as (_ & Hyw & Hytab & _ & Hylen & _).
  rewrite Hsty in Hyw, Hytab, Hylen.
  pose proof (inv_fit s Hinv) as Hfit. pose proof (inv_bounded s Hinv) as Hb.
  unfold columns_fit, bounded in Hfit, Hb.
  rewrite u32_small in Hcol by lia.
  destruct (d_current _ _ _ Hdij _ _ Hly) as (_ & Hypath & _); [by rewrite Hsty|].
  rewrite Hsty in Hypath.
  set (c := LabelTemplate.costsofar ly) in *.
  destruct Hdij as [Hset Hsrc Hcur Hq Hfr Hso Hord Hpend Hre Hwn].
  split; simpl; try done.
  - intros l [Hl|(next & Hnext & Hf)]%push_column_sound; [by apply Hq|].
    apply successor_label_Some in Hf as (-> & He & Ht & _). simpl.
    destruct (inv_unreached s Hinv _ _ _ Hcol Hnext) as (Htn & Htabn & _).
    split_and!; [lia| |done|by intros p [= <-]].
    apply path_step; [done|done|lia|done|done].
  - intros x lx column' z Hlx Hst Hx _ Hcol' Hz Hearz He Ht.
    destruct (decide (x = y)) as [->|Hne].
    + rewrite Hly in Hlx. injection Hlx as <-.
      rewrite Hcol in Hcol'. injection Hcol' as <-.
      destruct (push_column_adds (successor_label y c) column (queue_ s) z
                  (LabelTemplate.mk (CostSofar c (TransitionCost y z) (EmissionCost z))
                     z (Some y)))
        as (m & Hm & Hidm & Hlem); [done| |by exists m].
      unfold successor_label. rewrite He, Ht.
      replace (IsInvalidCost (CostSofar c (TransitionCost y z) (EmissionCost z)))
        with false; [done|].
      symmetry. eapply valid_cost_leb; [exact Hvalid|]. by apply Hcosts.
    + destruct (Hfr x lx column' z) as (l & Hl & Hid & Hle); try done; [congruence|].
      destruct (push_column_keeps (successor_label y c) column _ _ Hl)
        as (m & Hm & Hidm & Hlem).
      exists m. split_and!; [done|congruence|by eapply cost_leb_trans].
  - intros column' z Hears Hcol' Hz He.
    destruct (Hso column' z) as (l & Hl & Hid & Hle); try done.
    destruct (push_column_keeps (successor_label y c) column _ _ Hl)
      as (m & Hm & Hidm & Hlem).
    exists m. split_and!; [done|congruence|by eapply cost_leb_trans].
  - intros i lx l Hlx Htm [Hl|(next & Hnext & Hf)]%push_column_sound; [by eapply Hord|].
    apply successor_label_Some in Hf as (-> & He & Ht & _). simpl.
    eapply cost_leb_trans; [by eapply Hlast|]. by apply Hcosts.
Qed.

(** With an empty queue, no path from the source of the search leads to
    a state that is not settled. *)
Lemma drained_no_path s src z c :
  lazy_inv s -> dij_inv src None s -> queue_ s = [] ->
  path_to (state_ s) src z c ->
  N.of_nat (length (winner_ s)) <= time z ->
  time z < N.of_nat (length (unreached_states_ s)) ->
  False.
Proof.
  intros Hinv Hdij Hempty Hpath Hz Hlen.
  destruct (queue_bounds_paths s src z c) as (l & Hl & _); try done.
  - destruct (scanned_labels_ s !! id z) as [l|] eqn:Hl; [|done].
    pose proof (settled_lookup s z l Hinv (path_to_in_table _ _ _ _ Hpath) Hl) as Hst.
    destruct (inv_scanned s Hinv _ _ Hl) as (_ & Hlt & _). rewrite Hst in Hlt. lia.
  - destruct (inv_earliest s Hinv) as [? _]. lia.
  - rewrite Hempty in Hl. by apply elem_of_nil in Hl.
Qed.

(** Starting a search again at the first column the winners do not
    cover, on an engine whose queue ran empty. *)
Lemma dij_inv_restart s column :
  lazy_inv s ->
  queue_ s = [] ->
  (winner_ s = [] /\ scanned_labels_ s = ∅) \/ (exists src, dij_inv src None s) ->
  unreached_states_ s !! length (winner_ s) = Some column ->
  dij_inv (N.of_nat (length (winner_ s))) None (InitQueue column s).
Proof.
  intros Hinv Hempty Hbefore Hcol.
  assert (forall i l, scanned_labels_ s !! i = Some l ->
                      ~ N.of_nat (length (winner_ s)) <= time (LabelTemplate.state l))
    as Hpast.
  { intros i l Hl. destruct (inv_scanned s Hinv _ _ Hl) as (_ & ? & _). lia. }
  pose proof (lookup_lt_Some _ _ _ Hcol) as Hlen.
  split; simpl.
  - intros i l Hl. destruct Hbefore as [[_ Hnone]|[src Hdij]].
    + rewrite Hnone in Hl. by apply lookup_empty_Some in Hl.
    + destruct (d_settled _ _ _ Hdij _ _ Hl) as [? ?]. split; [done|].
      by eapply anchored_grows.
  - split; [lia|].
    destruct Hbefore as [[Hw _]|[src Hdij]]; [rewrite Hw; apply seg_start|].
    destruct (d_src _ _ _ Hdij) as [Hle Hseg].
    destruct (decide (src = N.of_nat (length (winner_ s)))) as [<-|Hne]; [done|].
    replace (N.of_nat (length (winner_ s)))
      with (N.of_nat (length (winner_ s)) - 1 + 1) by lia.
    apply (seg_new _ _ src).
    + apply seg_extend; [done|lia|]. intros j Hj1 Hj2. apply (d_reach _ _ _ Hdij); lia.
    + intros (z & c & Hpath & Hz).
      apply (drained_no_path s src z c); [done..|lia|lia].
  - intros i l Hl Htm. by destruct (Hpast _ _ Hl).
  - intros l [Hl|(st & Hst & Hf)]%push_column_sound; [by apply elem_of_nil in Hl|].
    apply emission_label_Some in Hf as [-> He]. simpl.
    destruct (inv_unreached s Hinv _ _ _ Hcol Hst) as (Htm & Htab & _).
    split_and!; [lia| |done|done].
    rewrite <- Htm. by apply path_start.
  - intros x lx column' y Hlx Hst Htm. destruct (Hpast _ _ Hlx). by rewrite Hst.
  - intros column' y _ Hcol' Hy He. rewrite Nat2N.id, Hcol in Hcol'. injection Hcol' as <-.
    destruct (push_column_adds emission_label column [] y
                (LabelTemplate.mk (EmissionCost y) y None))
      as (m & Hm & Hidm & Hlem); [done| |by exists m].
    unfold emission_label. by rewrite He.
  - intros i lx l Hlx Htm. by destruct (Hpast _ _ Hlx).
  - done.
  - intros k Hk1 Hk2. lia.
  - intros k winner Hk. destruct Hbefore as [[Hw _]|[src Hdij]].
    + by rewrite Hw in Hk.
    + by apply (d_winners _ _ _ Hdij).
Qed.

(** Recording that the column the search started at has no winner: the
    queue ran empty before any state of the column was settled. *)
Lemma dij_inv_pad src s :
  lazy_inv s -> dij_inv src None s ->
  queue_ s = [] ->
  N.of_nat (length (winner_ s)) = src ->
  src < N.of_nat (length (unreached_states_ s)) ->
  dij_inv src None (set_winner (winner_ s ++ [None]) s).
Proof.
  intros Hinv Hdij Hempty Hw Hlen.
  pose proof Hdij as [Hset Hsrc Hcur Hq Hfr Hso Hord Hpend Hre Hwn].
  split; simpl; try done.
  - destruct Hsrc as [Hle Hseg]. split; [|done]. rewrite length_app. lia.
  - intros k Hk1 Hk2. rewrite length_app in Hk2. simpl in Hk2. lia.
  - intros k winner [Hk|[Hk1 Hk2]]%lookup_app_Some; [by apply Hwn|].
    apply list_lookup_singleton_Some in Hk2 as [Hk2 <-].
    exists src. replace (N.of_nat k) with src by lia.
    split; [by destruct Hsrc|].
    intros (z & c & Hpath & Hz).
    apply (drained_no_path s src z c); [done..|lia|lia].
Qed.

(** One turn of the main loop. *)
Lemma scan_dij src target searched s label q r :
  lazy_inv s -> dij_inv src None s ->
  pop (queue_ s) = Some (label, q) ->
  N.of_nat (length (winner_ s)) <= searched + 1 ->
  (searched < N.of_nat (length (winner_ s)) /\ searched < target)
  \/ (searched = src /\ N.of_nat (length (winner_ s)) = src) ->
  scan target searched label (set_queue q s) = Ok r ->
  match r with
  | Continue searched' s' =>
      dij_inv src None s'
      /\ N.of_nat (length (winner_ s')) <= searched' + 1
      /\ ((searched' < N.of_nat (length (winner_ s')) /\ searched' < target)
          \/ (searched' = src /\ N.of_nat (length (winner_ s')) = src))
  | Break searched' s' =>
      target <= searched'
      /\ searched' < N.of_nat (length (winner_ s'))
      /\ exists y, last (winner_ s') = Some (Some y) /\ dij_inv src (Some y) s'
  end.
Proof.
  intros Hinv Hdij Hpop Hw1 Hpre. unfold scan. intros Hs.
  destruct (time (LabelTemplate.state label) <? earliest_time_ (set_queue q s)) eqn:Hold.
  { simplify_eq. apply N.ltb_lt in Hold. simpl in Hold.
    split_and!; simpl; [by eapply dij_inv_discard|done|done]. }
  apply N.ltb_ge in Hold. simpl in Hold.
  bind_inv Hs as s0 Hs0. bind_inv Hs as s1 Hs1. bind_inv Hs as s2 Hs2.
  destruct (lazy_inv_pop _ _ _ Hinv Hpop) as [Hinvq Hlabel].
  assert (label_ok (set_queue q s) label) as Hlabelq by done.
  destruct (settle_inv _ _ _ _ _ Hinvq Hlabelq Hs0 Hs1 Hs2) as (Hinv2 & _ & _ & _ & Htm2).
  destruct (settle_columns _ _ _ _ _ Hinvq Hlabelq Hold Hs0 Hs1 Hs2) as (_ & _ & Hwin).
  pose proof (dij_inv_settle src s label q s0 s1 s2 Hinv Hdij Hpop Hold Hs0 Hs1 Hs2) as Hdij2.
  assert (label ∈ queue_ s) as Hin.
  { apply pop_Some in Hpop as [Hperm _]. rewrite Hperm. apply elem_of_cons. by left. }
  destruct (d_queue src None s Hdij label Hin) as (Hsy & _).
  simpl in Hwin. clear Hs0 Hs1 Hs2 Hinvq Hlabelq.
  set (y := LabelTemplate.state label) in *.
  assert (N.of_nat (length (winner_ s2)) <= N.max (time y) searched + 1
          /\ N.max (time y) searched < N.of_nat (length (winner_ s2))
          /\ (target <= N.max (time y) searched -> winner_ s2 = winner_ s ++ [Some y]))
    as (Hw1' & Hw2' & Hfirst).
  { destruct Hwin as [Hwin|[Hwin Hfirst]]; rewrite Hwin in *; rewrite ?length_app; simpl.
    - split_and!; [lia|lia|]. intros Hbreak. lia.
    - split_and!; [lia|lia|done]. }
  destruct (target <=? N.max (time y) searched) eqn:Hbreak.
  - simplify_eq. apply N.leb_le in Hbreak.
    split_and!; [done|done|].
    exists y. split; [|done]. rewrite Hfirst by done. apply last_snoc.
  - apply N.leb_gt in Hbreak.
    bind_inv Hs as s3 Hs3. simplify_eq.
    pose proof (dij_inv_successors _ _ _ _ Hinv2 Hdij2 Hs3) as Hdij3.
    apply AddSuccessorsToQueue_frame in Hs3. rewrite Hs3. simpl.
    rewrite Hs3 in Hdij3.
    split_and!; [done|done|by left].
Qed.

(** The main loop ends with an empty queue, or at a settled state of the
    target column whose successors are not in the queue yet. *)
Lemma search_loop_dij fuel src target searched s searched' s' :
  lazy_inv s -> dij_inv src None s ->
  N.of_nat (length (winner_ s)) <= searched + 1 ->
  (searched < N.of_nat (length (winner_ s)) /\ searched < target)
  \/ (searched = src /\ N.of_nat (length (winner_ s)) = src) ->
  search_loop fuel target searched s = Ok (searched', s') ->
  (queue_ s' = []
   /\ dij_inv src None s'
   /\ N.of_nat (length (winner_ s')) <= searched' + 1
   /\ ((searched' < N.of_nat (length (winner_ s')) /\ searched' < target)
       \/ (searched' = src /\ N.of_nat (length (winner_ s')) = src)))
  \/ (target <= searched'
      /\ searched' < N.of_nat (length (winner_ s'))
      /\ exists y, last (winner_ s') = Some (Some y) /\ dij_inv src (Some y) s').
Proof.
  revert searched s. induction fuel as [|fuel IH]; intros searched s Hinv Hdij Hw1 Hpre Hs;
    [done|].
  simpl in Hs. destruct (pop (queue_ s)) as [[label q]|] eqn:Hpop; simplify_eq.
  2:{ left. by apply pop_None in Hpop. }
  destruct (lazy_inv_pop _ _ _ Hinv Hpop) as [Hinvq Hlabel].
  bind_inv Hs as r Hr.
  destruct (scan_inv _ _ _ _ _ Hinvq Hlabel Hr) as [Hinv' _].
  pose proof (scan_dij _ _ _ _ _ _ _ Hinv Hdij Hpop Hw1 Hpre Hr) as Hturn.
  destruct r as [searched1 s1|searched1 s1]; simplify_eq; simpl in *; [|by right].
  destruct Hturn as (Hdij1 & Hw1' & Hpre').
  by apply (IH _ _ Hinv' Hdij1 Hw1' Hpre').
Qed.

Lemma last_winner_lookup s y :
  mjoin (last (winner_ s)) = Some y ->
  winner_ s !! N.to_nat (N.of_nat (length (winner_ s)) - 1) = Some (Some y)
  /\ (0 < length (winner_ s))%nat.
Proof.
  rewrite last_lookup. intros Hlast.
  destruct (winner_ s !! Nat.pred (length (winner_ s))) as [[w|]|] eqn:Hw; simplify_eq/=.
  pose proof (lookup_lt_Some _ _ _ Hw) as Hlt.
  replace (N.to_nat (N.of_nat (length (winner_ s)) - 1)) with (Nat.pred (length (winner_ s)))
    by lia.
  split; [done|lia].
Qed.

Lemma set_winner_pad_0 s : set_winner (winner_ s ++ replicate 0 None) s = s.
Proof. destruct s. simpl. by rewrite app_nil_r. Qed.

(** [IterativeSearch] leaves a drained engine when it stops before the
    target, and an engine as it is between two queries otherwise. *)
Lemma IterativeSearch_dij target request_new_start s searched' s' :
  lazy_inv s ->
  (request_new_start = false /\ between_queries s)
  \/ (request_new_start = true /\ drained s /\ N.of_nat (length (winner_ s)) <= target) ->
  IterativeSearch target request_new_start s = Ok (searched', s') ->
  (searched' < target /\ drained s' /\ N.of_nat (length (winner_ s')) <= target)
  \/ (target <= searched' /\ between_queries s').
Proof.
  intros Hinv Hpre Hs.
  pose proof (inv_fit s Hinv) as Hfit. pose proof (inv_bounded s Hinv) as Hbs.
  unfold columns_fit, bounded in Hfit, Hbs.
  unfold IterativeSearch in Hs.
  destruct (N.of_nat (length (unreached_states_ s)) <=? target) eqn:Hsize;
    [by repeat case_match|].
  apply N.leb_gt in Hsize.
  destruct (target <? N.of_nat (length (winner_ s))) eqn:Hcached; simplify_eq.
  { apply N.ltb_lt in Hcached. right. split; [lia|].
    destruct Hpre as [[_ ?]|(_ & _ & ?)]; [done|lia]. }
  apply N.ltb_ge in Hcached.
  bind_inv Hs as [source s1] Hs1.
  bind_inv Hs as [searched1 s2] Hs2. simplify_eq.
  assert (exists src,
             lazy_inv s1 /\ dij_inv src None s1 /\ winner_ s1 = winner_ s
             /\ length (unreached_states_ s1) = length (unreached_states_ s)
             /\ src <= target
             /\ N.of_nat (length (winner_ s)) <= source + 1
             /\ ((source < N.of_nat (length (winner_ s)) /\ source < target)
                 \/ (source = src /\ N.of_nat (length (winner_ s)) = src)))
    as (src & Hinv1 & Hdij1 & Hwin1 & Hlen1 & Hsrc & Hw1 & Hstart).
  { assert (drained s ->
            match unreached_states_ s !! N.to_nat (u32 (N.of_nat (length (winner_ s)))) with
            | Some column => Ok (u32 (N.of_nat (length (winner_ s))), InitQueue column s)
            | None => Throw undefined_behaviour
            end = Ok (source, s1) ->
            exists src,
              lazy_inv s1 /\ dij_inv src None s1 /\ winner_ s1 = winner_ s
              /\ length (unreached_states_ s1) = length (unreached_states_ s)
              /\ src <= target
              /\ N.of_nat (length (winner_ s)) <= source + 1
              /\ ((source < N.of_nat (length (winner_ s)) /\ source < target)
                  \/ (source = src /\ N.of_nat (length (winner_ s)) = src)))
      as Hrestart.
    { intros [Hq Hd] Hs1'. rewrite u32_small in Hs1' by lia.
      rewrite Nat2N.id in Hs1'.
      destruct (unreached_states_ s !! length (winner_ s)) as [column|] eqn:Hcol;
        simplify_eq.
      exists (N.of_nat (length (winner_ s))).
      split_and!; [by eapply InitQueue_inv|by apply dij_inv_restart|done|done|done|lia|
                   by right]. }
    destruct Hpre as [[-> [[Hdr Hlast]|(src & y & Hlast & Hdij)]]|(-> & Hdr & Hle)].
    - rewrite Hlast in Hs1. rewrite bool_decide_eq_false_2 in Hs1 by (by intros [? ?]).
      by apply Hrestart.
    - rewrite Hlast in Hs1. rewrite bool_decide_eq_true_2 in Hs1 by eauto.
      simpl in Hs1.
      destruct (last_winner_lookup s y Hlast) as [Hw Hpos].
      rewrite u32_small in Hs1 by lia. rewrite Hw in Hs1.
      bind_inv Hs1 as sq Hsq. simplify_eq.
      destruct (inv_winner s Hinv _ _ Hw) as [Htm Hset].
      assert (in_table s y) as Htab.
      { destruct Hset as (l & Hl & <-).
        by destruct (inv_scanned s Hinv _ _ Hl) as (_ & _ & ? & _). }
      destruct (d_pending _ _ _ Hdij y eq_refl) as (_ & _ & _ & Hsy & _).
      exists src.
      split_and!; [|by eapply dij_inv_successors| | |lia|lia|left; lia].
      + eapply AddSuccessorsToQueue_inv; [done|done|done|lia|done].
      + apply AddSuccessorsToQueue_frame in Hsq as ->. done.
      + apply AddSuccessorsToQueue_frame in Hsq as ->. done.
    - by apply Hrestart. }
  rewrite <- Hwin1 in Hw1, Hstart.
  destruct (search_loop_inv _ _ _ _ _ _ Hinv1 Hs2) as [Hinv2 (_ & Hlen2 & _)].
  destruct (search_loop_dij _ _ _ _ _ _ _ Hinv1 Hdij1 Hw1 Hstart Hs2)
    as [(Hq & Hd & Hw & [[Hlt Hlt']|[-> Hwsrc]])|(Hle & Hlt & y & Hlast & Hd)].
  - left. replace (N.to_nat (searched' + 1) - length (winner_ s2))%nat with 0%nat by lia.
    rewrite set_winner_pad_0. split; [done|]. split; [|lia].
    split; [done|]. right. by exists src.
  - replace (N.to_nat (src + 1) - length (winner_ s2))%nat with 1%nat by lia.
    assert (dij_inv src None (set_winner (winner_ s2 ++ [None]) s2)) as Hpad.
    { apply dij_inv_pad; [done|done|done|done|lia]. }
    destruct (decide (src < target)) as [Hlt|Hge].
    + left. split; [done|]. split.
      * split; [done|]. right. by exists src.
      * simpl. rewrite length_app. simpl. lia.
    + right. split; [lia|]. left. split.
      * split; [done|]. right. by exists src.
      * simpl. by rewrite last_snoc.
  - right. split; [done|]. right. exists src, y.
    replace (N.to_nat (searched' + 1) - length (winner_ s2))%nat with 0%nat by lia.
    rewrite set_winner_pad_0. split; [by rewrite Hlast|done].
Qed.

Lemma restart_loop_dij fuel target searched s searched' s' :
  lazy_inv s ->
  (searched < target -> drained s /\ N.of_nat (length (winner_ s)) <= target) ->
  (target <= searched -> between_queries s) ->
  restart_loop fuel target searched s = Ok (searched', s') ->
  between_queries s'.
Proof.
  revert searched s.
  induction fuel as [|fuel IH]; intros searched s Hinv Hbefore Hdone Hs; simpl in Hs.
  - destruct (searched <? target) eqn:Hlt; simplify_eq. apply N.ltb_ge in Hlt. auto.
  - destruct (searched <? target) eqn:Hlt; simplify_eq; [|apply N.ltb_ge in Hlt; auto].
    apply N.ltb_lt in Hlt. bind_inv Hs as [searched1 s1] Hs1.
    destruct (IterativeSearch_inv _ _ _ _ _ Hinv Hs1) as [Hinv1 _].
    destruct (IterativeSearch_dij _ _ _ _ _ Hinv (or_intror (conj eq_refl (Hbefore Hlt))) Hs1)
      as [(? & ? & ?)|[? ?]]; eapply (IH _ _ Hinv1); try done; lia.
Qed.

Lemma advance_dij tm s s' :
  lazy_inv s -> between_queries s -> advance tm s = Ok s' -> between_queries s'.
Proof.
  unfold advance. intros Hinv Hbetween Hs.
  bind_inv Hs as [searched s1] Hs1. bind_inv Hs as [searched' s2] Hs2. simplify_eq.
  destruct (IterativeSearch_inv _ _ _ _ _ Hinv Hs1) as [Hinv1 _].
  destruct (IterativeSearch_dij _ _ _ _ _ Hinv (or_introl (conj eq_refl Hbetween)) Hs1)
    as [(? & ? & ?)|[? ?]]; eapply (restart_loop_dij _ _ _ _ _ _ Hinv1); try done; lia.
Qed.

(** Between two queries of a host the search is as [between_queries]
    says. *)
Lemma reachable_between s : reachable s -> between_queries s.
Proof.
  induction 1 as [columns Hwf|tm s r s' Hreach IH Hs].
  - left. split; [|done]. split; [done|]. by left.
  - apply SearchWinner_Ok in Hs as (_ & [->|[_ Hs]]); [done|].
    eapply advance_dij; [|done|done]. by eapply reachable_inv.
Qed.

(** Every scanned label of an engine a host can reach carries a least
    cost. *)
Lemma reachable_anchored s i l :
  reachable s -> scanned_labels_ s !! i = Some l ->
  valid_cost (LabelTemplate.costsofar l) /\ anchored s l.
Proof.
  intros Hreach Hl.
  destruct (reachable_between s Hreach)
    as [[[_ [[_ Hnone]|[src Hdij]]] _]|(src & y & _ & Hdij)].
  - rewrite Hnone in Hl. by apply lookup_empty_Some in Hl.
  - by eapply d_settled.
  - by eapply d_settled.
Qed.

(** Every cached winner of an engine a host can reach is the best state
    of its column. *)
Lemma reachable_winners s k winner :
  reachable s -> winner_ s !! k = Some winner -> winner_ok s k winner.
Proof.
  intros Hreach Hk.
  destruct (reachable_between s Hreach)
    as [[[_ [[Hnone _]|[src Hdij]]] _]|(src & y & _ & Hdij)].
  - by rewrite Hnone in Hk.
  - by eapply d_winners.
  - by eapply d_winners.
Qed.

End Dijkstra.

(** ** The cost of a settled state *)

Lemma breakage_columns_wf : wf_trellis [[Scenario.a]; [Scenario.b]; [Scenario.c]].
Proof.
  split_and!; [vm_compute; discriminate|vm_compute; reflexivity| |].
  - intros [|[|[|k]]] st Hk; simpl in Hk; by simplify_eq.
  - intros [|[|[|k]]] column st Hk Hst; simpl in Hk; simplify_eq;
      by apply list_elem_of_singleton in Hst as ->.
Qed.

Lemma breakage_no_path_to_b (table : list State) (c : cost) :
  ~ @path_to Scenario.breakage_costs table 0 Scenario.b c.
Proof.
  intros Hpath. inversion Hpath as [x Hx Htm He|x y c' Hprev Hy Htm He Ht]; subst.
  - done.
  - change (TransitionCost x Scenario.b)
      with (if (id x =? 1) && false then Fin 1 else Fin (-1)) in Ht.
    by rewrite andb_false_r in Ht.
Qed.

(** C2, as stated, fails after a breakage.  On the columns [{a}], [{b}],
    [{c}] with no edge from [a] to [b], the additive cost model satisfies
    the precondition and [SearchWinner(2)] settles [b], with the cost of its
    emission alone; no path from a state of time 0 leads to [b], so that the
    recorded cost is not the least cost of such a path.  The queue never
    holds more than one label in this run: the heap of the specification
    and a queue with one label per state give the same engine. *)
Lemma settled_after_breakage_not_from_start :
  dijkstra_costs Scenario.breakage_costs
  /\ wf_trellis [[Scenario.a]; [Scenario.b]; [Scenario.c]]
  /\ forall Q : SPQueue,
       Q = HeapQueue \/ Q = KeyedQueue ->
       exists (s : ViterbiSearch.t) (l : Label),
         @ViterbiSearch.SearchWinner Scenario.breakage_costs Q 2 Scenario.breakage
           = Ok (id Scenario.c, s)
         /\ ViterbiSearch.scanned_labels_ s !! id Scenario.b = Some l
         /\ LabelTemplate.state l = Scenario.b
         /\ LabelTemplate.costsofar l = Fin 0
         /\ (forall c, ~ @path_to Scenario.breakage_costs (ViterbiSearch.state_ s) 0
                         (LabelTemplate.state l) c)
         /\ ~ @is_min_cost Scenario.breakage_costs (ViterbiSearch.state_ s) 0
                (LabelTemplate.state l) (LabelTemplate.costsofar l).
Proof.
  split; [apply sum_costs_dijkstra|]. split; [apply breakage_columns_wf|].
  intros Q [->| ->].
  - eexists _, _. split; [vm_compute; reflexivity|]. split; [vm_compute; reflexivity|].
    split; [reflexivity|]. split; [reflexivity|]. split.
    + intros c. apply breakage_no_path_to_b.
    + intros [Hpath _]. by apply breakage_no_path_to_b in Hpath.
  - eexists _, _. split; [vm_compute; reflexivity|]. split; [vm_compute; reflexivity|].
    split; [reflexivity|]. split; [reflexivity|]. split.
    + intros c. apply breakage_no_path_to_b.
    + intros [Hpath _]. by apply breakage_no_path_to_b in Hpath.
Qed.

(** C2, amended.  Let the cost model satisfy the precondition (a valid
    [CostSofar] is at least its first argument and is monotone in it) and
    let the queue return a label of least cost and keep, for every id that
    was pushed, a label at most as expensive as the pushed one.  For every
    engine reached from a well-formed trellis by queries that returned, and
    every state id with a scanned label: [AccumulatedCost] is the cost of
    the label, the cost is valid, and it is the least [CostSofar] of a
    path along valid emissions and transitions to the state from a state
    of the column at which the chain of predecessors of the label starts.
    That column is time 0, or a column that no path from a state of time 0
    reaches (the search was started again there).  Hence the recorded cost
    is the least cost of a path from time 0 whenever there is such a
    path. *)
Theorem settled_cost_is_least (cm : CostModel) (Q : SPQueue) (L : SPQueueLaws Q)
    (s : ViterbiSearch.t) (i : StateId) (l : Label) :
  dijkstra_costs cm ->
  reachable s ->
  ViterbiSearch.scanned_labels_ s !! i = Some l ->
  ViterbiSearch.AccumulatedCost i s = LabelTemplate.costsofar l
  /\ id (LabelTemplate.state l) = i
  /\ valid_cost (LabelTemplate.costsofar l)
  /\ (exists x0,
         origin (ViterbiSearch.scanned_labels_ s) l x0
         /\ is_min_cost (ViterbiSearch.state_ s) (time x0) (LabelTemplate.state l)
              (LabelTemplate.costsofar l)
         /\ (time x0 = 0 \/ breakage (ViterbiSearch.state_ s) (time x0)))
  /\ ((exists c, path_to (ViterbiSearch.state_ s) 0 (LabelTemplate.state l) c) ->
      is_min_cost (ViterbiSearch.state_ s) 0 (LabelTemplate.state l)
        (LabelTemplate.costsofar l)).
Proof.
  intros Hcosts Hreach Hl.
  destruct (reachable_anchored Hcosts s i l Hreach Hl) as [Hvalid (x0 & Ho & Hmin & Hseg)].
  destruct (inv_scanned s (reachable_inv s Hreach) i l Hl) as (Hid & _).
  pose proof (seg_breakage _ _ _ Hseg) as Hcut.
  split_and!; [|done|done|by exists x0|].
  - unfold ViterbiSearch.AccumulatedCost. by rewrite Hl.
  - intros [c Hpath]. destruct Hcut as [Hz|[_ Hcut]]; [by rewrite Hz in Hmin|].
    destruct (Hcut (LabelTemplate.state l) c); [|done].
    destruct Hmin as [Hp _]. by apply path_to_time in Hp.
Qed.

Lemma settled_cost_is_least_witness :
  exists (s : ViterbiSearch.t) (l : Label),
    @ViterbiSearch.SearchWinner Scenario.breakage_costs HeapQueue 2 Scenario.breakage
      = Ok (id Scenario.c, s)
    /\ ViterbiSearch.scanned_labels_ s !! id Scenario.c = Some l
    /\ LabelTemplate.costsofar l = Fin 1
    /\ exists x0,
         @origin (ViterbiSearch.scanned_labels_ s) l x0
         /\ @is_min_cost Scenario.breakage_costs (ViterbiSearch.state_ s) (time x0)
              (LabelTemplate.state l) (LabelTemplate.costsofar l)
         /\ (time x0 = 0 \/ @breakage Scenario.breakage_costs (ViterbiSearch.state_ s) (time x0)).
Proof.
  eexists _, _. split; [vm_compute; reflexivity|]. split; [vm_compute; reflexivity|].
  split; [reflexivity|].
  apply (settled_cost_is_least Scenario.breakage_costs HeapQueue HeapQueue_laws _
           (id Scenario.c)).
  - apply sum_costs_dijkstra.
  - eapply (reachable_search 2 _ (id Scenario.c));
      [apply reachable_create, breakage_columns_wf|vm_compute; reflexivity].
  - vm_compute. reflexivity.
Defined.

(** ** The lazy engine answers every query *)

Lemma concat_column_length {A : Type} (columns : list (list A)) (i : nat) (column : list A) :
  columns !! i = Some column -> (length column <= length (concat columns))%nat.
Proof.
  revert i. induction columns as [|c columns IH]; intros i Hi; [done|].
  simpl. rewrite length_app. destruct i as [|i]; simplify_eq/=; [lia|].
  apply IH in Hi. lia.
Qed.

Lemma concat_delete_length {A : Type} (columns : list (list A)) (i k : nat)
    (column : list A) :
  columns !! i = Some column -> is_Some (column !! k) ->
  S (length (concat (<[i := delete k column]> columns))) = length (concat columns).
Proof.
  revert i. induction columns as [|c columns IH]; intros i Hi Hk; [done|].
  destruct i as [|i]; simplify_eq/=.
  - rewrite !length_app, length_delete by done.
    destruct Hk as [x Hk]. apply lookup_lt_Some in Hk. lia.
  - rewrite !length_app. rewrite <- (IH i Hi Hk). lia.
Qed.

Lemma bind_Ok_intro {A B : Type} (r : result A) (k : A -> result B) (a : A) (b : B) :
  r = Ok a -> k a = Ok b -> mbind k r = Ok b.
Proof. by intros ->. Qed.

Section LazyTotal.
Import ViterbiSearch.
Context `{CostModel} {Q : SPQueue} `{!SPQueueLaws Q} `{!SPQueueKeyed Q}.

Lemma InitQueue_costs_valid column s : costs_valid s -> costs_valid (InitQueue column s).
Proof.
  intros [_ Hsc]. split; simpl; [|done].
  intros l [Hl|(st & Hst & Hf)]%push_column_sound; [by apply elem_of_nil in Hl|].
  by apply emission_label_Some in Hf as [-> ?].
Qed.

Lemma AddSuccessorsToQueue_costs_valid st s s' :
  costs_valid s -> AddSuccessorsToQueue st s = Ok s' -> costs_valid s'.
Proof.
  intros [Hq Hsc] (l & column & Hl & Hvalid & Hcol & ->)%AddSuccessorsToQueue_Ok.
  split; simpl; [|done].
  intros l' [Hl'|(next & Hnext & Hf)]%push_column_sound; [by apply Hq|].
  by apply successor_label_Some in Hf as (-> & _ & _ & ?).
Qed.

(** [AddSuccessorsToQueue] returns for a settled state that is not of the
    last column. *)
Lemma AddSuccessorsToQueue_total st s :
  lazy_inv s -> costs_valid s ->
  is_Some (scanned_labels_ s !! id st) ->
  time st + 1 < N.of_nat (length (unreached_states_ s)) ->
  exists s',
    AddSuccessorsToQueue st s = Ok s'
    /\ (length (queue_ s') <= length (queue_ s) + unreached_count s)%nat.
Proof.
  intros Hinv [_ Hsc] [l Hl] Htm.
  pose proof (inv_fit s Hinv) as Hfit. unfold columns_fit in Hfit.
  unfold AddSuccessorsToQueue. rewrite u32_small by lia.
  apply N.ltb_lt in Htm as Htm'. rewrite Htm'. simpl. rewrite Hl, (Hsc _ _ Hl).
  destruct (lookup_lt_is_Some_2 (unreached_states_ s) (N.to_nat (time st + 1)))
    as [column Hcol]; [lia|].
  rewrite Hcol. eexists. split; [done|]. simpl.
  etrans; [apply push_column_length|].
  apply concat_column_length in Hcol. unfold unreached_count. lia.
Qed.

Lemma remove_from_column_total st s column :
  unreached_states_ s !! N.to_nat (time st) = Some column -> st ∈ column ->
  exists s', remove_from_column st s = Ok s'.
Proof.
  intros Hcol Hst. unfold remove_from_column. rewrite Hcol.
  destruct (list_find_elem_of (fun x => id st = id x) column st Hst eq_refl) as [[k x] ->].
  destruct (delete k column); eauto.
Qed.

Lemma mark_winner_total st s :
  time st <= N.of_nat (length (winner_ s)) -> exists s', mark_winner st s = Ok s'.
Proof.
  intros Hle. unfold mark_winner.
  destruct (N.of_nat (length (winner_ s)) <=? time st) eqn:Hge; [|eauto].
  apply N.leb_le in Hge. assert (time st = N.of_nat (length (winner_ s))) as Heq by lia.
  apply N.eqb_eq in Heq. rewrite Heq. simpl. eauto.
Qed.

(** Settling a state takes it out of the unreached columns. *)
Lemma settle_count label s s0 s1 s2 :
  mark_scanned label s = Ok s0 ->
  remove_from_column (LabelTemplate.state label) s0 = Ok s1 ->
  mark_winner (LabelTemplate.state label) s1 = Ok s2 ->
  S (unreached_count s2) = unreached_count s
  /\ length (unreached_states_ s2) = length (unreached_states_ s).
Proof.
  intros [_ ->]%mark_scanned_Ok Hs1 Hs2.
  apply remove_from_column_Ok in Hs1 as (column & k & x & Hcol & Hfind & ->).
  apply mark_winner_fields in Hs2 as (winner' & -> & _).
  simpl in Hcol. apply list_find_Some in Hfind as (Hk & _).
  unfold unreached_count.
  destruct (delete k column) eqn:Hdel; simpl; rewrite <- Hdel, length_insert;
    (split; [|done]); by eapply concat_delete_length.
Qed.

(** One turn of the main loop returns, and leaves fewer turns. *)
Lemma scan_total target searched label q s :
  lazy_inv s -> keyed_inv s -> costs_valid s ->
  pop (queue_ s) = Some (label, q) ->
  target < N.of_nat (length (unreached_states_ s)) ->
  exists r,
    scan target searched label (set_queue q s) = Ok r
    /\ costs_valid (turn_state r)
    /\ (turns_left (turn_state r) < turns_left s)%nat.
Proof.
  intros Hinv Hkeyed [Hqv Hsv] Hpop Htarget.
  destruct (lazy_inv_pop _ _ _ Hinv Hpop) as [Hinvq Hlabel].
  destruct (keyed_inv_pop _ _ _ Hkeyed Hpop) as (_ & _ & Hfresh).
  pose proof (pop_length _ _ _ Hpop) as Hlen.
  assert (label ∈ queue_ s) as Hin.
  { apply pop_Some in Hpop as [Hperm _]. rewrite Hperm. apply elem_of_cons. by left. }
  assert (forall l, l ∈ q -> l ∈ queue_ s) as Hqsub.
  { intros l Hl. apply pop_Some in Hpop as [Hperm _]. rewrite Hperm.
    apply elem_of_cons. by right. }
  unfold scan.
  destruct (time (LabelTemplate.state label) <? earliest_time_ (set_queue q s)) eqn:Hold.
  { eexists. split; [done|]. simpl. split; [split; simpl; by auto|].
    unfold turns_left, unreached_count. simpl. lia. }
  unfold LabelTemplate.id in Hfresh.
  assert (label_ok (set_queue q s) label) as Hlabelq by done.
  destruct Hlabel as (Hytab & Hyw & Hylen & Hypred).
  assert (exists s0, mark_scanned label (set_queue q s) = Ok s0) as [s0 Hs0].
  { unfold mark_scanned. simpl. rewrite Hfresh. eauto. }
  assert (exists s1, remove_from_column (LabelTemplate.state label) s0 = Ok s1) as [s1 Hs1].
  { destruct (inv_partition s Hinv _ Hytab Hylen) as [(column & Hcol & Hy)|(l & Hl & _)];
      [|congruence].
    apply mark_scanned_Ok in Hs0 as [_ ->].
    by eapply remove_from_column_total. }
  assert (exists s2, mark_winner (LabelTemplate.state label) s1 = Ok s2) as [s2 Hs2].
  { apply mark_winner_total.
    apply mark_scanned_Ok in Hs0 as [_ ->].
    apply remove_from_column_Ok in Hs1 as (column & k & x & _ & _ & ->).
    by destruct (delete k column). }
  destruct (settle_inv _ _ _ _ _ Hinvq Hlabelq Hs0 Hs1 Hs2) as (Hinv2 & Hg & Hq2 & Hsc2 & Htm2).
  destruct (settle_count _ _ _ _ _ Hs0 Hs1 Hs2) as [Hcount Hcols].
  simpl in Hq2, Hsc2, Hcols.
  assert (costs_valid s2) as Hvalid2.
  { split; [rewrite Hq2; by auto|]. rewrite Hsc2.
    intros i l [[<- <-]|[_ Hl]]%lookup_insert_Some; by eauto. }
  assert (turns_left s2 < turns_left s)%nat as Hless.
  { unfold turns_left. rewrite Hq2.
    change (unreached_count (set_queue q s)) with (unreached_count s) in Hcount. nia. }
  destruct (target <=? N.max (time (LabelTemplate.state label)) searched) eqn:Hbreak.
  { eexists. split.
    - eapply bind_Ok_intro; [exact Hs0|]. eapply bind_Ok_intro; [exact Hs1|].
      eapply bind_Ok_intro; [exact Hs2|]. done.
    - done. }
  apply N.leb_gt in Hbreak.
  destruct (AddSuccessorsToQueue_total (LabelTemplate.state label) s2)
    as (s3 & Hs3 & Hq3); [done|done| | |].
  { rewrite Hsc2, lookup_insert_eq. eauto. }
  { rewrite Hcols. lia. }
  eexists. split.
  - eapply bind_Ok_intro; [exact Hs0|]. eapply bind_Ok_intro; [exact Hs1|].
    eapply bind_Ok_intro; [exact Hs2|]. cbn beta zeta.
    eapply bind_Ok_intro; [exact Hs3|]. done.
  - simpl. split; [by eapply AddSuccessorsToQueue_costs_valid|].
    pose proof (AddSuccessorsToQueue_frame _ _ _ Hs3) as Hframe.
    unfold turns_left in *. rewrite Hframe. simpl.
    change (unreached_count (set_queue (queue_ s3) s2)) with (unreached_count s2).
    change (unreached_count (set_queue q s)) with (unreached_count s) in Hcount.
    rewrite Hq2 in Hq3. simpl in Hq3. nia.
Qed.

Lemma scan_searched target searched label s r :
  scan target searched label s = Ok r -> searched <= turn_time r.
Proof.
  unfold scan. intros Hs. case_match; simplify_eq; [done|].
  bind_inv Hs as s0 Hs0. bind_inv Hs as s1 Hs1. bind_inv Hs as s2 Hs2.
  case_match; simplify_eq; simpl; [lia|].
  bind_inv Hs as s3 Hs3. simplify_eq. simpl. lia.
Qed.

Lemma search_loop_searched_le fuel target searched s searched' s' :
  search_loop fuel target searched s = Ok (searched', s') -> searched <= searched'.
Proof.
  revert searched s. induction fuel as [|fuel IH]; intros searched s Hs; [done|].
  simpl in Hs. destruct (pop (queue_ s)) as [[label q]|]; simplify_eq; [|done].
  bind_inv Hs as r Hr. apply scan_searched in Hr.
  destruct r as [searched1 s1|searched1 s1]; simplify_eq; simpl in *; [|done].
  apply IH in Hs. lia.
Qed.

(** The main loop returns when its fuel exceeds the turns that are
    left. *)
Lemma search_loop_total fuel target searched s :
  lazy_inv s -> keyed_inv s -> costs_valid s ->
  target < N.of_nat (length (unreached_states_ s)) ->
  (turns_left s < fuel)%nat ->
  exists r, search_loop fuel target searched s = Ok r /\ costs_valid r.2.
Proof.
  revert searched s.
  induction fuel as [|fuel IH]; intros searched s Hinv Hkeyed Hvalid Htarget Hfuel; [lia|].
  simpl. destruct (pop (queue_ s)) as [[label q]|] eqn:Hpop; [|by eexists].
  destruct (scan_total target searched label q s) as (r & Hr & Hvalid' & Hless); [done..|].
  destruct (lazy_inv_pop _ _ _ Hinv Hpop) as [Hinvq Hlabel].
  destruct (keyed_inv_pop _ _ _ Hkeyed Hpop) as (Hkeyedq & Hnotin & Hfresh).
  pose proof (scan_safe target searched label (set_queue q s) Hinvq Hlabel Hkeyedq Hnotin Hfresh)
    as Hsafe.
  rewrite Hr in Hsafe. destruct Hsafe as [Hinv' Hkeyed'].
  destruct (scan_inv _ _ _ _ _ Hinvq Hlabel Hr) as [_ (_ & Hlen & _)].
  rewrite Hr. simpl.
  destruct r as [searched1 s1|searched1 s1]; simpl in *; [|by eexists].
  apply IH; [done|done|done|lia|lia].
Qed.

Lemma IterativeSearch_total target request_new_start s :
  lazy_inv s -> keyed_inv s -> costs_valid s ->
  target < N.of_nat (length (unreached_states_ s)) ->
  exists r, IterativeSearch target request_new_start s = Ok r /\ costs_valid r.2.
Proof.
  intros Hinv Hkeyed Hvalid Htarget.
  pose proof (inv_fit s Hinv) as Hfit. pose proof (inv_bounded s Hinv) as Hbs.
  unfold columns_fit, bounded in Hfit, Hbs.
  unfold IterativeSearch. rewrite (proj2 (N.leb_gt _ _) Htarget).
  destruct (target <? N.of_nat (length (winner_ s))) eqn:Hcached; [by eexists|].
  apply N.ltb_ge in Hcached.
  destruct (negb request_new_start && _) eqn:Hbranch.
  - apply andb_true_iff in Hbranch as [_ [y Hlast]%bool_decide_eq_true].
    destruct (last_winner_lookup s y Hlast) as [Hw Hpos].
    destruct (inv_winner s Hinv _ _ Hw) as [Htm Hset].
    assert (in_table s y) as Htab.
    { destruct Hset as (l & Hl & <-).
      by destruct (inv_scanned s Hinv _ _ Hl) as (_ & _ & ? & _). }
    destruct (AddSuccessorsToQueue_total y s) as (sq & Hsq & _); [done|done| |lia|].
    { destruct Hset as (l & Hl & _). eauto. }
    assert (lazy_inv sq) as Hinv1
      by (eapply AddSuccessorsToQueue_inv; [done|done|done|lia|done]).
    assert (keyed_inv sq) as Hkeyed1
      by (apply (AddSuccessorsToQueue_keyed y s); [done|done|lia|done]).
    assert (costs_valid sq) as Hvalid1 by by eapply AddSuccessorsToQueue_costs_valid.
    assert (length (unreached_states_ sq) = length (unreached_states_ s)) as Hlen1.
    { apply AddSuccessorsToQueue_frame in Hsq as ->. done. }
    destruct (search_loop_total (loop_fuel sq) target (N.of_nat (length (winner_ s)) - 1) sq)
      as ([searched2 s2] & Hs2 & Hvalid2);
      [done|done|done|lia|unfold loop_fuel, turns_left; lia|].
    eexists. split.
    + eapply bind_Ok_intro.
      { cbv zeta. rewrite u32_small by lia. rewrite Hw.
        eapply bind_Ok_intro; [exact Hsq|reflexivity]. }
      cbn -[search_loop loop_fuel].
      eapply bind_Ok_intro; [exact Hs2|reflexivity].
    + done.
  - destruct (lookup_lt_is_Some_2 (unreached_states_ s) (length (winner_ s)))
      as [column Hcol]; [lia|].
    assert (lazy_inv (InitQueue column s)) as Hinv1 by by eapply InitQueue_inv.
    assert (keyed_inv (InitQueue column s)) as Hkeyed1 by by eapply InitQueue_keyed.
    assert (costs_valid (InitQueue column s)) as Hvalid1 by by apply InitQueue_costs_valid.
    destruct (search_loop_total (loop_fuel (InitQueue column s)) target
                (N.of_nat (length (winner_ s))) (InitQueue column s))
      as ([searched2 s2] & Hs2 & Hvalid2);
      [done|done|done|done|unfold loop_fuel, turns_left; lia|].
    eexists. split.
    + eapply bind_Ok_intro.
      { cbv zeta. rewrite u32_small by lia. rewrite Nat2N.id, Hcol. reflexivity. }
      cbn -[search_loop loop_fuel].
      eapply bind_Ok_intro; [exact Hs2|reflexivity].
    + done.
Qed.

(** A new start answers past the winners that were cached. *)
Lemma IterativeSearch_progress target s searched' s' :
  lazy_inv s ->
  IterativeSearch target true s = Ok (searched', s') ->
  N.min target (N.of_nat (length (winner_ s))) <= searched'.
Proof.
  intros Hinv Hs.
  pose proof (inv_fit s Hinv) as Hfit. pose proof (inv_bounded s Hinv) as Hbs.
  unfold columns_fit, bounded in Hfit, Hbs.
  unfold IterativeSearch in Hs.
  case_match; [by repeat case_match|].
  case_match; simplify_eq; [lia|].
  bind_inv Hs as [source s1] Hs1.
  bind_inv Hs as [searched1 s2] Hs2. simplify_eq.
  simpl in Hs1. rewrite u32_small in Hs1 by lia.
  destruct (unreached_states_ s !! _) as [column|]; simplify_eq.
  apply search_loop_searched_le in Hs2. lia.
Qed.

(** The restarts of [SearchWinner] return: every restart answers for a
    later column. *)
Lemma restart_loop_total fuel target searched s :
  lazy_inv s -> keyed_inv s -> costs_valid s ->
  target < N.of_nat (length (unreached_states_ s)) ->
  searched < N.of_nat (length (winner_ s)) ->
  (length (unreached_states_ s) - N.to_nat searched <= fuel)%nat ->
  exists r, restart_loop fuel target searched s = Ok r /\ costs_valid r.2.
Proof.
  revert searched s.
  induction fuel as [|fuel IH]; intros searched s Hinv Hkeyed Hvalid Htarget Hw Hfuel; simpl.
  - destruct (searched <? target) eqn:Hlt; [apply N.ltb_lt in Hlt; lia|by eexists].
  - destruct (searched <? target) eqn:Hlt; [|by eexists]. apply N.ltb_lt in Hlt.
    destruct (IterativeSearch_total target true s) as ([searched1 s1] & Hs1 & Hvalid1);
      [done..|].
    rewrite Hs1. cbn -[restart_loop].
    destruct (IterativeSearch_inv _ _ _ _ _ Hinv Hs1) as [Hinv1 (_ & Hlen1 & _)].
    pose proof (IterativeSearch_safe target true s Hinv Hkeyed) as Hsafe.
    rewrite Hs1 in Hsafe. destruct Hsafe as [_ Hkeyed1].
    pose proof (IterativeSearch_progress _ _ _ _ Hinv Hs1) as Hprogress.
    apply IterativeSearch_searched in Hs1 as [Hw1 _].
    apply IH; [done|done|done|lia|done|lia].
Qed.

Lemma advance_total tm s :
  lazy_inv s -> keyed_inv s -> costs_valid s ->
  unreached_states_ s <> [] ->
  exists s', advance tm s = Ok s' /\ costs_valid s'.
Proof.
  intros Hinv Hkeyed Hvalid Hu.
  pose proof (inv_fit s Hinv) as Hfit. unfold columns_fit in Hfit.
  assert (0 < length (unreached_states_ s))%nat as Hpos.
  { destruct (unreached_states_ s); [done|simpl; lia]. }
  unfold advance.
  set (target := N.min tm (u32 (N.of_nat (length (unreached_states_ s)) - 1))).
  assert (target < N.of_nat (length (unreached_states_ s))) as Htarget.
  { unfold target. rewrite u32_small by lia. lia. }
  destruct (IterativeSearch_total target false s) as ([searched1 s1] & Hs1 & Hvalid1);
    [done..|].
  rewrite Hs1. cbn -[restart_loop].
  destruct (IterativeSearch_inv _ _ _ _ _ Hinv Hs1) as [Hinv1 (_ & Hlen1 & _)].
  pose proof (IterativeSearch_safe target false s Hinv Hkeyed) as Hsafe.
  rewrite Hs1 in Hsafe. destruct Hsafe as [_ Hkeyed1].
  apply IterativeSearch_searched in Hs1 as [Hw1 _].
  destruct (restart_loop_total (S (length (unreached_states_ s1))) target searched1 s1)
    as ([searched2 s2] & Hs2 & Hvalid2); [done|done|done|lia|done|lia|].
  rewrite Hs2. simpl. by eexists.
Qed.

(** [SearchWinner] returns for every time. *)
Lemma SearchWinner_total tm s :
  lazy_inv s -> keyed_inv s -> costs_valid s ->
  exists r, SearchWinner tm s = Ok r /\ costs_valid r.2.
Proof.
  intros Hinv Hkeyed Hvalid.
  destruct (decide (tm < N.of_nat (length (winner_ s)))) as [Hlt|Hge].
  { destruct (SearchWinner_cached tm s Hlt) as (w & Hw & ->). by eexists. }
  apply N.nlt_ge in Hge.
  destruct (decide (unreached_states_ s = [])) as [Hu|Hu].
  { rewrite SearchWinner_empty by done. by eexists. }
  rewrite SearchWinner_advance by done.
  destruct (advance_total tm s) as (s' & -> & Hvalid'); [done..|].
  simpl. by eexists.
Qed.

Lemma reachable_costs_valid s : reachable s -> costs_valid s.
Proof.
  induction 1 as [columns Hwf|tm s r s' Hreach IH Hs].
  - split; simpl; [intros l Hl; by apply elem_of_nil in Hl|].
    intros i l Hl. by apply lookup_empty_Some in Hl.
  - destruct (SearchWinner_total tm s (reachable_inv s Hreach) (reachable_keyed s Hreach) IH)
      as (r0 & Hr0 & Hvalid).
    rewrite Hs in Hr0. by simplify_eq.
Qed.

(** An engine a host can reach answers every query. *)
Lemma reachable_SearchWinner_total tm s :
  reachable s -> exists r s', SearchWinner tm s = Ok (r, s').
Proof.
  intros Hreach.
  destruct (SearchWinner_total tm s (reachable_inv s Hreach) (reachable_keyed s Hreach)
              (reachable_costs_valid s Hreach)) as ([r s'] & Hs & _).
  by exists r, s'.
Qed.

End LazyTotal.

(** ** The naive engine computes the least costs column by column *)

Lemma finite_cost_valid c : finite_cost c -> ViterbiSearch.IsInvalidCost c = false.
Proof.
  intros (z & -> & Hz). unfold ViterbiSearch.IsInvalidCost. simpl. by apply Z.ltb_ge.
Qed.

Lemma finite_cost_not_sentinel c : finite_cost c -> cost_eqb PosInf c = false.
Proof. by intros (z & -> & Hz). Qed.

Lemma finite_cost_not_PosInf c : finite_cost c -> c <> PosInf.
Proof. by intros (z & -> & Hz). Qed.

Section NaiveLeast.
Import NaiveViterbiSearch.
Context `{CostModel} `{LabelOrder}.
Context (Hcosts : dijkstra_costs _) (Haccepted : accepted_by_both _).

Lemma path_to_finite table src y c : path_to table src y c -> finite_cost c.
Proof.
  destruct Haccepted as (He & Ht & Hc).
  induction 1 as [x Hx Hsrc Hv|x y c Hpath IH Hy Htm Hv Hvt]; auto.
Qed.

Lemma naive_label_ok_valid table src l :
  naive_label_ok table src l ->
  LabelTemplate.costsofar l <> PosInf ->
  is_min_cost table src (LabelTemplate.state l) (LabelTemplate.costsofar l).
Proof. by intros [[? _]|?]. Qed.

Lemma naive_label_ok_path table src l c :
  naive_label_ok table src l ->
  path_to table src (LabelTemplate.state l) c ->
  is_min_cost table src (LabelTemplate.state l) (LabelTemplate.costsofar l).
Proof. intros [[_ Hnone]|?] Hpath; [by destruct (Hnone c)|done]. Qed.

Lemma is_min_cost_finite table src y c : is_min_cost table src y c -> finite_cost c.
Proof. intros [Hpath _]. by eapply path_to_finite. Qed.

(** A path that ends in the column where it starts is a single state. *)
Lemma path_to_start table src y c :
  path_to table src y c -> time y = src -> c = EmissionCost y.
Proof.
  destruct 1 as [x Hx Hsrc Hv|x y c Hpath Hy Htm Hv Hvt]; [done|].
  intros Hsrc. apply path_to_time in Hpath. lia.
Qed.

Lemma InitLabels_states column use_emission_cost :
  LabelTemplate.state <$> InitLabels false column use_emission_cost = column.
Proof.
  unfold InitLabels. induction column as [|st column IH]; [done|].
  simpl. by f_equal.
Qed.

(** The labels of a column where a search starts. *)
Lemma InitLabels_ok table k column :
  (forall st, st ∈ column -> table !! N.to_nat (id st) = Some st /\ time st = k) ->
  Forall (naive_label_ok table k) (InitLabels false column true).
Proof.
  intros Hcolumn. apply Forall_forall. intros l Hl.
  apply list_elem_of_fmap in Hl as (st & -> & Hst).
  destruct (Hcolumn st Hst) as [Htab Htm]. right. simpl. split.
  - apply path_start; [done|done|]. apply finite_cost_valid, Haccepted.
  - intros c Hc. apply path_to_start in Hc as ->; [apply cost_leb_refl|done].
Qed.

(** [std::min] of two labels is one of them and costs no more than
    either. *)
Lemma std_min_least (a b : Label) :
  (std_min a b = a \/ std_min a b = b)
  /\ cost_leb (LabelTemplate.costsofar (std_min a b)) (LabelTemplate.costsofar a) = true
  /\ cost_leb (LabelTemplate.costsofar (std_min a b)) (LabelTemplate.costsofar b) = true.
Proof.
  unfold std_min, label_lt, LabelTemplate.sortcost.
  destruct (cost_ltb (LabelTemplate.costsofar b) (LabelTemplate.costsofar a)) eqn:Hlt; simpl.
  - split_and!; [by right|by apply cost_ltb_leb|apply cost_leb_refl].
  - destruct (cost_eqb (LabelTemplate.costsofar b) (LabelTemplate.costsofar a)) eqn:Heq;
      simpl.
    + apply cost_eqb_eq in Heq.
      destruct (tie_lt b a); (split_and!; [by auto|..]);
        rewrite ?Heq; apply cost_leb_refl.
    + split_and!; [by left|apply cost_leb_refl|]. unfold cost_leb. by rewrite Hlt.
Qed.

Lemma relax_least (p l : Label) :
  finite_cost (LabelTemplate.costsofar p) ->
  LabelTemplate.state (relax false p l) = LabelTemplate.state l
  /\ (relax false p l = l
      \/ LabelTemplate.costsofar (relax false p l) = step_cost p (LabelTemplate.state l))
  /\ cost_leb (LabelTemplate.costsofar (relax false p l)) (LabelTemplate.costsofar l) = true
  /\ cost_leb (LabelTemplate.costsofar (relax false p l))
       (step_cost p (LabelTemplate.state l)) = true.
Proof.
  intros Hp. destruct Haccepted as (He & Ht & Hc).
  unfold relax, kInvalidCost.
  rewrite (finite_cost_not_sentinel _ (He _)), (finite_cost_not_sentinel _ (Ht _ _)).
  rewrite (finite_cost_not_sentinel _ (Hc _ _ _ Hp (Ht _ _) (He _))).
  set (candidate := LabelTemplate.mk _ _ _).
  destruct (std_min_least candidate l) as ([Heq|Heq] & Hle1 & Hle2); rewrite Heq in *.
  - split_and!; [done|by right|done|apply cost_leb_refl].
  - split_and!; [done|by left|apply cost_leb_refl|done].
Qed.

Lemma UpdateLabels_relaxed column prev :
  Forall (fun p => LabelTemplate.costsofar p = PosInf
                   \/ finite_cost (LabelTemplate.costsofar p)) prev ->
  LabelTemplate.state <$> UpdateLabels false (InitLabels false column false) prev = column
  /\ Forall (relaxed_by prev) (UpdateLabels false (InitLabels false column false) prev).
Proof.
  unfold UpdateLabels.
  induction prev as [|p prev IH] using rev_ind; intros Hprev.
  { simpl. split; [apply InitLabels_states|].
    apply Forall_forall. intros l (st & -> & Hst)%list_elem_of_fmap.
    split; [by left|]. intros p Hp. by apply elem_of_nil in Hp. }
  apply Forall_app in Hprev as [Hprev Hp]. rewrite Forall_singleton in Hp.
  destruct (IH Hprev) as [Hstates Hrelaxed]. rewrite foldl_app. cbn [foldl].
  set (labels := foldl _ _ prev) in *.
  destruct Hp as [Hp|Hp].
  - rewrite Hp. simpl. split; [done|].
    eapply Forall_impl; [exact Hrelaxed|]. intros l [Hfrom Hleast]. split.
    + destruct Hfrom as [?|(p' & Hp' & ? & ?)]; [by left|right].
      exists p'. split; [|done]. apply elem_of_app. by left.
    + intros p' [Hp'| ->%list_elem_of_singleton]%elem_of_app Hvalid; [by apply Hleast|done].
  - unfold kInvalidCost. rewrite (finite_cost_not_sentinel _ Hp). split.
    + rewrite <- Hstates, <- list_fmap_compose. apply list_fmap_ext.
      intros i l _. simpl. by destruct (relax_least p l Hp).
    + apply Forall_fmap. eapply Forall_impl; [exact Hrelaxed|]. intros l [Hfrom Hleast].
      destruct (relax_least p l Hp) as (Hst & Hcase & Hle1 & Hle2).
      unfold compose, relaxed_by. rewrite Hst. split.
      * destruct Hcase as [->|Hnew].
        -- destruct Hfrom as [?|(p' & Hp' & ? & ?)]; [by left|right].
           exists p'. split; [|done]. apply elem_of_app. by left.
        -- right. exists p. split_and!; [|by apply finite_cost_not_PosInf|done].
           apply elem_of_app. right. by apply list_elem_of_singleton.
      * intros p' [Hp'| ->%list_elem_of_singleton]%elem_of_app Hvalid; [|done].
        eapply cost_leb_trans; [exact Hle1|by apply Hleast].
Qed.

(** A label relaxed by the labels of the column before is the label of
    a least cost, when those are. *)
Lemma relaxed_ok table src k prev l :
  (forall x, table !! N.to_nat (id x) = Some x -> time x + 1 = k ->
             exists p, p ∈ prev /\ LabelTemplate.state p = x) ->
  (forall p, p ∈ prev -> time (LabelTemplate.state p) + 1 = k) ->
  Forall (naive_label_ok table src) prev ->
  relaxed_by prev l ->
  table !! N.to_nat (id (LabelTemplate.state l)) = Some (LabelTemplate.state l) ->
  time (LabelTemplate.state l) = k ->
  src < k ->
  naive_label_ok table src l.
Proof.
  intros Hall Htimes Hprev [Hfrom Hleast] Htab Htm Hsrc.
  rewrite Forall_forall in Hprev.
  destruct Haccepted as (He & Ht & Hc).
  assert (forall c, path_to table src (LabelTemplate.state l) c ->
                    cost_leb (LabelTemplate.costsofar l) c = true
                    /\ LabelTemplate.costsofar l <> PosInf) as Hpaths.
  { intros c Hpath.
    inversion Hpath as [x Hx Hxs Hv|x y c' Hprevpath Hy Hty Hv Hvt]; subst; [lia|].
    destruct (Hall x (path_to_in_table _ _ _ _ Hprevpath)) as (p & Hp & Hst); [lia|].
    subst x.
    pose proof (naive_label_ok_path _ _ _ _ (Hprev p Hp) Hprevpath) as Hmin.
    pose proof (is_min_cost_finite _ _ _ _ Hmin) as Hfin.
    pose proof (Hleast p Hp (finite_cost_not_PosInf _ Hfin)) as Hle.
    assert (finite_cost (step_cost p (LabelTemplate.state l))) as Hstep by by apply Hc.
    split.
    - eapply cost_leb_trans; [exact Hle|].
      destruct Hmin as [_ Hmin]. apply Hcosts; try by apply finite_cost_valid.
      + apply finite_cost_valid. by eapply path_to_finite.
      + by apply Hmin.
    - intros Hinf. rewrite Hinf in Hle. destruct Hstep as (z & Hz & _).
      by rewrite Hz in Hle. }
  destruct Hfrom as [Hinf|(p & Hp & Hvalid & Heq)].
  - left. split; [done|]. intros c Hpath. by destruct (Hpaths c Hpath).
  - right. split; [|intros c Hpath; by destruct (Hpaths c Hpath)].
    destruct (naive_label_ok_valid _ _ _ (Hprev p Hp) Hvalid) as [Hpath _].
    rewrite Heq. apply path_step; [done|done| |by apply finite_cost_valid..].
    rewrite <- (Htimes p Hp) in Htm. done.
Qed.

End NaiveLeast.

(** The states of a well-formed trellis: the states of column [k] are
    the states of the table at time [k]. *)
Lemma wf_column_states columns k column st :
  wf_trellis columns -> columns !! k = Some column -> st ∈ column ->
  concat columns !! N.to_nat (id st) = Some st /\ time st = N.of_nat k.
Proof.
  intros (_ & _ & Hid & Htime) Hcol Hst. split; [|by eapply Htime].
  assert (st ∈ concat columns) as Hin.
  { apply list_elem_of_In, in_concat. exists column.
    split; apply list_elem_of_In; [by eapply list_elem_of_lookup_2|done]. }
  apply list_elem_of_lookup in Hin as [i Hi]. rewrite (Hid i st Hi), Nat2N.id. done.
Qed.

Lemma wf_table_column columns x :
  wf_trellis columns -> concat columns !! N.to_nat (id x) = Some x ->
  exists column, columns !! N.to_nat (time x) = Some column /\ x ∈ column.
Proof.
  intros (_ & _ & _ & Htime) Hx.
  apply list_elem_of_lookup_2, list_elem_of_In, in_concat in Hx as (column & Hcol & Hin).
  apply list_elem_of_In, list_elem_of_lookup in Hcol as [k Hk]. apply list_elem_of_In in Hin.
  exists column. rewrite (Htime k column x Hk Hin), Nat2N.id. done.
Qed.

Section NaiveColumns.
Import NaiveViterbiSearch.
Context `{CostModel} `{LabelOrder}.
Context (Hcosts : dijkstra_costs _) (Haccepted : accepted_by_both _).
Context (columns : list (list State)) (Hwf : wf_trellis columns).
Local Abbreviation naive_column_ok := (naive_column_ok columns).

Lemma naive_columns_ok n k :
  states_ n = columns ->
  (forall j, (j <= k)%nat -> column_filled false n j) ->
  naive_column_ok n k.
Proof.
  intros Hstates. induction k as [|k IH]; intros Hfilled.
  - destruct (Hfilled 0%nat) as (column & Hcol & _ & Hlab & _); [done|].
    rewrite Hstates in Hcol. simpl in Hlab.
    exists 0, column, (InitLabels false column true).
    split_and!; [apply seg_start|done|done|apply InitLabels_states|].
    apply InitLabels_ok; [done|]. intros st Hst.
    by destruct (wf_column_states _ _ _ _ Hwf Hcol Hst).
  - destruct IH as (src & column' & prev & Hseg & Hcol' & Hprev & Hst' & Hok').
    { intros j Hj. apply Hfilled. lia. }
    destruct (Hfilled (S k)) as (column & Hcol & _ & Hlab & _); [done|].
    rewrite Hstates in Hcol. simpl in Hlab. rewrite Hprev in Hlab.
    unfold column_labels in Hlab. cbv zeta in Hlab.
    set (relaxed := UpdateLabels false (InitLabels false column false) prev) in *.
    pose proof (seg_le _ _ _ Hseg) as Hle.
    assert (forall st, st ∈ column ->
                       concat columns !! N.to_nat (id st) = Some st
                       /\ time st = N.of_nat (S k)) as Hcolumn.
    { intros st Hst. by eapply wf_column_states. }
    destruct (UpdateLabels_relaxed Haccepted column prev) as [Hstates' Hrelaxed].
    { eapply Forall_impl; [exact Hok'|]. intros p [[? _]|Hmin]; [by left|right].
      by eapply is_min_cost_finite. }
    fold relaxed in Hstates', Hrelaxed.
    assert (Forall (naive_label_ok (concat columns) src) relaxed) as Hok.
    { apply Forall_forall. intros l Hl.
      assert (LabelTemplate.state l ∈ column) as Hin.
      { rewrite <- Hstates'. apply list_elem_of_fmap. by exists l. }
      destruct (Hcolumn _ Hin) as [Htab Htm].
      eapply (relaxed_ok Hcosts Haccepted _ _ (N.of_nat (S k)) prev);
        [| |done|by eapply Forall_forall|done|done|lia].
      - intros x Hx Hxt.
        destruct (wf_table_column _ _ Hwf Hx) as (cx & Hcx & Hxin).
        replace (N.to_nat (time x)) with k in Hcx by lia.
        rewrite Hcol' in Hcx. injection Hcx as <-.
        rewrite <- Hst' in Hxin. apply list_elem_of_fmap in Hxin as (p & -> & Hp). eauto.
      - intros p Hp.
        assert (LabelTemplate.state p ∈ column') as Hpin.
        { rewrite <- Hst'. apply list_elem_of_fmap. by exists p. }
        destruct (wf_column_states _ _ _ _ Hwf Hcol' Hpin) as [_ ->]. lia. }
    replace (N.of_nat (S k)) with (N.of_nat k + 1) in * by lia.
    destruct (FindWinner false relaxed) as [w|] eqn:Hw.
    + exists src, column, relaxed. split_and!; [|done|done|done|done].
      replace (N.of_nat (S k)) with (N.of_nat k + 1) by lia.
      apply seg_keep; [done|].
      pose proof (FindWinner_winner_of false relaxed) as Hwin. rewrite Hw in Hwin.
      destruct Hwin as (l & (Hl & Hvalid & _) & Hlw).
      rewrite Forall_forall in Hok.
      destruct (naive_label_ok_valid _ _ _ (Hok l Hl) Hvalid) as [Hpath _].
      exists (LabelTemplate.state l), (LabelTemplate.costsofar l). split; [done|].
      apply Hcolumn. rewrite <- Hstates'. apply list_elem_of_fmap. by exists l.
    + exists (N.of_nat k + 1), column, (InitLabels false column true).
      split_and!; [|done|done|apply InitLabels_states|by apply InitLabels_ok].
      replace (N.of_nat (S k)) with (N.of_nat k + 1) by lia.
      apply (seg_new _ _ src); [done|].
      intros (z & c & Hpath & Hz).
      destruct (wf_table_column _ _ Hwf (path_to_in_table _ _ _ _ Hpath)) as (cz & Hcz & Hzin).
      replace (N.to_nat (time z)) with (S k) in Hcz by lia.
      rewrite Hcol in Hcz. injection Hcz as <-.
      rewrite <- Hstates' in Hzin. apply list_elem_of_fmap in Hzin as (l & -> & Hl).
      rewrite Forall_forall in Hok.
      pose proof (naive_label_ok_path _ _ _ _ (Hok l Hl) Hpath) as Hmin.
      apply (is_min_cost_finite Haccepted) in Hmin.
      apply (FindWinner_None false relaxed) in Hl; [|done].
      rewrite Hl in Hmin. by destruct Hmin as (? & ? & _).
Qed.

End NaiveColumns.

(** ** The two engines on one trellis *)

Section LazyTrace.
Context `{CostModel} {Q : SPQueue} `{!SPQueueLaws Q}.

Lemma lazy_trace_reachable columns s :
  wf_trellis columns -> lazy_trace columns s ->
  reachable s
  /\ ViterbiSearch.state_ s = concat columns
  /\ length (ViterbiSearch.unreached_states_ s) = length columns.
Proof.
  intros Hwf. induction 1 as [|tm s r s' _ (Hreach & Htab & Hlen) Hs].
  - split; [by apply reachable_create|done].
  - split; [by eapply reachable_search|].
    destruct (SearchWinner_inv _ _ _ _ (reachable_inv s Hreach) Hs) as [_ (-> & -> & _)].
    done.
Qed.

End LazyTrace.

Section NaiveTrace.
Import NaiveViterbiSearch.
Context `{CostModel} `{LabelOrder}.

Lemma fill_lengths fuel tm target n n' :
  fill false fuel tm target n = Ok n' ->
  length (history_ n) = N.to_nat tm ->
  length (winner_ n) = N.to_nat tm ->
  tm <= target -> target < 4294967295 ->
  length (history_ n') = S (N.to_nat target)
  /\ length (winner_ n') = S (N.to_nat target).
Proof.
  revert tm n. induction fuel as [|fuel IH]; intros tm n Hs Hh Hw Hle Hfit; simpl in Hs.
  - apply N.leb_le in Hle. by rewrite Hle in Hs.
  - rewrite (proj2 (N.leb_le _ _) Hle) in Hs. bind_inv Hs as n1 Hn1.
    destruct (fill_column_filled _ _ _ _ Hn1 Hh Hw) as (_ & Hh1 & Hw1).
    assert (u32 (tm + 1) = tm + 1) as Hu by (unfold u32; apply N.mod_small; lia).
    rewrite Hu in Hs.
    destruct (decide (tm = target)) as [->|Hne].
    + destruct fuel; simpl in Hs.
      * rewrite (proj2 (N.leb_gt _ _)) in Hs by lia. by simplify_eq.
      * rewrite (proj2 (N.leb_gt _ _)) in Hs by lia. by simplify_eq.
    + eapply IH; [done|lia|lia|lia|done].
Qed.

Lemma naive_SearchWinner_inv columns tm n r n' :
  wf_trellis columns -> naive_inv columns n ->
  SearchWinner false tm n = Ok (r, n') ->
  naive_inv columns n'.
Proof.
  intros (_ & Hfit & _) (Hst & Htab & Hlen & Hfilled) Hs.
  pose proof (naive_SearchWinner_extends _ _ _ _ _ Hs) as Hext.
  unfold SearchWinner in Hs.
  destruct (N.of_nat (length (states_ n)) <=? tm) eqn:Hbeyond.
  { injection Hs as _ <-. by split_and!. }
  apply N.leb_gt in Hbeyond.
  destruct (tm <? N.of_nat (length (winner_ n))) eqn:Hcached.
  { destruct (winner_ n !! N.to_nat tm); [|done]. injection Hs as _ <-. by split_and!. }
  apply N.ltb_ge in Hcached.
  bind_inv Hs as n1 Hn1.
  assert (n' = n1) as ->.
  { destruct (winner_ n1 !! N.to_nat tm); [|done]. by injection Hs as _ <-. }
  clear Hs. rewrite Hst in Hbeyond.
  rewrite u32_small in Hn1 by lia.
  destruct Hext as (Hpw & Hph & Hst1 & Htab1).
  destruct (fill_lengths _ _ _ _ _ Hn1) as [Hh1 Hw1]; [lia|lia|lia|lia|].
  split_and!; [congruence|congruence|lia|].
  intros k Hk. destruct (decide (k < length (winner_ n))%nat) as [Hold|Hnew].
  - eapply column_filled_extends; [|by apply Hfilled]. by repeat split.
  - replace k with (N.to_nat (N.of_nat k)) by lia.
    eapply fill_filled; [done|lia|lia|lia|lia].
Qed.

Lemma naive_trace_inv columns n :
  wf_trellis columns -> naive_trace columns n -> naive_inv columns n.
Proof.
  intros Hwf. induction 1 as [|tm n r n' _ IH Hs].
  - split_and!; [done|done|done|]. simpl. intros k Hk. lia.
  - by eapply naive_SearchWinner_inv.
Qed.

(** The naive engine answers every query. *)
Lemma naive_SearchWinner_total columns tm n :
  wf_trellis columns -> naive_inv columns n ->
  exists r n', SearchWinner false tm n = Ok (r, n').
Proof.
  intros (_ & Hfit & _) (Hst & Htab & Hlen & Hfilled).
  destruct (decide (N.of_nat (length (states_ n)) <= tm)) as [Hbeyond|Hin].
  { rewrite naive_SearchWinner_beyond by done. eauto. }
  apply N.nle_gt in Hin.
  destruct (decide (tm < N.of_nat (length (winner_ n)))) as [Hcached|Hnew].
  { destruct (naive_SearchWinner_cached false tm n) as (w & _ & ->); [done..|]. eauto. }
  apply N.nlt_ge in Hnew.
  unfold SearchWinner.
  rewrite (proj2 (N.leb_gt _ _) Hin), (proj2 (N.ltb_ge _ _) Hnew).
  rewrite Hst in Hin. rewrite u32_small by lia.
  destruct (fill_total false (S (N.to_nat tm)) (N.of_nat (length (winner_ n))) tm n)
    as [n1 Hn1]; [by rewrite Hst|by rewrite Hst|lia|lia|lia|].
  rewrite Hn1. simpl.
  destruct (fill_lengths _ _ _ _ _ Hn1) as [_ Hw1]; [lia|lia|lia|lia|].
  destruct (lookup_lt_is_Some_2 (winner_ n1) (N.to_nat tm)) as [w ->]; [lia|]. eauto.
Qed.

End NaiveTrace.

Section Agreement.
Context `{CostModel} {Q : SPQueue} `{!SPQueueLaws Q} `{LabelOrder}.
Context (Hcosts : dijkstra_costs _) (Haccepted : accepted_by_both _).
Context (columns : list (list State)) (Hwf : wf_trellis columns).

Lemma is_min_cost_unique table src y c c' :
  is_min_cost table src y c -> is_min_cost table src y c' -> c = c'.
Proof. intros [Hp Hl] [Hp' Hl']. apply cost_leb_antisym; auto. Qed.

(** The winner the naive engine caches for column [k] is chosen among
    labels of least cost. *)
Lemma naive_winner_least n k winner :
  naive_inv columns n ->
  NaiveViterbiSearch.winner_ n !! k = Some winner ->
  exists src column labels,
    seg (concat columns) (N.of_nat k) src
    /\ columns !! k = Some column
    /\ NaiveViterbiSearch.history_ n !! k = Some labels
    /\ LabelTemplate.state <$> labels = column
    /\ Forall (naive_label_ok (concat columns) src) labels
    /\ winner = NaiveViterbiSearch.FindWinner false labels.
Proof.
  intros (Hst & Htab & Hlen & Hfilled) Hk.
  pose proof (lookup_lt_Some _ _ _ Hk) as Hlt.
  destruct (naive_columns_ok Hcosts Haccepted columns Hwf n k Hst)
    as (src & column & labels & Hseg & Hcol & Hlab & Hstates & Hok).
  { intros j Hj. apply Hfilled. lia. }
  destruct (Hfilled k Hlt) as (column' & _ & _ & Hlab' & Hwin). simpl in Hlab', Hwin.
  rewrite Hlab in Hlab'. injection Hlab' as Hlab'. rewrite <- Hlab' in Hwin.
  rewrite Hk in Hwin. injection Hwin as ->.
  by exists src, column, labels.
Qed.

(** The cached winners of the two engines for one column: both absent,
    or two states of the column with the same least cost. *)
Lemma winners_agree s n k lazy_winner naive_winner :
  reachable s ->
  ViterbiSearch.state_ s = concat columns ->
  naive_inv columns n ->
  ViterbiSearch.winner_ s !! k = Some lazy_winner ->
  NaiveViterbiSearch.winner_ n !! k = Some naive_winner ->
  match lazy_winner, naive_winner with
  | Some w, Some w' =>
      exists src c column labels,
        is_min_cost (concat columns) src w c
        /\ is_min_cost (concat columns) src w' c
        /\ ViterbiSearch.AccumulatedCost (id w) s = c
        /\ columns !! k = Some column /\ w ∈ column /\ w' ∈ column
        /\ NaiveViterbiSearch.history_ n !! k = Some labels
        /\ LabelTemplate.state <$> labels = column
        /\ forall l, l ∈ labels -> LabelTemplate.state l = w' ->
                     LabelTemplate.costsofar l = c
  | None, None => True
  | _, _ => False
  end.
Proof.
  intros Hreach Htab Hninv Hk Hk'.
  destruct (reachable_winners Hcosts s k lazy_winner Hreach Hk) as (src & Hseg & Hlazy).
  destruct (naive_winner_least n k naive_winner Hninv Hk')
    as (src' & column & labels & Hseg' & Hcol & Hlab & Hstates & Hok & ->).
  rewrite Htab in Hseg, Hlazy.
  rewrite (seg_fun _ _ _ _ Hseg' Hseg) in Hok. clear src' Hseg'.
  rewrite Forall_forall in Hok.
  pose proof (FindWinner_winner_of false labels) as Hwin.
  assert (forall l, l ∈ labels ->
                    LabelTemplate.state l ∈ column
                    /\ time (LabelTemplate.state l) = N.of_nat k) as Hlabels.
  { intros l Hl.
    assert (LabelTemplate.state l ∈ column) as Hin.
    { rewrite <- Hstates. apply list_elem_of_fmap. by exists l. }
    split; [done|]. by destruct (wf_column_states _ _ _ _ Hwf Hcol Hin). }
  destruct lazy_winner as [w|].
  - destruct Hlazy as (lw & Hlw & Hpath & Hleast).
    destruct (inv_winner s (reachable_inv s Hreach) _ _ Hk) as [Htm _].
    destruct (wf_table_column _ _ Hwf (path_to_in_table _ _ _ _ Hpath)) as (cw & Hcw & Hwin').
    rewrite Htm, Nat2N.id, Hcol in Hcw. injection Hcw as <-.
    pose proof Hwin' as Hwl. rewrite <- Hstates in Hwl.
    apply list_elem_of_fmap in Hwl as (l_w & -> & Hl_w).
    pose proof (naive_label_ok_path _ _ _ _ (Hok l_w Hl_w) Hpath) as Hmin_w.
    assert (LabelTemplate.costsofar l_w = LabelTemplate.costsofar lw) as Hcw.
    { apply cost_leb_antisym.
      - destruct Hmin_w as [_ Hmin_w]. by apply Hmin_w.
      - destruct Hmin_w as [Hpath_w _]. by apply (Hleast (LabelTemplate.state l_w)). }
    destruct (NaiveViterbiSearch.FindWinner false labels) as [w'|] eqn:Hfind.
    + destruct Hwin as (l' & (Hl' & Hvalid' & Hbest) & <-).
      destruct (Hlabels l' Hl') as [Hin' Htm'].
      pose proof (naive_label_ok_valid _ _ _ (Hok l' Hl') Hvalid') as Hmin'.
      assert (LabelTemplate.costsofar l' = LabelTemplate.costsofar lw) as Hc'.
      { apply cost_leb_antisym.
        - rewrite <- Hcw. apply (Hbest l_w Hl_w).
          apply finite_cost_not_PosInf. by eapply is_min_cost_finite.
        - destruct Hmin' as [Hpath' _]. by apply (Hleast (LabelTemplate.state l')). }
      exists src, (LabelTemplate.costsofar lw), column, labels.
      rewrite <- Hc'. rewrite Hcw, <- Hc' in Hmin_w.
      split_and!; [done|done| |done|done|done|done|done|].
      * unfold ViterbiSearch.AccumulatedCost. by rewrite Hlw.
      * intros l Hl Hst. pose proof (Hok l Hl) as Hok_l.
        destruct Hmin' as [Hpath' Hmin']. rewrite <- Hst in Hpath'.
        pose proof (naive_label_ok_path _ _ _ _ Hok_l Hpath') as Hmin_l.
        rewrite Hst in Hmin_l, Hpath'. by eapply is_min_cost_unique.
    + apply (is_min_cost_finite Haccepted) in Hmin_w.
      rewrite (Hwin l_w Hl_w) in Hmin_w. by destruct Hmin_w as (? & ? & _).
  - destruct (NaiveViterbiSearch.FindWinner false labels) as [w'|] eqn:Hfind; [|done].
    destruct Hwin as (l' & (Hl' & Hvalid' & _) & Hst').
    destruct (naive_label_ok_valid _ _ _ (Hok l' Hl') Hvalid') as [Hpath' _].
    apply Hlazy. exists (LabelTemplate.state l'), (LabelTemplate.costsofar l').
    split; [done|]. by apply Hlabels.
Qed.

End Agreement.

Section Answers.
Context `{CostModel} {Q : SPQueue} `{LabelOrder}.

(** The answer of the lazy engine for a column of the trellis is its
    cached winner. *)
Lemma SearchWinner_winner tm s r s' :
  tm < N.of_nat (length (ViterbiSearch.unreached_states_ s)) ->
  N.of_nat (length (ViterbiSearch.unreached_states_ s)) < 4294967296 ->
  ViterbiSearch.SearchWinner tm s = Ok (r, s') ->
  exists winner,
    ViterbiSearch.winner_ s' !! N.to_nat tm = Some winner /\ r = id_or_invalid winner.
Proof.
  intros Htm Hfit Hs.
  destruct (decide (tm < N.of_nat (length (ViterbiSearch.winner_ s)))) as [Hlt|Hge].
  { destruct (SearchWinner_cached tm s Hlt) as (w & Hw & Hc).
    rewrite Hc in Hs. simplify_eq. eauto. }
  apply N.nlt_ge in Hge.
  assert (ViterbiSearch.unreached_states_ s <> []) as Hu.
  { intros Hnil. rewrite Hnil in Htm. simpl in Htm. lia. }
  rewrite SearchWinner_advance in Hs by done.
  bind_inv Hs as s2 Hs2. simplify_eq.
  apply advance_covers in Hs2 as [Hcover _]. rewrite u32_small in Hcover by lia.
  destruct (lookup_lt_is_Some_2 (ViterbiSearch.winner_ s') (N.to_nat tm)) as [w Hw]; [lia|].
  exists w. split; [done|]. rewrite Hw. by destruct w.
Qed.

(** [AccumulatedCost] of the naive engine for a state of a filled
    column. *)
Lemma naive_AccumulatedCost_state columns n k column labels w c :
  wf_trellis columns ->
  NaiveViterbiSearch.state_ n = concat columns ->
  columns !! k = Some column -> w ∈ column ->
  NaiveViterbiSearch.history_ n !! k = Some labels ->
  LabelTemplate.state <$> labels = column ->
  (forall l, l ∈ labels -> LabelTemplate.state l = w -> LabelTemplate.costsofar l = c) ->
  NaiveViterbiSearch.AccumulatedCost false (id w) n = Ok c.
Proof.
  intros Hwf Htab Hcol Hw Hlab Hstates Hcost.
  destruct (wf_column_states _ _ _ _ Hwf Hcol Hw) as [Hwtab Hwtm].
  pose proof Hwf as (Hids & _).
  pose proof (lookup_lt_Some _ _ _ Hwtab) as Hlt.
  unfold NaiveViterbiSearch.AccumulatedCost.
  assert ((id w =? kInvalidStateId) = false) as ->.
  { apply N.eqb_neq. unfold kInvalidStateId. lia. }
  simpl. unfold NaiveViterbiSearch.state. rewrite Htab, Hwtab. simpl.
  unfold NaiveViterbiSearch.label. rewrite Hwtm, Nat2N.id, Hlab.
  pose proof Hw as Hwl. rewrite <- Hstates in Hwl.
  apply list_elem_of_fmap in Hwl as (l0 & Hst0 & Hl0).
  destruct (list_find_elem_of (fun l => id (LabelTemplate.state l) = id w) labels l0)
    as [[i l] Hfind]; [done|by rewrite <- Hst0|].
  rewrite Hfind. simpl. f_equal.
  apply list_find_Some in Hfind as (Hi & Hid & _).
  apply list_elem_of_lookup_2 in Hi.
  apply Hcost; [done|].
  assert (LabelTemplate.state l ∈ column) as Hin.
  { rewrite <- Hstates. apply list_elem_of_fmap. by exists l. }
  destruct (wf_column_states _ _ _ _ Hwf Hcol Hin) as [Hltab _].
  rewrite Hid in Hltab. congruence.
Qed.

End Answers.

(** ** The lazy and the naive engine *)

Lemma sum_costs_accepted (emission : State -> cost) (transition : State -> State -> cost) :
  (forall st, finite_cost (emission st)) ->
  (forall x y, finite_cost (transition x y)) ->
  accepted_by_both {| EmissionCost := emission;
                      TransitionCost := transition;
                      CostSofar := Scenario.sum_costs |}.
Proof.
  intros He Ht. split_and!; simpl; [done|done|].
  intros c t e (zc & -> & Hc) (zt & -> & Hzt) (ze & -> & Hze).
  unfold Scenario.sum_costs. simpl. eexists. split; [done|lia].
Qed.

Lemma duplicate_costs_accepted : accepted_by_both Scenario.duplicate_costs.
Proof.
  apply sum_costs_accepted.
  - intros st. destruct (id st =? 1); eexists; (split; [done|lia]).
  - intros x y. destruct (id y =? 2); [|destruct (id y =? 3)]; eexists; (split; [done|lia]).
Qed.

(** C1, as stated, fails in two ways.  First, with the heap the
    specification describes, on the columns [{p, q}], [{r, s}], [{u}]
    with finite non-negative costs and the additive [CostSofar], the lazy
    engine ends [SearchWinner(2)] with the violation of optimality while
    the naive engine answers [u] with cost 7.  Second, whatever the queue,
    on the columns [{a}], [{b}], [{c}] with the additive [CostSofar] and an
    edge from [a] to [b] of cost plus infinity, a cost that is not negative
    and that leaves [CostSofar] monotone: the naive engine takes the
    infinity for its sentinel, starts again at [b] and answers [b] with
    cost 0 for time 1, the lazy engine takes it for a valid cost and
    answers [b] with cost plus infinity. *)
Lemma lazy_and_naive_differ :
  (dijkstra_costs Scenario.duplicate_costs
   /\ accepted_by_both Scenario.duplicate_costs
   /\ wf_trellis Scenario.duplicate_columns
   /\ @ViterbiSearch.SearchWinner Scenario.duplicate_costs HeapQueue 2
        (ViterbiSearch.create Scenario.duplicate_columns)
      = Throw optimality_violated
   /\ exists n,
        @NaiveViterbiSearch.SearchWinner Scenario.duplicate_costs Scenario.no_tie_break false 2
          (NaiveViterbiSearch.create Scenario.duplicate_columns)
        = Ok (id Scenario.dup_u, n)
        /\ NaiveViterbiSearch.AccumulatedCost false (id Scenario.dup_u) n = Ok (Fin 7))
  /\ (dijkstra_costs Scenario.naive_breakage_costs
      /\ wf_trellis [[Scenario.a]; [Scenario.b]; [Scenario.c]]
      /\ (forall Q : SPQueue,
             Q = HeapQueue \/ Q = KeyedQueue ->
             exists s,
               @ViterbiSearch.SearchWinner Scenario.naive_breakage_costs Q 1
                 (ViterbiSearch.create [[Scenario.a]; [Scenario.b]; [Scenario.c]])
               = Ok (id Scenario.b, s)
               /\ ViterbiSearch.AccumulatedCost (id Scenario.b) s = PosInf)
      /\ exists n,
           @NaiveViterbiSearch.SearchWinner Scenario.naive_breakage_costs
             Scenario.no_tie_break false 1
             (NaiveViterbiSearch.create [[Scenario.a]; [Scenario.b]; [Scenario.c]])
           = Ok (id Scenario.b, n)
           /\ NaiveViterbiSearch.AccumulatedCost false (id Scenario.b) n = Ok (Fin 0)).
Proof.
  split.
  - split; [apply sum_costs_dijkstra|]. split; [apply duplicate_costs_accepted|].
    split; [apply duplicate_columns_wf|]. split; [vm_compute; reflexivity|].
    eexists. split; vm_compute; reflexivity.
  - split; [apply sum_costs_dijkstra|]. split; [apply breakage_columns_wf|]. split.
    + intros Q [->| ->]; eexists; split; vm_compute; reflexivity.
    + eexists. split; vm_compute; reflexivity.
Qed.

(** C1, amended.  Let no emission or transition cost be the sentinel of
    an engine (every cost is finite and not negative, and [CostSofar] of
    such costs is such a cost), let [CostSofar] be at least its first
    argument and monotone in it, and let the queue of the lazy engine
    return a label of least cost and keep for every pushed id a label at
    most as expensive.  On a well-formed trellis, whatever queries the two
    engines answered before: the naive engine with minimization answers a
    query for any time; whenever the lazy engine answers the query for the
    same time, both answer that there is no winner, or both answer a winner
    and [AccumulatedCost] of the two winners is the same cost; the two
    winners are the same state unless there is a tie, that is, unless they
    are two states of the queried column with the same least cost of a path
    from the column where the search that covers the queried column
    started.  The lazy engine answers every query when its queue holds one
    label per id at most. *)
Theorem lazy_naive_agree (cm : CostModel) (Q : SPQueue) (L : SPQueueLaws Q)
    (lo : LabelOrder) (columns : list (list State))
    (s : ViterbiSearch.t) (n : NaiveViterbiSearch.t) (tm : Time) :
  dijkstra_costs cm ->
  accepted_by_both cm ->
  wf_trellis columns ->
  lazy_trace columns s ->
  naive_trace columns n ->
  (exists r' n',
      NaiveViterbiSearch.SearchWinner false tm n = Ok (r', n')
      /\ forall r s',
           ViterbiSearch.SearchWinner tm s = Ok (r, s') ->
           (r = kInvalidStateId <-> r' = kInvalidStateId)
           /\ (r <> kInvalidStateId ->
               NaiveViterbiSearch.AccumulatedCost false r' n'
               = Ok (ViterbiSearch.AccumulatedCost r s')
               /\ (r = r'
                   \/ exists src w w' c,
                        id w = r /\ id w' = r' /\ w <> w' /\ time w = tm /\ time w' = tm
                        /\ is_min_cost (concat columns) src w c
                        /\ is_min_cost (concat columns) src w' c)))
  /\ (SPQueueKeyed Q -> exists r s', ViterbiSearch.SearchWinner tm s = Ok (r, s')).
Proof.
  intros Hcosts Haccepted Hwf Hlazy Hnaive.
  destruct (lazy_trace_reachable columns s Hwf Hlazy) as (Hreach & Htab & Hlen).
  pose proof (naive_trace_inv columns n Hwf Hnaive) as Hninv.
  split; [|intros K; by apply reachable_SearchWinner_total].
  destruct (naive_SearchWinner_total columns tm n Hwf Hninv) as (r' & n' & Hn).
  exists r', n'. split; [done|]. intros r s' Hs.
  pose proof (reachable_inv s Hreach) as Hinv.
  pose proof Hwf as (Hids & Hfit & _).
  pose proof Hninv as (Hst & _).
  destruct (decide (N.of_nat (length columns) <= tm)) as [Hbeyond|Hin].
  { destruct (SearchWinner_beyond tm s r s') as (-> & _); [lia|by apply inv_bounded|done|].
    rewrite naive_SearchWinner_beyond in Hn by (rewrite Hst; lia).
    injection Hn as <- <-. done. }
  apply N.nle_gt in Hin.
  destruct (SearchWinner_winner tm s r s') as (w & Hw & ->); [lia|lia|done|].
  pose proof (naive_SearchWinner_inv columns tm n r' n' Hwf Hninv Hn) as Hninv'.
  apply naive_SearchWinner_answer in Hn as [(Hle & _)|(_ & w' & Hw' & ->)];
    [rewrite Hst in Hle; lia|].
  assert (reachable s') as Hreach' by by eapply reachable_search.
  destruct (SearchWinner_inv _ _ _ _ Hinv Hs) as [Hinv' (Htab' & _)].
  rewrite Htab in Htab'.
  pose proof (winners_agree Hcosts Haccepted columns Hwf s' n' (N.to_nat tm) w w'
                Hreach' Htab' Hninv' Hw Hw') as Hagree.
  destruct w as [w|], w' as [w'|]; try done. simpl.
  destruct Hagree as (src & c & column & labels & Hmin & Hmin' & Hcost & Hcol & Hin_w & Hin_w'
                      & Hlab & Hstates & Hlabels).
  destruct (wf_column_states _ _ _ _ Hwf Hcol Hin_w) as [Hwtab Hwtm].
  destruct (wf_column_states _ _ _ _ Hwf Hcol Hin_w') as [Hwtab' Hwtm'].
  pose proof (lookup_lt_Some _ _ _ Hwtab) as Hlt.
  pose proof (lookup_lt_Some _ _ _ Hwtab') as Hlt'.
  split.
  { unfold kInvalidStateId. split; lia. }
  intros _. split.
  - rewrite Hcost. destruct Hninv' as (_ & Htabn & _).
    by eapply naive_AccumulatedCost_state.
  - destruct (decide (w = w')) as [->|Hne]; [by left|right].
    exists src, w, w', c. split_and!; [done|done|done|lia|lia|done|done].
Qed.

Lemma lazy_naive_agree_witness :
  exists r s' r' n',
    @ViterbiSearch.SearchWinner Scenario.duplicate_costs KeyedQueue 2
      (ViterbiSearch.create Scenario.duplicate_columns) = Ok (r, s')
    /\ @NaiveViterbiSearch.SearchWinner Scenario.duplicate_costs Scenario.no_tie_break false 2
         (NaiveViterbiSearch.create Scenario.duplicate_columns) = Ok (r', n')
    /\ r = id Scenario.dup_u
    /\ r' = id Scenario.dup_u
    /\ ViterbiSearch.AccumulatedCost r s' = Fin 7
    /\ NaiveViterbiSearch.AccumulatedCost false r' n'
       = Ok (ViterbiSearch.AccumulatedCost r s').
Proof.
  destruct (lazy_naive_agree Scenario.duplicate_costs KeyedQueue KeyedQueue_laws
              Scenario.no_tie_break Scenario.duplicate_columns
              (ViterbiSearch.create Scenario.duplicate_columns)
              (NaiveViterbiSearch.create Scenario.duplicate_columns) 2)
    as [(r' & n' & Hn & Hsame) Htotal].
  - apply sum_costs_dijkstra.
  - apply duplicate_costs_accepted.
  - apply duplicate_columns_wf.
  - apply lazy_trace_create.
  - apply naive_trace_create.
  - destruct (Htotal KeyedQueue_keyed) as (r & s' & Hs).
    destruct (Hsame r s' Hs) as [_ Hcost].
    exists r, s', r', n'. split; [exact Hs|]. split; [exact Hn|].
    vm_compute in Hs. injection Hs as <- <-.
    vm_compute in Hn. injection Hn as <- <-.
    split; [reflexivity|]. split; [reflexivity|]. split; [reflexivity|].
    apply Hcost. vm_compute. discriminate.
Defined.

(** * Further properties of the engines *)

(** ** The lazy engine fails in one way only *)

Lemma answers_bind {A B : Type} (r : result A) (k : A -> result B)
    (P : A -> Prop) (R : B -> Prop) :
  answers r P -> (forall a, r = Ok a -> P a -> answers (k a) R) -> answers (mbind k r) R.
Proof. destruct r as [a|e]; simpl; [|done]. intros HP Hk. by apply Hk. Qed.

Section LazyAnswers.
Import ViterbiSearch.
Context `{CostModel} {Q : SPQueue} `{!SPQueueLaws Q}.

Lemma scan_answers target searched label q s :
  lazy_inv s -> costs_valid s ->
  pop (queue_ s) = Some (label, q) ->
  target < N.of_nat (length (unreached_states_ s)) ->
  answers (scan target searched label (set_queue q s))
    (fun r => costs_valid (turn_state r)
              /\ (turns_left (turn_state r) < turns_left s)%nat).
Proof.
  intros Hinv [Hqv Hsv] Hpop Htarget.
  destruct (lazy_inv_pop _ _ _ Hinv Hpop) as [Hinvq Hlabel].
  pose proof (pop_length _ _ _ Hpop) as Hlen.
  assert (label ∈ queue_ s) as Hin.
  { apply pop_Some in Hpop as [Hperm _]. rewrite Hperm. apply elem_of_cons. by left. }
  assert (forall l, l ∈ q -> l ∈ queue_ s) as Hqsub.
  { intros l Hl. apply pop_Some in Hpop as [Hperm _]. rewrite Hperm.
    apply elem_of_cons. by right. }
  unfold scan.
  destruct (time (LabelTemplate.state label) <? earliest_time_ (set_queue q s)) eqn:Hold.
  { simpl. split; [split; simpl; by auto|].
    unfold turns_left, unreached_count. simpl. lia. }
  destruct (scanned_labels_ s !! id (LabelTemplate.state label)) as [old|] eqn:Hfresh.
  { unfold mark_scanned. simpl. by rewrite Hfresh. }
  assert (label_ok (set_queue q s) label) as Hlabelq by done.
  destruct Hlabel as (Hytab & Hyw & Hylen & Hypred).
  assert (exists s0, mark_scanned label (set_queue q s) = Ok s0) as [s0 Hs0].
  { unfold mark_scanned. simpl. rewrite Hfresh. eauto. }
  assert (exists s1, remove_from_column (LabelTemplate.state label) s0 = Ok s1) as [s1 Hs1].
  { destruct (inv_partition s Hinv _ Hytab Hylen) as [(column & Hcol & Hy)|(l & Hl & _)];
      [|congruence].
    apply mark_scanned_Ok in Hs0 as [_ ->].
    by eapply remove_from_column_total. }
  assert (exists s2, mark_winner (LabelTemplate.state label) s1 = Ok s2) as [s2 Hs2].
  { apply mark_winner_total.
    apply mark_scanned_Ok in Hs0 as [_ ->].
    apply remove_from_column_Ok in Hs1 as (column & k & x & _ & _ & ->).
    by destruct (delete k column). }
  destruct (settle_inv _ _ _ _ _ Hinvq Hlabelq Hs0 Hs1 Hs2) as (Hinv2 & Hg & Hq2 & Hsc2 & Htm2).
  destruct (settle_count _ _ _ _ _ Hs0 Hs1 Hs2) as [Hcount Hcols].
  simpl in Hq2, Hsc2, Hcols.
  assert (costs_valid s2) as Hvalid2.
  { split; [rewrite Hq2; by auto|]. rewrite Hsc2.
    intros i l [[<- <-]|[_ Hl]]%lookup_insert_Some; by eauto. }
  assert (turns_left s2 < turns_left s)%nat as Hless.
  { unfold turns_left. rewrite Hq2.
    change (unreached_count (set_queue q s)) with (unreached_count s) in Hcount. nia. }
  rewrite Hs0. cbn [mbind result_bind]. rewrite Hs1. cbn [mbind result_bind].
  rewrite Hs2. cbn [mbind result_bind]. cbv zeta.
  destruct (target <=? N.max (time (LabelTemplate.state label)) searched) eqn:Hbreak.
  { done. }
  apply N.leb_gt in Hbreak.
  destruct (AddSuccessorsToQueue_total (LabelTemplate.state label) s2)
    as (s3 & Hs3 & Hq3); [done|done| | |].
  { rewrite Hsc2, lookup_insert_eq. eauto. }
  { rewrite Hcols. lia. }
  rewrite Hs3. simpl. split; [by eapply AddSuccessorsToQueue_costs_valid|].
  pose proof (AddSuccessorsToQueue_frame _ _ _ Hs3) as Hframe.
  unfold turns_left in *. rewrite Hframe. simpl.
  change (unreached_count (set_queue (queue_ s3) s2)) with (unreached_count s2).
  change (unreached_count (set_queue q s)) with (unreached_count s) in Hcount.
  rewrite Hq2 in Hq3. simpl in Hq3. nia.
Qed.


Lemma search_loop_answers fuel target searched s :
  lazy_inv s -> costs_valid s ->
  target < N.of_nat (length (unreached_states_ s)) ->
  (turns_left s < fuel)%nat ->
  answers (search_loop fuel target searched s) (fun r => costs_valid r.2).
Proof.
  revert searched s.
  induction fuel as [|fuel IH]; intros searched s Hinv Hvalid Htarget Hfuel; [lia|].
  simpl. destruct (pop (queue_ s)) as [[label q]|] eqn:Hpop; [|done].
  destruct (lazy_inv_pop _ _ _ Hinv Hpop) as [Hinvq Hlabel].
  eapply answers_bind; [by apply scan_answers|].
  intros r Hr [Hvalid' Hless].
  destruct (scan_inv _ _ _ _ _ Hinvq Hlabel Hr) as [Hinv' (_ & Hlen & _)].
  destruct r as [searched1 s1|searched1 s1]; simpl in *; [|done].
  apply IH; [done|done|lia|lia].
Qed.

Lemma IterativeSearch_answers target request_new_start s :
  lazy_inv s -> costs_valid s ->
  target < N.of_nat (length (unreached_states_ s)) ->
  answers (IterativeSearch target request_new_start s) (fun r => costs_valid r.2).
Proof.
  intros Hinv Hvalid Htarget.
  pose proof (inv_fit s Hinv) as Hfit. pose proof (inv_bounded s Hinv) as Hbs.
  unfold columns_fit, bounded in Hfit, Hbs.
  unfold IterativeSearch. rewrite (proj2 (N.leb_gt _ _) Htarget).
  destruct (target <? N.of_nat (length (winner_ s))) eqn:Hcached; [done|].
  apply N.ltb_ge in Hcached.
  destruct (negb request_new_start && _) eqn:Hbranch.
  - apply andb_true_iff in Hbranch as [_ [y Hlast]%bool_decide_eq_true].
    destruct (last_winner_lookup s y Hlast) as [Hw Hpos].
    destruct (inv_winner s Hinv _ _ Hw) as [Htm Hset].
    assert (in_table s y) as Htab.
    { destruct Hset as (l & Hl & <-).
      by destruct (inv_scanned s Hinv _ _ Hl) as (_ & _ & ? & _). }
    destruct (AddSuccessorsToQueue_total y s) as (sq & Hsq & _); [done|done| |lia|].
    { destruct Hset as (l & Hl & _). eauto. }
    assert (lazy_inv sq) as Hinv1
      by (eapply AddSuccessorsToQueue_inv; [done|done|done|lia|done]).
    assert (costs_valid sq) as Hvalid1 by by eapply AddSuccessorsToQueue_costs_valid.
    assert (length (unreached_states_ sq) = length (unreached_states_ s)) as Hlen1.
    { apply AddSuccessorsToQueue_frame in Hsq as ->. done. }
    cbv zeta. rewrite u32_small by lia. rewrite Hw, Hsq.
    cbn -[search_loop loop_fuel].
    eapply answers_bind.
    { apply (search_loop_answers (loop_fuel sq) target (N.of_nat (length (winner_ s)) - 1) sq);
        [done|done|lia|unfold loop_fuel, turns_left; lia]. }
    by intros [searched2 s2] _ Hvalid2.
  - destruct (lookup_lt_is_Some_2 (unreached_states_ s) (length (winner_ s)))
      as [column Hcol]; [lia|].
    assert (lazy_inv (InitQueue column s)) as Hinv1 by by eapply InitQueue_inv.
    assert (costs_valid (InitQueue column s)) as Hvalid1 by by apply InitQueue_costs_valid.
    cbv zeta. rewrite u32_small by lia. rewrite Nat2N.id, Hcol.
    cbn -[search_loop loop_fuel].
    eapply answers_bind.
    { apply (search_loop_answers (loop_fuel (InitQueue column s)) target
               (N.of_nat (length (winner_ s))) (InitQueue column s));
        [done|done|done|unfold loop_fuel, turns_left; lia]. }
    by intros [searched2 s2] _ Hvalid2.
Qed.

Lemma restart_loop_answers fuel target searched s :
  lazy_inv s -> costs_valid s ->
  target < N.of_nat (length (unreached_states_ s)) ->
  searched < N.of_nat (length (winner_ s)) ->
  (length (unreached_states_ s) - N.to_nat searched <= fuel)%nat ->
  answers (restart_loop fuel target searched s) (fun r => costs_valid r.2).
Proof.
  revert searched s.
  induction fuel as [|fuel IH]; intros searched s Hinv Hvalid Htarget Hw Hfuel; simpl.
  - destruct (searched <? target) eqn:Hlt; [apply N.ltb_lt in Hlt; lia|done].
  - destruct (searched <? target) eqn:Hlt; [|done]. apply N.ltb_lt in Hlt.
    eapply answers_bind; [by apply IterativeSearch_answers|].
    intros [searched1 s1] Hs1 Hvalid1. cbn -[restart_loop].
    destruct (IterativeSearch_inv _ _ _ _ _ Hinv Hs1) as [Hinv1 (_ & Hlen1 & _)].
    pose proof (IterativeSearch_progress _ _ _ _ Hinv Hs1) as Hprogress.
    apply IterativeSearch_searched in Hs1 as [Hw1 _].
    apply IH; [done|done|lia|done|lia].
Qed.

Lemma advance_answers tm s :
  lazy_inv s -> costs_valid s ->
  unreached_states_ s <> [] ->
  answers (advance tm s) costs_valid.
Proof.
  intros Hinv Hvalid Hu.
  pose proof (inv_fit s Hinv) as Hfit. unfold columns_fit in Hfit.
  assert (0 < length (unreached_states_ s))%nat as Hpos.
  { destruct (unreached_states_ s); [done|simpl; lia]. }
  unfold advance.
  set (target := N.min tm (u32 (N.of_nat (length (unreached_states_ s)) - 1))).
  assert (target < N.of_nat (length (unreached_states_ s))) as Htarget.
  { unfold target. rewrite u32_small by lia. lia. }
  eapply answers_bind; [by apply IterativeSearch_answers|].
  intros [searched1 s1] Hs1 Hvalid1. cbn -[restart_loop].
  destruct (IterativeSearch_inv _ _ _ _ _ Hinv Hs1) as [Hinv1 (_ & Hlen1 & _)].
  apply IterativeSearch_searched in Hs1 as [Hw1 _].
  eapply answers_bind.
  { apply (restart_loop_answers (S (length (unreached_states_ s1))) target searched1 s1);
      [done|done|lia|done|lia]. }
  by intros [searched2 s2] _ Hvalid2.
Qed.

Lemma SearchWinner_answers tm s :
  lazy_inv s -> costs_valid s ->
  answers (SearchWinner tm s) (fun r => costs_valid r.2).
Proof.
  intros Hinv Hvalid.
  destruct (decide (tm < N.of_nat (length (winner_ s)))) as [Hlt|Hge].
  { by destruct (SearchWinner_cached tm s Hlt) as (w & Hw & ->). }
  apply N.nlt_ge in Hge.
  destruct (decide (unreached_states_ s = [])) as [Hu|Hu].
  { by rewrite SearchWinner_empty by done. }
  rewrite SearchWinner_advance by done.
  eapply answers_bind; [by apply advance_answers|].
  by intros s' _ Hvalid'.
Qed.

Lemma reachable_costs s : reachable s -> costs_valid s.
Proof.
  induction 1 as [columns Hwf|tm s r s' Hreach IH Hs].
  - split; simpl; [intros l Hl; by apply elem_of_nil in Hl|].
    intros i l Hl. by apply lookup_empty_Some in Hl.
  - pose proof (SearchWinner_answers tm s (reachable_inv s Hreach) IH) as Ha.
    by rewrite Hs in Ha.
Qed.

End LazyAnswers.

(** ** The costs of the scanned labels follow the predecessors *)

Section LazyLinks.
Import ViterbiSearch.
Context `{CostModel} {Q : SPQueue} `{!SPQueueLaws Q}.

Lemma linked_mono scanned scanned' l :
  scanned ⊆ scanned' -> linked scanned l -> linked scanned' l.
Proof.
  intros Hsub [He Hl]. split; [done|].
  destruct (LabelTemplate.predecessor l) as [p|]; [|done].
  destruct Hl as (Ht & lp & Hlp & Hst & Hc). split; [done|].
  exists lp. split; [|done]. by eapply lookup_weaken.
Qed.

Lemma InitQueue_links column s : links_inv s -> links_inv (InitQueue column s).
Proof.
  intros [_ Hsc]. split; simpl; [|done].
  intros l [Hl|(st & Hst & Hf)]%push_column_sound; [by apply elem_of_nil in Hl|].
  by apply emission_label_Some in Hf as [-> ?].
Qed.

Lemma AddSuccessorsToQueue_links st s s' :
  links_inv s -> settled s st -> AddSuccessorsToQueue st s = Ok s' -> links_inv s'.
Proof.
  intros [Hq Hsc] (lst & Hlst & Hst) (l & column & Hl & Hvalid & Hcol & ->)%AddSuccessorsToQueue_Ok.
  split; simpl; [|done].
  intros l' [Hl'|(next & Hnext & Hf)]%push_column_sound; [by apply Hq|].
  apply successor_label_Some in Hf as (-> & He & Ht & _).
  split; [done|]. simpl. split; [done|]. exists l. by simplify_eq.
Qed.

Lemma scan_links target searched label s r :
  lazy_inv s -> label_ok s label ->
  links_inv s -> linked (scanned_labels_ s) label ->
  scan target searched label s = Ok r ->
  links_inv (turn_state r).
Proof.
  intros Hinv Hlabel [Hq Hsc] Hl. unfold scan. intros Hs.
  case_match; simplify_eq; [done|].
  bind_inv Hs as s0 Hs0. bind_inv Hs as s1 Hs1. bind_inv Hs as s2 Hs2.
  destruct (settle_inv _ _ _ _ _ Hinv Hlabel Hs0 Hs1 Hs2) as (Hinv2 & Hg & Hq2 & Hsc2 & Htm).
  apply mark_scanned_Ok in Hs0 as [Hfresh _].
  assert (scanned_labels_ s ⊆ scanned_labels_ s2) as Hsub.
  { rewrite Hsc2. by apply insert_subseteq. }
  assert (links_inv s2) as Hlinks2.
  { split.
    - rewrite Hq2. intros l' Hl'. eapply linked_mono; [done|by apply Hq].
    - intros i l'. rewrite Hsc2 at 1.
      intros [[_ <-]|[_ Hl']]%lookup_insert_Some; (eapply linked_mono; [done|]); by eauto. }
  case_match; simplify_eq; [done|].
  bind_inv Hs as s3 Hs3. simplify_eq. simpl.
  eapply AddSuccessorsToQueue_links; [done| |done].
  exists label. split; [|done]. rewrite Hsc2. apply lookup_insert_eq.
Qed.

Lemma search_loop_links fuel target searched s searched' s' :
  lazy_inv s -> links_inv s ->
  search_loop fuel target searched s = Ok (searched', s') ->
  links_inv s'.
Proof.
  revert searched s. induction fuel as [|fuel IH]; intros searched s Hinv Hlinks Hs; [done|].
  simpl in Hs. destruct (pop (queue_ s)) as [[label q]|] eqn:Hpop; simplify_eq; [|done].
  destruct (lazy_inv_pop _ _ _ Hinv Hpop) as [Hinvq Hlabel].
  bind_inv Hs as r Hr.
  destruct (scan_inv _ _ _ _ _ Hinvq Hlabel Hr) as [Hinv' _].
  assert (links_inv (turn_state r)) as Hlinks'.
  { apply pop_Some in Hpop as [Hperm _]. destruct Hlinks as [Hq Hsc].
    apply (scan_links target searched label (set_queue q s) r Hinvq Hlabel); [| |done].
    - split; [|done]. simpl. intros l Hl. apply Hq. rewrite Hperm. apply elem_of_cons. by right.
    - simpl. apply Hq. rewrite Hperm. apply elem_of_cons. by left. }
  destruct r as [searched1 s1|searched1 s1]; simplify_eq; simpl in *; [|done].
  by eapply IH.
Qed.

Lemma links_inv_set_winner w s : links_inv s -> links_inv (set_winner w s).
Proof. done. Qed.

Lemma IterativeSearch_links target request_new_start s searched s' :
  lazy_inv s -> links_inv s ->
  IterativeSearch target request_new_start s = Ok (searched, s') ->
  links_inv s'.
Proof.
  intros Hinv Hlinks Hs.
  pose proof (inv_fit s Hinv) as Hfit. pose proof (inv_bounded s Hinv) as Hbs.
  unfold columns_fit, bounded in Hfit, Hbs.
  unfold IterativeSearch in Hs.
  case_match; [by repeat case_match|].
  case_match; simplify_eq; [done|].
  bind_inv Hs as [source s1] Hs1.
  bind_inv Hs as [searched1 s2] Hs2. simplify_eq.
  assert (lazy_inv s1 /\ links_inv s1) as [Hinv1 Hlinks1].
  { destruct (negb request_new_start && _).
    - destruct (winner_ s !! _) as [[w|]|] eqn:Hw; [|done..].
      bind_inv Hs1 as sq Hsq. simplify_eq.
      destruct (inv_winner s Hinv _ _ Hw) as [Htm Hset].
      apply lookup_lt_Some in Hw.
      assert (in_table s w) as Htab.
      { destruct Hset as (l & Hl & <-). by destruct (inv_scanned s Hinv _ _ Hl) as (_ & _ & ? & _). }
      split.
      + eapply AddSuccessorsToQueue_inv; [done|done|done|lia|done].
      + by eapply AddSuccessorsToQueue_links.
    - destruct (unreached_states_ s !! _) as [column|] eqn:Hcol; simplify_eq.
      rewrite u32_small in Hcol by lia. split; [|by apply InitQueue_links].
      eapply InitQueue_inv; [done|done|lia]. }
  apply links_inv_set_winner. exact (search_loop_links _ _ _ _ _ _ Hinv1 Hlinks1 Hs2).
Qed.

Lemma restart_loop_links fuel target searched s searched' s' :
  lazy_inv s -> links_inv s ->
  restart_loop fuel target searched s = Ok (searched', s') ->
  links_inv s'.
Proof.
  revert searched s. induction fuel as [|fuel IH]; intros searched s Hinv Hlinks Hs; simpl in Hs.
  - by case_match; simplify_eq.
  - case_match; simplify_eq; [|done].
    bind_inv Hs as [searched1 s1] Hs1.
    destruct (IterativeSearch_inv _ _ _ _ _ Hinv Hs1) as [Hinv1 _].
    apply (IH _ _ Hinv1 (IterativeSearch_links _ _ _ _ _ Hinv Hlinks Hs1) Hs).
Qed.

Lemma SearchWinner_links tm s r s' :
  lazy_inv s -> links_inv s -> SearchWinner tm s = Ok (r, s') -> links_inv s'.
Proof.
  intros Hinv Hlinks (_ & [->|[_ Hs]])%SearchWinner_Ok; [done|].
  unfold advance in Hs.
  bind_inv Hs as [searched s1] Hs1. bind_inv Hs as [searched' s2] Hs2. simplify_eq.
  destruct (IterativeSearch_inv _ _ _ _ _ Hinv Hs1) as [Hinv1 _].
  exact (restart_loop_links _ _ _ _ _ _ Hinv1 (IterativeSearch_links _ _ _ _ _ Hinv Hlinks Hs1) Hs2).
Qed.

Lemma reachable_links s : reachable s -> links_inv s.
Proof.
  induction 1 as [columns Hwf|tm s r s' Hreach IH Hs].
  - split; simpl; [intros l Hl; by apply elem_of_nil in Hl|].
    intros i l Hl. by apply lookup_empty_Some in Hl.
  - eapply SearchWinner_links; [by apply reachable_inv|done|done].
Qed.

End LazyLinks.

(** ** The postcondition of [IterativeSearch] *)

Section LazyPost.
Import ViterbiSearch.
Context `{CostModel} {Q : SPQueue} `{!SPQueueLaws Q}.

(** One turn of the main loop keeps the searched time next to the end of
    the winner cache and at or before the target. *)
Lemma scan_post target searched label s r :
  lazy_inv s -> label_ok s label ->
  N.of_nat (length (winner_ s)) <= searched + 1 ->
  searched <= target ->
  N.of_nat (length (winner_ s)) <= target ->
  scan target searched label s = Ok r ->
  N.of_nat (length (winner_ (turn_state r))) <= turn_time r + 1
  /\ turn_time r <= target
  /\ match r with
     | Continue _ s' => N.of_nat (length (winner_ s')) <= target
     | Break _ _ => True
     end.
Proof.
  intros Hinv Hlabel Hw Hle Hwt. unfold scan. intros Hs.
  case_match; simplify_eq; [done|].
  bind_inv Hs as s0 Hs0. bind_inv Hs as s1 Hs1. bind_inv Hs as s2 Hs2.
  pose proof Hlabel as (_ & Htm & _).
  assert (N.of_nat (length (winner_ s2))
          <= N.max (time (LabelTemplate.state label)) searched + 1
          /\ length (winner_ s2) = length (winner_ (turn_state r))) as [Hw2 Hlen].
  { apply mark_scanned_Ok in Hs0 as [_ ->].
    apply remove_from_column_Ok in Hs1 as (column & k & x & _ & _ & ->).
    assert (winner_ s2 = winner_ s \/ (winner_ s2 = winner_ s ++ [Some (LabelTemplate.state label)]
              /\ time (LabelTemplate.state label) = N.of_nat (length (winner_ s)))) as Hcase.
    { apply mark_winner_Ok in Hs2 as [[_ ->]|[Heq ->]].
      - left. by destruct (delete k column).
      - right. by destruct (delete k column). }
    split.
    - destruct Hcase as [->|[-> Heq]]; [lia|]. rewrite length_app. simpl. lia.
    - case_match; simplify_eq; [done|].
      bind_inv Hs as s3 Hs3. simplify_eq. simpl.
      apply AddSuccessorsToQueue_frame in Hs3 as ->. done. }
  case_match eqn:Hbreak; simplify_eq; simpl in *.
  - split; [lia|]. split; [lia|done].
  - apply N.leb_gt in Hbreak.
    bind_inv Hs as s3 Hs3. simplify_eq. simpl in *. lia.
Qed.

Lemma search_loop_post fuel target searched s searched' s' :
  lazy_inv s ->
  N.of_nat (length (winner_ s)) <= searched + 1 ->
  searched <= target ->
  N.of_nat (length (winner_ s)) <= target ->
  search_loop fuel target searched s = Ok (searched', s') ->
  N.of_nat (length (winner_ s')) <= searched' + 1 /\ searched' <= target.
Proof.
  revert searched s.
  induction fuel as [|fuel IH]; intros searched s Hinv Hw Hle Hwt Hs; [done|].
  simpl in Hs. destruct (pop (queue_ s)) as [[label q]|] eqn:Hpop; simplify_eq; [|done].
  destruct (lazy_inv_pop _ _ _ Hinv Hpop) as [Hinvq Hlabel].
  bind_inv Hs as r Hr.
  destruct (scan_inv _ _ _ _ _ Hinvq Hlabel Hr) as [Hinv' _].
  destruct (scan_post target searched label (set_queue q s) r Hinvq Hlabel Hw Hle Hwt Hr)
    as (Hw' & Hle' & Hwt').
  destruct r as [searched1 s1|searched1 s1]; simplify_eq; simpl in *; [|done].
  by eapply IH.
Qed.

(** The postcondition of [IterativeSearch] when the target is not cached:
    [searched_time == winner_.size() - 1 && searched_time <= target]. *)
Lemma IterativeSearch_post target request_new_start s searched s' :
  lazy_inv s ->
  N.of_nat (length (winner_ s)) <= target ->
  IterativeSearch target request_new_start s = Ok (searched, s') ->
  N.of_nat (length (winner_ s')) = searched + 1 /\ searched <= target.
Proof.
  intros Hinv Hge Hs.
  pose proof (inv_fit s Hinv) as Hfit. pose proof (inv_bounded s Hinv) as Hbs.
  unfold columns_fit, bounded in Hfit, Hbs.
  unfold IterativeSearch in Hs.
  case_match; [by repeat case_match|].
  case_match eqn:Hcached; simplify_eq; [apply N.ltb_lt in Hcached; lia|].
  bind_inv Hs as [source s1] Hs1.
  bind_inv Hs as [searched1 s2] Hs2. simplify_eq.
  assert (lazy_inv s1 /\ winner_ s1 = winner_ s
          /\ N.of_nat (length (winner_ s)) <= source + 1 /\ source <= target) as
    (Hinv1 & Hw1 & Hsrc & Hsrct).
  { destruct (negb request_new_start && _) eqn:Hbranch.
    - apply andb_true_iff in Hbranch as [_ [y Hlast]%bool_decide_eq_true].
      destruct (last_winner_lookup s y Hlast) as [_ Hpos].
      destruct (winner_ s !! _) as [[w|]|] eqn:Hw; [|done..].
      bind_inv Hs1 as sq Hsq. simplify_eq.
      rewrite u32_small in Hw |- * by lia.
      destruct (inv_winner s Hinv _ _ Hw) as [Htm Hset].
      apply lookup_lt_Some in Hw.
      assert (in_table s w) as Htab.
      { destruct Hset as (l & Hl & <-). by destruct (inv_scanned s Hinv _ _ Hl) as (_ & _ & ? & _). }
      split; [eapply AddSuccessorsToQueue_inv; [done|done|done|lia|done]|].
      apply AddSuccessorsToQueue_frame in Hsq as ->. simpl. split; [done|lia].
    - destruct (unreached_states_ s !! _) as [column|] eqn:Hcol; simplify_eq.
      rewrite u32_small in Hcol |- * by lia. split; [eapply InitQueue_inv; [done|done|lia]|].
      simpl. split; [done|lia]. }
  destruct (search_loop_post _ _ _ _ _ _ Hinv1 ltac:(by rewrite Hw1) Hsrct
              ltac:(by rewrite Hw1) Hs2) as [Hw2 Hle2].
  simpl. rewrite length_app, length_replicate. split; [lia|done].
Qed.

(** The restarts of [SearchWinner] end with the target searched, and no
    column past it. *)
Lemma restart_loop_exact fuel target searched s searched' s' :
  lazy_inv s ->
  N.of_nat (length (winner_ s)) = searched + 1 ->
  searched <= target ->
  restart_loop fuel target searched s = Ok (searched', s') ->
  searched' = target /\ N.of_nat (length (winner_ s')) = target + 1.
Proof.
  revert searched s. induction fuel as [|fuel IH]; intros searched s Hinv Hw Hle Hs; simpl in Hs.
  - case_match eqn:Hlt; simplify_eq. apply N.ltb_ge in Hlt. split; lia.
  - case_match eqn:Hlt; simplify_eq; [|apply N.ltb_ge in Hlt; split; lia].
    apply N.ltb_lt in Hlt.
    bind_inv Hs as [searched1 s1] Hs1.
    destruct (IterativeSearch_inv _ _ _ _ _ Hinv Hs1) as [Hinv1 _].
    destruct (IterativeSearch_post target true s searched1 s1 Hinv) as [Hw1 Hle1]; [lia|done|].
    by eapply IH.
Qed.

Lemma advance_exact tm s s' :
  lazy_inv s ->
  N.of_nat (length (winner_ s)) <= tm ->
  N.of_nat (length (winner_ s)) < N.of_nat (length (unreached_states_ s)) ->
  advance tm s = Ok s' ->
  N.of_nat (length (winner_ s'))
  = N.min tm (N.of_nat (length (unreached_states_ s)) - 1) + 1.
Proof.
  intros Hinv Hge Hlt. unfold advance. intros Hs.
  pose proof (inv_fit s Hinv) as Hfit. unfold columns_fit in Hfit.
  rewrite u32_small in Hs by lia.
  bind_inv Hs as [searched s1] Hs1. bind_inv Hs as [searched' s2] Hs2. simplify_eq.
  destruct (IterativeSearch_inv _ _ _ _ _ Hinv Hs1) as [Hinv1 _].
  destruct (IterativeSearch_post (N.min tm (N.of_nat (length (unreached_states_ s)) - 1))
              false s searched s1 Hinv) as [Hw1 Hle1]; [lia|done|].
  by destruct (restart_loop_exact _ _ _ _ _ _ Hinv1 Hw1 Hle1 Hs2) as [_ ?].
Qed.

End LazyPost.

(** ** Engines of the scenarios *)

Lemma breakage_reachable (Q : SPQueue) :
  @reachable Scenario.breakage_costs Q Scenario.breakage.
Proof. apply reachable_create, breakage_columns_wf. Qed.

Lemma no_edge_columns_wf : wf_trellis no_edge_columns.
Proof.
  split_and!; [vm_compute; discriminate|vm_compute; reflexivity| |].
  - intros [|[|[|k]]] st Hk; simpl in Hk; by simplify_eq.
  - intros [|[|k]] column st Hk Hst; simpl in Hk; simplify_eq;
      repeat (apply elem_of_cons in Hst as [->|Hst]; [done|]); by apply elem_of_nil in Hst.
Qed.

Lemma duplicate_reachable (Q : SPQueue) :
  @reachable Scenario.duplicate_costs Q (ViterbiSearch.create Scenario.duplicate_columns).
Proof. apply reachable_create, duplicate_columns_wf. Qed.

(** ** What the lazy engine has settled *)

(** X1.  A winner that [SearchWinner] of the lazy engine returns, for an
    engine reached from a well-formed trellis, is a state of the table:
    [state] finds it under the returned id, its time is the queried time,
    which lies within the trellis, it is the entry of the winner cache for
    that time, and it has a scanned label whose cost is valid, so that
    [AccumulatedCost] of a returned winner is never the sentinel. *)
Theorem lazy_winner_is_settled (cm : CostModel) (Q : SPQueue) (L : SPQueueLaws Q)
    (s s' : ViterbiSearch.t) (tm : Time) (r : StateId) :
  reachable s ->
  ViterbiSearch.SearchWinner tm s = Ok (r, s') ->
  r <> kInvalidStateId ->
  tm < N.of_nat (length (ViterbiSearch.unreached_states_ s'))
  /\ exists st,
       ViterbiSearch.state r s' = Some st
       /\ id st = r
       /\ time st = tm
       /\ ViterbiSearch.winner_ s' !! N.to_nat tm = Some (Some st)
       /\ is_Some (ViterbiSearch.scanned_labels_ s' !! r)
       /\ ViterbiSearch.IsInvalidCost (ViterbiSearch.AccumulatedCost r s') = false.
Proof.
  intros Hreach Hs Hr.
  assert (reachable s') as Hreach' by by eapply reachable_search.
  pose proof (reachable_inv s' Hreach') as Hinv.
  pose proof (reachable_costs s' Hreach') as [_ Hvalid].
  apply SearchWinner_Ok in Hs as [-> _].
  destruct (ViterbiSearch.winner_ s' !! N.to_nat tm) as [[st|]|] eqn:Hw; [|done..].
  simpl in *. destruct (inv_winner s' Hinv _ _ Hw) as [Htm (l & Hl & Hst)].
  destruct (inv_scanned s' Hinv _ _ Hl) as (_ & _ & Htab & _).
  apply lookup_lt_Some in Hw as Hlt. pose proof (inv_bounded s' Hinv) as Hb.
  unfold bounded in Hb. split; [lia|].
  exists st. rewrite Hst in Htab. split_and!; [done|done|lia|done|by eexists|].
  unfold ViterbiSearch.AccumulatedCost. rewrite Hl. by eapply Hvalid.
Qed.

Lemma lazy_winner_is_settled_witness :
  exists s' : ViterbiSearch.t,
    @ViterbiSearch.SearchWinner Scenario.breakage_costs HeapQueue 2 Scenario.breakage
      = Ok (2, s')
    /\ ViterbiSearch.state 2 s' = Some Scenario.c
    /\ ViterbiSearch.IsInvalidCost (ViterbiSearch.AccumulatedCost 2 s') = false.
Proof.
  eexists. split; [vm_compute; reflexivity|].
  split; [vm_compute; reflexivity|].
  lazymatch goal with
  | |- ViterbiSearch.IsInvalidCost (ViterbiSearch.AccumulatedCost 2 ?s') = false =>
      destruct (lazy_winner_is_settled Scenario.breakage_costs HeapQueue HeapQueue_laws
                  Scenario.breakage s' 2 2) as (_ & st & _ & _ & _ & _ & _ & Hcost)
  end.
  - apply breakage_reachable.
  - vm_compute. reflexivity.
  - vm_compute. discriminate.
  - exact Hcost.
Defined.

(** X2.  In an engine reached from a well-formed trellis, every state of
    the table whose time lies within the trellis is in one of two places
    and never in both: still in the unreached column of its time, without
    scanned label (so that [AccumulatedCost] is -1); or settled, with a
    scanned label of its own, at a time the winner cache covers, and in no
    unreached column. *)
Theorem state_unreached_or_settled (cm : CostModel) (Q : SPQueue) (L : SPQueueLaws Q)
    (s : ViterbiSearch.t) (st : State) :
  reachable s ->
  ViterbiSearch.state (id st) s = Some st ->
  time st < N.of_nat (length (ViterbiSearch.unreached_states_ s)) ->
  ((exists column,
       ViterbiSearch.unreached_states_ s !! N.to_nat (time st) = Some column /\ st ∈ column)
   /\ ViterbiSearch.scanned_labels_ s !! id st = None
   /\ ViterbiSearch.AccumulatedCost (id st) s = Fin (-1))
  \/ ((exists l, ViterbiSearch.scanned_labels_ s !! id st = Some l /\ LabelTemplate.state l = st)
      /\ time st < N.of_nat (length (ViterbiSearch.winner_ s))
      /\ forall k column, ViterbiSearch.unreached_states_ s !! k = Some column -> st ∉ column).
Proof.
  intros Hreach Htab Htm. pose proof (reachable_inv s Hreach) as Hinv.
  destruct (inv_partition s Hinv st Htab Htm) as [(column & Hcol & Hin)|(l & Hl & Hst)].
  - left. destruct (inv_unreached s Hinv _ _ _ Hcol Hin) as (_ & _ & Hnone).
    split; [by exists column|]. split; [done|].
    unfold ViterbiSearch.AccumulatedCost. by rewrite Hnone.
  - right. split; [by exists l|].
    destruct (inv_scanned s Hinv _ _ Hl) as (_ & Hlt & _). rewrite Hst in Hlt.
    split; [done|]. intros k column Hcol Hin.
    destruct (inv_unreached s Hinv _ _ _ Hcol Hin) as (_ & _ & Hnone). congruence.
Qed.

Lemma state_unreached_or_settled_witness :
  exists s' : ViterbiSearch.t,
    @ViterbiSearch.SearchWinner Scenario.breakage_costs HeapQueue 1 Scenario.breakage
      = Ok (1, s')
    /\ ViterbiSearch.scanned_labels_ s' !! id Scenario.c = None
    /\ is_Some (ViterbiSearch.scanned_labels_ s' !! id Scenario.b)
    /\ (((exists column,
            ViterbiSearch.unreached_states_ s' !! N.to_nat (time Scenario.c) = Some column
            /\ Scenario.c ∈ column)
         /\ ViterbiSearch.scanned_labels_ s' !! id Scenario.c = None
         /\ ViterbiSearch.AccumulatedCost (id Scenario.c) s' = Fin (-1))
        \/ ((exists l, ViterbiSearch.scanned_labels_ s' !! id Scenario.c = Some l
                       /\ LabelTemplate.state l = Scenario.c)
            /\ time Scenario.c < N.of_nat (length (ViterbiSearch.winner_ s'))
            /\ forall k column,
                 ViterbiSearch.unreached_states_ s' !! k = Some column -> Scenario.c ∉ column)).
Proof.
  eexists. split; [vm_compute; reflexivity|].
  split; [vm_compute; reflexivity|]. split; [vm_compute; eauto|].
  apply (state_unreached_or_settled Scenario.breakage_costs HeapQueue HeapQueue_laws).
  - eapply (reachable_search 1 _ 1); [apply breakage_reachable|vm_compute; reflexivity].
  - vm_compute. reflexivity.
  - vm_compute. reflexivity.
Defined.

(** X3.  The scanned label of a settled state records how its cost was
    built.  In an engine reached from a well-formed trellis, for every id
    with a scanned label: [state] finds the state of the label, its
    emission cost and its accumulated cost are valid, and either the state
    has no predecessor and its accumulated cost is its emission cost, or
    [predecessor] is the id of a settled state of the column before, the
    transition cost from that state is valid, and the accumulated cost is
    [CostSofar] of the accumulated cost of the predecessor, the transition
    cost and the emission cost. *)
Theorem settled_cost_follows_predecessor (cm : CostModel) (Q : SPQueue) (L : SPQueueLaws Q)
    (s : ViterbiSearch.t) (i : StateId) (l : Label) :
  reachable s ->
  ViterbiSearch.scanned_labels_ s !! i = Some l ->
  ViterbiSearch.state i s = Some (LabelTemplate.state l)
  /\ ViterbiSearch.IsInvalidCost (EmissionCost (LabelTemplate.state l)) = false
  /\ ViterbiSearch.IsInvalidCost (ViterbiSearch.AccumulatedCost i s) = false
  /\ ((ViterbiSearch.predecessor i s = kInvalidStateId
       /\ ViterbiSearch.AccumulatedCost i s = EmissionCost (LabelTemplate.state l))
      \/ exists p,
           ViterbiSearch.predecessor i s = id p
           /\ id p <> kInvalidStateId
           /\ ViterbiSearch.state (id p) s = Some p
           /\ time p + 1 = time (LabelTemplate.state l)
           /\ is_Some (ViterbiSearch.scanned_labels_ s !! id p)
           /\ ViterbiSearch.IsInvalidCost (TransitionCost p (LabelTemplate.state l)) = false
           /\ ViterbiSearch.AccumulatedCost i s
              = CostSofar (ViterbiSearch.AccumulatedCost (id p) s)
                  (TransitionCost p (LabelTemplate.state l))
                  (EmissionCost (LabelTemplate.state l))).
Proof.
  intros Hreach Hl. pose proof (reachable_inv s Hreach) as Hinv.
  pose proof (reachable_costs s Hreach) as [_ Hvalid].
  pose proof (reachable_links s Hreach) as [_ Hlinks].
  destruct (inv_scanned s Hinv _ _ Hl) as (Hid & _ & Htab & _ & _ & Hpred).
  destruct (Hlinks _ _ Hl) as [He Hlink].
  unfold ViterbiSearch.AccumulatedCost, ViterbiSearch.predecessor. rewrite Hl.
  split_and!; [by rewrite <- Hid|done|by eapply Hvalid|].
  destruct (LabelTemplate.predecessor l) as [p|] eqn:Hp; [right|by left].
  destruct Hlink as (Ht & lp & Hlp & Hst & Hc).
  destruct (Hpred p eq_refl) as (_ & Hptab & Hptm).
  exists p. rewrite Hlp. split_and!; try done.
  by eapply lazy_inv_id_valid.
Qed.

Lemma settled_cost_follows_predecessor_witness :
  exists s' : ViterbiSearch.t,
    @ViterbiSearch.SearchWinner Scenario.duplicate_costs KeyedQueue 2
      (ViterbiSearch.create Scenario.duplicate_columns) = Ok (4, s')
    /\ ViterbiSearch.predecessor 4 s' = 2
    /\ ViterbiSearch.AccumulatedCost 4 s' = Fin 7
    /\ ViterbiSearch.AccumulatedCost 2 s' = Fin 2
    /\ ViterbiSearch.IsInvalidCost (ViterbiSearch.AccumulatedCost 4 s') = false.
Proof.
  eexists. split; [vm_compute; reflexivity|].
  split; [vm_compute; reflexivity|]. split; [vm_compute; reflexivity|].
  split; [vm_compute; reflexivity|].
  lazymatch goal with
  | |- ViterbiSearch.IsInvalidCost (ViterbiSearch.AccumulatedCost 4 ?s') = false =>
      destruct (settled_cost_follows_predecessor Scenario.duplicate_costs KeyedQueue
                  KeyedQueue_laws s' 4
                  (LabelTemplate.mk (Fin 7) Scenario.dup_u (Some Scenario.dup_r)))
        as (_ & _ & Hvalid & _); [| |exact Hvalid]
  end.
  - eapply (reachable_search 2 _ 4); [apply duplicate_reachable|vm_compute; reflexivity].
  - vm_compute. reflexivity.
Defined.

(** X4.  Under the precondition on the cost model, the winner the lazy
    engine returns for a time within the trellis is the best state of its
    column.  With [src] the column where the search that covers the
    queried time started: the returned id is absent only when no path from
    [src] arrives at the column; otherwise it is the id of a state of the
    queried time whose accumulated cost is the cost of a path from [src]
    and is at most the cost of every path from [src] to any state of the
    column. *)
Theorem lazy_winner_is_best (cm : CostModel) (Q : SPQueue) (L : SPQueueLaws Q)
    (s s' : ViterbiSearch.t) (tm : Time) (r : StateId) :
  dijkstra_costs cm ->
  reachable s ->
  tm < N.of_nat (length (ViterbiSearch.unreached_states_ s)) ->
  ViterbiSearch.SearchWinner tm s = Ok (r, s') ->
  exists src,
    seg (ViterbiSearch.state_ s') tm src
    /\ ((r = kInvalidStateId /\ ~ reach (ViterbiSearch.state_ s') src tm)
        \/ exists w,
             r = id w
             /\ ViterbiSearch.state r s' = Some w
             /\ time w = tm
             /\ path_to (ViterbiSearch.state_ s') src w (ViterbiSearch.AccumulatedCost r s')
             /\ forall z c,
                  path_to (ViterbiSearch.state_ s') src z c -> time z = tm ->
                  cost_leb (ViterbiSearch.AccumulatedCost r s') c = true).
Proof.
  intros Hcosts Hreach Htm Hs.
  assert (reachable s') as Hreach' by by eapply reachable_search.
  pose proof (reachable_inv s' Hreach') as Hinv.
  pose proof (inv_fit s (reachable_inv s Hreach)) as Hfit.
  destruct (SearchWinner_winner tm s r s' Htm Hfit Hs) as (winner & Hw & ->).
  destruct (reachable_winners Hcosts s' _ _ Hreach' Hw) as (src & Hseg & Hwin).
  rewrite N2Nat.id in Hseg. exists src. split; [done|].
  destruct winner as [w|]; [right|left; by rewrite N2Nat.id in Hwin].
  destruct Hwin as (lw & Hlw & Hpath & Hleast).
  destruct (inv_winner s' Hinv _ _ Hw) as [Hwtm _].
  destruct (inv_scanned s' Hinv _ _ Hlw) as (_ & _ & Htab & _).
  exists w. simpl. unfold ViterbiSearch.AccumulatedCost. rewrite Hlw.
  split_and!; [done| |lia|done|].
  - by apply path_to_in_table in Hpath.
  - intros z c Hz Hzt. apply (Hleast z c Hz). lia.
Qed.

Lemma lazy_winner_is_best_witness :
  exists s' : ViterbiSearch.t,
    @ViterbiSearch.SearchWinner Scenario.duplicate_costs KeyedQueue 2
      (ViterbiSearch.create Scenario.duplicate_columns) = Ok (4, s')
    /\ exists src,
         @seg Scenario.duplicate_costs (ViterbiSearch.state_ s') 2 src
         /\ ((4 = kInvalidStateId
              /\ ~ @reach Scenario.duplicate_costs (ViterbiSearch.state_ s') src 2)
             \/ exists w,
                  4 = id w
                  /\ ViterbiSearch.state 4 s' = Some w
                  /\ time w = 2
                  /\ @path_to Scenario.duplicate_costs (ViterbiSearch.state_ s') src w
                       (ViterbiSearch.AccumulatedCost 4 s')
                  /\ forall z c,
                       @path_to Scenario.duplicate_costs (ViterbiSearch.state_ s') src z c ->
                       time z = 2 ->
                       cost_leb (ViterbiSearch.AccumulatedCost 4 s') c = true).
Proof.
  eexists. split; [vm_compute; reflexivity|].
  apply (lazy_winner_is_best Scenario.duplicate_costs KeyedQueue KeyedQueue_laws
           (ViterbiSearch.create Scenario.duplicate_columns) _ 2 4).
  - apply sum_costs_dijkstra.
  - apply duplicate_reachable.
  - vm_compute. reflexivity.
  - vm_compute. reflexivity.
Defined.

(** X5.  Whatever the cost model, and for every queue that satisfies the
    laws (the heap of the specification is one), a query of an engine
    reached from a well-formed trellis either returns or ends with the
    violation of optimality.  None of the other exceptions of the lazy
    engine is raised (no successors possible, state not scanned, invalid
    scanned cost, empty states, target beyond the maximum, state not in its
    column, state from the future), no vector is indexed out of its range,
    and the loops end within their bounds. *)
Theorem search_fails_on_optimality_only (cm : CostModel) (Q : SPQueue) (L : SPQueueLaws Q)
    (s : ViterbiSearch.t) (tm : Time) :
  reachable s ->
  (exists r s', ViterbiSearch.SearchWinner tm s = Ok (r, s'))
  \/ ViterbiSearch.SearchWinner tm s = Throw optimality_violated.
Proof.
  intros Hreach.
  pose proof (SearchWinner_answers tm s (reachable_inv s Hreach) (reachable_costs s Hreach))
    as Ha.
  destruct (ViterbiSearch.SearchWinner tm s) as [[r s']|e]; simpl in Ha.
  - left. by exists r, s'.
  - right. by rewrite Ha.
Qed.

Lemma search_fails_on_optimality_only_witness :
  (exists r s',
      @ViterbiSearch.SearchWinner Scenario.duplicate_costs HeapQueue 2
        (ViterbiSearch.create Scenario.duplicate_columns) = Ok (r, s'))
  \/ @ViterbiSearch.SearchWinner Scenario.duplicate_costs HeapQueue 2
       (ViterbiSearch.create Scenario.duplicate_columns) = Throw optimality_violated.
Proof.
  apply (search_fails_on_optimality_only Scenario.duplicate_costs HeapQueue HeapQueue_laws).
  apply duplicate_reachable.
Defined.

(** ** The search functions of the lazy engine *)

(** X6.  [IterativeSearch] on every engine that has the structure
    [lazy_inv] and valid costs [costs_valid]: the engines a host reaches,
    and the engines [SearchWinner] passes on from one call of
    [IterativeSearch] to the next within a query, since a call that
    returns keeps both.  A target at or past the number of columns is
    refused: with [empty_states] when there is no column, with
    [target_beyond_maximum] otherwise.  A target the winner cache covers is
    returned at once and leaves the engine as it is.  For any other target
    the call ends with the violation of optimality or returns a searched
    time for which the postcondition of the source holds,
    [searched_time == winner_.size() - 1 && searched_time <= target]; the
    winner cache has only grown, and a requested new start has searched the
    first column that had no winner. *)
Theorem IterativeSearch_contract (cm : CostModel) (Q : SPQueue) (L : SPQueueLaws Q)
    (s : ViterbiSearch.t) (target : Time) (request_new_start : bool) :
  lazy_inv s ->
  costs_valid s ->
  (N.of_nat (length (ViterbiSearch.unreached_states_ s)) <= target ->
   ViterbiSearch.IterativeSearch target request_new_start s
   = Throw (match ViterbiSearch.unreached_states_ s with
            | [] => empty_states
            | _ => target_beyond_maximum
            end))
  /\ (target < N.of_nat (length (ViterbiSearch.unreached_states_ s)) ->
      target < N.of_nat (length (ViterbiSearch.winner_ s)) ->
      ViterbiSearch.IterativeSearch target request_new_start s = Ok (target, s))
  /\ (target < N.of_nat (length (ViterbiSearch.unreached_states_ s)) ->
      N.of_nat (length (ViterbiSearch.winner_ s)) <= target ->
      ViterbiSearch.IterativeSearch target request_new_start s = Throw optimality_violated
      \/ exists searched s',
           ViterbiSearch.IterativeSearch target request_new_start s = Ok (searched, s')
           /\ N.of_nat (length (ViterbiSearch.winner_ s')) = searched + 1
           /\ searched <= target
           /\ (request_new_start = true ->
               N.of_nat (length (ViterbiSearch.winner_ s)) <= searched)
           /\ ViterbiSearch.winner_ s `prefix_of` ViterbiSearch.winner_ s'
           /\ lazy_inv s'
           /\ costs_valid s').
Proof.
  intros Hinv Hvalid. split_and!.
  - intros Hle. unfold ViterbiSearch.IterativeSearch.
    apply N.leb_le in Hle. rewrite Hle. by destruct (ViterbiSearch.unreached_states_ s).
  - intros Hlt Hcached. by apply IterativeSearch_cached.
  - intros Hlt Hge.
    pose proof (IterativeSearch_answers target request_new_start s Hinv Hvalid Hlt) as Ha.
    destruct (ViterbiSearch.IterativeSearch target request_new_start s)
      as [[searched s']|e] eqn:Hs; simpl in Ha; [right|left; by rewrite Ha].
    exists searched, s'. split; [done|].
    destruct (IterativeSearch_post _ _ _ _ _ Hinv Hge Hs) as [Hw Hle].
    destruct (IterativeSearch_inv _ _ _ _ _ Hinv Hs) as [Hinv' _].
    split; [done|]. split; [done|]. split; [|split; [|done]].
    + intros ->. pose proof (IterativeSearch_progress _ _ _ _ Hinv Hs). lia.
    + by apply IterativeSearch_extends in Hs as (? & _).
Qed.

(** The theorem at a call with a requested new start, as [SearchWinner]
    makes it in the middle of a query: on the columns [{p, q}], [{r}]
    without edge of valid cost, the first call of [IterativeSearch] settles
    [p] and [q] and returns at time 0; the call that follows, with a new
    start, returns at time 1. *)
Lemma IterativeSearch_contract_witness :
  exists s1 : ViterbiSearch.t,
    @ViterbiSearch.IterativeSearch no_edge_costs HeapQueue 1 false
      (ViterbiSearch.create no_edge_columns) = Ok (0, s1)
    /\ ViterbiSearch.winner_ s1 = [Some Scenario.dup_p]
    /\ (exists s2, @ViterbiSearch.IterativeSearch no_edge_costs HeapQueue 1 true s1
                   = Ok (1, s2))
    /\ (@ViterbiSearch.IterativeSearch no_edge_costs HeapQueue 1 true s1
        = Throw optimality_violated
        \/ exists searched s',
             @ViterbiSearch.IterativeSearch no_edge_costs HeapQueue 1 true s1
             = Ok (searched, s')
             /\ N.of_nat (length (ViterbiSearch.winner_ s')) = searched + 1
             /\ searched <= 1
             /\ (true = true -> N.of_nat (length (ViterbiSearch.winner_ s1)) <= searched)
             /\ ViterbiSearch.winner_ s1 `prefix_of` ViterbiSearch.winner_ s'
             /\ lazy_inv s'
             /\ costs_valid s').
Proof.
  pose proof (create_inv no_edge_columns no_edge_columns_wf) as Hinv0.
  assert (costs_valid (ViterbiSearch.create no_edge_columns)) as Hvalid0.
  { split; simpl; [intros l Hl; by apply elem_of_nil in Hl|].
    intros i l Hl. by apply lookup_empty_Some in Hl. }
  eexists. split; [vm_compute; reflexivity|]. split; [vm_compute; reflexivity|].
  split; [eexists; vm_compute; reflexivity|].
  lazymatch goal with
  | |- ViterbiSearch.IterativeSearch _ _ ?s1 = _ \/ _ =>
      assert (@ViterbiSearch.IterativeSearch no_edge_costs HeapQueue 1 false
                (ViterbiSearch.create no_edge_columns) = Ok (0, s1)) as Hs1
        by (vm_compute; reflexivity);
      apply (IterativeSearch_contract no_edge_costs HeapQueue HeapQueue_laws s1 1 true)
  end.
  - by destruct (@IterativeSearch_inv no_edge_costs HeapQueue HeapQueue_laws _ _ _ _ _
                   Hinv0 Hs1).
  - pose proof (@IterativeSearch_answers no_edge_costs HeapQueue HeapQueue_laws 1 false
                  (ViterbiSearch.create no_edge_columns) Hinv0 Hvalid0) as Ha.
    rewrite Hs1 in Ha. apply Ha. vm_compute. reflexivity.
  - vm_compute. reflexivity.
  - vm_compute. discriminate.
Defined.

(** X7.  The lazy engine searches no further than it is asked.  After a
    query for a time [tm] within the trellis that the winner cache did not
    cover, the cache ends exactly at [tm], every scanned label belongs to a
    state of time [tm] at most, and every state of a later column is still
    in its unreached column. *)
Theorem lazy_search_stops_at_query (cm : CostModel) (Q : SPQueue) (L : SPQueueLaws Q)
    (s s' : ViterbiSearch.t) (tm : Time) (r : StateId) :
  reachable s ->
  N.of_nat (length (ViterbiSearch.winner_ s)) <= tm ->
  tm < N.of_nat (length (ViterbiSearch.unreached_states_ s)) ->
  ViterbiSearch.SearchWinner tm s = Ok (r, s') ->
  N.of_nat (length (ViterbiSearch.winner_ s')) = tm + 1
  /\ (forall i l, ViterbiSearch.scanned_labels_ s' !! i = Some l ->
                  time (LabelTemplate.state l) <= tm)
  /\ (forall k column st,
         tm < N.of_nat k ->
         ViterbiSearch.unreached_states_ s !! k = Some column -> st ∈ column ->
         exists column', ViterbiSearch.unreached_states_ s' !! k = Some column'
                         /\ st ∈ column').
Proof.
  intros Hreach Hge Hlt Hs. pose proof (reachable_inv s Hreach) as Hinv.
  destruct (SearchWinner_inv _ _ _ _ Hinv Hs) as [Hinv' (Htab & Hlen & _)].
  assert (N.of_nat (length (ViterbiSearch.winner_ s')) = tm + 1) as Hw.
  { rewrite SearchWinner_advance in Hs; [|done|].
    2:{ intros Hnil. rewrite Hnil in Hlt. simpl in Hlt. lia. }
    bind_inv Hs as s2 Hadv. simplify_eq.
    rewrite (advance_exact tm s s' Hinv Hge) by (done || lia). lia. }
  split; [done|]. split.
  - intros i l Hl. destruct (inv_scanned s' Hinv' _ _ Hl) as (_ & Hlt' & _). lia.
  - intros k column st Hk Hcol Hin.
    destruct (inv_unreached s Hinv _ _ _ Hcol Hin) as (Hst & Hin_table & _).
    apply lookup_lt_Some in Hcol as Hklt.
    destruct (inv_partition s' Hinv' st) as [(column' & Hcol' & Hin')|(l & Hl & Hstl)].
    + unfold in_table. by rewrite Htab.
    + rewrite Hlen. lia.
    + exists column'. rewrite Hst, Nat2N.id in Hcol'. done.
    + destruct (inv_scanned s' Hinv' _ _ Hl) as (_ & Hlt' & _). rewrite Hstl in Hlt'. lia.
Qed.

Lemma lazy_search_stops_at_query_witness :
  exists s' : ViterbiSearch.t,
    @ViterbiSearch.SearchWinner Scenario.breakage_costs HeapQueue 1 Scenario.breakage
      = Ok (1, s')
    /\ N.of_nat (length (ViterbiSearch.winner_ s')) = 1 + 1
    /\ ViterbiSearch.unreached_states_ s' = [[]; []; [Scenario.c]].
Proof.
  eexists. split; [vm_compute; reflexivity|]. split; [|vm_compute; reflexivity].
  eapply (lazy_search_stops_at_query Scenario.breakage_costs HeapQueue HeapQueue_laws
            Scenario.breakage _ 1 1).
  - apply breakage_reachable.
  - vm_compute. discriminate.
  - vm_compute. reflexivity.
  - vm_compute. reflexivity.
Defined.

(** X8.  [AddSuccessorsToQueue].  For a state of the last column or of a
    later time it throws [no_successors_possible]; for a state without
    scanned label, [state_not_scanned].  When it returns, only the queue
    has changed; every label of the new queue was in the queue before or is
    the label of a state [next] of the next unreached column, with the
    given state as predecessor and with the cost [CostSofar] of the
    accumulated cost of the given state, the transition cost to [next] and
    the emission cost of [next], these three costs being valid; and every
    such [next] has a label in the new queue that costs at most that
    much. *)
Theorem AddSuccessorsToQueue_contract (cm : CostModel) (Q : SPQueue) (L : SPQueueLaws Q)
    (st : State) (s : ViterbiSearch.t) :
  (N.of_nat (length (ViterbiSearch.unreached_states_ s)) <= u32 (time st + 1) ->
   ViterbiSearch.AddSuccessorsToQueue st s = Throw no_successors_possible)
  /\ (u32 (time st + 1) < N.of_nat (length (ViterbiSearch.unreached_states_ s)) ->
      ViterbiSearch.scanned_labels_ s !! id st = None ->
      ViterbiSearch.AddSuccessorsToQueue st s = Throw state_not_scanned)
  /\ (forall s',
        ViterbiSearch.AddSuccessorsToQueue st s = Ok s' ->
        s' = ViterbiSearch.set_queue (ViterbiSearch.queue_ s') s
        /\ exists column,
             ViterbiSearch.unreached_states_ s !! N.to_nat (u32 (time st + 1)) = Some column
             /\ (forall l,
                   l ∈ ViterbiSearch.queue_ s' ->
                   l ∈ ViterbiSearch.queue_ s
                   \/ exists next,
                        next ∈ column
                        /\ l = LabelTemplate.mk
                                 (CostSofar (ViterbiSearch.AccumulatedCost (id st) s)
                                    (TransitionCost st next) (EmissionCost next))
                                 next (Some st)
                        /\ ViterbiSearch.IsInvalidCost (EmissionCost next) = false
                        /\ ViterbiSearch.IsInvalidCost (TransitionCost st next) = false
                        /\ ViterbiSearch.IsInvalidCost (LabelTemplate.costsofar l) = false)
             /\ (forall next,
                   next ∈ column ->
                   ViterbiSearch.IsInvalidCost (EmissionCost next) = false ->
                   ViterbiSearch.IsInvalidCost (TransitionCost st next) = false ->
                   ViterbiSearch.IsInvalidCost
                     (CostSofar (ViterbiSearch.AccumulatedCost (id st) s)
                        (TransitionCost st next) (EmissionCost next)) = false ->
                   exists l,
                     l ∈ ViterbiSearch.queue_ s'
                     /\ LabelTemplate.id l = id next
                     /\ cost_leb (LabelTemplate.costsofar l)
                          (CostSofar (ViterbiSearch.AccumulatedCost (id st) s)
                             (TransitionCost st next) (EmissionCost next)) = true)).
Proof.
  split_and!.
  - intros Hle. unfold ViterbiSearch.AddSuccessorsToQueue.
    apply N.ltb_ge in Hle. by rewrite Hle.
  - intros Hlt Hnone. unfold ViterbiSearch.AddSuccessorsToQueue.
    apply N.ltb_lt in Hlt. by rewrite Hlt, Hnone.
  - intros s' Hs. split; [by eapply AddSuccessorsToQueue_frame|].
    apply AddSuccessorsToQueue_Ok in Hs as (lst & column & Hlst & Hvalid & Hcol & ->).
    exists column. split; [done|].
    unfold ViterbiSearch.AccumulatedCost. rewrite Hlst. simpl. split.
    + intros l [Hl|(next & Hnext & Hf)]%push_column_sound; [by left|right].
      apply successor_label_Some in Hf as (-> & He & Ht & Hc). by exists next.
    + intros next Hnext He Ht Hc.
      destruct (push_column_adds
                  (fun next => ViterbiSearch.successor_label st (LabelTemplate.costsofar lst) next)
                  column (ViterbiSearch.queue_ s) next
                  (LabelTemplate.mk
                     (CostSofar (LabelTemplate.costsofar lst) (TransitionCost st next)
                        (EmissionCost next)) next (Some st)))
        as (l & Hl & Hid & Hle); [done| |by exists l].
      unfold ViterbiSearch.successor_label. by rewrite He, Ht, Hc.
Qed.

Lemma AddSuccessorsToQueue_contract_witness :
  @ViterbiSearch.AddSuccessorsToQueue Scenario.breakage_costs HeapQueue Scenario.c
    Scenario.breakage = Throw no_successors_possible
  /\ @ViterbiSearch.AddSuccessorsToQueue Scenario.breakage_costs HeapQueue Scenario.a
       Scenario.breakage = Throw state_not_scanned.
Proof.
  destruct (AddSuccessorsToQueue_contract Scenario.breakage_costs HeapQueue HeapQueue_laws
              Scenario.c Scenario.breakage) as (Hlast & _ & _).
  split.
  - apply Hlast. vm_compute. discriminate.
  - vm_compute. reflexivity.
Defined.

(** X9.  [InitQueue] changes nothing but the queue, which it builds anew:
    what was queued before is gone; every label of the new queue is the
    label of a state of the column whose emission cost is valid, with that
    cost and without predecessor; and every state of the column with a
    valid emission cost has a label in the new queue that costs at most its
    emission cost. *)
Theorem InitQueue_contract (cm : CostModel) (Q : SPQueue) (L : SPQueueLaws Q)
    (column : list State) (s : ViterbiSearch.t) :
  ViterbiSearch.InitQueue column s
  = ViterbiSearch.set_queue (ViterbiSearch.queue_ (ViterbiSearch.InitQueue column s)) s
  /\ (forall l,
        l ∈ ViterbiSearch.queue_ (ViterbiSearch.InitQueue column s) ->
        exists st,
          st ∈ column
          /\ l = LabelTemplate.mk (EmissionCost st) st None
          /\ ViterbiSearch.IsInvalidCost (EmissionCost st) = false)
  /\ (forall st,
        st ∈ column -> ViterbiSearch.IsInvalidCost (EmissionCost st) = false ->
        exists l,
          l ∈ ViterbiSearch.queue_ (ViterbiSearch.InitQueue column s)
          /\ LabelTemplate.id l = id st
          /\ cost_leb (LabelTemplate.costsofar l) (EmissionCost st) = true).
Proof.
  split_and!.
  - done.
  - simpl. intros l [Hl|(st & Hst & Hf)]%push_column_sound; [by apply elem_of_nil in Hl|].
    apply emission_label_Some in Hf as [-> He]. by exists st.
  - simpl. intros st Hst He.
    destruct (push_column_adds ViterbiSearch.emission_label column [] st
                (LabelTemplate.mk (EmissionCost st) st None))
      as (l & Hl & Hid & Hle); [done| |by exists l].
    unfold ViterbiSearch.emission_label. by rewrite He.
Qed.

Lemma InitQueue_contract_witness :
  ViterbiSearch.queue_
    (@ViterbiSearch.InitQueue Scenario.gap_costs HeapQueue [Scenario.a; Scenario.b]
       Scenario.breakage)
  = [LabelTemplate.mk (Fin 0) Scenario.a None]
  /\ forall l,
       l ∈ ViterbiSearch.queue_
             (@ViterbiSearch.InitQueue Scenario.gap_costs HeapQueue [Scenario.a; Scenario.b]
                Scenario.breakage) ->
       exists st,
         st ∈ [Scenario.a; Scenario.b]
         /\ l = LabelTemplate.mk (@EmissionCost Scenario.gap_costs st) st None
         /\ ViterbiSearch.IsInvalidCost (@EmissionCost Scenario.gap_costs st) = false.
Proof.
  split; [vm_compute; reflexivity|].
  apply (InitQueue_contract Scenario.gap_costs HeapQueue HeapQueue_laws).
Defined.

(** ** The labels the naive engine keeps *)

Section NaiveStructure.
Import NaiveViterbiSearch.
Context `{CostModel} `{LabelOrder} (Maximize : bool).

Lemma fill_reaches fuel tm target n n' :
  fill Maximize fuel tm target n = Ok n' ->
  length (history_ n) = N.to_nat tm ->
  length (winner_ n) = N.to_nat tm ->
  tm <= target -> target < 4294967295 ->
  length (history_ n') = S (N.to_nat target)
  /\ length (winner_ n') = S (N.to_nat target).
Proof.
  revert tm n. induction fuel as [|fuel IH]; intros tm n Hs Hh Hw Hle Hfit; simpl in Hs.
  - apply N.leb_le in Hle. by rewrite Hle in Hs.
  - rewrite (proj2 (N.leb_le _ _) Hle) in Hs. bind_inv Hs as n1 Hn1.
    destruct (fill_column_filled _ _ _ _ Hn1 Hh Hw) as (_ & Hh1 & Hw1).
    assert (u32 (tm + 1) = tm + 1) as Hu by (unfold u32; apply N.mod_small; lia).
    rewrite Hu in Hs.
    destruct (decide (tm = target)) as [->|Hne].
    + destruct fuel; simpl in Hs.
      * rewrite (proj2 (N.leb_gt _ _)) in Hs by lia. by simplify_eq.
      * rewrite (proj2 (N.leb_gt _ _)) in Hs by lia. by simplify_eq.
    + eapply IH; [done|lia|lia|lia|done].
Qed.

Lemma naive_SearchWinner_kept columns tm n r n' :
  wf_trellis columns -> naive_kept Maximize columns n ->
  SearchWinner Maximize tm n = Ok (r, n') ->
  naive_kept Maximize columns n'
  /\ (N.of_nat (length columns) <= tm \/ tm < N.of_nat (length (winner_ n)) -> n' = n)
  /\ (tm < N.of_nat (length columns) -> N.of_nat (length (winner_ n)) <= tm ->
      length (winner_ n') = S (N.to_nat tm)).
Proof.
  intros (_ & Hfit & _) (Hst & Htab & Hlen & Hfilled) Hs.
  pose proof (naive_SearchWinner_extends _ _ _ _ _ Hs) as Hext.
  unfold SearchWinner in Hs. rewrite Hst in Hs.
  destruct (N.of_nat (length columns) <=? tm) eqn:Hbeyond.
  { injection Hs as _ <-. split; [by split_and!|]. split; [done|].
    apply N.leb_le in Hbeyond. lia. }
  apply N.leb_gt in Hbeyond.
  destruct (tm <? N.of_nat (length (winner_ n))) eqn:Hcached.
  { destruct (winner_ n !! N.to_nat tm); [|done]. injection Hs as _ <-.
    split; [by split_and!|]. split; [done|]. apply N.ltb_lt in Hcached. lia. }
  apply N.ltb_ge in Hcached.
  bind_inv Hs as n1 Hn1.
  assert (n' = n1) as ->.
  { destruct (winner_ n1 !! N.to_nat tm); [|done]. by injection Hs as _ <-. }
  clear Hs.
  rewrite u32_small in Hn1 by lia.
  destruct Hext as (Hpw & Hph & Hst1 & Htab1).
  destruct (fill_reaches _ _ _ _ _ Hn1) as [Hh1 Hw1]; [lia|lia|lia|lia|].
  split; [|split; [lia|done]].
  split_and!; [congruence|congruence|lia|].
  intros k Hk. destruct (decide (k < length (winner_ n))%nat) as [Hold|Hnew].
  - eapply column_filled_extends; [|by apply Hfilled]. by repeat split.
  - replace k with (N.to_nat (N.of_nat k)) by lia.
    eapply fill_filled; [done|lia|lia|lia|lia].
Qed.

Lemma naive_reachable_kept columns n :
  wf_trellis columns -> naive_reachable Maximize columns n -> naive_kept Maximize columns n.
Proof.
  intros Hwf. induction 1 as [|tm n r n' _ IH Hs].
  - split_and!; [done|done|done|]. simpl. intros k Hk. lia.
  - by destruct (naive_SearchWinner_kept columns tm n r n' Hwf IH Hs).
Qed.

(** *** The labels of a column *)

Lemma InitLabels_state column use_emission_cost :
  LabelTemplate.state <$> InitLabels Maximize column use_emission_cost = column.
Proof.
  unfold InitLabels. induction column as [|st column IH]; [done|].
  simpl. by f_equal.
Qed.

Lemma relax_cases (p l : Label) :
  relax Maximize p l = l
  \/ (relax Maximize p l
      = LabelTemplate.mk
          (CostSofar (LabelTemplate.costsofar p)
             (TransitionCost (LabelTemplate.state p) (LabelTemplate.state l))
             (EmissionCost (LabelTemplate.state l)))
          (LabelTemplate.state l) (Some (LabelTemplate.state p))
      /\ CostSofar (LabelTemplate.costsofar p)
           (TransitionCost (LabelTemplate.state p) (LabelTemplate.state l))
           (EmissionCost (LabelTemplate.state l)) <> kInvalidCost Maximize).
Proof.
  unfold relax.
  destruct (cost_eqb _ (EmissionCost _)); [by left|].
  destruct (cost_eqb _ (TransitionCost _ _)); [by left|].
  destruct (cost_eqb _ (CostSofar _ _ _)) eqn:Hc; [by left|].
  assert (CostSofar (LabelTemplate.costsofar p)
            (TransitionCost (LabelTemplate.state p) (LabelTemplate.state l))
            (EmissionCost (LabelTemplate.state l)) <> kInvalidCost Maximize) as Hne.
  { intros Heq. rewrite Heq in Hc.
    assert (cost_eqb (kInvalidCost Maximize) (kInvalidCost Maximize) = true) as Ht
      by by apply cost_eqb_eq.
    congruence. }
  destruct Maximize; unfold std_max, std_min; case_match; auto.
Qed.

Lemma relax_state (p l : Label) :
  LabelTemplate.state (relax Maximize p l) = LabelTemplate.state l.
Proof. by destruct (relax_cases p l) as [->|[-> _]]. Qed.

Lemma UpdateLabels_state labels prev_labels :
  LabelTemplate.state <$> UpdateLabels Maximize labels prev_labels
  = LabelTemplate.state <$> labels.
Proof.
  unfold UpdateLabels. revert labels.
  induction prev_labels as [|p prev_labels IH]; intros labels; [done|].
  simpl. rewrite IH. case_match; [done|].
  rewrite <- list_fmap_compose. apply list_fmap_ext. intros _ l _. apply relax_state.
Qed.

Lemma column_labels_state column prev :
  LabelTemplate.state <$> column_labels Maximize column prev = column.
Proof.
  unfold column_labels. destruct prev as [prev_labels|]; [|apply InitLabels_state].
  case_match; [|apply InitLabels_state].
  rewrite UpdateLabels_state. apply InitLabels_state.
Qed.

Lemma InitLabels_linked column use_emission_cost prev l :
  l ∈ InitLabels Maximize column use_emission_cost -> naive_linked Maximize prev l.
Proof.
  unfold InitLabels. intros (st & -> & _)%list_elem_of_fmap.
  unfold naive_linked. simpl. destruct use_emission_cost; auto.
Qed.

Lemma UpdateLabels_linked all_prev labels prev_labels l :
  (forall p, p ∈ prev_labels -> p ∈ all_prev) ->
  (forall l, l ∈ labels -> naive_linked Maximize (Some all_prev) l) ->
  l ∈ UpdateLabels Maximize labels prev_labels ->
  naive_linked Maximize (Some all_prev) l.
Proof.
  unfold UpdateLabels. revert labels.
  induction prev_labels as [|p prev_labels IH]; intros labels Hsub Hall Hl; [by apply Hall|].
  simpl in Hl. eapply IH; [|clear Hl|exact Hl].
  { intros p' Hp'. apply Hsub, elem_of_cons. by right. }
  intros l'. destruct (cost_eqb _ (LabelTemplate.costsofar p)) eqn:Hp; [by apply Hall|].
  intros (l0 & -> & Hl0)%list_elem_of_fmap.
  destruct (relax_cases p l0) as [->|[-> Hne]]; [by apply Hall|].
  unfold naive_linked. simpl. exists all_prev, p.
  split_and!; [done|apply Hsub, elem_of_cons; by left|done| |done|done].
  intros Heq. rewrite Heq in Hp.
  assert (cost_eqb (kInvalidCost Maximize) (kInvalidCost Maximize) = true) as Ht
    by by apply cost_eqb_eq.
  congruence.
Qed.

Lemma column_labels_linked column prev l :
  l ∈ column_labels Maximize column prev -> naive_linked Maximize prev l.
Proof.
  unfold column_labels. destruct prev as [prev_labels|]; [|apply InitLabels_linked].
  case_match; [|apply InitLabels_linked].
  apply UpdateLabels_linked; [done|]. intros l'. apply InitLabels_linked.
Qed.

(** *** Finding the label of a state *)

Lemma wf_column_id_inj columns k column x y :
  wf_trellis columns -> columns !! k = Some column ->
  x ∈ column -> y ∈ column -> id x = id y -> x = y.
Proof.
  intros Hwf Hcol Hx Hy Hid.
  destruct (wf_column_states _ _ _ _ Hwf Hcol Hx) as [Hxt _].
  destruct (wf_column_states _ _ _ _ Hwf Hcol Hy) as [Hyt _].
  rewrite Hid in Hxt. congruence.
Qed.

Lemma wf_column_NoDup columns k column :
  wf_trellis columns -> columns !! k = Some column -> NoDup column.
Proof.
  intros (_ & _ & Hid & _) Hcol.
  assert (NoDup (concat columns)) as Hnd.
  { apply NoDup_alt. intros i j st Hi Hj. apply Hid in Hi, Hj. lia. }
  assert (column `sublist_of` concat columns) as Hsub; [|by eapply sublist_NoDup].
  apply list_elem_of_lookup_2 in Hcol.
  apply list_elem_of_split in Hcol as (l1 & l2 & ->).
  rewrite concat_app. simpl. apply sublist_inserts_l. by apply sublist_inserts_r.
Qed.

Lemma labels_state_inj (column : list State) (labels : list Label) l1 l2 :
  NoDup column -> LabelTemplate.state <$> labels = column ->
  l1 ∈ labels -> l2 ∈ labels -> LabelTemplate.state l1 = LabelTemplate.state l2 -> l1 = l2.
Proof.
  intros Hnd Hst [i1 H1]%list_elem_of_lookup [i2 H2]%list_elem_of_lookup Heq.
  assert (column !! i1 = Some (LabelTemplate.state l1)) as Hc1.
  { rewrite <- Hst, list_lookup_fmap, H1. done. }
  assert (column !! i2 = Some (LabelTemplate.state l2)) as Hc2.
  { rewrite <- Hst, list_lookup_fmap, H2. done. }
  rewrite <- Heq in Hc2.
  assert (i1 = i2) as -> by by eapply NoDup_lookup.
  congruence.
Qed.

(** In a filled column, [label] finds the label of every state of the
    column. *)
Lemma naive_label_found columns n k column st :
  wf_trellis columns -> naive_kept Maximize columns n ->
  (k < length (winner_ n))%nat ->
  columns !! k = Some column -> st ∈ column ->
  exists labels l,
    history_ n !! k = Some labels
    /\ labels = column_labels Maximize column
                  (match k with O => None | S k' => history_ n !! k' end)
    /\ l ∈ labels
    /\ LabelTemplate.state l = st
    /\ state (id st) n = Ok st
    /\ label st n = Ok l.
Proof.
  intros Hwf (Hst & Htab & Hlen & Hfilled) Hk Hcol Hin.
  destruct (Hfilled k Hk) as (column' & Hcol' & _ & Hlab & _).
  rewrite Hst, Hcol in Hcol'. injection Hcol' as <-. simpl in Hlab.
  destruct (wf_column_states _ _ _ _ Hwf Hcol Hin) as [Hsttab Hsttm].
  pose proof (column_labels_state column
                (match k with O => None | S k' => history_ n !! k' end)) as Hstates.
  pose proof Hin as Hin'. rewrite <- Hstates in Hin'.
  apply list_elem_of_fmap in Hin' as (l0 & Hst0 & Hl0).
  destruct (list_find_elem_of (fun l => id (LabelTemplate.state l) = id st) _ l0 Hl0)
    as [[i l] Hfind]; [by rewrite <- Hst0|].
  pose proof Hfind as Hfind'.
  apply list_find_Some in Hfind' as (Hi & Hid & _).
  apply list_elem_of_lookup_2 in Hi.
  assert (LabelTemplate.state l = st) as Hlst.
  { eapply wf_column_id_inj; [done|done| |done|done].
    rewrite <- Hstates. apply list_elem_of_fmap. by exists l. }
  eexists _, l. split; [exact Hlab|]. split; [done|]. split; [done|]. split; [done|].
  unfold state, label. rewrite Htab, Hsttab, Hsttm, Nat2N.id, Hlab.
  split; [done|]. by rewrite Hfind.
Qed.

End NaiveStructure.

Section NaiveQueries.
Import NaiveViterbiSearch.
Context `{CostModel} `{LabelOrder} (Maximize : bool).

Lemma wf_id_valid columns k column st :
  wf_trellis columns -> columns !! k = Some column -> st ∈ column ->
  (id st =? kInvalidStateId) = false.
Proof.
  intros Hwf Hcol Hin. destruct (wf_column_states _ _ _ _ Hwf Hcol Hin) as [Htab _].
  destruct Hwf as (Hids & _). apply lookup_lt_Some in Htab.
  apply N.eqb_neq. unfold kInvalidStateId. lia.
Qed.

(** The queries for a state of a filled column, in terms of its label. *)
Lemma naive_filled_queries columns n k column st :
  wf_trellis columns -> naive_kept Maximize columns n ->
  (k < length (winner_ n))%nat ->
  columns !! k = Some column -> st ∈ column ->
  exists labels l,
    history_ n !! k = Some labels
    /\ LabelTemplate.state <$> labels = column
    /\ l ∈ labels
    /\ LabelTemplate.state l = st
    /\ naive_linked Maximize (match k with O => None | S k' => history_ n !! k' end) l
    /\ state (id st) n = Ok st
    /\ label st n = Ok l
    /\ AccumulatedCost Maximize (id st) n = Ok (LabelTemplate.costsofar l)
    /\ predecessor (id st) n = Ok (id_or_invalid (LabelTemplate.predecessor l)).
Proof.
  intros Hwf Hkept Hk Hcol Hin.
  destruct (naive_label_found Maximize columns n k column st Hwf Hkept Hk Hcol Hin)
    as (labels & l & Hlab & Hlabels & Hl & Hst & Hstate & Hlabel).
  exists labels, l. split; [done|].
  split; [rewrite Hlabels; apply column_labels_state|].
  split; [done|]. split; [done|].
  split; [apply column_labels_linked with (column := column); by rewrite <- Hlabels|].
  split; [done|]. split; [done|].
  unfold AccumulatedCost, predecessor.
  rewrite (wf_id_valid columns k column st Hwf Hcol Hin). simpl.
  rewrite Hstate. simpl. rewrite Hlabel. done.
Qed.

Lemma naive_kept_bounded columns n :
  naive_kept Maximize columns n -> (length (winner_ n) <= length columns)%nat.
Proof.
  intros (Hst & _ & _ & Hfilled).
  destruct (length (winner_ n)) as [|m] eqn:Hm; [lia|].
  destruct (Hfilled m) as (column & Hcol & _); [lia|].
  rewrite Hst in Hcol. apply lookup_lt_Some in Hcol. lia.
Qed.

Lemma naive_kept_column columns n k :
  naive_kept Maximize columns n -> (k < length (winner_ n))%nat ->
  exists column, columns !! k = Some column.
Proof.
  intros Hkept Hk. pose proof (naive_kept_bounded columns n Hkept).
  apply lookup_lt_is_Some_2. lia.
Qed.

(** The winner cached for a filled column is a state of the column. *)
Lemma naive_winner_in_column columns n k column w :
  naive_kept Maximize columns n ->
  columns !! k = Some column ->
  winner_ n !! k = Some (Some w) ->
  w ∈ column.
Proof.
  intros (Hst & _ & _ & Hfilled) Hcol Hw.
  destruct (Hfilled k) as (column' & Hcol' & _ & _ & Hwin); [by eapply lookup_lt_Some|].
  rewrite Hst, Hcol in Hcol'. injection Hcol' as <-. simpl in Hwin.
  rewrite Hw in Hwin. injection Hwin as Hwin.
  pose proof (FindWinner_winner_of Maximize
                (column_labels Maximize column
                   (match k with O => None | S k' => history_ n !! k' end))) as Hof.
  rewrite <- Hwin in Hof. destruct Hof as (l & (Hl & _) & <-).
  rewrite <- (column_labels_state Maximize column
                (match k with O => None | S k' => history_ n !! k' end)).
  apply list_elem_of_fmap. by exists l.
Qed.

(** The predecessor of a state of a filled column is a state of the
    column before. *)
Lemma naive_predecessor_column columns n k column st l p :
  wf_trellis columns -> naive_kept Maximize columns n ->
  (k < length (winner_ n))%nat ->
  columns !! k = Some column -> st ∈ column ->
  label st n = Ok l ->
  LabelTemplate.predecessor l = Some p ->
  exists k' prev_column lp,
    k = S k'
    /\ columns !! k' = Some prev_column
    /\ p ∈ prev_column
    /\ label p n = Ok lp
    /\ LabelTemplate.state lp = p
    /\ LabelTemplate.costsofar lp <> kInvalidCost Maximize
    /\ LabelTemplate.costsofar l <> kInvalidCost Maximize
    /\ LabelTemplate.costsofar l
       = CostSofar (LabelTemplate.costsofar lp) (TransitionCost p st) (EmissionCost st).
Proof.
  intros Hwf Hkept Hk Hcol Hin Hlabel Hp.
  destruct (naive_filled_queries columns n k column st Hwf Hkept Hk Hcol Hin)
    as (labels & l' & Hlab & Hstates & Hl & Hst & Hlinked & _ & Hlabel' & _).
  rewrite Hlabel in Hlabel'. injection Hlabel' as <-.
  unfold naive_linked in Hlinked. rewrite Hp in Hlinked.
  destruct Hlinked as (prev_labels & lp & Hprev & Hlp & Hlpst & Hlpc & Hlc & Hcost).
  destruct k as [|k']; [done|].
  destruct (naive_kept_column columns n k' Hkept) as [prev_column Hpcol]; [lia|].
  assert (p ∈ prev_column) as Hpin.
  { destruct Hkept as (Hsts & _ & _ & Hfilled).
    destruct (Hfilled k') as (pc & Hpc & _ & Hplab & _); [lia|].
    rewrite Hsts, Hpcol in Hpc. injection Hpc as <-. simpl in Hplab.
    rewrite Hprev in Hplab. injection Hplab as Hplab.
    rewrite <- (column_labels_state Maximize prev_column
                  (match k' with O => None | S k'' => history_ n !! k'' end)).
    rewrite <- Hplab. apply list_elem_of_fmap. by exists lp. }
  destruct (naive_filled_queries columns n k' prev_column p Hwf Hkept ltac:(lia) Hpcol Hpin)
    as (labels' & lp' & Hlab' & Hstates' & Hlp' & Hlpst' & _ & _ & Hplabel & _).
  rewrite Hprev in Hlab'. injection Hlab' as <-.
  assert (lp' = lp) as ->.
  { eapply labels_state_inj; [by eapply wf_column_NoDup|done|done|done|congruence]. }
  exists k', prev_column, lp. rewrite Hst in Hcost. by split_and!.
Qed.

End NaiveQueries.


(** ** The queries of the naive engine *)

(** X10.  The assertion of the naive [SearchWinner],
    [labels.size() == column.size()], cannot fail: [InitLabels] makes one
    label per state of the column, in the order of the column, and
    [UpdateLabels] keeps the states of the labels and their number,
    whatever the labels of the previous column are. *)
Theorem naive_labels_match_column (cm : CostModel) (lo : LabelOrder) (Maximize : bool)
    (column : list State) (use_emission_cost : bool) (prev_labels : list Label) :
  LabelTemplate.state <$> NaiveViterbiSearch.InitLabels Maximize column use_emission_cost
  = column
  /\ LabelTemplate.state
       <$> NaiveViterbiSearch.UpdateLabels Maximize
             (NaiveViterbiSearch.InitLabels Maximize column false) prev_labels
     = column
  /\ length (NaiveViterbiSearch.UpdateLabels Maximize
               (NaiveViterbiSearch.InitLabels Maximize column false) prev_labels)
     = length column.
Proof.
  assert (LabelTemplate.state
            <$> NaiveViterbiSearch.UpdateLabels Maximize
                  (NaiveViterbiSearch.InitLabels Maximize column false) prev_labels
          = column) as Hst.
  { rewrite UpdateLabels_state. apply InitLabels_state. }
  split; [apply InitLabels_state|]. split; [done|].
  rewrite <- Hst at 2. by rewrite length_fmap.
Qed.

(** X11.  In a naive engine of either polarity reached from a well-formed
    trellis, the queries for a state of a filled column succeed: the
    history holds one label per state of the column, in the order of the
    column; [label] finds the label of the state ([label_not_found] is
    not raised); [state] returns the state; [AccumulatedCost]
    returns the cost of the label and [predecessor] the id of its
    predecessor, the absent id when it has none. *)
Theorem naive_label_lookup_succeeds (cm : CostModel) (lo : LabelOrder) (Maximize : bool)
    (columns : list (list State)) (n : NaiveViterbiSearch.t)
    (k : nat) (column : list State) (st : State) :
  wf_trellis columns ->
  naive_reachable Maximize columns n ->
  (k < length (NaiveViterbiSearch.winner_ n))%nat ->
  columns !! k = Some column ->
  st ∈ column ->
  exists labels l,
    NaiveViterbiSearch.history_ n !! k = Some labels
    /\ LabelTemplate.state <$> labels = column
    /\ l ∈ labels
    /\ LabelTemplate.state l = st
    /\ NaiveViterbiSearch.state (id st) n = Ok st
    /\ NaiveViterbiSearch.label st n = Ok l
    /\ NaiveViterbiSearch.AccumulatedCost Maximize (id st) n = Ok (LabelTemplate.costsofar l)
    /\ NaiveViterbiSearch.predecessor (id st) n
       = Ok (id_or_invalid (LabelTemplate.predecessor l)).
Proof.
  intros Hwf Hreach Hk Hcol Hin.
  pose proof (naive_reachable_kept Maximize columns n Hwf Hreach) as Hkept.
  destruct (naive_filled_queries Maximize columns n k column st Hwf Hkept Hk Hcol Hin)
    as (labels & l & ? & ? & ? & ? & _ & ? & ? & ? & ?).
  by exists labels, l.
Qed.

Lemma naive_label_lookup_succeeds_witness :
  exists n : NaiveViterbiSearch.t,
    @NaiveViterbiSearch.SearchWinner naive_gap_costs Scenario.no_tie_break false 2
      (NaiveViterbiSearch.create [[Scenario.a]; [Scenario.b]; [Scenario.c]]) = Ok (2, n)
    /\ @NaiveViterbiSearch.AccumulatedCost false (id Scenario.b) n = Ok PosInf
    /\ exists labels l,
         NaiveViterbiSearch.history_ n !! 1%nat = Some labels
         /\ LabelTemplate.state <$> labels = [Scenario.b]
         /\ l ∈ labels
         /\ LabelTemplate.state l = Scenario.b
         /\ NaiveViterbiSearch.state (id Scenario.b) n = Ok Scenario.b
         /\ NaiveViterbiSearch.label Scenario.b n = Ok l
         /\ @NaiveViterbiSearch.AccumulatedCost false (id Scenario.b) n
            = Ok (LabelTemplate.costsofar l)
         /\ NaiveViterbiSearch.predecessor (id Scenario.b) n
            = Ok (id_or_invalid (LabelTemplate.predecessor l)).
Proof.
  eexists. split; [vm_compute; reflexivity|]. split; [vm_compute; reflexivity|].
  apply (naive_label_lookup_succeeds naive_gap_costs Scenario.no_tie_break false
           [[Scenario.a]; [Scenario.b]; [Scenario.c]]).
  - apply breakage_columns_wf.
  - eapply (naive_reachable_search _ _ 2); [apply naive_reachable_create|vm_compute; reflexivity].
  - vm_compute. lia.
  - reflexivity.
  - apply list_elem_of_singleton. reflexivity.
Defined.

(** ** The path iterator over the naive engine *)

Section NaiveWalk.
Import NaiveViterbiSearch.
Context `{CostModel} `{LabelOrder} (Maximize : bool).


Lemma naive_walkable columns n t :
  wf_trellis columns -> naive_kept Maximize columns n ->
  t < N.of_nat (length (winner_ n)) ->
  @walkable _ (naive_ops Maximize) n t (naive_cached_winner n).
Proof.
  intros Hwf Hkept Ht.
  pose proof Hwf as (Hids & Hfit & Hidx & _).
  pose proof (naive_kept_bounded Maximize columns n Hkept) as Hb.
  pose proof Hkept as (Hst & Htab & _).
  assert (forall k column st, columns !! k = Some column -> st ∈ column ->
                              @good_position _ (naive_ops Maximize) n (id st) (N.of_nat k))
    as Hgood.
  { intros k column st Hcol Hin. right. exists st.
    destruct (wf_column_states _ _ _ _ Hwf Hcol Hin) as [Hsttab Hsttm].
    split; [|done]. simpl. unfold state. by rewrite Htab, Hsttab. }
  split_and!.
  - unfold kInvalidTime. lia.
  - intros k Hk.
    destruct (naive_SearchWinner_cached Maximize k n) as (w & Hw & Hs);
      [rewrite Hst; lia|lia|].
    unfold naive_cached_winner. rewrite Hw. simpl. split; [done|].
    destruct w as [st|]; [|by left]. simpl.
    destruct (naive_kept_column Maximize columns n (N.to_nat k) Hkept) as [column Hcol]; [lia|].
    pose proof (Hgood (N.to_nat k) column st Hcol
                  (naive_winner_in_column Maximize columns n _ column st Hkept Hcol Hw)) as Hg.
    by rewrite N2Nat.id in Hg.
  - intros i k Hi Hpos Hk.
    destruct Hi as [->|(st & Hstate & Htm)]; [exists kInvalidStateId; split; [done|by left]|].
    simpl in Hstate. unfold state in Hstate. rewrite Htab in Hstate.
    destruct (concat columns !! N.to_nat i) as [st'|] eqn:Hi; [|done].
    injection Hstate as ->.
    assert (id st = i) as Hid by (rewrite (Hidx _ _ Hi); lia).
    rewrite <- Hid in Hi.
    destruct (wf_table_column columns st Hwf Hi) as (column & Hcol & Hin).
    destruct (naive_filled_queries Maximize columns n (N.to_nat (time st)) column st)
      as (labels & l & _ & _ & _ & _ & _ & _ & Hlabel & _ & Hpred); [done|done|lia|done|done|].
    rewrite <- Hid. exists (id_or_invalid (LabelTemplate.predecessor l)). split; [done|].
    destruct (LabelTemplate.predecessor l) as [p|] eqn:Hp; [|by left]. simpl.
    destruct (naive_predecessor_column Maximize columns n (N.to_nat (time st)) column st l p)
      as (k' & prev_column & lp & Hk' & Hpcol & Hpin & _); [done|done|lia|done|done|done|done|].
    pose proof (Hgood k' prev_column p Hpcol Hpin) as Hg.
    replace (N.of_nat k') with (k - 1) in Hg by lia. exact Hg.
Qed.

End NaiveWalk.

(** X12.  The labels of the naive engine, of either polarity, record how
    their costs were built.  For a state of a filled column, either
    [predecessor] is absent and [AccumulatedCost] is the emission cost of
    the state or the invalid cost; or [predecessor] is the id of a state
    [p] of the column before, the accumulated cost of [p] is valid, and the
    accumulated cost of the state is [CostSofar] of the accumulated cost of
    [p], the transition cost from [p] and the emission cost of the state,
    a valid cost. *)
Theorem naive_cost_follows_predecessor (cm : CostModel) (lo : LabelOrder) (Maximize : bool)
    (columns : list (list State)) (n : NaiveViterbiSearch.t)
    (k : nat) (column : list State) (st : State) :
  wf_trellis columns ->
  naive_reachable Maximize columns n ->
  (k < length (NaiveViterbiSearch.winner_ n))%nat ->
  columns !! k = Some column ->
  st ∈ column ->
  (NaiveViterbiSearch.predecessor (id st) n = Ok kInvalidStateId
   /\ (NaiveViterbiSearch.AccumulatedCost Maximize (id st) n = Ok (EmissionCost st)
       \/ NaiveViterbiSearch.AccumulatedCost Maximize (id st) n
          = Ok (NaiveViterbiSearch.kInvalidCost Maximize)))
  \/ exists k' prev_column p c,
       k = S k'
       /\ columns !! k' = Some prev_column
       /\ p ∈ prev_column
       /\ NaiveViterbiSearch.predecessor (id st) n = Ok (id p)
       /\ id p <> kInvalidStateId
       /\ NaiveViterbiSearch.AccumulatedCost Maximize (id p) n = Ok c
       /\ c <> NaiveViterbiSearch.kInvalidCost Maximize
       /\ NaiveViterbiSearch.AccumulatedCost Maximize (id st) n
          = Ok (CostSofar c (TransitionCost p st) (EmissionCost st))
       /\ CostSofar c (TransitionCost p st) (EmissionCost st)
          <> NaiveViterbiSearch.kInvalidCost Maximize.
Proof.
  intros Hwf Hreach Hk Hcol Hin.
  pose proof (naive_reachable_kept Maximize columns n Hwf Hreach) as Hkept.
  destruct (naive_filled_queries Maximize columns n k column st Hwf Hkept Hk Hcol Hin)
    as (labels & l & _ & _ & _ & Hst & Hlinked & _ & Hlabel & Hcost & Hpred).
  rewrite Hcost, Hpred.
  destruct (LabelTemplate.predecessor l) as [p|] eqn:Hp.
  - right.
    destruct (naive_predecessor_column Maximize columns n k column st l p)
      as (k' & prev_column & lp & -> & Hpcol & Hpin & Hplabel & Hpst & Hpc & Hlc & Hc);
      [done..|].
    destruct (naive_filled_queries Maximize columns n k' prev_column p Hwf Hkept)
      as (_ & lp' & _ & _ & _ & _ & _ & _ & Hplabel' & Hpcost & _); [lia|done|done|].
    rewrite Hplabel in Hplabel'. injection Hplabel' as <-.
    exists k', prev_column, p, (LabelTemplate.costsofar lp). simpl.
    split_and!; [done|done|done|done| |done|done|by rewrite Hc|by rewrite <- Hc].
    apply N.eqb_neq. by eapply wf_id_valid.
  - left. split; [done|]. unfold naive_linked in Hlinked. rewrite Hp, Hst in Hlinked.
    destruct Hlinked as [->| ->]; auto.
Qed.

Lemma naive_cost_follows_predecessor_witness :
  exists n : NaiveViterbiSearch.t,
    @NaiveViterbiSearch.SearchWinner Scenario.duplicate_costs Scenario.no_tie_break false 2
      (NaiveViterbiSearch.create Scenario.duplicate_columns) = Ok (4, n)
    /\ NaiveViterbiSearch.predecessor 4 n = Ok 2
    /\ @NaiveViterbiSearch.AccumulatedCost false 4 n = Ok (Fin 7)
    /\ @NaiveViterbiSearch.AccumulatedCost false 2 n = Ok (Fin 2)
    /\ ((NaiveViterbiSearch.predecessor (id Scenario.dup_u) n = Ok kInvalidStateId
         /\ (@NaiveViterbiSearch.AccumulatedCost false (id Scenario.dup_u) n
             = Ok (@EmissionCost Scenario.duplicate_costs Scenario.dup_u)
             \/ @NaiveViterbiSearch.AccumulatedCost false (id Scenario.dup_u) n
                = Ok (NaiveViterbiSearch.kInvalidCost false)))
        \/ exists k' prev_column p c,
             2%nat = S k'
             /\ Scenario.duplicate_columns !! k' = Some prev_column
             /\ p ∈ prev_column
             /\ NaiveViterbiSearch.predecessor (id Scenario.dup_u) n = Ok (id p)
             /\ id p <> kInvalidStateId
             /\ @NaiveViterbiSearch.AccumulatedCost false (id p) n = Ok c
             /\ c <> NaiveViterbiSearch.kInvalidCost false
             /\ @NaiveViterbiSearch.AccumulatedCost false (id Scenario.dup_u) n
                = Ok (@CostSofar Scenario.duplicate_costs c
                        (@TransitionCost Scenario.duplicate_costs p Scenario.dup_u)
                        (@EmissionCost Scenario.duplicate_costs Scenario.dup_u))
             /\ @CostSofar Scenario.duplicate_costs c
                  (@TransitionCost Scenario.duplicate_costs p Scenario.dup_u)
                  (@EmissionCost Scenario.duplicate_costs Scenario.dup_u)
                <> NaiveViterbiSearch.kInvalidCost false).
Proof.
  eexists. split; [vm_compute; reflexivity|].
  split; [vm_compute; reflexivity|]. split; [vm_compute; reflexivity|].
  split; [vm_compute; reflexivity|].
  apply (naive_cost_follows_predecessor Scenario.duplicate_costs Scenario.no_tie_break false
           Scenario.duplicate_columns _ 2 [Scenario.dup_u]).
  - apply duplicate_columns_wf.
  - eapply (naive_reachable_search _ _ 2); [apply naive_reachable_create|vm_compute; reflexivity].
  - vm_compute. lia.
  - reflexivity.
  - apply list_elem_of_singleton. reflexivity.
Defined.

(** X13.  The path iterator over the naive engine, of either polarity.
    For an engine reached from a well-formed trellis and a time [t] whose
    winner is cached, the path from [t] raises nothing (the assertion of
    [goback] holds at every step), leaves the engine unchanged and has one
    position for every time from [t] down to 0, the first at the cached
    winner of [t]; a position whose id is not absent points at a state of
    the column of the position's time; and the next position holds the
    predecessor of the position's id, or the cached winner of the time
    before when there is no predecessor. *)
Theorem naive_path_iterator (cm : CostModel) (lo : LabelOrder) (Maximize : bool)
    (columns : list (list State)) (n : NaiveViterbiSearch.t) (t : Time) :
  wf_trellis columns ->
  naive_reachable Maximize columns n ->
  t < N.of_nat (length (NaiveViterbiSearch.winner_ n)) ->
  exists path,
    @StateIterator.path _ (naive_ops Maximize) t n = Ok (path, n)
    /\ length path = S (N.to_nat t)
    /\ path !! 0%nat = Some (StateIterator.mk (naive_cached_winner n t) t)
    /\ forall m it,
         path !! m = Some it ->
         StateIterator.time_ it = t - N.of_nat m
         /\ (StateIterator.id_ it <> kInvalidStateId ->
             exists st column,
               NaiveViterbiSearch.state (StateIterator.id_ it) n = Ok st
               /\ time st = StateIterator.time_ it
               /\ columns !! N.to_nat (StateIterator.time_ it) = Some column
               /\ st ∈ column)
         /\ forall it' j,
              path !! S m = Some it' ->
              NaiveViterbiSearch.predecessor (StateIterator.id_ it) n = Ok j ->
              StateIterator.id_ it'
              = if j =? kInvalidStateId
                then naive_cached_winner n (StateIterator.time_ it - 1)
                else j.
Proof.
  intros Hwf Hreach Ht.
  pose proof (naive_reachable_kept Maximize columns n Hwf Hreach) as Hkept.
  pose proof (naive_walkable Maximize columns n t Hwf Hkept Ht) as Hwalk.
  destruct (@path_walkable _ (naive_ops Maximize) n t (naive_cached_winner n) Hwalk)
    as [Hpath Hgood].
  eexists. split; [exact Hpath|]. split; [apply walk_length|].
  split; [by destruct (N.to_nat t)|].
  intros m it Hit.
  destruct (@walk_lookup _ (naive_ops Maximize) _ _ _ _ _ _ _ Hit) as (Htm & _ & Hnext).
  split; [done|]. split.
  - intros Hvalid. rewrite Forall_lookup in Hgood.
    destruct (Hgood _ _ Hit) as [?|(st & Hst & Hstm)]; [done|].
    simpl in Hst. exists st.
    pose proof Hkept as (_ & Htab & _). pose proof Hwf as (_ & _ & Hidx & _).
    unfold NaiveViterbiSearch.state in Hst. rewrite Htab in Hst.
    destruct (concat columns !! N.to_nat (StateIterator.id_ it)) as [st'|] eqn:Hi; [|done].
    injection Hst as ->.
    assert (id st = StateIterator.id_ it) as Hid by (rewrite (Hidx _ _ Hi); lia).
    rewrite <- Hid in Hi.
    destruct (wf_table_column columns st Hwf Hi) as (column & Hcol & Hin).
    exists column. unfold NaiveViterbiSearch.state. rewrite Htab, <- Hid, Hi, <- Hstm.
    done.
  - intros it' j Hit' Hj. rewrite (Hnext it' Hit').
    unfold previous_id. simpl. by rewrite Hj.
Qed.

Lemma naive_path_iterator_witness :
  exists n : NaiveViterbiSearch.t,
    @NaiveViterbiSearch.SearchWinner naive_gap_costs Scenario.no_tie_break false 2
      (NaiveViterbiSearch.create [[Scenario.a]; [Scenario.b]; [Scenario.c]]) = Ok (2, n)
    /\ @StateIterator.path _ (@naive_ops naive_gap_costs Scenario.no_tie_break false) 2 n
       = Ok ([StateIterator.mk 2 2; StateIterator.mk kInvalidStateId 1; StateIterator.mk 0 0], n)
    /\ exists path,
         @StateIterator.path _ (@naive_ops naive_gap_costs Scenario.no_tie_break false) 2 n
         = Ok (path, n)
         /\ length path = 3%nat.
Proof.
  eexists. split; [vm_compute; reflexivity|]. split; [vm_compute; reflexivity|].
  edestruct (naive_path_iterator naive_gap_costs Scenario.no_tie_break false
               [[Scenario.a]; [Scenario.b]; [Scenario.c]])
    as (path & Hpath & Hlen & _); [| | |exists path; split; [exact Hpath|exact Hlen]].
  - apply breakage_columns_wf.
  - eapply (naive_reachable_search _ _ 2); [apply naive_reachable_create|vm_compute; reflexivity].
  - vm_compute. reflexivity.
Defined.

(** X14.  A query of the naive engine, of either polarity, fills the
    columns up to the queried time and no further.  The history and the
    winner cache keep the same length, which does not exceed the number of
    columns; a query past the last column or for a cached time leaves the
    engine as it is; and after a query for a time [tm] within the trellis
    that was not cached, the winner cache ends exactly at [tm]. *)
Theorem naive_search_stops_at_query (cm : CostModel) (lo : LabelOrder) (Maximize : bool)
    (columns : list (list State)) (n n' : NaiveViterbiSearch.t) (tm : Time) (r : StateId) :
  wf_trellis columns ->
  naive_reachable Maximize columns n ->
  NaiveViterbiSearch.SearchWinner Maximize tm n = Ok (r, n') ->
  length (NaiveViterbiSearch.history_ n') = length (NaiveViterbiSearch.winner_ n')
  /\ (length (NaiveViterbiSearch.winner_ n') <= length columns)%nat
  /\ (N.of_nat (length columns) <= tm \/ tm < N.of_nat (length (NaiveViterbiSearch.winner_ n)) ->
      n' = n)
  /\ (tm < N.of_nat (length columns) ->
      N.of_nat (length (NaiveViterbiSearch.winner_ n)) <= tm ->
      N.of_nat (length (NaiveViterbiSearch.winner_ n')) = tm + 1).
Proof.
  intros Hwf Hreach Hs.
  pose proof (naive_reachable_kept Maximize columns n Hwf Hreach) as Hkept.
  destruct (naive_SearchWinner_kept Maximize columns tm n r n' Hwf Hkept Hs)
    as (Hkept' & Hsame & Hnew).
  pose proof (naive_kept_bounded Maximize columns n' Hkept') as Hb.
  destruct Hkept' as (_ & _ & Hlen & _).
  split_and!; [done|done|done|].
  intros Hlt Hge. rewrite (Hnew Hlt Hge). lia.
Qed.

Lemma naive_search_stops_at_query_witness :
  exists n : NaiveViterbiSearch.t,
    @NaiveViterbiSearch.SearchWinner naive_gap_costs Scenario.no_tie_break false 1
      (NaiveViterbiSearch.create [[Scenario.a]; [Scenario.b]; [Scenario.c]])
    = Ok (kInvalidStateId, n)
    /\ length (NaiveViterbiSearch.history_ n) = length (NaiveViterbiSearch.winner_ n)
    /\ NaiveViterbiSearch.winner_ n = [Some Scenario.a; None].
Proof.
  eexists. split; [vm_compute; reflexivity|]. split; [|vm_compute; reflexivity].
  eapply (naive_search_stops_at_query naive_gap_costs Scenario.no_tie_break false
            [[Scenario.a]; [Scenario.b]; [Scenario.c]] _ _ 1).
  - apply breakage_columns_wf.
  - apply naive_reachable_create.
  - vm_compute. reflexivity.
Defined.

(** ** The naive engine finds the least costs *)

Lemma naive_kept_inv `{CostModel} `{LabelOrder} columns n :
  naive_kept false columns n -> naive_inv columns n.
Proof. done. Qed.

(** X15.  With minimization, under the precondition on the cost model
    and for costs that both engines read the same way, [AccumulatedCost] of
    the naive engine for a state of a filled column is the least cost of a
    path to the state from the column [src] where the search that covers
    the column started, and it is the invalid cost when there is no such
    path. *)
Theorem naive_cost_is_least (cm : CostModel) (lo : LabelOrder)
    (columns : list (list State)) (n : NaiveViterbiSearch.t)
    (k : nat) (column : list State) (st : State) :
  dijkstra_costs cm ->
  accepted_by_both cm ->
  wf_trellis columns ->
  naive_reachable false columns n ->
  (k < length (NaiveViterbiSearch.winner_ n))%nat ->
  columns !! k = Some column ->
  st ∈ column ->
  exists src c,
    seg (concat columns) (N.of_nat k) src
    /\ NaiveViterbiSearch.AccumulatedCost false (id st) n = Ok c
    /\ ((c = PosInf /\ forall c', ~ path_to (concat columns) src st c')
        \/ is_min_cost (concat columns) src st c).
Proof.
  intros Hcosts Haccepted Hwf Hreach Hk Hcol Hin.
  pose proof (naive_reachable_kept false columns n Hwf Hreach) as Hkept.
  destruct (naive_filled_queries false columns n k column st Hwf Hkept Hk Hcol Hin)
    as (labels & l & Hlab & _ & Hl & Hst & _ & _ & _ & Hcost & _).
  pose proof Hkept as (Hsts & _ & _ & Hfilled).
  destruct (naive_columns_ok Hcosts Haccepted columns Hwf n k Hsts)
    as (src & column' & labels' & Hseg & _ & Hlab' & _ & Hok).
  { intros j Hj. apply Hfilled. lia. }
  rewrite Hlab in Hlab'. injection Hlab' as <-.
  rewrite Forall_forall in Hok. specialize (Hok l Hl). rewrite <- Hst.
  exists src, (LabelTemplate.costsofar l). rewrite Hst at 1.
  split; [done|]. split; [done|]. exact Hok.
Qed.

Lemma naive_cost_is_least_witness :
  exists n : NaiveViterbiSearch.t,
    @NaiveViterbiSearch.SearchWinner Scenario.duplicate_costs Scenario.no_tie_break false 2
      (NaiveViterbiSearch.create Scenario.duplicate_columns) = Ok (4, n)
    /\ @NaiveViterbiSearch.AccumulatedCost false (id Scenario.dup_u) n = Ok (Fin 7)
    /\ exists src c,
         @seg Scenario.duplicate_costs (concat Scenario.duplicate_columns) (N.of_nat 2) src
         /\ @NaiveViterbiSearch.AccumulatedCost false (id Scenario.dup_u) n = Ok c
         /\ ((c = PosInf
              /\ forall c', ~ @path_to Scenario.duplicate_costs
                                (concat Scenario.duplicate_columns) src Scenario.dup_u c')
             \/ @is_min_cost Scenario.duplicate_costs (concat Scenario.duplicate_columns) src
                  Scenario.dup_u c).
Proof.
  eexists. split; [vm_compute; reflexivity|]. split; [vm_compute; reflexivity|].
  apply (naive_cost_is_least Scenario.duplicate_costs Scenario.no_tie_break
           Scenario.duplicate_columns _ 2 [Scenario.dup_u]).
  - apply sum_costs_dijkstra.
  - apply duplicate_costs_accepted.
  - apply duplicate_columns_wf.
  - eapply (naive_reachable_search _ _ 2); [apply naive_reachable_create|vm_compute; reflexivity].
  - vm_compute. lia.
  - reflexivity.
  - apply list_elem_of_singleton. reflexivity.
Defined.

(** X16.  With minimization and under the same conditions, the winner
    the naive engine returns for a time within the trellis is the best
    state of its column: the returned id is absent only when no path from
    [src] arrives at the column; otherwise it is the id of a state of the
    queried time whose accumulated cost is the cost of a path from [src]
    and is at most the cost of every path from [src] to any state of the
    column. *)
Theorem naive_winner_is_best (cm : CostModel) (lo : LabelOrder)
    (columns : list (list State)) (n n' : NaiveViterbiSearch.t) (tm : Time) (r : StateId) :
  dijkstra_costs cm ->
  accepted_by_both cm ->
  wf_trellis columns ->
  naive_reachable false columns n ->
  tm < N.of_nat (length columns) ->
  NaiveViterbiSearch.SearchWinner false tm n = Ok (r, n') ->
  exists src,
    seg (concat columns) tm src
    /\ ((r = kInvalidStateId /\ ~ reach (concat columns) src tm)
        \/ exists w c,
             r = id w
             /\ NaiveViterbiSearch.state r n' = Ok w
             /\ time w = tm
             /\ NaiveViterbiSearch.AccumulatedCost false r n' = Ok c
             /\ path_to (concat columns) src w c
             /\ forall z c',
                  path_to (concat columns) src z c' -> time z = tm ->
                  cost_leb c c' = true).
Proof.
  intros Hcosts Haccepted Hwf Hreach Htm Hs.
  assert (naive_reachable false columns n') as Hreach' by by eapply naive_reachable_search.
  pose proof (naive_reachable_kept false columns n' Hwf Hreach') as Hkept.
  pose proof (naive_reachable_kept false columns n Hwf Hreach) as (Hsts & _).
  apply naive_SearchWinner_answer in Hs as [(Hle & _)|(_ & winner & Hw & ->)];
    [rewrite Hsts in Hle; lia|].
  destruct (naive_winner_least Hcosts Haccepted columns Hwf n' _ _ (naive_kept_inv _ _ Hkept) Hw)
    as (src & column & labels & Hseg & Hcol & Hlab & Hstates & Hok & Hwin).
  rewrite N2Nat.id in Hseg. exists src. split; [done|].
  rewrite Forall_forall in Hok.
  assert (forall z c', path_to (concat columns) src z c' -> time z = tm ->
                       exists lz, lz ∈ labels /\ LabelTemplate.state lz = z
                                  /\ is_min_cost (concat columns) src z
                                       (LabelTemplate.costsofar lz)) as Hlabel.
  { intros z c' Hz Hzt. pose proof (path_to_in_table _ _ _ _ Hz) as Hztab.
    destruct (wf_table_column columns z Hwf Hztab) as (column' & Hcol' & Hzin).
    rewrite Hzt, Hcol in Hcol'. injection Hcol' as <-.
    rewrite <- Hstates in Hzin. apply list_elem_of_fmap in Hzin as (lz & -> & Hlz).
    exists lz. split; [done|]. split; [done|].
    by eapply naive_label_ok_path; [apply Hok|]. }
  pose proof (FindWinner_winner_of false labels) as Hof. rewrite <- Hwin in Hof.
  destruct winner as [w|]; simpl in Hof.
  - right. destruct Hof as (l & (Hl & Hvalid & Hbest) & <-).
    assert (LabelTemplate.state l ∈ column) as Hwin_col.
    { rewrite <- Hstates. apply list_elem_of_fmap. by exists l. }
    destruct (naive_filled_queries false columns n' (N.to_nat tm) column (LabelTemplate.state l)
                Hwf Hkept) as (labels' & l' & Hlab' & _ & Hl' & Hst' & _ & Hstate & _ & Hcost & _);
      [by eapply lookup_lt_Some|done|done|].
    rewrite Hlab in Hlab'. injection Hlab' as <-.
    assert (l' = l) as ->.
    { eapply labels_state_inj; [by eapply wf_column_NoDup|done|done|done|done]. }
    destruct (wf_column_states _ _ _ _ Hwf Hcol Hwin_col) as [_ Hwtm].
    pose proof (naive_label_ok_valid _ _ _ (Hok l Hl) Hvalid) as [Hpath _].
    exists (LabelTemplate.state l), (LabelTemplate.costsofar l). simpl.
    split_and!; [done|done|lia|done|done|].
    intros z c' Hz Hzt. destruct (Hlabel z c' Hz Hzt) as (lz & Hlz & Hlzst & Hmin).
    eapply cost_leb_trans; [|by apply Hmin].
    apply (Hbest lz Hlz). by apply is_min_cost_finite in Hmin as (x & -> & _).
  - left. split; [done|]. intros (z & c' & Hz & Hzt).
    destruct (Hlabel z c' Hz Hzt) as (lz & Hlz & _ & Hmin).
    apply is_min_cost_finite in Hmin as (x & Hx & _); [|done].
    rewrite (Hof lz Hlz) in Hx. done.
Qed.

Lemma naive_winner_is_best_witness :
  exists n : NaiveViterbiSearch.t,
    @NaiveViterbiSearch.SearchWinner Scenario.duplicate_costs Scenario.no_tie_break false 2
      (NaiveViterbiSearch.create Scenario.duplicate_columns) = Ok (4, n)
    /\ exists src,
         @seg Scenario.duplicate_costs (concat Scenario.duplicate_columns) 2 src
         /\ ((4 = kInvalidStateId
              /\ ~ @reach Scenario.duplicate_costs (concat Scenario.duplicate_columns) src 2)
             \/ exists w c,
                  4 = id w
                  /\ NaiveViterbiSearch.state 4 n = Ok w
                  /\ time w = 2
                  /\ @NaiveViterbiSearch.AccumulatedCost false 4 n = Ok c
                  /\ @path_to Scenario.duplicate_costs (concat Scenario.duplicate_columns)
                       src w c
                  /\ forall z c',
                       @path_to Scenario.duplicate_costs (concat Scenario.duplicate_columns)
                         src z c' ->
                       time z = 2 ->
                       cost_leb c c' = true).
Proof.
  eexists. split; [vm_compute; reflexivity|].
  apply (naive_winner_is_best Scenario.duplicate_costs Scenario.no_tie_break
           Scenario.duplicate_columns (NaiveViterbiSearch.create Scenario.duplicate_columns)
           _ 2 4).
  - apply sum_costs_dijkstra.
  - apply duplicate_costs_accepted.
  - apply duplicate_columns_wf.
  - apply naive_reachable_create.
  - vm_compute. reflexivity.
  - vm_compute. reflexivity.
Defined.

(** ** Ties in [FindWinner] *)

Section FirstBest.
Context {A : Type} (better : A -> A -> bool).
Hypothesis better_irrefl : forall a, better a a = false.
Hypothesis better_trans :
  forall a b c, better a b = true -> better b c = true -> better a c = true.
Hypothesis better_neg_trans :
  forall a b c, better a b = true -> better c b = false -> better a c = true.

(** A scan that replaces the element it holds by every strictly better
    one ends with the first of the best elements. *)
Lemma foldl_first_best (rest seen : list A) (best : A) (i : nat) :
  seen !! i = Some best ->
  (forall j a, (j < i)%nat -> seen !! j = Some a -> better best a = true) ->
  (forall a, a ∈ seen -> better a best = false) ->
  let m := foldl (fun best y => if better y best then y else best) best rest in
  exists i',
    (seen ++ rest) !! i' = Some m
    /\ (forall j a, (j < i')%nat -> (seen ++ rest) !! j = Some a -> better m a = true)
    /\ (forall a, a ∈ seen ++ rest -> better a m = false).
Proof.
  revert seen best i. induction rest as [|y rest IH]; intros seen best i Hi Hbefore Hall; simpl.
  { rewrite app_nil_r. by exists i. }
  replace (seen ++ y :: rest) with ((seen ++ [y]) ++ rest) by by rewrite <- app_assoc.
  destruct (better y best) eqn:Hy.
  - apply (IH (seen ++ [y]) y (length seen)).
    + rewrite lookup_app_r by lia. by rewrite Nat.sub_diag.
    + intros j a Hj Ha. rewrite lookup_app_l in Ha by lia.
      apply (better_neg_trans y best a Hy). apply Hall. by eapply list_elem_of_lookup_2.
    + intros a [Ha| ->%list_elem_of_singleton]%elem_of_app; [|done].
      destruct (better a y) eqn:Hay; [|done].
      rewrite <- (Hall a Ha). symmetry. by eapply better_trans.
  - apply (IH (seen ++ [y]) best i).
    + by apply lookup_app_l_Some.
    + intros j a Hj Ha. apply (Hbefore j a Hj).
      apply lookup_lt_Some in Hi. by rewrite lookup_app_l in Ha by lia.
    + intros a [Ha| ->%list_elem_of_singleton]%elem_of_app; [by apply Hall|done].
Qed.

End FirstBest.

Lemma min_element_first {A : Type} (lt : A -> A -> bool) (l : list A) (m : A) :
  (forall a, lt a a = false) ->
  (forall a b c, lt a b = true -> lt b c = true -> lt a c = true) ->
  (forall a b c, lt a b = true -> lt c b = false -> lt a c = true) ->
  min_element lt l = Some m ->
  exists i,
    l !! i = Some m
    /\ (forall j a, (j < i)%nat -> l !! j = Some a -> lt m a = true)
    /\ (forall a, a ∈ l -> lt a m = false).
Proof.
  intros Hirrefl Htrans Hneg. destruct l as [|x l]; [done|]. simpl. intros [= <-].
  apply (foldl_first_best lt Hirrefl Htrans Hneg l [x] x 0%nat); [done|lia|].
  by intros a ->%list_elem_of_singleton.
Qed.

Lemma max_element_first {A : Type} (lt : A -> A -> bool) (l : list A) (m : A) :
  (forall a, lt a a = false) ->
  (forall a b c, lt a b = true -> lt b c = true -> lt a c = true) ->
  (forall a b c, lt b a = true -> lt b c = false -> lt c a = true) ->
  max_element lt l = Some m ->
  exists i,
    l !! i = Some m
    /\ (forall j a, (j < i)%nat -> l !! j = Some a -> lt a m = true)
    /\ (forall a, a ∈ l -> lt m a = false).
Proof.
  intros Hirrefl Htrans Hneg. destruct l as [|x l]; [done|]. simpl. intros [= <-].
  assert (forall a b c, lt b a = true -> lt c b = true -> lt c a = true) as Htrans'
    by (intros a b c Hab Hbc; by eapply Htrans).
  apply (foldl_first_best (fun a b => lt b a) Hirrefl Htrans' Hneg l [x] x 0%nat); [done|lia|].
  by intros a ->%list_elem_of_singleton.
Qed.

(** X17.  [FindWinner] breaks ties by position, for both polarities: its
    winner is the state of the first label of best cost.  That label has a
    valid cost, no label of the column has a strictly better cost, and
    every label before it has a strictly worse cost. *)
Theorem FindWinner_takes_first_best (Maximize : bool) (labels : list Label) (w : State) :
  NaiveViterbiSearch.FindWinner Maximize labels = Some w ->
  exists i l,
    labels !! i = Some l
    /\ LabelTemplate.state l = w
    /\ LabelTemplate.costsofar l <> NaiveViterbiSearch.kInvalidCost Maximize
    /\ (forall l', l' ∈ labels ->
                   at_least_as_good Maximize (LabelTemplate.costsofar l)
                     (LabelTemplate.costsofar l') = true)
    /\ (forall j l', (j < i)%nat -> labels !! j = Some l' ->
                     at_least_as_good Maximize (LabelTemplate.costsofar l')
                       (LabelTemplate.costsofar l) = false).
Proof.
  unfold NaiveViterbiSearch.FindWinner. intros Hw.
  set (by_cost := fun left right : Label =>
                    cost_ltb (LabelTemplate.costsofar left) (LabelTemplate.costsofar right))
    in *.
  assert (forall a, by_cost a a = false) as Hirrefl by (intros a; apply cost_ltb_irrefl).
  assert (forall a b c, by_cost a b = true -> by_cost b c = true -> by_cost a c = true)
    as Htrans by (intros a b c; apply cost_ltb_trans).
  destruct (if Maximize then max_element by_cost labels else min_element by_cost labels)
    as [m|] eqn:Hm; [|done].
  destruct (cost_eqb (LabelTemplate.costsofar m) (NaiveViterbiSearch.kInvalidCost Maximize))
    eqn:Hinv; [done|].
  injection Hw as <-.
  assert (LabelTemplate.costsofar m <> NaiveViterbiSearch.kInvalidCost Maximize) as Hvalid.
  { intros Heq. apply cost_eqb_eq in Heq. congruence. }
  unfold at_least_as_good, cost_leb. destruct Maximize.
  - apply max_element_first in Hm as (i & Hi & Hbefore & Hall); [|done|done|].
    + exists i, m. split_and!; [done|done|done| |].
      * intros l' Hl'. pose proof (Hall l' Hl') as Hx. unfold by_cost in Hx. by rewrite Hx.
      * intros j l' Hj Hl'. pose proof (Hbefore j l' Hj Hl') as Hx. unfold by_cost in Hx.
        by rewrite Hx.
    + intros a b c Hba Hbc. unfold by_cost in *.
      eapply cost_leb_ltb_trans; [|done]. unfold cost_leb. by rewrite Hbc.
  - apply min_element_first in Hm as (i & Hi & Hbefore & Hall); [|done|done|].
    + exists i, m. split_and!; [done|done|done| |].
      * intros l' Hl'. pose proof (Hall l' Hl') as Hx. unfold by_cost in Hx. by rewrite Hx.
      * intros j l' Hj Hl'. pose proof (Hbefore j l' Hj Hl') as Hx. unfold by_cost in Hx.
        by rewrite Hx.
    + intros a b c Hab Hcb. unfold by_cost in *.
      eapply cost_ltb_leb_trans; [done|]. unfold cost_leb. by rewrite Hcb.
Qed.

Lemma FindWinner_takes_first_best_witness :
  NaiveViterbiSearch.FindWinner false
    [LabelTemplate.mk (Fin 3) Scenario.dup_p None;
     LabelTemplate.mk (Fin 1) Scenario.dup_q None;
     LabelTemplate.mk (Fin 1) Scenario.dup_r None] = Some Scenario.dup_q
  /\ exists i l,
       [LabelTemplate.mk (Fin 3) Scenario.dup_p None;
        LabelTemplate.mk (Fin 1) Scenario.dup_q None;
        LabelTemplate.mk (Fin 1) Scenario.dup_r None] !! i = Some l
       /\ LabelTemplate.state l = Scenario.dup_q
       /\ LabelTemplate.costsofar l <> NaiveViterbiSearch.kInvalidCost false
       /\ (forall l',
             l' ∈ [LabelTemplate.mk (Fin 3) Scenario.dup_p None;
                   LabelTemplate.mk (Fin 1) Scenario.dup_q None;
                   LabelTemplate.mk (Fin 1) Scenario.dup_r None] ->
             at_least_as_good false (LabelTemplate.costsofar l)
               (LabelTemplate.costsofar l') = true)
       /\ (forall j l',
             (j < i)%nat ->
             [LabelTemplate.mk (Fin 3) Scenario.dup_p None;
              LabelTemplate.mk (Fin 1) Scenario.dup_q None;
              LabelTemplate.mk (Fin 1) Scenario.dup_r None] !! j = Some l' ->
             at_least_as_good false (LabelTemplate.costsofar l')
               (LabelTemplate.costsofar l) = false).
Proof.
  split; [reflexivity|].
  apply (FindWinner_takes_first_best false). reflexivity.
Defined.

(** ** Later queries keep the answers *)

(** X18.  What the lazy engine has settled stays.  After a further query
    of an engine reached from a well-formed trellis, every id that had a
    scanned label has the same label, so that [AccumulatedCost],
    [predecessor] and [state] return for it what they returned before. *)
Theorem settled_answers_are_stable (cm : CostModel) (Q : SPQueue) (L : SPQueueLaws Q)
    (s s' : ViterbiSearch.t) (tm : Time) (r i : StateId) (l : Label) :
  reachable s ->
  ViterbiSearch.SearchWinner tm s = Ok (r, s') ->
  ViterbiSearch.scanned_labels_ s !! i = Some l ->
  ViterbiSearch.scanned_labels_ s' !! i = Some l
  /\ ViterbiSearch.AccumulatedCost i s' = ViterbiSearch.AccumulatedCost i s
  /\ ViterbiSearch.predecessor i s' = ViterbiSearch.predecessor i s
  /\ ViterbiSearch.state i s' = ViterbiSearch.state i s.
Proof.
  intros Hreach Hs Hl.
  destruct (SearchWinner_inv _ _ _ _ (reachable_inv s Hreach) Hs) as [_ (Htab & _ & _ & Hsub)].
  assert (ViterbiSearch.scanned_labels_ s' !! i = Some l) as Hl' by by eapply lookup_weaken.
  unfold ViterbiSearch.AccumulatedCost, ViterbiSearch.predecessor, ViterbiSearch.state.
  by rewrite Hl, Hl', Htab.
Qed.

Lemma settled_answers_are_stable_witness :
  exists s1 s2 : ViterbiSearch.t,
    @ViterbiSearch.SearchWinner Scenario.breakage_costs HeapQueue 1 Scenario.breakage
      = Ok (1, s1)
    /\ @ViterbiSearch.SearchWinner Scenario.breakage_costs HeapQueue 2 s1 = Ok (2, s2)
    /\ ViterbiSearch.AccumulatedCost 1 s1 = Fin 0
    /\ ViterbiSearch.AccumulatedCost 1 s2 = ViterbiSearch.AccumulatedCost 1 s1.
Proof.
  eexists _, _. split; [vm_compute; reflexivity|]. split; [vm_compute; reflexivity|].
  split; [vm_compute; reflexivity|].
  eapply (settled_answers_are_stable Scenario.breakage_costs HeapQueue HeapQueue_laws _ _ 2 2 1
            (LabelTemplate.mk (Fin 0) Scenario.b None)).
  - eapply (reachable_search 1 _ 1); [apply breakage_reachable|vm_compute; reflexivity].
  - vm_compute. reflexivity.
  - vm_compute. reflexivity.
Defined.

(** X19.  What the naive engine has answered stays, for either polarity
    and any engine: after a further query, [state], [label],
    [AccumulatedCost] and [predecessor] return every value they returned
    before. *)
Theorem naive_answers_are_stable (cm : CostModel) (lo : LabelOrder) (Maximize : bool)
    (n n' : NaiveViterbiSearch.t) (tm : Time) (r i : StateId) :
  NaiveViterbiSearch.SearchWinner Maximize tm n = Ok (r, n') ->
  (forall st, NaiveViterbiSearch.state i n = Ok st -> NaiveViterbiSearch.state i n' = Ok st)
  /\ (forall st l, NaiveViterbiSearch.label st n = Ok l -> NaiveViterbiSearch.label st n' = Ok l)
  /\ (forall c, NaiveViterbiSearch.AccumulatedCost Maximize i n = Ok c ->
                NaiveViterbiSearch.AccumulatedCost Maximize i n' = Ok c)
  /\ (forall j, NaiveViterbiSearch.predecessor i n = Ok j ->
                NaiveViterbiSearch.predecessor i n' = Ok j).
Proof.
  intros (_ & Hhist & _ & Htab)%naive_SearchWinner_extends.
  assert (forall st, NaiveViterbiSearch.state i n = Ok st ->
                     NaiveViterbiSearch.state i n' = Ok st) as Hstate.
  { intros st. unfold NaiveViterbiSearch.state. by rewrite Htab. }
  assert (forall st l, NaiveViterbiSearch.label st n = Ok l ->
                       NaiveViterbiSearch.label st n' = Ok l) as Hlabel.
  { intros st l. unfold NaiveViterbiSearch.label.
    destruct (NaiveViterbiSearch.history_ n !! N.to_nat (time st)) as [labels|] eqn:Hl; [|done].
    by rewrite (prefix_lookup_Some _ _ _ _ Hl Hhist). }
  split; [done|]. split; [done|].
  unfold NaiveViterbiSearch.AccumulatedCost, NaiveViterbiSearch.predecessor.
  destruct (negb (i =? kInvalidStateId)); [|done]. split.
  - intros c Hc. bind_inv Hc as st Hst. bind_inv Hc as l Hl.
    by rewrite (Hstate st Hst); simpl; rewrite (Hlabel st l Hl).
  - intros j Hj. bind_inv Hj as st Hst. bind_inv Hj as l Hl.
    by rewrite (Hstate st Hst); simpl; rewrite (Hlabel st l Hl).
Qed.

Lemma naive_answers_are_stable_witness :
  exists n2 : NaiveViterbiSearch.t,
    @NaiveViterbiSearch.SearchWinner naive_gap_costs Scenario.no_tie_break false 2
      (NaiveViterbiSearch.mk [[Scenario.a]; [Scenario.b]; [Scenario.c]]
         [Scenario.a; Scenario.b; Scenario.c] [Some Scenario.a]
         [[LabelTemplate.mk (Fin 0) Scenario.a None]]) = Ok (2, n2)
    /\ @NaiveViterbiSearch.AccumulatedCost false 0 n2 = Ok (Fin 0).
Proof.
  eexists. split; [vm_compute; reflexivity|].
  lazymatch goal with
  | |- NaiveViterbiSearch.AccumulatedCost _ _ ?n2 = _ =>
      destruct (naive_answers_are_stable naive_gap_costs Scenario.no_tie_break false
                  (NaiveViterbiSearch.mk [[Scenario.a]; [Scenario.b]; [Scenario.c]]
                     [Scenario.a; Scenario.b; Scenario.c] [Some Scenario.a]
                     [[LabelTemplate.mk (Fin 0) Scenario.a None]]) n2 2 2 0)
        as (_ & _ & Hcost & _); [vm_compute; reflexivity|]
  end.
  apply Hcost. vm_compute. reflexivity.
Defined.

(** ** The cost of a settled state is the cost of a path *)

Section LazyChains.
Import ViterbiSearch.
Context `{CostModel} {Q : SPQueue} `{!SPQueueLaws Q}.

(** The chain of predecessors of a scanned label is a path of the
    trellis, and the cost of the label is the cost of that path. *)
Lemma scanned_chain_is_path s :
  lazy_inv s -> links_inv s ->
  forall (m : nat) i l,
    scanned_labels_ s !! i = Some l ->
    N.to_nat (time (LabelTemplate.state l)) = m ->
    exists x0,
      origin (scanned_labels_ s) l x0
      /\ path_to (state_ s) (time x0) (LabelTemplate.state l) (LabelTemplate.costsofar l).
Proof.
  intros Hinv [_ Hlinks]. induction m as [m IH] using lt_wf_ind. intros i l Hl Hm.
  destruct (inv_scanned s Hinv _ _ Hl) as (_ & _ & Htab & _ & _ & Hpred).
  destruct (Hlinks _ _ Hl) as [He Hlink].
  destruct (LabelTemplate.predecessor l) as [p|] eqn:Hp.
  - destruct Hlink as (Ht & lp & Hlp & Hst & Hcost).
    destruct (Hpred p eq_refl) as (_ & _ & Hptm).
    destruct (IH (N.to_nat (time p)) ltac:(lia) (id p) lp Hlp) as (x0 & Ho & Hpath);
      [by rewrite Hst|].
    exists x0. split; [by eapply origin_step|].
    rewrite Hcost. rewrite Hst in Hpath. apply path_step; [done|done|lia|done|done].
  - exists (LabelTemplate.state l). split; [by apply origin_here|].
    rewrite Hlink. by apply path_start.
Qed.

End LazyChains.

(** X20.  Whatever the cost model, the cost the lazy engine records for
    a settled state is the cost of a path of the trellis: in an engine
    reached from a well-formed trellis, the chain of predecessors of every
    scanned label ends at a state [x0] without predecessor, and
    [AccumulatedCost] of the label's id is the [CostSofar] accumulated
    along a path from the column of [x0] to the label's state over
    emissions and transitions of valid cost. *)
Theorem settled_cost_is_a_path_cost (cm : CostModel) (Q : SPQueue) (L : SPQueueLaws Q)
    (s : ViterbiSearch.t) (i : StateId) (l : Label) :
  reachable s ->
  ViterbiSearch.scanned_labels_ s !! i = Some l ->
  exists x0,
    origin (ViterbiSearch.scanned_labels_ s) l x0
    /\ path_to (ViterbiSearch.state_ s) (time x0) (LabelTemplate.state l)
         (ViterbiSearch.AccumulatedCost i s).
Proof.
  intros Hreach Hl.
  destruct (scanned_chain_is_path s (reachable_inv s Hreach) (reachable_links s Hreach)
              _ i l Hl eq_refl) as (x0 & Ho & Hpath).
  exists x0. unfold ViterbiSearch.AccumulatedCost. by rewrite Hl.
Qed.

Lemma settled_cost_is_a_path_cost_witness :
  exists (s' : ViterbiSearch.t) (l : Label),
    @ViterbiSearch.SearchWinner Scenario.duplicate_costs KeyedQueue 2
      (ViterbiSearch.create Scenario.duplicate_columns) = Ok (4, s')
    /\ ViterbiSearch.scanned_labels_ s' !! 4 = Some l
    /\ ViterbiSearch.AccumulatedCost 4 s' = Fin 7
    /\ exists x0,
         @origin (ViterbiSearch.scanned_labels_ s') l x0
         /\ @path_to Scenario.duplicate_costs (ViterbiSearch.state_ s') (time x0)
              (LabelTemplate.state l) (ViterbiSearch.AccumulatedCost 4 s').
Proof.
  eexists _, _. split; [vm_compute; reflexivity|]. split; [vm_compute; reflexivity|].
  split; [vm_compute; reflexivity|].
  apply (settled_cost_is_a_path_cost Scenario.duplicate_costs KeyedQueue KeyedQueue_laws).
  - eapply (reachable_search 2 _ 4); [apply duplicate_reachable|vm_compute; reflexivity].
  - vm_compute. reflexivity.
Defined.
